(** * PCI configuration-space cache, bus tree and bus mapping

    A shallow embedding of the configuration-space access functions, the
    capability list ([show_caps]), the passive tree builder ([grow_tree],
    [insert_dev]) with its output ([show_forest]) and the bus-mapping
    mode ([do_map_bus], [map_bridge], [do_map_bridges], [map_bridges]) of
    [lspci.c], together with the presence-mask [config_fetch], the hex
    dump and the EEPROM file functions ([EepromFileLoad],
    [EepromFileSave], [EepFile]) of the h1a_ee main program.

    Conventions.
    - [unsigned int] values are integers of [Z]; the places where the C
      code can wrap around are written with [u32].
    - [byte] values are [Byte.byte]; [byte_val] gives their number.
    - Linked structures become lists: the device list [first_dev] is a
      [list device], a device pointer is the position of the device in that
      list; the bridge chain is a [list bridge] whose head is
      [host_bridge], a bridge pointer is a position in that list.
    - The hardware collaborator ([pci_read_block], [pci_read_word],
      [pci_read_byte] of libpci) is a parameter; so is the EEPROM
      controller behind [eep_read] and [eep_write].
    - Loops and recursions that need not end take a [fuel]; [None] is a
      run that has not ended within it. *)

From Stdlib Require Import ZArith Lia Strings.Byte Strings.Ascii.
From stdpp Require Import base tactics option list numbers sorting strings pretty.

Open Scope Z_scope.

(** ** Machine integers *)

Definition u32 (z : Z) : Z := z mod 2 ^ 32.

Definition byte_val (b : byte) : Z := Z.of_N (Byte.to_N b).

Definition byte_of (z : Z) : byte :=
  default x00 (Byte.of_N (Z.to_N (z mod 256))).

(** ** The hardware collaborator

    [hw_space p pos] is the byte the function [p] holds at offset [pos] of
    its configuration space, [hw_ok p pos len] tells whether a block read
    of [len] bytes at [pos] succeeds. *)

Record pci_dev := {
  domain : Z;
  bus : Z;
  dev : Z;
  func : Z;
}.

Record hardware := {
  hw_space : pci_dev -> Z -> byte;
  hw_ok : pci_dev -> Z -> Z -> bool;
}.

(** The bytes a successful [pci_read_block (p, pos, buf, len)] stores in
    [buf]. *)
Definition read_bytes (hw : hardware) (p : pci_dev) (pos len : Z) : list byte :=
  (fun i : nat => hw_space hw p (pos + Z.of_nat i)) <$> seq 0 (Z.to_nat len).

(** [memcpy] of [bs] into a buffer at offset [pos]. *)
Definition store_block (buf : list byte) (pos : Z) (bs : list byte) : list byte :=
  take (Z.to_nat pos) buf ++ bs ++ drop (Z.to_nat pos + length bs) buf.

(** [memset (mask + pos, v, len)]. *)
Definition memset (mask : list bool) (pos len : Z) (v : bool) : list bool :=
  take (Z.to_nat pos) mask ++ replicate (Z.to_nat len) v
    ++ drop (Z.to_nat pos + Z.to_nat len) mask.

(** A hardware request: offset and length handed to [pci_read_block]. *)
Definition request : Type := Z * Z.

(** ** Constants of libpci's header.h

    The register offsets and codes the program names.  They are declared
    in libpci's [header.h]; the program is read here over any assignment
    of them. *)

Record header_h := {
  PCI_VENDOR_ID : Z;
  PCI_CLASS_DEVICE : Z;
  PCI_HEADER_TYPE : Z;
  PCI_HEADER_TYPE_BRIDGE : Z;
  PCI_HEADER_TYPE_CARDBUS : Z;
  PCI_CLASS_BRIDGE_PCI : Z;
  PCI_PRIMARY_BUS : Z;
  PCI_SECONDARY_BUS : Z;
  PCI_SUBORDINATE_BUS : Z;
  PCI_CB_PRIMARY_BUS : Z;
  PCI_CB_CARD_BUS : Z;
  PCI_CB_SUBORDINATE_BUS : Z;
}.

(** ** lspci.c *)

Module Lspci.

(** *** Configuration space: a fixed array and a prefix counter *)

(** [struct device]; [config] stands for [byte config[256]], [d_dev] for
    the field [dev]. *)
Record device := {
  d_dev : pci_dev;
  config_cnt : Z;
  config : list byte;
}.

Definition config_size : Z := 256.

(** Whether the bytes [pos .. pos+len-1] lie inside [config]. *)
Definition in_config (r : request) : bool :=
  (0 <=? r.1) && (r.1 + r.2 <=? config_size).

(** [config_fetch].  The list holds the requests made to the hardware, the
    boolean is the C result.  A successful read stores its bytes at
    [config + pos] whether or not they fit in the array: the model keeps
    them in the list, and [in_config] tells whether C allowed the store. *)
Definition config_fetch (hw : hardware) (d : device) (pos len : Z)
  : list request * (bool * device) :=
  if u32 (pos + len) <? config_cnt d then ([], (true, d))
  else
    ([(pos, len)],
     if hw_ok hw (d_dev d) pos len then
       (true,
        {| d_dev := d_dev d; config_cnt := config_cnt d;
           config := store_block (config d) pos
                       (read_bytes hw (d_dev d) pos len) |})
     else (false, d)).

Definition conf (d : device) (pos : Z) : Z :=
  byte_val (default x00 (config d !! Z.to_nat pos)).

Definition get_conf_byte (d : device) (pos : Z) : Z := conf d pos.

Definition get_conf_word (d : device) (pos : Z) : Z :=
  Z.lor (conf d pos) (Z.shiftl (conf d (pos + 1)) 8).

Definition get_conf_long (d : device) (pos : Z) : Z :=
  Z.lor (Z.lor (Z.lor (conf d pos) (Z.shiftl (conf d (pos + 1)) 8))
           (Z.shiftl (conf d (pos + 2)) 16))
    (Z.shiftl (conf d (pos + 3)) 24).

(** [scan_device]: [Filtered] is the NULL result, [Died] the call of
    [die]. *)
Inductive scanned : Type :=
  | Filtered
  | Died
  | Scanned (d : device).

Definition scan_device (H : header_h) (hw : hardware)
    (filter_match : pci_dev -> bool) (p : pci_dev) : scanned :=
  if negb (filter_match p) then Filtered
  else if negb (hw_ok hw p 0 64) then Died
  else
    let c0 := store_block (replicate 256 x00) 0 (read_bytes hw p 0 64) in
    let d0 := {| d_dev := p; config_cnt := 64; config := c0 |} in
    if Z.land (conf d0 (PCI_HEADER_TYPE H)) 127 =? PCI_HEADER_TYPE_CARDBUS H then
      if negb (hw_ok hw p 64 64) then Died
      else Scanned {| d_dev := p; config_cnt := 128;
                      config := store_block c0 64 (read_bytes hw p 64 64) |}
    else Scanned d0.

(** [scan_devices]: [devices] is the list [pacc->devices] that
    [pci_scan_bus] leaves; every device [scan_device] returns is put at the
    head of [first_dev].  [None] stands for the call of [die]. *)
Fixpoint scan_onto (H : header_h) (hw : hardware)
    (filter_match : pci_dev -> bool) (devices : list pci_dev)
    (first_dev : list device) : option (list device) :=
  match devices with
  | [] => Some first_dev
  | p :: ps =>
      match scan_device H hw filter_match p with
      | Filtered => scan_onto H hw filter_match ps first_dev
      | Died => None
      | Scanned d => scan_onto H hw filter_match ps (d :: first_dev)
      end
  end.

Definition scan_devices (H : header_h) (hw : hardware)
    (filter_match : pci_dev -> bool) (devices : list pci_dev)
  : option (list device) :=
  scan_onto H hw filter_match devices [].

(** [show_hex_dump]: the ranges of [config] it touches, in order: the
    blocks [config_fetch] hands to [pci_read_block], then one byte per
    [get_conf_byte]. *)
Definition show_hex_dump (show_hex : Z) (hw : hardware) (d : device)
  : list request :=
  let cnt := config_cnt d in
  let '(r1, cnt1, d1) :=
    if 3 <=? show_hex then
      let '(r, (ok, d')) := config_fetch hw d cnt (u32 (256 - cnt)) in
      if ok then
        if 4 <=? show_hex then
          let '(r', (ok', d'')) := config_fetch hw d' 256 (4096 - 256) in
          (r ++ r', (if ok' then 4096 else 256), d'')
        else (r, 256, d')
      else (r, cnt, d')
    else ([], cnt, d) in
  r1 ++ ((fun i : nat => (Z.of_nat i, 1)) <$> seq 0 (Z.to_nat cnt1)).

(** *** Capabilities

    [show_caps] and the printers it calls, as far as they touch the cache:
    the blocks asked of the hardware and the device they leave.  The text
    they print is left out.  The offsets and codes are those of libpci's
    [header.h]. *)

Record caps_h := {
  PCI_STATUS : Z;
  PCI_STATUS_CAP_LIST : Z;
  PCI_CAPABILITY_LIST : Z;
  PCI_CAP_LIST_ID : Z;
  PCI_CAP_LIST_NEXT : Z;
  PCI_CAP_FLAGS : Z;
  PCI_CAP_ID_PM : Z;
  PCI_CAP_ID_AGP : Z;
  PCI_CAP_ID_VPD : Z;
  PCI_CAP_ID_SLOTID : Z;
  PCI_CAP_ID_MSI : Z;
  PCI_CAP_ID_PCIX : Z;
  PCI_CAP_ID_HT : Z;
  PCI_PM_CTRL : Z;
  PCI_PM_SIZEOF : Z;
  PCI_AGP_STATUS : Z;
  PCI_AGP_SIZEOF : Z;
  PCI_MSI_FLAGS_64BIT : Z;
  PCI_MSI_ADDRESS_LO : Z;
  PCI_MSI_DATA_32 : Z;
  PCI_MSI_DATA_64 : Z;
  PCI_HEADER_TYPE_NORMAL : Z;
  PCI_PCIX_STATUS : Z;
  PCI_PCIX_BRIDGE_STATUS : Z;
  PCI_HT_CMD_TYP_HI : Z;
  PCI_HT_CMD_TYP_HI_PRI : Z;
  PCI_HT_CMD_TYP_HI_SEC : Z;
  PCI_HT_PRI_LCTR0 : Z;
  PCI_HT_PRI_SIZEOF : Z;
  PCI_HT_SEC_LCTR : Z;
  PCI_HT_SEC_SIZEOF : Z;
}.

(** How the walk of [show_caps] ends: [where] is 0, or [config_fetch]
    fails ("available only to root"), or the identifier is 0xff ("chain
    broken"). *)
Inductive caps_stop : Type :=
  | EndOfList
  | RootOnly
  | ChainBroken.

(** What [show_caps] leaves: the values [where] takes in the loop, the
    blocks asked of the hardware, how the loop ends, the device. *)
Record caps_out := {
  seen : list Z;
  asked : list request;
  stop : caps_stop;
  after : device;
}.

Section Caps.

Variable H : header_h.
Variable C : caps_h.
Variable hw : hardware.
Variable verbose : Z.

(** A call of [config_fetch] whose result is not looked at, or after
    which the printer only reads. *)
Definition fetch_for (d : device) (pos len : Z) : list request * device :=
  let '(r, (_, d')) := config_fetch hw d pos len in (r, d').

Definition show_pm (d : device) (wh : Z) : list request * device :=
  if verbose <? 2 then ([], d)
  else fetch_for d (wh + PCI_PM_CTRL C) (PCI_PM_SIZEOF C - PCI_PM_CTRL C).

Definition show_agp (d : device) (wh : Z) : list request * device :=
  if verbose <? 2 then ([], d)
  else fetch_for d (wh + PCI_AGP_STATUS C)
         (PCI_AGP_SIZEOF C - PCI_AGP_STATUS C).

Definition show_msi (d : device) (wh cap : Z) : list request * device :=
  if verbose <? 2 then ([], d)
  else
    let is64 := Z.land cap (PCI_MSI_FLAGS_64BIT C) in
    fetch_for d (wh + PCI_MSI_ADDRESS_LO C)
      ((if negb (is64 =? 0) then PCI_MSI_DATA_64 C else PCI_MSI_DATA_32 C)
       + 2 - PCI_MSI_ADDRESS_LO C).

Definition show_pcix_nobridge (d : device) (wh : Z) : list request * device :=
  if verbose <? 2 then ([], d)
  else fetch_for d (wh + PCI_PCIX_STATUS C) 4.

Definition show_pcix_bridge (d : device) (wh : Z) : list request * device :=
  if verbose <? 2 then ([], d)
  else fetch_for d (wh + PCI_PCIX_BRIDGE_STATUS C) 12.

Definition show_pcix (d : device) (wh : Z) : list request * device :=
  let ht := Z.land (get_conf_byte d (PCI_HEADER_TYPE H)) 127 in
  if ht =? PCI_HEADER_TYPE_NORMAL C then show_pcix_nobridge d wh
  else if ht =? PCI_HEADER_TYPE_BRIDGE H then show_pcix_bridge d wh
  else ([], d).

Definition show_ht_pri (d : device) (wh : Z) : list request * device :=
  if verbose <? 2 then ([], d)
  else fetch_for d (wh + PCI_HT_PRI_LCTR0 C)
         (PCI_HT_PRI_SIZEOF C - PCI_HT_PRI_LCTR0 C).

Definition show_ht_sec (d : device) (wh : Z) : list request * device :=
  if verbose <? 2 then ([], d)
  else fetch_for d (wh + PCI_HT_SEC_LCTR C)
         (PCI_HT_SEC_SIZEOF C - PCI_HT_SEC_LCTR C).

Definition show_ht (d : device) (wh cmd : Z) : list request * device :=
  let hi := Z.land cmd (PCI_HT_CMD_TYP_HI C) in
  if hi =? PCI_HT_CMD_TYP_HI_PRI C then show_ht_pri d wh
  else if hi =? PCI_HT_CMD_TYP_HI_SEC C then show_ht_sec d wh
  else ([], d).

(** The [switch (id)] of [show_caps]. *)
Definition show_cap (d : device) (id wh cap : Z) : list request * device :=
  if id =? PCI_CAP_ID_PM C then show_pm d wh
  else if id =? PCI_CAP_ID_AGP C then show_agp d wh
  else if id =? PCI_CAP_ID_VPD C then ([], d)
  else if id =? PCI_CAP_ID_SLOTID C then ([], d)
  else if id =? PCI_CAP_ID_MSI C then show_msi d wh cap
  else if id =? PCI_CAP_ID_PCIX C then show_pcix d wh
  else if id =? PCI_CAP_ID_HT C then show_ht d wh cap
  else ([], d).

(** [while (where) { .. where = next; }], with [wh] for [where]: one
    unit of [fuel] for every turn, [None] for a loop that has not ended
    when the fuel is spent. *)
Fixpoint caps_from (fuel : nat) (wh : Z) (d : device) : option caps_out :=
  if wh =? 0 then
    Some {| seen := []; asked := []; stop := EndOfList; after := d |}
  else
    match fuel with
    | O => None
    | S f =>
        let '(r, (ok, d1)) := config_fetch hw d wh 4 in
        if negb ok then
          Some {| seen := [wh]; asked := r; stop := RootOnly; after := d1 |}
        else
          let id := get_conf_byte d1 (wh + PCI_CAP_LIST_ID C) in
          let next :=
            Z.land (get_conf_byte d1 (wh + PCI_CAP_LIST_NEXT C)) (Z.lnot 3) in
          let cap := get_conf_word d1 (wh + PCI_CAP_FLAGS C) in
          if id =? 255 then
            Some {| seen := [wh]; asked := r; stop := ChainBroken;
                    after := d1 |}
          else
            let '(r2, d2) := show_cap d1 id wh cap in
            match caps_from f next d2 with
            | Some o =>
                Some {| seen := wh :: seen o; asked := r ++ r2 ++ asked o;
                        stop := stop o; after := after o |}
            | None => None
            end
    end.

Definition show_caps (fuel : nat) (d : device) : option caps_out :=
  if negb (Z.land (get_conf_word d (PCI_STATUS C)) (PCI_STATUS_CAP_LIST C) =? 0)
  then
    caps_from fuel
      (Z.land (get_conf_byte d (PCI_CAPABILITY_LIST C)) (Z.lnot 3)) d
  else Some {| seen := []; asked := []; stop := EndOfList; after := d |}.

End Caps.

(** *** Text of the AGP rates *)

(** One turn of the loop of [format_agp_rate]: [buf] is the text between
    [buf] and [c]. *)
Definition agp_rate_step (rate agp3 : Z) (buf : string) (i : Z) : string :=
  if negb (Z.land rate (Z.shiftl 1 i) =? 0) then
    (if String.eqb buf "" then buf else buf +:+ ",")
    +:+ "x" +:+ pretty (Z.shiftl 1 (i + 2 * agp3))
  else buf.

(** [format_agp_rate]: the text left in [buf]. *)
Definition format_agp_rate (rate agp3 : Z) : string :=
  let buf := foldl (agp_rate_step rate agp3) "" [0; 1; 2] in
  if String.eqb buf "" then "<none>" else buf.

(** *** Sorting *)

Definition compare_them (a b : pci_dev) : Z :=
  if domain a <? domain b then -1
  else if domain a >? domain b then 1
  else if bus a <? bus b then -1
  else if bus a >? bus b then 1
  else if dev a <? dev b then -1
  else if dev a >? dev b then 1
  else if func a <? func b then -1
  else if func a >? func b then 1
  else 0.

(** The device list after [sort_them]. *)
Definition sorted_registry (reg : list device) : Prop :=
  StronglySorted (fun a b => compare_them (d_dev a) (d_dev b) <= 0) reg.

(** *** Tree output *)

(** [struct bus]: [bus_devs] is the list [first_dev .. last_dev], each
    device given by its position in the registry. *)
Record bus_t := {
  bus_domain : Z;
  number : Z;
  bus_devs : list nat;
}.

(** [struct bridge].  [child] is the list reached through [child] and then
    [next]; [first_bus] the list reached through [first_bus] and then
    [sibling]; the chain is the list the bridges are kept in. *)
Record bridge := {
  child : list nat;
  first_bus : list bus_t;
  br_domain : Z;
  primary : Z;
  secondary : Z;
  subordinate : Z;
  br_dev : option nat;
}.

Definition host_bridge : bridge :=
  {| child := []; first_bus := []; br_domain := 0;
     primary := u32 (Z.lnot 0); secondary := 0; subordinate := u32 (Z.lnot 0);
     br_dev := None |}.

Definition with_child (f : list nat -> list nat) (b : bridge) : bridge :=
  {| child := f (child b); first_bus := first_bus b; br_domain := br_domain b;
     primary := primary b; secondary := secondary b;
     subordinate := subordinate b; br_dev := br_dev b |}.

Definition with_buses (f : list bus_t -> list bus_t) (b : bridge) : bridge :=
  {| child := child b; first_bus := f (first_bus b); br_domain := br_domain b;
     primary := primary b; secondary := secondary b;
     subordinate := subordinate b; br_dev := br_dev b |}.

Definition is_bus (dom n : Z) (u : bus_t) : bool :=
  (bus_domain u =? dom) && (number u =? n).

(** [find_bus]: the position of the bus in the list of [b]. *)
Fixpoint find_bus_in (l : list bus_t) (dom n : Z) : option nat :=
  match l with
  | [] => None
  | u :: l' => if is_bus dom n u then Some O else S <$> find_bus_in l' dom n
  end.

Definition find_bus (b : bridge) (dom n : Z) : option nat :=
  find_bus_in (first_bus b) dom n.

Definition new_bus (b : bridge) (dom n : Z) : bridge :=
  with_buses (cons {| bus_domain := dom; number := n; bus_devs := [] |}) b.

(** [*bus->last_dev = d; bus->last_dev = &d->next]. *)
Definition append_dev (i : nat) (u : bus_t) : bus_t :=
  {| bus_domain := bus_domain u; number := number u;
     bus_devs := bus_devs u ++ [i] |}.

(** The test of the loop over the children in [insert_dev]. *)
Definition forwards (t : list bridge) (p : pci_dev) (ic : nat) : bool :=
  match t !! ic with
  | Some c => (br_domain c =? domain p) && (secondary c <=? bus p)
              && (bus p <=? subordinate c)
  | None => false
  end.

(** [insert_dev (d, b)] for the device at position [i], with [p] its
    [pci_dev].  The recursion follows child pointers; [fuel] bounds its
    depth and [None] is a descent that does not end. *)
Fixpoint insert_dev (fuel : nat) (i : nat) (p : pci_dev) (ib : nat)
    (t : list bridge) : option (list bridge) :=
  match fuel with
  | O => None
  | S f =>
      match t !! ib with
      | None => None
      | Some b =>
          match find_bus b (domain p) (bus p) with
          | Some k => Some (<[ib := with_buses (alter (append_dev i) k) b]> t)
          | None =>
              match find (forwards t p) (child b) with
              | Some ic => insert_dev f i p ic t
              | None =>
                  Some (<[ib := with_buses (alter (append_dev i) O)
                                  (new_bus b (domain p) (bus p))]> t)
              end
          end
      end
  end.

Section Grow.

Variable H : header_h.

(** The bridge [grow_tree] makes of the device at position [i], if it
    makes one. *)
Definition bridge_of (i : nat) (d : device) : option bridge :=
  let class := get_conf_word d (PCI_CLASS_DEVICE H) in
  let ht := Z.land (get_conf_byte d (PCI_HEADER_TYPE H)) 127 in
  if (class =? PCI_CLASS_BRIDGE_PCI H)
     && ((ht =? PCI_HEADER_TYPE_BRIDGE H) || (ht =? PCI_HEADER_TYPE_CARDBUS H))
  then
    Some (if ht =? PCI_HEADER_TYPE_BRIDGE H then
            {| child := []; first_bus := [];
               br_domain := domain (d_dev d);
               primary := get_conf_byte d (PCI_CB_PRIMARY_BUS H);
               secondary := get_conf_byte d (PCI_CB_CARD_BUS H);
               subordinate := get_conf_byte d (PCI_CB_SUBORDINATE_BUS H);
               br_dev := Some i |}
          else
            {| child := []; first_bus := [];
               br_domain := domain (d_dev d);
               primary := get_conf_byte d (PCI_PRIMARY_BUS H);
               secondary := get_conf_byte d (PCI_SECONDARY_BUS H);
               subordinate := get_conf_byte d (PCI_SUBORDINATE_BUS H);
               br_dev := Some i |})
  else None.

(** Build list of bridges: the chain after the host bridge. *)
Fixpoint build_chain (i : nat) (ds : list device) : list bridge :=
  match ds with
  | [] => []
  | d :: ds' =>
      match bridge_of i d with
      | Some b => b :: build_chain (S i) ds'
      | None => build_chain (S i) ds'
      end
  end.

End Grow.

(** Create a bridge tree: the condition under which [c] (at [ic]) becomes
    [best] for [b] (at [ib]). *)
Definition encloses (ib : nat) (b : bridge) (ic : nat) (c : bridge) : bool :=
  negb (ic =? ib)%nat && ((ic =? 0)%nat || (br_domain b =? br_domain c))
  && (primary b >=? secondary c) && (primary b <=? subordinate c).

Definition span (c : bridge) : Z := u32 (subordinate c - primary c).

Definition improves (t : list bridge) (best : option nat) (c : bridge) : bool :=
  match best ≫= (t !!.) with
  | None => true
  | Some bb => span bb >? span c
  end.

(** The inner loop over the chain, from position [ic] on. *)
Fixpoint choose (t : list bridge) (ib : nat) (b : bridge)
    (cs : list bridge) (ic : nat) (best : option nat) : option nat :=
  match cs with
  | [] => best
  | c :: cs' =>
      choose t ib b cs' (S ic)
        (if encloses ib b ic c && improves t best c then Some ic else best)
  end.

Definition find_best (t : list bridge) (ib : nat) : option nat :=
  match t !! ib with
  | Some b => choose t ib b t O None
  | None => None
  end.

(** [b->next = best->child; best->child = b]. *)
Definition link (t : list bridge) (ib : nat) : list bridge :=
  match find_best t ib with
  | Some p => alter (with_child (cons ib)) p t
  | None => t
  end.

(** Insert secondary bus for each bridge. *)
Definition add_secondary (t : list bridge) (ib : nat) : list bridge :=
  match t !! ib with
  | Some b =>
      match find_bus b (br_domain b) (secondary b) with
      | Some _ => t
      | None => <[ib := new_bus b (br_domain b) (secondary b)]> t
      end
  | None => t
  end.

(** Create bus structs and link devices, from position [i] of the
    registry on. *)
Fixpoint insert_all (fuel : nat) (i : nat) (ds : list device)
    (t : list bridge) : option (list bridge) :=
  match ds with
  | [] => Some t
  | d :: ds' =>
      match insert_dev fuel i (d_dev d) O t with
      | Some t' => insert_all fuel (S i) ds' t'
      | None => None
      end
  end.

(** [grow_tree].  A descent of [insert_dev] that does not come back to a
    bridge passes fewer bridges than the chain has, so the length of the
    chain is fuel enough for every descent that ends. *)
Definition grow_tree (H : header_h) (reg : list device) : option (list bridge) :=
  let t0 := host_bridge :: build_chain H O reg in
  let ixs := seq O (length t0) in
  let t1 := foldl link t0 ixs in
  let t2 := foldl add_secondary t1 ixs in
  insert_all (length t0) O reg t2.

(** The buses of the tree in pre-order: the buses of a bridge, then those
    of its children. *)
Fixpoint preorder (fuel : nat) (t : list bridge) (ib : nat)
  : option (list bus_t) :=
  match fuel with
  | O => None
  | S f =>
      match t !! ib with
      | None => None
      | Some b =>
          match mapM (preorder f t) (child b) with
          | Some below => Some (first_bus b ++ concat below)
          | None => None
          end
      end
  end.

Definition tree_buses (t : list bridge) : option (list bus_t) :=
  preorder (length t) t O.

(** The bridge a bridge hangs below. *)
Definition parent (t : list bridge) (ib : nat) : option nat :=
  fst <$> list_find (fun c => ib ∈ child c) t.

(** *** Tree output: the text *)

(** How a step of the output ends: [PastLine] is a write beyond
    [line[256]], [BadPointer] a null pointer followed. *)
Inductive outcome (A : Type) : Type :=
  | Fine (a : A)
  | PastLine
  | BadPointer.

Arguments Fine {A} a.
Arguments PastLine {A}.
Arguments BadPointer {A}.

Definition then_ {A B : Type} (x : outcome A) (f : A -> outcome B)
  : outcome B :=
  match x with
  | Fine a => f a
  | PastLine => PastLine
  | BadPointer => BadPointer
  end.

Definition and_next {A B : Type} (x : outcome A)
    (f : A -> option (outcome B)) : option (outcome B) :=
  match x with
  | Fine a => f a
  | PastLine => Some PastLine
  | BadPointer => Some BadPointer
  end.

Definition and_after {A B : Type} (x : option (outcome A))
    (f : A -> option (outcome B)) : option (outcome B) :=
  match x with
  | Some r => and_next r f
  | None => None
  end.

(** The array [line], the lines written to [stdout], and the devices
    [show_tree_dev] was called for, in the order of the calls. *)
Record tree_out := {
  line : list ascii;
  printed : list string;
  shown : list nat;
}.

Definition with_line (l : list ascii) (st : tree_out) : tree_out :=
  {| line := l; printed := printed st; shown := shown st |}.

(** [*p = c] at offset [p] of [line]. *)
Definition put (p : Z) (c : ascii) (l : list ascii) : outcome (list ascii) :=
  if p <? 256 then Fine (<[Z.to_nat p := c]> l) else PastLine.

(** [sprintf (p, "%s", s)]: the characters and the terminating zero. *)
Fixpoint sprintf (p : Z) (s : string) (l : list ascii)
  : outcome (list ascii) :=
  match s with
  | EmptyString => put p Ascii.zero l
  | String c s' => then_ (put p c l) (sprintf (p + 1) s')
  end.

(** The digits of [%x], [%02x] and [%04x]: those of the 32-bit value, the
    leading zeros beyond the width [w] dropped. *)
Definition hex_digit (v : Z) : ascii :=
  default "0"%char (String.list_ascii_of_string "0123456789abcdef" !! Z.to_nat v).

Fixpoint strip_zeros (w : nat) (l : list ascii) : list ascii :=
  match l with
  | [] => []
  | c :: l' =>
      if Ascii.eqb c "0" && (w <? length l)%nat then strip_zeros w l' else l
  end.

Definition hex (w : nat) (n : Z) : string :=
  String.string_of_list_ascii
    (strip_zeros w
       ((fun i => hex_digit (u32 n / 16 ^ i mod 16))
          <$> [7; 6; 5; 4; 3; 2; 1; 0])).

(** What [fputs] writes: the characters before the first zero. *)
Fixpoint fputs (l : list ascii) : list ascii :=
  match l with
  | [] => []
  | c :: l' => if Ascii.eqb c Ascii.zero then [] else c :: fputs l'
  end.

(** The loop of [print_it] over the line just written. *)
Fixpoint blank_line (l : list ascii) : list ascii :=
  match l with
  | [] => []
  | c :: l' =>
      if Ascii.eqb c Ascii.zero then l
      else (if Ascii.eqb c "+" || Ascii.eqb c "|" then "|"%char
            else " "%char) :: blank_line l'
  end.

Definition print_it (st : tree_out) (p : Z) : outcome tree_out :=
  then_ (put p "010"%char (line st)) (fun l1 =>
  then_ (put (p + 1) Ascii.zero l1) (fun l2 =>
  Fine {| line := blank_line l2;
          printed := printed st ++ [String.string_of_list_ascii (fputs l2)];
          shown := shown st |})).

Definition len (s : string) : Z := Z.of_nat (String.length s).

Section Forest.

Variable t : list bridge.
Variable reg : list device.
Variable verbose : Z.
(** The name [pci_lookup_name] gives for a device. *)
Variable pci_lookup_name : pci_dev -> string.

(** [p[0] = c; p[1] = '-'; show_tree_dev (d, line, p+2)]. *)
Definition branch (show_dev : nat -> tree_out -> Z -> option (outcome tree_out))
    (c : ascii) (d : nat) (st : tree_out) (p : Z)
  : option (outcome tree_out) :=
  and_next (then_ (put p c (line st)) (put (p + 1) "-"%char))
    (fun l => show_dev d (with_line l st) (p + 2)).

(** The loop [while (d->next)] of [show_tree_bus] and the call for the
    last device. *)
Fixpoint show_devs
    (show_dev : nat -> tree_out -> Z -> option (outcome tree_out))
    (p : Z) (ds : list nat) (st : tree_out) : option (outcome tree_out) :=
  match ds with
  | [] => Some (Fine st)
  | d :: ds' =>
      match ds' with
      | [] => branch show_dev "\"%char d st p
      | _ :: _ =>
          and_after (branch show_dev "+"%char d st p)
            (show_devs show_dev p ds')
      end
  end.

(** [show_tree_bus]; [show_dev] is [show_tree_dev]. *)
Definition show_tree_bus
    (show_dev : nat -> tree_out -> Z -> option (outcome tree_out))
    (u : bus_t) (st : tree_out) (p : Z) : option (outcome tree_out) :=
  match bus_devs u with
  | [] => Some (print_it st p)
  | [d] => branch show_dev "-"%char d st p
  | ds => show_devs show_dev p ds st
  end.

(** ["[%04x:%02x]-"] after the lead [lead]. *)
Definition bus_label (lead : string) (dom n : Z) : string :=
  lead +:+ "[" +:+ hex 4 dom +:+ ":" +:+ hex 2 n +:+ "]-".

(** [k = p + sprintf (p, ..); show_tree_bus (u, line, k)]. *)
Definition labelled
    (show_dev : nat -> tree_out -> Z -> option (outcome tree_out))
    (lead : string) (u : bus_t) (st : tree_out) (p : Z)
  : option (outcome tree_out) :=
  let s := bus_label lead (bus_domain u) (number u) in
  and_next (sprintf p s (line st))
    (fun l => show_tree_bus show_dev u (with_line l st) (p + len s)).

(** The loop [while (u->sibling)] of [show_tree_bridge] and the call for
    the last bus. *)
Fixpoint show_buses
    (show_dev : nat -> tree_out -> Z -> option (outcome tree_out))
    (p : Z) (us : list bus_t) (st : tree_out) : option (outcome tree_out) :=
  match us with
  | [] => Some (Fine st)
  | u :: us' =>
      match us' with
      | [] => labelled show_dev "\-" u st p
      | _ :: _ =>
          and_after (labelled show_dev "+-" u st p)
            (show_buses show_dev p us')
      end
  end.

(** [show_tree_bridge]; [is_host] is [b == &host_bridge]. *)
Definition show_tree_bridge
    (show_dev : nat -> tree_out -> Z -> option (outcome tree_out))
    (is_host : bool) (b : bridge) (st : tree_out) (p : Z)
  : option (outcome tree_out) :=
  and_next (put p "-"%char (line st)) (fun l =>
    let p := p + 1 in
    let st := with_line l st in
    match first_bus b with
    | [] => Some BadPointer
    | [u] =>
        if is_host then
          let s := bus_label "" (br_domain b) (number u) in
          and_next (sprintf p s l)
            (fun l' => show_tree_bus show_dev u (with_line l' st) (p + len s))
        else show_tree_bus show_dev u st p
    | us => show_buses show_dev p us st
    end).

(** The text put after the device when it is a bridge. *)
Definition bridge_label (b : bridge) : string :=
  if secondary b =? subordinate b
  then "-[" +:+ hex 4 (br_domain b) +:+ ":" +:+ hex 2 (secondary b) +:+ "]-"
  else "-[" +:+ hex 4 (br_domain b) +:+ ":" +:+ hex 2 (secondary b)
       +:+ "-" +:+ hex 2 (subordinate b) +:+ "]-".

(** [show_tree_dev] for the device at position [i].  The recursion goes
    through [show_tree_bridge]; [fuel] bounds its depth and [None] is a
    recursion deeper than that. *)
Fixpoint show_tree_dev (fuel : nat) (i : nat) (st : tree_out) (p : Z)
  : option (outcome tree_out) :=
  match fuel with
  | O => None
  | S f =>
      match reg !! i with
      | None => Some BadPointer
      | Some d =>
          let q := d_dev d in
          let s := hex 2 (dev q) +:+ "." +:+ hex 1 (func q) in
          and_next (sprintf p s (line st)) (fun l =>
            let p := p + len s in
            let st := {| line := l; printed := printed st;
                         shown := shown st ++ [i] |} in
            match list_find (fun b => bool_decide (br_dev b = Some i)) t with
            | Some (ib, b) =>
                let s2 := bridge_label b in
                and_next (sprintf p s2 l) (fun l2 =>
                  show_tree_bridge (show_tree_dev f) (ib =? 0)%nat b
                    (with_line l2 st) (p + len s2))
            | None =>
                if negb (verbose =? 0) then
                  let s3 := "  " +:+ pci_lookup_name q in
                  Some (then_ (sprintf p s3 l)
                          (fun l3 => print_it (with_line l3 st) (p + len s3)))
                else Some (print_it st p)
            end)
      end
  end.

End Forest.

(** [show_forest]: [line0] is what [line] holds when the function is
    entered.  A bridge is passed at most once on the way down, so the
    length of the chain is fuel enough. *)
Definition show_forest (H : header_h) (reg : list device) (verbose : Z)
    (pci_lookup_name : pci_dev -> string) (line0 : list ascii)
  : option (outcome tree_out) :=
  match grow_tree H reg with
  | None => None
  | Some t =>
      match t !! O with
      | None => Some BadPointer
      | Some b0 =>
          show_tree_bridge
            (show_tree_dev t reg verbose pci_lookup_name (length t))
            true b0 {| line := line0; printed := []; shown := [] |} 0
      end
  end.

(** *** Bus mapping mode *)

(** [struct bus_bridge].  [bug] is not written by [map_bridge]: [None] is
    the byte [xmalloc] left there. *)
Record bus_bridge := {
  this : Z;
  bb_dev : Z;
  bb_func : Z;
  first : Z;
  last : Z;
  bug : option Z;
}.

(** [struct bus_info].  [via] points to a [bus_bridge]: the bus that owns
    it and its position in the list of that bus. *)
Record bus_info_t := {
  exists_ : bool;
  guestbook : bool;
  bridges : list bus_bridge;
  via : option (nat * nat);
}.

Definition no_info : bus_info_t :=
  {| exists_ := false; guestbook := false; bridges := []; via := None |}.

Inductive message : Type :=
  | IsBridge (p : pci_dev) (b_this b_first b_last : Z)
  | InvalidPrimary
  | InvalidRange.

Definition map_bridge (bi : bus_info_t) (d : device) (np ns nl : Z)
  : bus_info_t * list message :=
  let p := d_dev d in
  let b_this := get_conf_byte d np in
  let b_first := get_conf_byte d ns in
  let b_last := get_conf_byte d nl in
  ({| exists_ := exists_ bi; guestbook := guestbook bi;
      bridges :=
        {| this := b_this; bb_dev := dev p mod 256; bb_func := func p mod 256;
           first := b_first;
           last := if b_first >? b_last then b_first else b_last;
           bug := None |} :: bridges bi;
      via := via bi |},
   [IsBridge p b_this b_first b_last]
     ++ (if negb (b_this =? bus p) then [InvalidPrimary] else [])
     ++ (if b_first >? b_last then [InvalidRange] else [])).

(** The fields of [struct pci_filter] the program reads, and
    [pci_filter_match] of libpci. *)
Record pci_filter := {
  f_bus : Z;
  f_slot : Z;
  f_func : Z;
  pci_filter_match : pci_dev -> bool;
}.

(** The state of the probe: the table [bus_info], the addresses handed to
    [pci_get_dev] so far, the lines printed by [map_bridge]. *)
Record probe := {
  table : list bus_info_t;
  probed : list pci_dev;
  messages : list message;
}.

Definition pci_read_byte (hw : hardware) (p : pci_dev) (pos : Z) : Z :=
  byte_val (hw_space hw p pos).

Definition pci_read_word (hw : hardware) (p : pci_dev) (pos : Z) : Z :=
  Z.lor (byte_val (hw_space hw p pos))
        (Z.shiftl (byte_val (hw_space hw p (pos + 1))) 8).

Definition set_exists (bi : bus_info_t) : bus_info_t :=
  {| exists_ := true; guestbook := guestbook bi; bridges := bridges bi;
     via := via bi |}.

Section Probe.

Variable H : header_h.
Variable hw : hardware.
Variable filter : pci_filter.

(** The body of the loop over [func] in [do_map_bus]: the new
    [func_limit] and the new state, [None] when [scan_device] dies. *)
Definition map_func (n d f : Z) (func_limit : Z) (s : probe)
  : option (Z * probe) :=
  if (f_func filter <? 0) || (f_func filter =? f) then
    let p := {| domain := 0; bus := n; dev := d; func := f |} in
    let s1 := {| table := table s; probed := probed s ++ [p];
                 messages := messages s |} in
    let vendor := pci_read_word hw p (PCI_VENDOR_ID H) in
    if negb (vendor =? 0) && negb (vendor =? 65535) then
      let limit :=
        if (f =? 0) && negb (Z.land (pci_read_byte hw p (PCI_HEADER_TYPE H)) 128 =? 0)
        then 8 else func_limit in
      let tbl := alter set_exists (Z.to_nat n) (table s1) in
      match scan_device H hw (pci_filter_match filter) p with
      | Died => None
      | Filtered =>
          Some (limit, {| table := tbl; probed := probed s1;
                          messages := messages s1 |})
      | Scanned dv =>
          let ht := Z.land (get_conf_byte dv (PCI_HEADER_TYPE H)) 127 in
          let bi := default no_info (tbl !! Z.to_nat n) in
          let found :=
            if ht =? PCI_HEADER_TYPE_BRIDGE H then
              Some (map_bridge bi dv (PCI_PRIMARY_BUS H) (PCI_SECONDARY_BUS H)
                      (PCI_SUBORDINATE_BUS H))
            else if ht =? PCI_HEADER_TYPE_CARDBUS H then
              Some (map_bridge bi dv (PCI_CB_PRIMARY_BUS H) (PCI_CB_CARD_BUS H)
                      (PCI_CB_SUBORDINATE_BUS H))
            else None in
          match found with
          | Some (bi', msgs) =>
              Some (limit, {| table := <[Z.to_nat n := bi']> tbl;
                              probed := probed s1;
                              messages := messages s1 ++ msgs |})
          | None =>
              Some (limit, {| table := tbl; probed := probed s1;
                              messages := messages s1 |})
          end
      end
    else Some (func_limit, s1)
  else Some (func_limit, s).

(** [for (func = 0; func < func_limit; func++)]; [func_limit] never
    exceeds 8, [k] counts the turns left. *)
Fixpoint map_funcs (k : nat) (n d f : Z) (func_limit : Z) (s : probe)
  : option probe :=
  match k with
  | O => Some s
  | S k' =>
      if f <? func_limit then
        match map_func n d f func_limit s with
        | Some (limit, s') => map_funcs k' n d (f + 1) limit s'
        | None => None
        end
      else Some s
  end.

(** [for (dev = 0; dev < 32; dev++)], from [d] on, [k] turns left. *)
Fixpoint map_devs (k : nat) (n d : Z) (s : probe) : option probe :=
  match k with
  | O => Some s
  | S k' =>
      match (if (f_slot filter <? 0) || (f_slot filter =? d)
             then map_funcs 8 n d 0 1 s else Some s) with
      | Some s' => map_devs k' n (d + 1) s'
      | None => None
      end
  end.

Definition do_map_bus (n : Z) (s : probe) : option probe :=
  map_devs 32 n 0 s.

(** [for (bus = 0; bus < 256; bus++) do_map_bus (bus)]. *)
Fixpoint map_buses (k : nat) (n : Z) (s : probe) : option probe :=
  match k with
  | O => Some s
  | S k' =>
      match do_map_bus n s with
      | Some s' => map_buses k' (n + 1) s'
      | None => None
      end
  end.

(** The probing half of [map_the_bus]. *)
Definition probe_the_bus : option probe :=
  let s0 := {| table := replicate 256 no_info; probed := []; messages := [] |} in
  if f_bus filter >=? 0 then do_map_bus (f_bus filter) s0
  else map_buses 256 0 s0.

End Probe.

(** The state of the walk over the table: the table, and the buses
    [do_map_bridges] was called for, in the order of the calls. *)
Record walk := {
  infos : list bus_info_t;
  entered : list nat;
}.

Definition visited (w : walk) (n : nat) : bool :=
  default false (guestbook <$> infos w !! n).

Definition claims (w : walk) (n : nat) : list bus_bridge :=
  default [] (bridges <$> infos w !! n).

(** [bi->guestbook = 1] at the head of [do_map_bridges (bus, ..)]. *)
Definition enter (n : nat) (w : walk) : walk :=
  {| infos :=
       alter (fun bi => {| exists_ := exists_ bi; guestbook := true;
                           bridges := bridges bi; via := via bi |}) n (infos w);
     entered := entered w ++ [n] |}.

Definition with_bug (v : Z) (b : bus_bridge) : bus_bridge :=
  {| this := this b; bb_dev := bb_dev b; bb_func := bb_func b;
     first := first b; last := last b; bug := Some v |}.

(** [b->bug = v] for the claim at position [k] of bus [n]. *)
Definition set_bug (n k : nat) (v : Z) (w : walk) : walk :=
  {| infos :=
       alter (fun bi => {| exists_ := exists_ bi; guestbook := guestbook bi;
                           bridges := alter (with_bug v) k (bridges bi);
                           via := via bi |}) n (infos w);
     entered := entered w |}.

(** [bus_info[n].via = b]. *)
Definition set_via (n : nat) (b : nat * nat) (w : walk) : walk :=
  {| infos :=
       alter (fun bi => {| exists_ := exists_ bi; guestbook := guestbook bi;
                           bridges := bridges bi; via := Some b |}) n (infos w);
     entered := entered w |}.

(** The body of the loop of [do_map_bridges (n, min, max)] for the claim
    [b], which stands at position [k] in the list of bus [n]; [rec] is the
    recursive call. *)
Definition map_claim (rec : nat -> Z -> Z -> walk -> option walk)
    (n : nat) (min max : Z) (k : nat) (b : bus_bridge) (w : walk)
  : option walk :=
  if visited w (Z.to_nat (first b)) then Some (set_bug n k 1 w)
  else if (first b <? min) || (last b >? max) then Some (set_bug n k 2 w)
  else rec (Z.to_nat (first b)) (first b) (last b)
           (set_via (Z.to_nat (first b)) (n, k) w).

(** The loop over the claims of [n], from the claim at position [k] on. *)
Definition map_claims (rec : nat -> Z -> Z -> walk -> option walk)
    (n : nat) (min max : Z)
  : nat -> list bus_bridge -> walk -> option walk :=
  fix loop (k : nat) (bs : list bus_bridge) (w : walk) : option walk :=
    match bs with
    | [] => Some w
    | b :: bs' =>
        match map_claim rec n min max k b w with
        | Some w' => loop (S k) bs' w'
        | None => None
        end
    end.

(** [do_map_bridges]; [fuel] bounds the depth of the recursion, [None] is
    a recursion deeper than that. *)
Fixpoint do_map_bridges (fuel : nat) (n : nat) (min max : Z) (w : walk)
  : option walk :=
  match fuel with
  | O => None
  | S f =>
      let w1 := enter n w in
      map_claims (do_map_bridges f) n min max O (claims w1 n) w1
  end.

(** The first loop of [map_bridges], from bus [i] on, [k] turns left. *)
Fixpoint map_bridges_from (fuel : nat) (k : nat) (i : nat) (w : walk)
  : option walk :=
  match k with
  | O => Some w
  | S k' =>
      match (if default false (exists_ <$> infos w !! i) && negb (visited w i)
             then do_map_bridges fuel i 0 255 w else Some w) with
      | Some w' => map_bridges_from fuel k' (S i) w'
      | None => None
      end
  end.

Definition map_bridges (fuel : nat) (tbl : list bus_info_t) : option walk :=
  map_bridges_from fuel 256 O {| infos := tbl; entered := [] |}.

(** [map_the_bus]: the probe, then the walk over its table. *)
Definition map_the_bus (H : header_h) (hw : hardware) (filter : pci_filter)
    (fuel : nat) : option walk :=
  match probe_the_bus H hw filter with
  | Some s => map_bridges fuel (table s)
  | None => None
  end.

End Lspci.

(** ** The h1a_ee main program: a growable buffer and a presence mask *)

Module Cache.

(** [struct device], the fields the cache uses. *)
Record device := {
  d_dev : pci_dev;
  config_cached : Z;
  config_bufsize : Z;
  config : list byte;
  present : list bool;
}.

Definition is_present (d : device) (pos : Z) : bool :=
  default false (present d !! Z.to_nat pos).

(** First loop of [config_fetch]: [pos++, len--] while the byte at [pos]
    is cached.  [len] is the loop counter. *)
Fixpoint skip_front (d : device) (pos : Z) (len : nat) : Z * nat :=
  match len with
  | O => (pos, O)
  | S n =>
      if (pos <? config_bufsize d) && is_present d pos
      then skip_front d (pos + 1) n
      else (pos, len)
  end.

(** Second loop: [len--] while the last byte of the range is cached. *)
Fixpoint skip_back (d : device) (pos : Z) (len : nat) : nat :=
  match len with
  | O => O
  | S n =>
      if (u32 (pos + Z.of_nat len) <=? config_bufsize d)
         && is_present d (u32 (pos + Z.of_nat len - 1))
      then skip_back d pos n
      else len
  end.

(** [while (end > size) size *= 2].  After 32 doublings the size has
    wrapped to 0 and the C loop spins for ever: [None]. *)
Fixpoint grow_size (fuel : nat) (fin size : Z) : option Z :=
  if fin >? size then
    match fuel with
    | O => None
    | S n => grow_size n fin (u32 (size * 2))
    end
  else Some size.

(** [xrealloc] of both buffers to [size] bytes; the new part of [present]
    is cleared, the new part of [config] is not initialised (zero here). *)
Definition grow (d : device) (size : Z) : device :=
  {| d_dev := d_dev d; config_cached := config_cached d;
     config_bufsize := size;
     config := config d ++ replicate (Z.to_nat size - length (config d)) x00;
     present := present d
                  ++ replicate (Z.to_nat size - length (present d)) false |}.

(** The device after a successful [pci_read_block (d->dev, pos,
    d->config + pos, len)] followed by [memset (d->present + pos, 1, len)]. *)
Definition fetched (hw : hardware) (d : device) (pos len : Z) : device :=
  {| d_dev := d_dev d; config_cached := config_cached d;
     config_bufsize := config_bufsize d;
     config := store_block (config d) pos (read_bytes hw (d_dev d) pos len);
     present := memset (present d) pos len true |}.

(** [config_fetch]: requests made, then [None] when the growing loop does
    not end, else the C result and the device. *)
Definition config_fetch (hw : hardware) (d : device) (pos len : Z)
  : list request * option (bool * device) :=
  let fin := u32 (pos + len) in
  let '(pos1, len1) := skip_front d pos (Z.to_nat len) in
  let len2 := skip_back d pos1 len1 in
  match len2 with
  | O => ([], Some (true, d))
  | S _ =>
      match (if fin >? config_bufsize d
             then grow d <$> grow_size 32 fin (config_bufsize d)
             else Some d) with
      | None => ([], None)
      | Some d1 =>
          let l := Z.of_nat len2 in
          ([(pos1, l)],
           Some (if hw_ok hw (d_dev d1) pos1 l
                 then (true, fetched hw d1 pos1 l)
                 else (false, d1)))
      end
  end.

(** The mask covers the buffer, and the buffer is not empty. *)
Definition well_formed (d : device) : Prop :=
  0 < config_bufsize d /\ length (present d) = Z.to_nat (config_bufsize d).

(** [scan_device] after its filters: a 256-byte buffer, wholly read and
    wholly marked present; [None] is the NULL result of a failed read. *)
Definition scan_device (hw : hardware) (p : pci_dev) : option device :=
  if hw_ok hw p 0 256 then
    Some {| d_dev := p; config_cached := 256; config_bufsize := 256;
            config := store_block (replicate 256 x00) 0 (read_bytes hw p 0 256);
            present := replicate 256 true |}
  else None.

(** [check_conf_range] and [get_conf_byte]: [None] is the call of [die]
    for a byte that was never read. *)
Fixpoint check_conf_range (d : device) (pos : Z) (len : nat) : bool :=
  match len with
  | O => true
  | S n => is_present d pos && check_conf_range d (pos + 1) n
  end.

Definition get_conf_byte (d : device) (pos : Z) : option Z :=
  if check_conf_range d pos 1
  then Some (byte_val (default x00 (config d !! Z.to_nat pos)))
  else None.

(** [show_hex_dump]: the bytes printed; [None] when [get_conf_byte] dies
    or the buffer cannot grow. *)
Definition show_hex_dump (opt_hex : Z) (hw : hardware) (d : device)
  : option (list Z) :=
  let cnt := config_cached d in
  let fetched :=
    if 3 <=? opt_hex then
      match snd (config_fetch hw d cnt (u32 (256 - cnt))) with
      | None => None
      | Some (ok, d1) =>
          if ok then
            if 4 <=? opt_hex then
              match snd (config_fetch hw d1 256 (4096 - 256)) with
              | None => None
              | Some (ok', d2) => Some ((if ok' then 4096 else 256), d2)
              end
            else Some (256, d1)
          else Some (cnt, d1)
      end
    else Some (cnt, d) in
  match fetched with
  | None => None
  | Some (cnt', d') =>
      mapM (fun i : nat => get_conf_byte d' (Z.of_nat i)) (seq 0 (Z.to_nat cnt'))
  end.

(** The loop of [show_size]: divide by 1024 while the size is a multiple
    of 1024, at most [n] times from suffix [i] on. *)
Fixpoint size_unit (n : nat) (x : Z) (i : nat) : Z * nat :=
  match n with
  | O => (x, i)
  | S n' => if negb (x mod 1024 =? 0) then (x, i)
            else size_unit n' (x / 1024) (S i)
  end.

Definition suffix : list string := [""; "K"; "M"; "G"; "T"].

(** [show_size]: the text printed, empty for a size of 0; [%u] prints the
    size cut to 32 bits. *)
Definition show_size (x : Z) : string :=
  if x =? 0 then ""
  else
    let '(q, i) := size_unit 4 x O in
    " [size=" +:+ pretty (u32 q) +:+ default "" (suffix !! i) +:+ "]".

End Cache.

(** ** The h1a_ee main program: the serial number in the EEPROM image *)

Module Eep.

(** [char SerialNumber[4]]: each [char] is kept as the byte it holds, so
    the conversions between [char] and [uint8_t] change nothing. *)
Record serial := {
  sn0 : Z;
  sn1 : Z;
  sn2 : Z;
  sn3 : Z;
}.

(** [struct eep_options], the fields the serial number passes through;
    [bLoadFile] is only ever given [true] or [false]. *)
Record eep_options := {
  bLoadFile : bool;
  SerialNumber : serial;
  bSerialNumber : bool;
  bIsInit : bool;
}.

Definition with_serial (sn : serial) (o : eep_options) : eep_options :=
  {| bLoadFile := bLoadFile o; SerialNumber := sn;
     bSerialNumber := bSerialNumber o; bIsInit := bIsInit o |}.

Definition with_init (o : eep_options) : eep_options :=
  {| bLoadFile := bLoadFile o; SerialNumber := SerialNumber o;
     bSerialNumber := bSerialNumber o; bIsInit := true |}.

(** An access to [g_pBuffer], the block [malloc] gave: [Outside] is an
    access beyond the end of the block. *)
Inductive access (A : Type) : Type :=
  | Inside (a : A)
  | Outside.

Arguments Inside {A} a.
Arguments Outside {A}.

Definition and_then {A B : Type} (x : access A) (f : A -> access B)
  : access B :=
  match x with
  | Inside a => f a
  | Outside => Outside
  end.

(** [g_pBuffer[k]] read and [g_pBuffer[k] = v]. *)
Definition peek (buf : list Z) (k : Z) : access Z :=
  match buf !! Z.to_nat k with
  | Some b => Inside b
  | None => Outside
  end.

Definition poke (k v : Z) (buf : list Z) : access (list Z) :=
  if k <? Z.of_nat (length buf) then Inside (<[Z.to_nat k := v]> buf)
  else Outside.

(** [(g_pBuffer[i] == 0x42) && (g_pBuffer[i+1] == 0x00)]: the second byte
    is read only when the first is 0x42. *)
Definition at_marker (buf : list Z) (i : Z) : access bool :=
  and_then (peek buf i) (fun b =>
    if b =? 66 then and_then (peek buf (i + 1)) (fun b1 => Inside (b1 =? 0))
    else Inside false).

(** [(i == 2) && (g_pBuffer[i] == 0) && (g_pBuffer[i+1] == 0)]. *)
Definition at_blank (buf : list Z) (i : Z) : access bool :=
  if i =? 2 then
    and_then (peek buf i) (fun b =>
      if b =? 0 then and_then (peek buf (i + 1)) (fun b1 => Inside (b1 =? 0))
      else Inside false)
  else Inside false.

(** The four assignments of [EepromFileLoad], in their order. *)
Definition put_serial (sn : serial) (i : Z) (buf : list Z)
  : access (list Z) :=
  and_then (poke (i + 5) (sn0 sn) buf) (fun b1 =>
  and_then (poke (i + 4) (sn1 sn) b1) (fun b2 =>
  and_then (poke (i + 3) (sn2 sn) b2) (fun b3 =>
  poke (i + 2) (sn3 sn) b3))).

(** The four assignments of [EepromFileSave], in their order. *)
Definition get_serial (i : Z) (buf : list Z) : access serial :=
  and_then (peek buf (i + 5)) (fun a =>
  and_then (peek buf (i + 4)) (fun b =>
  and_then (peek buf (i + 3)) (fun c =>
  and_then (peek buf (i + 2)) (fun d =>
  Inside {| sn0 := a; sn1 := b; sn2 := c; sn3 := d |})))).

(** The loop [for (uint8_t i = 0; i < FileSize; i++)] of [EepromFileLoad],
    entered with [i]; [FileSize] is the length of the block.  [fuel]
    bounds the turns, [None] is a loop that has not ended. *)
Fixpoint load_serial (fuel : nat) (sn : serial) (i : Z) (buf : list Z)
  : option (access (list Z)) :=
  match fuel with
  | O => None
  | S f =>
      if i <? Z.of_nat (length buf) then
        match at_marker buf i with
        | Outside => Some Outside
        | Inside true => Some (put_serial sn i buf)
        | Inside false => load_serial f sn ((i + 1) mod 256) buf
        end
      else Some (Inside buf)
  end.

(** The loop [for (uint8_t i = 0; i < EepSize; i++)] of
    [EepromFileSave]. *)
Fixpoint save_serial (fuel : nat) (o : eep_options) (i : Z) (buf : list Z)
  : option (access eep_options) :=
  match fuel with
  | O => None
  | S f =>
      if i <? Z.of_nat (length buf) then
        match at_marker buf i with
        | Outside => Some Outside
        | Inside true =>
            Some (and_then (get_serial i buf)
                    (fun sn => Inside (with_serial sn o)))
        | Inside false =>
            match at_blank buf i with
            | Outside => Some Outside
            | Inside true => Some (Inside (with_init o))
            | Inside false => save_serial f o ((i + 1) mod 256) buf
            end
        end
      else Some (Inside o)
  end.

(** [EepromFileSave], once the bytes [eeprom] of the device are in
    [g_pBuffer]: what it leaves in [EepOptions].  [malloc] and [fopen] are
    taken to succeed. *)
Definition EepromFileSave (fuel : nat) (o : eep_options) (eeprom : list Z)
  : option (access eep_options) :=
  if negb (bSerialNumber o) && negb (bLoadFile o) then Some (Inside o)
  else if negb (bSerialNumber o) && bLoadFile o
       then save_serial fuel o 0 eeprom
       else Some (Inside o).

(** [EepromFileLoad], once the bytes [file] of the file are in
    [g_pBuffer]: the buffer it goes on to program into the EEPROM. *)
Definition EepromFileLoad (fuel : nat) (o : eep_options) (file : list Z)
  : option (access (list Z)) :=
  if negb (bIsInit o) then load_serial fuel (SerialNumber o) 0 file
  else Some (Inside file).

(** [EepFile]: the options it leaves and, when a file is loaded, the
    buffer that is programmed. *)
Definition EepFile (fuel : nat) (o : eep_options) (eeprom file : list Z)
  : option (access (eep_options * option (list Z))) :=
  if bLoadFile o then
    match (if negb (bSerialNumber o) then EepromFileSave fuel o eeprom
           else Some (Inside o)) with
    | None => None
    | Some Outside => Some Outside
    | Some (Inside o1) =>
        match EepromFileLoad fuel o1 file with
        | None => None
        | Some Outside => Some Outside
        | Some (Inside img) => Some (Inside (o1, Some img))
        end
    end
  else
    match EepromFileSave fuel o eeprom with
    | None => None
    | Some Outside => Some Outside
    | Some (Inside o1) => Some (Inside (o1, None))
    end.

(** *** Programming the EEPROM *)

Inductive status : Type :=
  | EXIT_SUCCESS
  | EEP_FAIL.

(** The EEPROM controller behind [eep_write], [eep_read] and their 16-bit
    forms: [St] is its state, each function takes the block address the
    program passes.  Every call is taken to return. *)
Record eeprom (St : Type) := {
  eep_write : Z -> Z -> St -> St;
  eep_read : Z -> St -> Z * St;
  eep_write_16 : Z -> Z -> St -> St;
  eep_read_16 : Z -> St -> Z * St;
}.

Arguments eep_write {St} _ _ _ _.
Arguments eep_read {St} _ _ _.
Arguments eep_write_16 {St} _ _ _ _.
Arguments eep_read_16 {St} _ _ _.

(** [*(uint32_t * )(g_pBuffer + offset)], on a little-endian machine. *)
Definition word_at (buf : list Z) (offset : Z) : access Z :=
  and_then (peek buf offset) (fun b0 =>
  and_then (peek buf (offset + 1)) (fun b1 =>
  and_then (peek buf (offset + 2)) (fun b2 =>
  and_then (peek buf (offset + 3)) (fun b3 =>
  Inside (b0 + 256 * b1 + 65536 * b2 + 16777216 * b3))))).

(** Where the loop over the 32-bit values ends: [verified] is false after
    a value read back that differs; [calls] lists the block address and
    the value of every write so far. *)
Record loop_end (St : Type) := {
  verified : bool;
  offset : Z;
  four_byte_count : Z;
  loop_eep : St;
  loop_calls : list (Z * Z);
}.

Arguments verified {St} _.
Arguments offset {St} _.
Arguments four_byte_count {St} _.
Arguments loop_eep {St} _.
Arguments loop_calls {St} _.

(** What the programming leaves: the value returned, the state of the
    controller, the writes made. *)
Record written (St : Type) := {
  rc : status;
  eep : St;
  calls : list (Z * Z);
}.

Arguments rc {St} _.
Arguments eep {St} _.
Arguments calls {St} _.

Section Program.

Context {St : Type}.
Variable E : eeprom St.

(** The loop [for (offset = 0, four_byte_count = 0;
    offset < (FileSize & ~0x3); ++four_byte_count, offset += 4)]:
    [four_byte_count] is a [uint8_t], [offset] a [uint32_t]. *)
Fixpoint write_words (fuel : nat) (buf : list Z) (off cnt : Z) (s : St)
    (log : list (Z * Z)) : option (access (loop_end St)) :=
  match fuel with
  | O => None
  | S f =>
      if off <? Z.land (Z.of_nat (length buf)) (u32 (Z.lnot 3)) then
        match word_at buf off with
        | Outside => Some Outside
        | Inside value =>
            let s1 := eep_write E cnt value s in
            let '(v, s2) := eep_read E cnt s1 in
            if negb (v =? value) then
              Some (Inside {| verified := false; offset := off;
                              four_byte_count := cnt; loop_eep := s2;
                              loop_calls := log ++ [(cnt, value)] |})
            else write_words f buf (u32 (off + 4)) ((cnt + 1) mod 256) s2
                   (log ++ [(cnt, value)])
        end
      else Some (Inside {| verified := true; offset := off;
                           four_byte_count := cnt; loop_eep := s;
                           loop_calls := log |})
  end.

(** Write any remaining 16-bit unaligned value.  A value read back that
    differs leaves [rc] as it is. *)
Definition write_rest (buf : list Z) (e : loop_end St)
  : access (written St) :=
  if offset e <? Z.of_nat (length buf) then
    and_then (word_at buf (offset e)) (fun value =>
      let value := Z.lor value 4294901760 in
      let s1 := eep_write_16 E (four_byte_count e) (value mod 65536)
                  (loop_eep e) in
      let '(v, s2) := eep_read_16 E (four_byte_count e) s1 in
      Inside {| rc := EXIT_SUCCESS; eep := s2;
                calls := loop_calls e
                           ++ [(four_byte_count e, value mod 65536)] |})
  else Inside {| rc := EXIT_SUCCESS; eep := loop_eep e;
                 calls := loop_calls e |}.

(** The second half of [EepromFileLoad]: the buffer is programmed into
    the EEPROM. *)
Definition program (fuel : nat) (buf : list Z) (s : St)
  : option (access (written St)) :=
  match write_words fuel buf 0 0 s [] with
  | None => None
  | Some Outside => Some Outside
  | Some (Inside e) =>
      if verified e then Some (write_rest buf e)
      else Some (Inside {| rc := EEP_FAIL; eep := loop_eep e;
                           calls := loop_calls e |})
  end.

(** [EepromFileLoad] as a whole: the search for the marker, then the
    programming. *)
Definition EepromFileLoad_rc (fuel : nat) (o : eep_options) (file : list Z)
    (s : St) : option (access (written St)) :=
  match EepromFileLoad fuel o file with
  | None => None
  | Some Outside => Some Outside
  | Some (Inside img) => program fuel img s
  end.

End Program.

(** An EEPROM that keeps what is written: block [b] holds the last value
    written to it. *)
Definition store_eeprom : eeprom (Z -> Z) :=
  {| eep_write := fun b v s x => if x =? b then v else s x;
     eep_read := fun b s => (s b, s);
     eep_write_16 := fun b v s x => if x =? b then v else s x;
     eep_read_16 := fun b s => (s b mod 65536, s) |}.

End Eep.

(** ** Sample data for the closed examples *)

Definition dev0 : pci_dev := {| domain := 0; bus := 0; dev := 0; func := 0 |}.

(** Hardware whose reads all succeed and give zero bytes. *)
Definition hw_zero : hardware :=
  {| hw_space := fun _ _ => x00; hw_ok := fun _ _ _ => true |}.

(** A device of [lspci.c] as [scan_device] leaves it: the 64 header bytes
    cached. *)
Definition scanned_dev : Lspci.device :=
  {| Lspci.d_dev := dev0; Lspci.config_cnt := 64;
     Lspci.config := replicate 256 x00 |}.

(** A 256-byte cache with nothing present. *)
Definition empty_cache : Cache.device :=
  {| Cache.d_dev := dev0; Cache.config_cached := 0;
     Cache.config_bufsize := 256; Cache.config := replicate 256 x00;
     Cache.present := replicate 256 false |}.

(** An assignment of the constants of [header.h] for the closed examples.
    As the specification says of the two headers, the bridge header and
    the cardbus header keep the three bus numbers at different offsets. *)
Definition sample_header : header_h :=
  {| PCI_VENDOR_ID := 0; PCI_CLASS_DEVICE := 10; PCI_HEADER_TYPE := 14;
     PCI_HEADER_TYPE_BRIDGE := 1; PCI_HEADER_TYPE_CARDBUS := 2;
     PCI_CLASS_BRIDGE_PCI := 1540;
     PCI_PRIMARY_BUS := 24; PCI_SECONDARY_BUS := 25; PCI_SUBORDINATE_BUS := 26;
     PCI_CB_PRIMARY_BUS := 40; PCI_CB_CARD_BUS := 41;
     PCI_CB_SUBORDINATE_BUS := 42 |}.

(** A 256-byte configuration array, zero but for the listed bytes. *)
Definition config_with (bytes : list (Z * Z)) : list byte :=
  foldr (fun pv c => <[Z.to_nat pv.1 := byte_of pv.2]> c)
        (replicate 256 x00) bytes.

(** The identity bytes of a PCI-to-PCI bridge with header type [ht] under
    [sample_header]: vendor 0x10b5, class 0x0604. *)
Definition bridge_ident (ht : Z) : list (Z * Z) :=
  [(0, 181); (1, 16); (10, 4); (11, 6); (14, ht)].

(** A device with a bridge header whose bus numbers are written at the
    offsets of both headers. *)
Definition bridge_dev (p : pci_dev) (pri sec sub : Z) : Lspci.device :=
  {| Lspci.d_dev := p; Lspci.config_cnt := 64;
     Lspci.config :=
       config_with (bridge_ident 1
                      ++ [(24, pri); (25, sec); (26, sub);
                          (40, pri); (41, sec); (42, sub)]) |}.

(** A device that is no bridge: vendor 0x10b5, class 0x0200. *)
Definition plain_dev (p : pci_dev) : Lspci.device :=
  {| Lspci.d_dev := p; Lspci.config_cnt := 64;
     Lspci.config := config_with [(0, 181); (1, 16); (11, 2)] |}.

(** A device with a bridge header that holds 0, 1, 1 at the offsets of the
    bridge header and 9, 9, 9 at those of the cardbus header. *)
Definition split_dev : Lspci.device :=
  {| Lspci.d_dev := {| domain := 0; bus := 0; dev := 1; func := 0 |};
     Lspci.config_cnt := 64;
     Lspci.config :=
       config_with (bridge_ident 1
                      ++ [(24, 0); (25, 1); (26, 1); (40, 9); (41, 9); (42, 9)]) |}.

(** Hardware with one function, at 0:00:01.0, whose configuration space is
    that of [split_dev]. *)
Definition hw_split : hardware :=
  {| hw_space := fun p pos =>
       if (bus p =? 0) && (dev p =? 1) && (func p =? 0) && (0 <=? pos)
       then default x00 (Lspci.config split_dev !! Z.to_nat pos)
       else xff;
     hw_ok := fun _ _ _ => true |}.

(** Hardware with one device, 0:00:02, that has two functions: both give
    vendor 0x10b5 and a header type byte with the multi-function bit. *)
Definition hw_multi : hardware :=
  {| hw_space := fun p pos =>
       if (bus p =? 0) && (dev p =? 2) && (func p <? 2)
       then (if pos =? 14 then x80
             else if pos =? 0 then xb5 else if pos =? 1 then x10 else x00)
       else xff;
     hw_ok := fun _ _ _ => true |}.

(** A line of [map_bridge] names a function of domain 0. *)
Definition from_domain_0 (m : Lspci.message) : Prop :=
  match m with
  | Lspci.IsBridge p _ _ _ => domain p = 0
  | _ => True
  end.

(** What holds of the probe at every point of its loops. *)
Definition domain_0 (s : Lspci.probe) : Prop :=
  Forall (fun p => domain p = 0) (Lspci.probed s)
  /\ Forall from_domain_0 (Lspci.messages s).

(** ** Notions used to state the facts about the tree *)

(** A bridge without its buses: what [grow_tree] fixes before it links
    the devices. *)
Definition frame (b : Lspci.bridge) : Lspci.bridge :=
  Lspci.with_buses (fun _ => []) b.

(** All the buses of the chain, bridge after bridge. *)
Definition buses_of (t : list Lspci.bridge) : list Lspci.bus_t :=
  concat (Lspci.first_bus <$> t).

(** The bus numbers of a chain come from configuration bytes, and its
    head is [host_bridge]. *)
Definition chain_ok (t : list Lspci.bridge) : Prop :=
  exists c0 rest, t = c0 :: rest
    /\ Lspci.primary c0 = 2 ^ 32 - 1 /\ Lspci.secondary c0 = 0
    /\ Lspci.subordinate c0 = 2 ^ 32 - 1
    /\ Forall (fun b => 0 <= Lspci.primary b < 256
                        /\ 0 <= Lspci.subordinate b < 256) rest.

(** Every bridge of the chain hangs directly below its head. *)
Definition flat (t : list Lspci.bridge) : Prop :=
  exists c0 rest, t = c0 :: rest
    /\ Lspci.child c0 = reverse (seq 1 (length rest))
    /\ Forall (fun b => Lspci.child b = []) rest.

(** What linking the device at position [i], of address [p], does to the
    buses: it goes to the tail of a bus of that address, or makes a new
    bus of that address. *)
Definition linked (i : nat) (p : pci_dev) (bs bs' : list Lspci.bus_t) : Prop :=
  (exists X u Y, bs = X ++ u :: Y
      /\ Lspci.is_bus (domain p) (bus p) u = true
      /\ bs' = X ++ Lspci.append_dev i u :: Y)
  \/ (exists X Y, bs = X ++ Y
      /\ bs' = X ++ {| Lspci.bus_domain := domain p; Lspci.number := bus p;
                        Lspci.bus_devs := [i] |} :: Y).

(** The devices of a list of buses, bus after bus. *)
Definition devs_of (bs : list Lspci.bus_t) : list nat :=
  concat (Lspci.bus_devs <$> bs).

(** The devices of a bus stand in the order of the registry, and all come
    before position [n]. *)
Definition bus_in_order (n : nat) (u : Lspci.bus_t) : Prop :=
  StronglySorted lt (Lspci.bus_devs u)
  /\ Forall (fun j => (j < n)%nat) (Lspci.bus_devs u).

(** The devices of a bus have the domain and the bus number of the bus. *)
Definition bus_address (reg : list Lspci.device) (u : Lspci.bus_t) : Prop :=
  Forall (fun j => exists d, reg !! j = Some d
                     /\ domain (Lspci.d_dev d) = Lspci.bus_domain u
                     /\ bus (Lspci.d_dev d) = Lspci.number u)
         (Lspci.bus_devs u).

(** The chain once the bridge tree is created. *)
Definition linked_chain (H : header_h) (reg : list Lspci.device)
  : list Lspci.bridge :=
  Lspci.with_child
    (fun _ => reverse (seq 1 (length (Lspci.build_chain H O reg))))
    Lspci.host_bridge
  :: Lspci.build_chain H O reg.

(** The devices of a bus are sorted by [compare_them]. *)
Definition bus_sorted (reg : list Lspci.device) (u : Lspci.bus_t) : Prop :=
  StronglySorted
    (fun i j => forall a b, reg !! i = Some a -> reg !! j = Some b ->
                  Lspci.compare_them (Lspci.d_dev a) (Lspci.d_dev b) <= 0)
    (Lspci.bus_devs u).

Definition at_address (dom b d f : Z) : pci_dev :=
  {| domain := dom; bus := b; dev := d; func := f |}.

(** The bridge at which the descent of [insert_dev] ends in a flat tree
    for a device of domain [dom] and bus [n]. *)
Definition target (t : list Lspci.bridge) (dom n : Z) : nat :=
  match t !! O with
  | Some c0 =>
      match Lspci.find_bus c0 dom n with
      | Some _ => O
      | None =>
          match find (Lspci.forwards t (at_address dom n 0 0)) (Lspci.child c0) with
          | Some ic => ic
          | None => O
          end
      end
  | None => O
  end.

(** What [insert_dev] does to the bridge at which its descent ends. *)
Definition place (i : nat) (p : pci_dev) (b : Lspci.bridge) : Lspci.bridge :=
  match Lspci.find_bus b (domain p) (bus p) with
  | Some k => Lspci.with_buses (alter (Lspci.append_dev i) k) b
  | None =>
      Lspci.with_buses (alter (Lspci.append_dev i) O)
        (Lspci.new_bus b (domain p) (bus p))
  end.

(** Every bus that holds a device is the bus [insert_dev] finds for the
    address of the bus. *)
Definition settled (t : list Lspci.bridge) : Prop :=
  forall ib b k u,
    t !! ib = Some b -> Lspci.first_bus b !! k = Some u ->
    Lspci.bus_devs u <> [] ->
    target t (Lspci.bus_domain u) (Lspci.number u) = ib
    /\ Lspci.find_bus b (Lspci.bus_domain u) (Lspci.number u) = Some k.

(** The registry of the end-to-end scenario: a bridge 0:00:01.0 from bus 0
    to bus 1, a device 0:00:03.0, a device 0:01:00.0. *)
Definition registry_one_bridge : list Lspci.device :=
  [bridge_dev (at_address 0 0 1 0) 0 1 1;
   plain_dev (at_address 0 0 3 0);
   plain_dev (at_address 0 1 0 0)].

(** Bridges A = [0,255] and B = [10,20] on bus 0, and a bridge C on bus 15
    whose primary bus is 15. *)
Definition registry_nested : list Lspci.device :=
  [bridge_dev (at_address 0 0 1 0) 0 0 255;
   bridge_dev (at_address 0 0 2 0) 0 10 20;
   bridge_dev (at_address 0 15 0 0) 15 16 16].

(** A bridge with secondary 30 and subordinate 20, and a device on
    bus 30. *)
Definition registry_inverted : list Lspci.device :=
  [bridge_dev (at_address 0 0 1 0) 0 30 20;
   plain_dev (at_address 0 30 0 0)].

(** A filter that asks for function 3 of every device. *)
Definition func_3_filter : Lspci.pci_filter :=
  {| Lspci.f_bus := -1; Lspci.f_slot := -1; Lspci.f_func := 3;
     Lspci.pci_filter_match := fun _ => true |}.

(** A filter that keeps the probe on bus 0. *)
Definition bus_0_filter : Lspci.pci_filter :=
  {| Lspci.f_bus := 0; Lspci.f_slot := -1; Lspci.f_func := -1;
     Lspci.pci_filter_match := fun _ => true |}.

(** ** Notions used to state the facts about the walk *)

(** The guestbook flags of the table. *)
Definition marks (w : Lspci.walk) : list bool :=
  Lspci.guestbook <$> Lspci.infos w.

(** The ranges claimed on every bus: what the walk never writes. *)
Definition ranges (w : Lspci.walk) : list (list (Z * Z)) :=
  (fun bi => (fun b => (Lspci.first b, Lspci.last b)) <$> Lspci.bridges bi)
    <$> Lspci.infos w.

Fixpoint count_false (l : list bool) : nat :=
  match l with
  | [] => O
  | m :: l' => (if m then O else 1%nat) + count_false l'
  end.

(** The number of buses not visited yet. *)
Definition unvisited (w : Lspci.walk) : nat := count_false (marks w).

(** Every claimed downstream bus is an entry of the table: with 256
    entries, what the type [byte] of [first] gives. *)
Definition claims_in_table (w : Lspci.walk) : Prop :=
  Forall (Forall (fun r : Z * Z => 0 <= r.1 < Z.of_nat (length (ranges w))))
         (ranges w).

Definition via_of (w : Lspci.walk) (n : nat) : option (nat * nat) :=
  Lspci.infos w !! n ≫= Lspci.via.


(** [w'] is reached from [w] by the walk: the ranges are the same, the
    buses entered in between were not visited before and are visited
    after, each is entered once, no other flag has changed, and the
    buses visited before keep their entry bridge. *)
Definition walked (w w' : Lspci.walk) : Prop :=
  ranges w' = ranges w /\
  exists new,
    Lspci.entered w' = Lspci.entered w ++ new /\ NoDup new /\
    (forall m, m ∈ new ->
       Lspci.visited w m = false /\ Lspci.visited w' m = true) /\
    (forall m, m ∉ new -> Lspci.visited w' m = Lspci.visited w m) /\
    (unvisited w' + length new = unvisited w)%nat /\
    (forall m, Lspci.visited w m = true -> via_of w' m = via_of w m).

(** A claim of the range [lo, hi], as [map_bridge] records it. *)
Definition claim (lo hi : Z) : Lspci.bus_bridge :=
  {| Lspci.this := 0; Lspci.bb_dev := 0; Lspci.bb_func := 0;
     Lspci.first := lo; Lspci.last := hi; Lspci.bug := None |}.

(** A table of 256 buses in which the listed buses exist and own the
    listed claims. *)
Definition table_with (buses : list (nat * list Lspci.bus_bridge))
  : list Lspci.bus_info_t :=
  foldr (fun nb t =>
           <[nb.1 := {| Lspci.exists_ := true; Lspci.guestbook := false;
                        Lspci.bridges := nb.2; Lspci.via := None |}]> t)
        (replicate 256 Lspci.no_info) buses.

(** Two bridges of bus 0 claim bus 5. *)
Definition overlap_table : list Lspci.bus_info_t :=
  table_with [(O, [claim 5 5; claim 5 5]); (5%nat, [])].

(** A bridge of bus 0 claims [10,20]; a bridge of bus 10 claims [5,30]. *)
Definition crossing_table : list Lspci.bus_info_t :=
  table_with [(O, [claim 10 20]); (10%nat, [claim 5 30])].

(** A loop: a bridge of bus 0 claims bus 1, a bridge of bus 1 claims
    bus 0. *)
Definition cyclic_table : list Lspci.bus_info_t :=
  table_with [(O, [claim 1 1]); (1%nat, [claim 0 0])].

Definition start (tbl : list Lspci.bus_info_t) : Lspci.walk :=
  {| Lspci.infos := tbl; Lspci.entered := [] |}.

(** The tags of the claims of a bus. *)
Definition tags (w : Lspci.walk) (n : nat) : list (option Z) :=
  Lspci.bug <$> Lspci.claims w n.

(** The table has 256 entries and every claimed bus number is a byte. *)
Definition byte_table (tbl : list Lspci.bus_info_t) : Prop :=
  length tbl = 256%nat
  /\ Forall (fun bi => Forall (fun b => 0 <= Lspci.first b < 256)
                             (Lspci.bridges bi)) tbl.

(** ** Notions used to state the further facts *)

(** The order of the addresses: by domain, then bus, then device, then
    function. *)
Definition address_lt (a b : pci_dev) : Prop :=
  domain a < domain b
  \/ (domain a = domain b
      /\ (bus a < bus b
          \/ (bus a = bus b
              /\ (dev a < dev b \/ (dev a = dev b /\ func a < func b))))).

(** A function answers the probe: its vendor word is neither 0 nor
    0xffff. *)
Definition answers (H : header_h) (hw : hardware) (p : pci_dev) : Prop :=
  Lspci.pci_read_word hw p (PCI_VENDOR_ID H) <> 0
  /\ Lspci.pci_read_word hw p (PCI_VENDOR_ID H) <> 65535.

(** Bit 7 of the header type byte: the device has several functions. *)
Definition multi_function (H : header_h) (hw : hardware) (p : pci_dev) : Prop :=
  Z.land (Lspci.pci_read_byte hw p (PCI_HEADER_TYPE H)) 128 <> 0.

(** Function 0 of the device of [p]. *)
Definition function_0 (p : pci_dev) : pci_dev :=
  {| domain := domain p; bus := bus p; dev := dev p; func := 0 |}.

(** The address is one the filter fields [bus], [slot] and [func] let
    through; a negative field lets every number through. *)
Definition passes (filter : Lspci.pci_filter) (p : pci_dev) : Prop :=
  (Lspci.f_bus filter < 0 \/ Lspci.f_bus filter = bus p)
  /\ (Lspci.f_slot filter < 0 \/ Lspci.f_slot filter = dev p)
  /\ (Lspci.f_func filter < 0 \/ Lspci.f_func filter = func p).

(** A claim as [map_bridge] leaves it: three bytes, the range in order,
    no tag yet. *)
Definition claim_in_order (b : Lspci.bus_bridge) : Prop :=
  0 <= Lspci.first b <= Lspci.last b /\ Lspci.last b < 256
  /\ 0 <= Lspci.this b < 256 /\ Lspci.bug b = None.

(** The table as the probe hands it to [map_bridges]: 256 entries, no bus
    visited, no bus entered, every claim in order. *)
Definition fresh_table (tbl : list Lspci.bus_info_t) : Prop :=
  length tbl = 256%nat
  /\ Forall (fun bi => Lspci.guestbook bi = false /\ Lspci.via bi = None
                       /\ Forall claim_in_order (Lspci.bridges bi)) tbl.

(** What the probe of some functions of one bus does to the entry of the
    bus: [exists] is set when [ex] holds, the claims [cl] are put in
    front. *)
Definition stamp (ex : bool) (cl : list Lspci.bus_bridge)
    (bi : Lspci.bus_info_t) : Lspci.bus_info_t :=
  {| Lspci.exists_ := Lspci.exists_ bi || ex;
     Lspci.guestbook := Lspci.guestbook bi;
     Lspci.bridges := cl ++ Lspci.bridges bi;
     Lspci.via := Lspci.via bi |}.

(** What holds of the probe between two devices. *)
Definition probe_inv (H : header_h) (hw : hardware) (filter : Lspci.pci_filter)
    (s : Lspci.probe) : Prop :=
  Forall (fun p => domain p = 0 /\ 0 <= bus p /\ 0 <= dev p < 32
                   /\ 0 <= func p < 8 /\ passes filter p
                   /\ (Lspci.f_bus filter < 0 -> bus p < 256)) (Lspci.probed s)
  /\ (forall p, p ∈ Lspci.probed s -> func p <> 0 ->
        function_0 p ∈ Lspci.probed s /\ answers H hw (function_0 p)
        /\ multi_function H hw (function_0 p))
  /\ (forall k bi, Lspci.table s !! k = Some bi ->
        (Lspci.exists_ bi = true <->
         exists p, p ∈ Lspci.probed s /\ Z.to_nat (bus p) = k /\ answers H hw p))
  /\ fresh_table (Lspci.table s).

(** The capability list as the hardware holds it: the pointer kept in the
    capability at [w], and the identifier of that capability. *)
Definition hw_next (C : Lspci.caps_h) (hw : hardware) (p : pci_dev) (w : Z) : Z :=
  Z.land (byte_val (hw_space hw p (w + Lspci.PCI_CAP_LIST_NEXT C))) (Z.lnot 3).

Definition hw_id (C : Lspci.caps_h) (hw : hardware) (p : pci_dev) (w : Z) : Z :=
  byte_val (hw_space hw p (w + Lspci.PCI_CAP_LIST_ID C)).

(** The array of the device has its 256 bytes, and the bytes counted by
    [config_cnt] are those of the hardware: what [scan_device] leaves. *)
Definition cached_header (hw : hardware) (d : Lspci.device) : Prop :=
  length (Lspci.config d) = 256%nat
  /\ 0 <= Lspci.config_cnt d <= 256
  /\ forall i, 0 <= i < Lspci.config_cnt d ->
       Lspci.conf d i = byte_val (hw_space hw (Lspci.d_dev d) i).

(** An assignment of the constants of the capability list for the closed
    examples. *)
Definition sample_caps : Lspci.caps_h :=
  {| Lspci.PCI_STATUS := 6; Lspci.PCI_STATUS_CAP_LIST := 16;
     Lspci.PCI_CAPABILITY_LIST := 52; Lspci.PCI_CAP_LIST_ID := 0;
     Lspci.PCI_CAP_LIST_NEXT := 1; Lspci.PCI_CAP_FLAGS := 2;
     Lspci.PCI_CAP_ID_PM := 1; Lspci.PCI_CAP_ID_AGP := 2;
     Lspci.PCI_CAP_ID_VPD := 3; Lspci.PCI_CAP_ID_SLOTID := 4;
     Lspci.PCI_CAP_ID_MSI := 5; Lspci.PCI_CAP_ID_PCIX := 7;
     Lspci.PCI_CAP_ID_HT := 8;
     Lspci.PCI_PM_CTRL := 4; Lspci.PCI_PM_SIZEOF := 8;
     Lspci.PCI_AGP_STATUS := 4; Lspci.PCI_AGP_SIZEOF := 12;
     Lspci.PCI_MSI_FLAGS_64BIT := 128; Lspci.PCI_MSI_ADDRESS_LO := 4;
     Lspci.PCI_MSI_DATA_32 := 8; Lspci.PCI_MSI_DATA_64 := 12;
     Lspci.PCI_HEADER_TYPE_NORMAL := 0;
     Lspci.PCI_PCIX_STATUS := 4; Lspci.PCI_PCIX_BRIDGE_STATUS := 4;
     Lspci.PCI_HT_CMD_TYP_HI := 57344; Lspci.PCI_HT_CMD_TYP_HI_PRI := 0;
     Lspci.PCI_HT_CMD_TYP_HI_SEC := 8192;
     Lspci.PCI_HT_PRI_LCTR0 := 4; Lspci.PCI_HT_PRI_SIZEOF := 28;
     Lspci.PCI_HT_SEC_LCTR := 4; Lspci.PCI_HT_SEC_SIZEOF := 24 |}.

(** Hardware whose one function has the capability bit in its status
    word, the pointer 0x40 at offset 0x34, and at 0x40 a capability of
    identifier 1 whose pointer is 0x40 again. *)
Definition hw_looping : hardware :=
  {| hw_space := fun _ pos =>
       if pos =? 6 then x10
       else if pos =? 52 then x40
       else if pos =? 64 then x01
       else if pos =? 65 then x40
       else x00;
     hw_ok := fun _ _ _ => true |}.

(** The device [scan_device] makes of it. *)
Definition looping_dev : Lspci.device :=
  {| Lspci.d_dev := dev0; Lspci.config_cnt := 64;
     Lspci.config := store_block (replicate 256 x00) 0
                       (read_bytes hw_looping dev0 0 64) |}.

(** Both buffers of the cache have the size [config_bufsize] says. *)
Definition buffers_ok (d : Cache.device) : Prop :=
  Cache.well_formed d
  /\ length (Cache.config d) = Z.to_nat (Cache.config_bufsize d)
  /\ Cache.config_bufsize d < 2 ^ 32.

(** The byte the cache holds at [i]. *)
Definition cached_byte (d : Cache.device) (i : Z) : Z :=
  byte_val (default x00 (Cache.config d !! Z.to_nat i)).

(** The [exists] flag of bus [n]. *)
Definition exists_of (w : Lspci.walk) (n : nat) : bool :=
  default false (Lspci.exists_ <$> Lspci.infos w !! n).

(** The range of the claim at position [k] of bus [n]. *)
Definition range_at (w : Lspci.walk) (n k : nat) : option (Z * Z) :=
  ranges w !! n ≫= fun l => l !! k.

(** The arguments [min] and [max] of a call of [do_map_bridges] for bus
    [m] lie within the range of the entry bridge of [m], when it has
    one. *)
Definition window_ok (w : Lspci.walk) (m : nat) (lo hi : Z) : Prop :=
  forall n k r, via_of w m = Some (n, k) -> range_at w n k = Some r ->
    r.1 <= lo /\ hi <= r.2.

(** What the walk keeps of the entry bridges: a bus not visited has none;
    an entry bridge stands on a visited bus and its range starts at the
    bus it leads to; the range of an entry bridge lies within the range
    of the entry bridge of the bus it stands on; a bus entered exists or
    has an entry bridge. *)
Definition via_inv (w : Lspci.walk) : Prop :=
  (forall m, Lspci.visited w m = false -> via_of w m = None)
  /\ (forall m n k, via_of w m = Some (n, k) ->
        Lspci.visited w n = true
        /\ exists r, range_at w n k = Some r /\ Z.to_nat r.1 = m)
  /\ (forall c m k n k' r r',
        via_of w c = Some (m, k) -> via_of w m = Some (n, k') ->
        range_at w m k = Some r -> range_at w n k' = Some r' ->
        r'.1 <= r.1 /\ r.2 <= r'.2)
  /\ (forall m, m ∈ Lspci.entered w ->
        exists_of w m = true \/ is_Some (via_of w m)).

(** Every claim of the table has a first bus that is not negative and
    not above its last bus: what [map_bridge] leaves. *)
Definition ranges_in_order (w : Lspci.walk) : Prop :=
  Forall (Forall (fun r : Z * Z => 0 <= r.1 <= r.2)) (ranges w).

(** A bridge of bus 0 claims [1,4], a bridge of bus 1 claims [2,3]; bus 7
    exists and no bridge leads to it. *)
Definition nested_table : list Lspci.bus_info_t :=
  table_with [(O, [claim 1 4]); (1%nat, [claim 2 3]); (2%nat, []);
              (7%nat, [])].

(** 0x42 0x00 stands at [i]. *)
Definition marker (buf : list Z) (i : Z) : Prop :=
  buf !! Z.to_nat i = Some 66 /\ buf !! Z.to_nat (i + 1) = Some 0.

(** The loops over [g_pBuffer] stop at [i] for the marker: 0x42 stands
    at [i], and what follows is 0x00 or the end of the block. *)
Definition stops_at (buf : list Z) (i : Z) : Prop :=
  buf !! Z.to_nat i = Some 66
  /\ (buf !! Z.to_nat (i + 1) = Some 0 \/ buf !! Z.to_nat (i + 1) = None).

(** [i] is the first place where the loops stop for the marker. *)
Definition first_stop (buf : list Z) (i : Z) : Prop :=
  0 <= i /\ stops_at buf i /\ forall j, 0 <= j < i -> ~ stops_at buf j.

(** Offsets 2 and 3 hold zero: an EEPROM that came out of
    initialization. *)
Definition blank (buf : list Z) : Prop :=
  buf !! 2%nat = Some 0 /\ buf !! 3%nat = Some 0.

(** Options of a load without [-n], and sample blocks: an EEPROM with
    the marker at offset 4 and the serial number 0x11223344, a file with
    the marker at offset 2. *)
Definition load_options : Eep.eep_options :=
  {| Eep.bLoadFile := true;
     Eep.SerialNumber := {| Eep.sn0 := 0; Eep.sn1 := 0; Eep.sn2 := 0;
                            Eep.sn3 := 0 |};
     Eep.bSerialNumber := false; Eep.bIsInit := false |}.

Definition sample_eeprom : list Z := [90; 0; 8; 0; 66; 0; 68; 51; 34; 17; 0; 0].

Definition sample_file : list Z := [90; 0; 66; 0; 1; 2; 3; 4; 9; 9].

(** The [k]-th 32-bit value of the buffer, little-endian. *)
Definition word_of (buf : list Z) (k : nat) : Z :=
  default 0 (buf !! (4 * k)%nat)
  + 256 * default 0 (buf !! (4 * k + 1)%nat)
  + 65536 * default 0 (buf !! (4 * k + 2)%nat)
  + 16777216 * default 0 (buf !! (4 * k + 3)%nat).

(** A file of 1028 bytes: 256 values 0x01010101, then 0x02020202. *)
Definition long_file : list Z := replicate 1024 1 ++ [2; 2; 2; 2].

(** The device at position [i] stands on a bus of the bridge at [ib]. *)
Definition on_bus (t : list Lspci.bridge) (ib i : nat) : Prop :=
  exists b u, t !! ib = Some b /\ u ∈ Lspci.first_bus b
              /\ i ∈ Lspci.bus_devs u.

(** The bridge [show_tree_dev] finds for the device at position [d]: the
    first of the chain whose [br_dev] is the device. *)
Definition bridge_for (t : list Lspci.bridge) (d : nat)
  : option (nat * Lspci.bridge) :=
  list_find (fun b => bool_decide (Lspci.br_dev b = Some d)) t.

(** The bridges [show_tree_bridge] is inside, innermost first: the last
    is the host bridge, every other is the bridge found for a device that
    stands on a bus of the next. *)
Fixpoint chain_up (t : list Lspci.bridge) (l : list nat) : Prop :=
  match l with
  | [] => False
  | x :: r =>
      match r with
      | [] => x = O
      | y :: _ =>
          (exists b d, bridge_for t d = Some (x, b) /\ on_bus t y d)
          /\ chain_up t r
      end
  end.

(** The way up from a device: the bridge that owns its bus, then the
    bridges above it, up to the host bridge. *)
Definition path_up (t : list Lspci.bridge) (d : nat) (l : list nat) : Prop :=
  exists x r, l = x :: r /\ on_bus t x d /\ chain_up t l.

(** The way up from [d] passes the bridges [pi]. *)
Definition under (t : list Lspci.bridge) (pi : list nat) (d : nat) : Prop :=
  exists l, path_up t d (l ++ pi).

(** What a call of [show_tree_dev] for [d] shows, [pi] being the bridges
    it is inside: [d], and the devices whose way up passes the bridge
    found for [d]. *)
Definition below_dev (t : list Lspci.bridge) (pi : list nat) (d y : nat)
  : Prop :=
  y = d \/ exists ib b, bridge_for t d = Some (ib, b) /\ under t (ib :: pi) y.

(** A step of the output that ends well has shown, once each, the
    devices of [F], provided none of them was shown before. *)
Definition shows (F : nat -> Prop)
    (run : Lspci.tree_out -> option (Lspci.outcome Lspci.tree_out)) : Prop :=
  forall st st',
    NoDup (Lspci.shown st) -> (forall y, y ∈ Lspci.shown st -> ~ F y) ->
    run st = Some (Lspci.Fine st') ->
    exists new, Lspci.shown st' = Lspci.shown st ++ new /\ NoDup new
                /\ forall y, y ∈ new <-> F y.

(** What [grow_tree] leaves for [show_forest]: every device stands on at
    most one bus and is a device of the registry, every bridge has a
    bus, and the host bridge is the bridge of no device. *)
Definition tree_ok (t : list Lspci.bridge) (reg : list Lspci.device) : Prop :=
  NoDup (devs_of (buses_of t))
  /\ (forall i, i ∈ devs_of (buses_of t) -> is_Some (reg !! i))
  /\ Forall (fun b => Lspci.first_bus b <> []) t
  /\ (exists b0, t !! O = Some b0 /\ Lspci.br_dev b0 = None).

(** A step of the tree output ends, and not on a null pointer. *)
Definition ends_ok {A : Type} (x : option (Lspci.outcome A)) : Prop :=
  exists r, x = Some r /\ r <> Lspci.BadPointer.

(** [n] bridges, the bridge on bus [k] leading to bus [k+1]. *)
Definition deep_registry (n : nat) : list Lspci.device :=
  (fun k => bridge_dev (at_address 0 (Z.of_nat k) 0 0)
              (Z.of_nat k) (Z.of_nat k + 1) (Z.of_nat k + 1)) <$> seq O n.

(** A device on bus 0, and on bus 5 a bridge that leads to bus 5 and a
    device beside it. *)
Definition registry_self : list Lspci.device :=
  [plain_dev (at_address 0 0 0 0);
   bridge_dev (at_address 0 5 0 0) 5 5 5;
   plain_dev (at_address 0 5 1 0)].

(** * Facts *)

(** ** Machine integers *)

Lemma u32_small z : 0 <= z < 2 ^ 32 -> u32 z = z.
Proof. intros Hz. unfold u32. apply Z.mod_small. exact Hz. Qed.

Lemma u32_range z : 0 <= u32 z < 2 ^ 32.
Proof. unfold u32. apply Z.mod_pos_bound. lia. Qed.

Lemma byte_val_range b : 0 <= byte_val b < 256.
Proof.
  unfold byte_val. pose proof (Byte.to_N_bounded b) as Hb. lia.
Qed.

(** ** The presence mask *)

Section CacheFacts.

Import Cache.

Lemma is_present_inside d i :
  well_formed d -> 0 <= i -> is_present d i = true -> i < config_bufsize d.
Proof.
  intros [Hpos Hlen] Hi Hp. unfold is_present in Hp.
  destruct (present d !! Z.to_nat i) as [v|] eqn:E; [|discriminate].
  apply lookup_lt_Some in E. lia.
Qed.

Lemma skip_front_spec d len : forall pos p l,
  skip_front d pos len = (p, l) ->
  p + Z.of_nat l = pos + Z.of_nat len /\ pos <= p /\
  (forall i, pos <= i < p -> is_present d i = true) /\
  (l <> O -> (p <? config_bufsize d) && is_present d p = false).
Proof.
  induction len as [|n IH]; intros pos p l Hs; simpl in Hs.
  - inversion Hs; subst. repeat split; lia.
  - destruct ((pos <? config_bufsize d) && is_present d pos) eqn:E.
    + apply IH in Hs as (Hsum & Hle & Hin & Hstop).
      apply andb_true_iff in E as [_ Epos].
      repeat split; try lia; [|exact Hstop].
      intros i Hi. destruct (Z.eq_dec i pos) as [->|Hne]; [exact Epos|].
      apply Hin. lia.
    + inversion Hs; subst. repeat split; try lia. intros _. exact E.
Qed.

Lemma skip_back_spec d pos len :
  0 <= pos -> pos + Z.of_nat len < 2 ^ 32 ->
  let l := skip_back d pos len in
  (l <= len)%nat /\
  (forall i, pos + Z.of_nat l <= i < pos + Z.of_nat len -> is_present d i = true) /\
  (l <> O -> (pos + Z.of_nat l <=? config_bufsize d)
             && is_present d (pos + Z.of_nat l - 1) = false).
Proof.
  intros Hpos. induction len as [|n IH]; intros Hlen; simpl.
  - repeat split; lia.
  - rewrite !u32_small by lia.
    destruct ((pos + Z.of_nat (S n) <=? config_bufsize d)
              && is_present d (pos + Z.of_nat (S n) - 1)) eqn:E.
    + destruct IH as (Hle & Hin & Hstop); [lia|].
      apply andb_true_iff in E as [_ Elast].
      repeat split; try lia; [|exact Hstop].
      intros i Hi.
      destruct (Z.eq_dec i (pos + Z.of_nat (S n) - 1)) as [->|Hne]; [exact Elast|].
      apply Hin. lia.
    + repeat split; try lia. intros _. exact E.
Qed.

Lemma grow_size_total fin : fin <= 2 ^ 31 ->
  forall fuel size, 0 < size -> fin <= size * 2 ^ Z.of_nat fuel ->
  exists s, grow_size fuel fin size = Some s /\ fin <= s /\ size <= s.
Proof.
  intros Hfin. induction fuel as [|n IH]; intros size Hsize Hreach.
  - exists size. simpl in *. destruct (Z.gtb_spec fin size); [lia|].
    split; [reflexivity|lia].
  - simpl grow_size. destruct (Z.gtb_spec fin size) as [Hgt|Hle].
    + rewrite u32_small by lia.
      destruct (IH (size * 2)) as (s & Hs & H1 & H2); [lia| |].
      * rewrite Nat2Z.inj_succ, Z.pow_succ_r in Hreach by lia. lia.
      * exists s. split; [exact Hs|lia].
    + exists size. split; [reflexivity|lia].
Qed.

(** What [config_fetch] asks of the hardware: nothing when the whole range
    is present, else one block that starts at the first byte of the range
    that is not present and ends with the last one that is not. *)
Lemma config_fetch_requests hw d pos len :
  well_formed d -> 0 <= pos -> 0 <= len -> pos + len <= 2 ^ 31 ->
  (fst (config_fetch hw d pos len) = [] /\
   forall i, pos <= i < pos + len -> is_present d i = true)
  \/ (exists p l,
        fst (config_fetch hw d pos len) = [(p, l)] /\
        pos <= p /\ 0 < l /\ p + l <= pos + len /\
        is_present d p = false /\ is_present d (p + l - 1) = false /\
        forall i, pos <= i < p \/ p + l <= i < pos + len ->
                  is_present d i = true).
Proof.
  intros Hwf Hpos Hlen Hfit. unfold config_fetch.
  destruct (skip_front d pos (Z.to_nat len)) as [p1 l1] eqn:Ef.
  apply skip_front_spec in Ef as (Hsum & Hle & Hin & Hstop).
  rewrite Z2Nat.id in Hsum by lia.
  pose proof (skip_back_spec d p1 l1 ltac:(lia) ltac:(lia)) as (Hl & Hback & Hbstop).
  destruct (skip_back d p1 l1) as [|l2] eqn:Eb.
  - left. split; [reflexivity|]. intros i Hi.
    destruct (Z_lt_dec i p1); [apply Hin; lia | apply Hback; lia].
  - right. exists p1, (Z.of_nat (S l2)).
    assert (Hl1 : l1 <> O) by lia.
    specialize (Hstop Hl1). specialize (Hbstop ltac:(lia)).
    assert (Hp1 : is_present d p1 = false).
    { apply andb_false_iff in Hstop as [Hs|Hs]; [|exact Hs].
      apply Z.ltb_ge in Hs.
      destruct (is_present d p1) eqn:E; [|reflexivity].
      apply is_present_inside in E; [lia|exact Hwf|lia]. }
    assert (Hp2 : is_present d (p1 + Z.of_nat (S l2) - 1) = false).
    { apply andb_false_iff in Hbstop as [Hs|Hs]; [|exact Hs].
      apply Z.leb_gt in Hs.
      destruct (is_present d (p1 + Z.of_nat (S l2) - 1)) eqn:E; [|reflexivity].
      apply is_present_inside in E; [lia|exact Hwf|lia]. }
    split.
    + destruct (u32 (pos + len) >? config_bufsize d) eqn:Eg; [|reflexivity].
      destruct Hwf as [Hsz _].
      destruct (grow_size_total (u32 (pos + len))
                  ltac:(rewrite u32_small; lia) 32%nat (config_bufsize d) Hsz)
        as (s & Hs & _).
      { rewrite u32_small by lia.
        change (2 ^ Z.of_nat 32) with 4294967296. lia. }
      rewrite Hs. reflexivity.
    + repeat split; try lia; try assumption.
      intros i [Hi|Hi]; [apply Hin; lia | apply Hback; lia].
Qed.

End CacheFacts.

Section CacheScenario.

Import Cache.

Lemma is_present_memset (d : device) hw p l i :
  0 <= p -> 0 <= l -> p + l <= config_bufsize d -> well_formed d -> 0 <= i ->
  is_present (fetched hw d p l) i
  = if (p <=? i) && (i <? p + l) then true else is_present d i.
Proof.
  intros Hp Hl Hfit [Hsz Hlen] Hi. unfold is_present, fetched, memset. simpl.
  destruct (Z.leb_spec p i) as [Hpi|Hpi]; simpl.
  - destruct (Z.ltb_spec i (p + l)) as [Hil|Hil].
    + rewrite lookup_app_r by (rewrite length_take; lia).
      rewrite length_take.
      rewrite lookup_app_l by (rewrite length_replicate; lia).
      rewrite lookup_replicate_2 by lia. reflexivity.
    + rewrite lookup_app_r by (rewrite length_take; lia).
      rewrite length_take.
      rewrite lookup_app_r by (rewrite length_replicate; lia).
      rewrite length_replicate, lookup_drop. f_equal. f_equal. lia.
  - rewrite lookup_app_l by (rewrite length_take; lia).
    rewrite lookup_take_lt by lia. reflexivity.
Qed.

Lemma fetched_well_formed (d : device) hw p l :
  0 <= p -> 0 <= l -> p + l <= config_bufsize d -> well_formed d ->
  well_formed (fetched hw d p l).
Proof.
  intros Hp Hl Hfit [Hsz Hlen]. split; [exact Hsz|].
  unfold fetched, memset; simpl.
  rewrite !length_app, length_take, length_replicate, length_drop. lia.
Qed.

(** The result of a fetch that fits in the buffer and whose read succeeds. *)
Lemma config_fetch_result hw d pos len p l :
  0 <= pos -> 0 <= len -> pos + len <= config_bufsize d ->
  config_bufsize d < 2 ^ 32 ->
  fst (config_fetch hw d pos len) = [(p, l)] ->
  hw_ok hw (d_dev d) p l = true ->
  snd (config_fetch hw d pos len) = Some (true, fetched hw d p l).
Proof.
  intros Hpos Hlen Hfit Hsz. unfold config_fetch.
  destruct (skip_front d pos (Z.to_nat len)) as [p1 l1].
  destruct (skip_back d p1 l1) as [|l2]; [discriminate|].
  rewrite u32_small by lia.
  destruct (Z.gtb_spec (pos + len) (config_bufsize d)); [lia|].
  simpl. intros [= <- <-] Hok. rewrite Hok. reflexivity.
Qed.

(** Fetching [0,64) and then [32,96) when none of these bytes is cached. *)
Lemma fetch_64_then_96 hw d :
  well_formed d -> 96 <= config_bufsize d < 2 ^ 31 ->
  (forall i, 0 <= i < 96 -> is_present d i = false) ->
  hw_ok hw (d_dev d) 0 64 = true -> hw_ok hw (d_dev d) 64 32 = true ->
  exists d1 d2,
    config_fetch hw d 0 64 = ([(0, 64)], Some (true, d1)) /\
    config_fetch hw d1 32 64 = ([(64, 32)], Some (true, d2)) /\
    forall i, 0 <= i < 96 -> is_present d2 i = true.
Proof.
  intros Hwf Hsz Habs Hok1 Hok2.
  assert (Hreq1 : fst (config_fetch hw d 0 64) = [(0, 64)]).
  { destruct (config_fetch_requests hw d 0 64 Hwf) as [[_ Hall]|Hone]; try lia.
    - specialize (Hall 0 ltac:(lia)). rewrite Habs in Hall by lia. discriminate.
    - destruct Hone as (p & l & Hreq & Hp & Hl & Hend & _ & _ & Hrest).
      assert (p = 0).
      { destruct (Z.eq_dec p 0); [assumption|].
        specialize (Hrest 0 ltac:(lia)). rewrite Habs in Hrest by lia.
        discriminate. }
      assert (l = 64).
      { destruct (Z.eq_dec l 64); [assumption|].
        specialize (Hrest 63 ltac:(lia)). rewrite Habs in Hrest by lia.
        discriminate. }
      subst. exact Hreq. }
  pose proof (config_fetch_result hw d 0 64 0 64 ltac:(lia) ltac:(lia)
                ltac:(lia) ltac:(lia) Hreq1 Hok1) as Hres1.
  set (d1 := fetched hw d 0 64) in *.
  assert (Hwf1 : well_formed d1) by (apply fetched_well_formed; auto; lia).
  assert (Hp1 : forall i, 0 <= i ->
            is_present d1 i = if (0 <=? i) && (i <? 0 + 64) then true
                              else is_present d i).
  { intros i Hi. apply is_present_memset; auto; lia. }
  assert (Hreq2 : fst (config_fetch hw d1 32 64) = [(64, 32)]).
  { destruct (config_fetch_requests hw d1 32 64 Hwf1) as [[_ Hall]|Hone]; try lia.
    - specialize (Hall 64 ltac:(lia)). rewrite Hp1 in Hall by lia.
      simpl in Hall. rewrite Habs in Hall by lia. discriminate.
    - destruct Hone as (p & l & Hreq & Hp & Hl & Hend & Ha & Hb & Hrest).
      assert (p = 64).
      { destruct (Z_lt_dec p 64) as [Hlt|Hge].
        - rewrite Hp1 in Ha by lia.
          destruct (Z.leb_spec 0 p); [|lia].
          destruct (Z.ltb_spec p (0 + 64)); [|lia]. discriminate.
        - destruct (Z.eq_dec p 64); [assumption|].
          specialize (Hrest 64 ltac:(lia)). rewrite Hp1 in Hrest by lia.
          simpl in Hrest. rewrite Habs in Hrest by lia. discriminate. }
      assert (l = 32).
      { destruct (Z.eq_dec l 32); [assumption|]. subst p.
        specialize (Hrest 95 ltac:(lia)). rewrite Hp1 in Hrest by lia.
        simpl in Hrest. rewrite Habs in Hrest by lia. discriminate. }
      subst. exact Hreq. }
  assert (Hbuf1 : config_bufsize d1 = config_bufsize d) by reflexivity.
  pose proof (config_fetch_result hw d1 32 64 64 32 ltac:(lia) ltac:(lia)
                ltac:(lia) ltac:(lia) Hreq2 Hok2) as Hres2.
  exists d1, (fetched hw d1 64 32). repeat split.
  - rewrite (surjective_pairing (config_fetch hw d 0 64)), Hreq1, Hres1.
    reflexivity.
  - rewrite (surjective_pairing (config_fetch hw d1 32 64)), Hreq2, Hres2.
    reflexivity.
  - intros i Hi. rewrite is_present_memset; auto; try lia.
    destruct ((64 <=? i) && (i <? 64 + 32)) eqn:E; [reflexivity|].
    rewrite Hp1 by lia.
    destruct (Z.leb_spec 0 i); [|lia].
    destruct (Z.ltb_spec i (0 + 64)); [reflexivity|].
    apply andb_false_iff in E as [E|E]; [apply Z.leb_gt in E|apply Z.ltb_ge in E]; lia.
Qed.

End CacheScenario.

(** ** Configuration space of lspci.c *)

Section LspciConfig.

Import Lspci.

Lemma config_fetch_skips hw d pos len :
  u32 (pos + len) < config_cnt d -> fst (config_fetch hw d pos len) = [].
Proof.
  intros Hlt. unfold config_fetch.
  destruct (Z.ltb_spec (u32 (pos + len)) (config_cnt d)); [reflexivity|lia].
Qed.

Lemma config_fetch_whole hw d pos len :
  config_cnt d <= u32 (pos + len) ->
  fst (config_fetch hw d pos len) = [(pos, len)].
Proof.
  intros Hle. unfold config_fetch.
  destruct (Z.ltb_spec (u32 (pos + len)) (config_cnt d)); [lia|reflexivity].
Qed.

Lemma config_fetch_dev hw d pos len :
  d_dev (snd (snd (config_fetch hw d pos len))) = d_dev d
  /\ config_cnt (snd (snd (config_fetch hw d pos len))) = config_cnt d.
Proof.
  unfold config_fetch.
  destruct (u32 (pos + len) <? config_cnt d); simpl; [auto|].
  destruct (hw_ok hw (d_dev d) pos len); simpl; auto.
Qed.

(** The ranges [show_hex_dump] touches under option -xxxx. *)
Lemma show_hex_dump_4 hw d :
  0 <= config_cnt d <= 256 ->
  hw_ok hw (d_dev d) (config_cnt d) (256 - config_cnt d) = true ->
  show_hex_dump 4 hw d
  = (config_cnt d, 256 - config_cnt d) :: (256, 3840)
    :: ((fun i : nat => (Z.of_nat i, 1))
          <$> seq 0 (Z.to_nat (if hw_ok hw (d_dev d) 256 3840 then 4096 else 256))).
Proof.
  intros Hcnt Hok. unfold show_hex_dump.
  change (3 <=? 4) with true. change (4 <=? 4) with true. cbv iota.
  rewrite (u32_small (256 - config_cnt d)) by lia.
  pose proof (config_fetch_whole hw d (config_cnt d) (256 - config_cnt d)) as Hw.
  pose proof (config_fetch_dev hw d (config_cnt d) (256 - config_cnt d)) as [Hd Hc].
  assert (Hres : fst (snd (config_fetch hw d (config_cnt d) (256 - config_cnt d)))
                 = true).
  { unfold config_fetch.
    destruct (u32 (config_cnt d + (256 - config_cnt d)) <? config_cnt d);
      [reflexivity|]. simpl. rewrite Hok. reflexivity. }
  destruct (config_fetch hw d (config_cnt d) (256 - config_cnt d))
    as [r [ok d']]. simpl in Hw, Hd, Hc, Hres. subst ok.
  rewrite Hw by (replace (config_cnt d + (256 - config_cnt d)) with 256 by lia;
                 rewrite u32_small; lia).
  unfold config_fetch. rewrite Hc, Hd.
  change (u32 (256 + (4096 - 256))) with 4096.
  destruct (Z.ltb_spec 4096 (config_cnt d)); [lia|].
  change (4096 - 256) with 3840.
  destruct (hw_ok hw (d_dev d) 256 3840); reflexivity.
Qed.

End LspciConfig.

(** C9 (evaluation of the code).  [show_hex_dump] with [show_hex] = 4
    (option -xxxx) on a device whose header prefix is cached: once the
    rest of the first 256 bytes is read, [config_fetch (d, 256, 4096-256)]
    hands [config + 256] to [pci_read_block] for 3840 bytes, a range
    outside the 256-byte array [config]; and when that read succeeds,
    every [get_conf_byte (d, i)] for 256 <= i < 4096 reads outside it
    too. *)
Theorem show_hex_dump_leaves_config hw (d : Lspci.device) :
  0 <= Lspci.config_cnt d <= 256 ->
  hw_ok hw (Lspci.d_dev d) (Lspci.config_cnt d) (256 - Lspci.config_cnt d) = true ->
  (256, 3840) ∈ Lspci.show_hex_dump 4 hw d /\
  Lspci.in_config (256, 3840) = false /\
  (hw_ok hw (Lspci.d_dev d) 256 3840 = true ->
   forall i, 256 <= i < 4096 ->
     (i, 1) ∈ Lspci.show_hex_dump 4 hw d /\ Lspci.in_config (i, 1) = false).
Proof.
  intros Hcnt Hok.
  rewrite (show_hex_dump_4 hw d Hcnt Hok). split; [|split].
  - rewrite !elem_of_cons. right. left. reflexivity.
  - reflexivity.
  - intros Hok2 i Hi. rewrite Hok2. split.
    + rewrite !elem_of_cons. right. right. apply list_elem_of_fmap.
      exists (Z.to_nat i). split; [f_equal; lia|].
      apply elem_of_seq. lia.
    + unfold Lspci.in_config, Lspci.config_size. simpl.
      apply andb_false_iff. right. apply Z.leb_gt. lia.
Qed.

Lemma show_hex_dump_leaves_config_witness :
  (256, 3840) ∈ Lspci.show_hex_dump 4 hw_zero scanned_dev /\
  Lspci.in_config (256, 3840) = false /\
  (4095, 1) ∈ Lspci.show_hex_dump 4 hw_zero scanned_dev /\
  Lspci.in_config (4095, 1) = false.
Proof.
  destruct (show_hex_dump_leaves_config hw_zero scanned_dev) as (H1 & H2 & H3).
  - simpl. lia.
  - reflexivity.
  - destruct (H3 eq_refl 4095) as [H4 H5]; [lia|].
    exact (conj H1 (conj H2 (conj H4 H5))).
Defined.

(** C6 (as amended).  A fetch asks the hardware for at most one block.
    With the presence mask, the block is the range without its leading and
    trailing present bytes: it starts and ends at a byte that is not
    present, every byte of the range outside it is present, and nothing
    is asked when the whole range is present.  On a device with none of
    [0,96) present, fetching [0,64) and then [32,96) asks for [0,64) and
    then for [64,96) only, and leaves the 96 bytes present when both reads
    succeed.  [lspci.c] keeps a prefix counter and no mask: it asks
    nothing when the range ends below [config_cnt] and asks for the whole
    range when it ends above. *)
Theorem config_fetch_one_block hw (d : Cache.device) (dl : Lspci.device) pos len :
  Cache.well_formed d -> 0 <= pos -> 0 <= len -> pos + len <= 2 ^ 31 ->
  ((fst (Cache.config_fetch hw d pos len) = [] /\
    forall i, pos <= i < pos + len -> Cache.is_present d i = true)
   \/ (exists p l,
         fst (Cache.config_fetch hw d pos len) = [(p, l)] /\
         pos <= p /\ 0 < l /\ p + l <= pos + len /\
         Cache.is_present d p = false /\ Cache.is_present d (p + l - 1) = false /\
         forall i, pos <= i < p \/ p + l <= i < pos + len ->
                   Cache.is_present d i = true))
  /\ (96 <= Cache.config_bufsize d < 2 ^ 31 ->
      (forall i, 0 <= i < 96 -> Cache.is_present d i = false) ->
      hw_ok hw (Cache.d_dev d) 0 64 = true ->
      hw_ok hw (Cache.d_dev d) 64 32 = true ->
      exists d1 d2,
        Cache.config_fetch hw d 0 64 = ([(0, 64)], Some (true, d1)) /\
        Cache.config_fetch hw d1 32 64 = ([(64, 32)], Some (true, d2)) /\
        forall i, 0 <= i < 96 -> Cache.is_present d2 i = true)
  /\ (u32 (pos + len) < Lspci.config_cnt dl ->
      fst (Lspci.config_fetch hw dl pos len) = [])
  /\ (Lspci.config_cnt dl < u32 (pos + len) ->
      fst (Lspci.config_fetch hw dl pos len) = [(pos, len)]).
Proof.
  intros Hwf Hpos Hlen Hfit. split; [|split; [|split]].
  - apply config_fetch_requests; assumption.
  - intros Hsz Habs Hok1 Hok2. apply fetch_64_then_96; assumption.
  - apply config_fetch_skips.
  - intros Hlt. apply config_fetch_whole. lia.
Qed.

Lemma config_fetch_one_block_witness :
  Cache.well_formed empty_cache /\
  (exists d1 d2,
     Cache.config_fetch hw_zero empty_cache 0 64 = ([(0, 64)], Some (true, d1)) /\
     Cache.config_fetch hw_zero d1 32 64 = ([(64, 32)], Some (true, d2)) /\
     forall i, 0 <= i < 96 -> Cache.is_present d2 i = true) /\
  fst (Lspci.config_fetch hw_zero scanned_dev 32 64) = [(32, 64)].
Proof.
  assert (Hwf : Cache.well_formed empty_cache) by (split; [reflexivity|reflexivity]).
  destruct (config_fetch_one_block hw_zero empty_cache scanned_dev 32 64 Hwf)
    as (_ & Hscen & _ & Hold); [lia|lia|lia|].
  split; [exact Hwf|]. split.
  - apply Hscen; [simpl; lia| |reflexivity|reflexivity].
    intros i Hi. unfold Cache.is_present.
    change (Cache.present empty_cache) with (replicate 256%nat false).
    destruct (replicate 256%nat false !! Z.to_nat i) as [v|] eqn:E; [|reflexivity].
    apply lookup_replicate in E as [-> _]. reflexivity.
  - apply Hold. vm_compute. reflexivity.
Defined.

(** C6 (counterexample).  On an empty cache fetch byte 1, then fetch
    [0,3): the second fetch asks the hardware for the three bytes, byte 1
    included, which is present.  In [lspci.c] a fetch of the cached header
    [0,64) asks for all of it again, and a following fetch of [32,96) asks
    for [32,96). *)
Lemma config_fetch_rerequests :
  (Cache.config_fetch hw_zero empty_cache 1 1
   = ([(1, 1)], Some (true, Cache.fetched hw_zero empty_cache 1 1))
   /\ Cache.is_present (Cache.fetched hw_zero empty_cache 1 1) 1 = true
   /\ fst (Cache.config_fetch hw_zero (Cache.fetched hw_zero empty_cache 1 1) 0 3)
      = [(0, 3)])
  /\ (Lspci.config_cnt scanned_dev = 64
      /\ fst (Lspci.config_fetch hw_zero scanned_dev 0 64) = [(0, 64)]
      /\ fst (Lspci.config_fetch hw_zero
                (snd (snd (Lspci.config_fetch hw_zero scanned_dev 0 64))) 32 64)
         = [(32, 64)]).
Proof. vm_compute. repeat split; reflexivity. Qed.

(** ** The bus-mapping probe *)

Section ProbeFacts.

Import Lspci.

Variable H : header_h.
Variable hw : hardware.
Variable filter : pci_filter.

Lemma scan_device_dev fm p d :
  scan_device H hw fm p = Scanned d -> d_dev d = p.
Proof.
  unfold scan_device. intros Hs.
  repeat match type of Hs with
         | (if ?c then _ else _) = _ => destruct c
         end; inversion Hs; reflexivity.
Qed.

Lemma map_bridge_messages bi d np ns nl :
  domain (d_dev d) = 0 ->
  Forall from_domain_0 (snd (map_bridge bi d np ns nl)).
Proof.
  intros Hd. unfold map_bridge. simpl.
  constructor; [exact Hd|].
  apply Forall_app. split.
  - destruct (negb (get_conf_byte d np =? bus (d_dev d)));
      repeat constructor.
  - destruct (get_conf_byte d ns >? get_conf_byte d nl); repeat constructor.
Qed.

Lemma map_func_domain_0 n d f limit s limit' s' :
  domain_0 s -> map_func H hw filter n d f limit s = Some (limit', s') ->
  domain_0 s'.
Proof.
  intros [Hp Hm] Hmap. unfold map_func in Hmap.
  destruct ((f_func filter <? 0) || (f_func filter =? f));
    [|inversion Hmap; subst; split; assumption].
  set (p := {| domain := 0; bus := n; dev := d; func := f |}) in *.
  assert (Hp' : Forall (fun q => domain q = 0) (probed s ++ [p])).
  { apply Forall_app. split; [exact Hp|]. repeat constructor. }
  destruct (negb (pci_read_word hw p (PCI_VENDOR_ID H) =? 0)
            && negb (pci_read_word hw p (PCI_VENDOR_ID H) =? 65535));
    [|inversion Hmap; subst; split; assumption].
  destruct (scan_device H hw (pci_filter_match filter) p) as [| |dv] eqn:Es;
    [inversion Hmap; subst; split; assumption|discriminate|].
  apply scan_device_dev in Es.
  simpl in Hmap.
  destruct (Z.land (get_conf_byte dv (PCI_HEADER_TYPE H)) 127
            =? PCI_HEADER_TYPE_BRIDGE H).
  - match type of Hmap with
    | context [map_bridge ?a ?b ?c ?e ?g] =>
        pose proof (map_bridge_messages a b c e g) as Hmsg;
        destruct (map_bridge a b c e g) as [bi' msgs]
    end.
    inversion Hmap; subst. split; [exact Hp'|]. simpl.
    apply Forall_app. split; [exact Hm|]. apply Hmsg. rewrite Es. reflexivity.
  - destruct (Z.land (get_conf_byte dv (PCI_HEADER_TYPE H)) 127
              =? PCI_HEADER_TYPE_CARDBUS H).
    + match type of Hmap with
      | context [map_bridge ?a ?b ?c ?e ?g] =>
          pose proof (map_bridge_messages a b c e g) as Hmsg;
          destruct (map_bridge a b c e g) as [bi' msgs]
      end.
      inversion Hmap; subst. split; [exact Hp'|]. simpl.
      apply Forall_app. split; [exact Hm|]. apply Hmsg. rewrite Es. reflexivity.
    + inversion Hmap; subst. split; assumption.
Qed.

Lemma map_funcs_domain_0 k : forall n d f limit s s',
  domain_0 s -> map_funcs H hw filter k n d f limit s = Some s' -> domain_0 s'.
Proof.
  induction k as [|k IH]; intros n d f limit s s' Hs Hm; simpl in Hm.
  - inversion Hm; subst; exact Hs.
  - destruct (f <? limit); [|inversion Hm; subst; exact Hs].
    destruct (map_func H hw filter n d f limit s) as [[limit' s1]|] eqn:E;
      [|discriminate].
    eapply IH; [|exact Hm]. eapply map_func_domain_0; eassumption.
Qed.

Lemma map_devs_domain_0 k : forall n d s s',
  domain_0 s -> map_devs H hw filter k n d s = Some s' -> domain_0 s'.
Proof.
  induction k as [|k IH]; intros n d s s' Hs Hm; cbn [map_devs] in Hm.
  - inversion Hm; subst; exact Hs.
  - destruct ((f_slot filter <? 0) || (f_slot filter =? d)).
    + destruct (map_funcs H hw filter 8 n d 0 1 s) as [s1|] eqn:E; [|discriminate].
      eapply IH; [|exact Hm]. eapply map_funcs_domain_0; eassumption.
    + eapply IH; eassumption.
Qed.

Lemma map_buses_domain_0 k : forall n s s',
  domain_0 s -> map_buses H hw filter k n s = Some s' -> domain_0 s'.
Proof.
  induction k as [|k IH]; intros n s s' Hs Hm; cbn [map_buses] in Hm.
  - inversion Hm; subst; exact Hs.
  - destruct (do_map_bus H hw filter n s) as [s1|] eqn:E; [|discriminate].
    eapply IH; [|exact Hm]. eapply map_devs_domain_0; eassumption.
Qed.

End ProbeFacts.

(** C10.  In bus-mapping mode every address handed to [pci_get_dev] has
    domain 0, and every bridge line recorded by [map_bridge] is made of a
    function of domain 0: no function of another domain is probed or
    recorded. *)
Theorem probe_stays_in_domain_0 H hw filter s :
  Lspci.probe_the_bus H hw filter = Some s ->
  Forall (fun p => domain p = 0) (Lspci.probed s)
  /\ Forall from_domain_0 (Lspci.messages s).
Proof.
  unfold Lspci.probe_the_bus. intros Hp.
  assert (H0 : domain_0 {| Lspci.table := replicate 256 Lspci.no_info;
                           Lspci.probed := []; Lspci.messages := [] |}).
  { split; apply Forall_nil_2. }
  destruct (Lspci.f_bus filter >=? 0).
  - eapply map_devs_domain_0; eassumption.
  - eapply map_buses_domain_0; eassumption.
Qed.

(** ** The bridge tree *)

Section TreeFacts.

Import Lspci.

Variable H : header_h.

Lemma conf_range d pos : 0 <= conf d pos < 256.
Proof. unfold conf. apply byte_val_range. Qed.

Lemma bridge_of_fields i d b :
  bridge_of H i d = Some b ->
  child b = [] /\ first_bus b = [] /\ br_dev b = Some i
  /\ br_domain b = domain (d_dev d)
  /\ 0 <= primary b < 256 /\ 0 <= subordinate b < 256.
Proof.
  unfold bridge_of. intros Hb.
  destruct (_ && _) in Hb; [|discriminate].
  destruct (_ =? _) in Hb; inversion Hb; subst; simpl;
    unfold get_conf_byte; repeat split; apply conf_range.
Qed.

Lemma build_chain_elem ds : forall i b,
  b ∈ build_chain H i ds ->
  exists k d, ds !! k = Some d /\ bridge_of H (i + k) d = Some b.
Proof.
  induction ds as [|d ds IH]; intros i b Hb; simpl in Hb.
  - inversion Hb.
  - assert (Hrest : b ∈ build_chain H (S i) ds ->
              exists k d0, (d :: ds) !! k = Some d0
                           /\ bridge_of H (i + k) d0 = Some b).
    { intros Hin. destruct (IH _ _ Hin) as (k & d0 & Hk & Hbr).
      exists (S k), d0. split; [exact Hk|].
      replace (i + S k)%nat with (S i + k)%nat by lia. exact Hbr. }
    destruct (bridge_of H i d) as [b0|] eqn:E; [|auto].
    apply elem_of_cons in Hb as [->|Hb]; [|auto].
    exists O, d. split; [reflexivity|]. rewrite Nat.add_0_r. exact E.
Qed.

Lemma chain_ok_start reg : chain_ok (host_bridge :: build_chain H O reg).
Proof.
  exists host_bridge, (build_chain H O reg). repeat split.
  apply list.Forall_forall. intros b Hb.
  destruct (build_chain_elem _ _ _ Hb) as (k & d & _ & Hbr).
  apply bridge_of_fields in Hbr. tauto.
Qed.

Lemma span_nonneg c : 0 <= span c.
Proof. unfold span. apply u32_range. Qed.

(** Once the host bridge is [best] no bridge replaces it: its span is
    [~0 - ~0 = 0]. *)
Lemma choose_keeps_host t c0 ib b : t !! O = Some c0 -> span c0 = 0 ->
  forall cs ic, choose t ib b cs ic (Some O) = Some O.
Proof.
  intros Ht Hspan. induction cs as [|c cs IH]; intros ic; simpl; [reflexivity|].
  unfold improves. simpl. rewrite Ht. simpl. rewrite Hspan.
  destruct (Z.gtb_spec 0 (span c)) as [Hlt|_].
  - pose proof (span_nonneg c). lia.
  - rewrite andb_false_r. apply IH.
Qed.

Lemma choose_none t ib b : forall cs ic,
  Forall (fun c => (primary b <=? subordinate c) = false) cs ->
  choose t ib b cs ic None = None.
Proof.
  induction cs as [|c cs IH]; intros ic Hall; simpl; [reflexivity|].
  inversion Hall as [|? ? Hc Hcs]; subst.
  unfold encloses. rewrite Hc, andb_false_r. simpl. apply IH. exact Hcs.
Qed.

Lemma find_best_host t ib :
  chain_ok t -> (0 < ib < length t)%nat -> find_best t ib = Some O.
Proof.
  intros (c0 & rest & -> & Hp & Hs & Hsub & Hrest) Hib.
  unfold find_best.
  destruct ((c0 :: rest) !! ib) as [b|] eqn:Eb;
    [|apply lookup_ge_None in Eb; lia].
  destruct ib as [|ib]; [lia|]. simpl in Eb.
  apply list_elem_of_lookup_2 in Eb.
  rewrite list.Forall_forall in Hrest. specialize (Hrest _ Eb).
  simpl choose.
  replace (encloses (S ib) b 0 c0) with true.
  - simpl. apply choose_keeps_host with (c0 := c0); [reflexivity|].
    unfold span. rewrite Hp, Hsub. reflexivity.
  - unfold encloses. simpl. rewrite Hs, Hsub. symmetry.
    apply andb_true_iff. split; [apply Z.geb_le; lia|apply Z.leb_le; lia].
Qed.

Lemma find_best_of_host t : chain_ok t -> find_best t O = None.
Proof.
  intros (c0 & rest & -> & Hp & Hs & Hsub & Hrest).
  unfold find_best. simpl.
  apply choose_none. apply list.Forall_forall. intros c Hc.
  rewrite list.Forall_forall in Hrest. specialize (Hrest _ Hc).
  apply Z.leb_gt. lia.
Qed.

Lemma link_bridge t ib :
  chain_ok t -> (0 < ib < length t)%nat ->
  link t ib = alter (with_child (cons ib)) O t.
Proof. intros Hok Hib. unfold link. rewrite find_best_host; auto. Qed.

Lemma link_host t : chain_ok t -> link t O = t.
Proof. intros Hok. unfold link. rewrite find_best_of_host; auto. Qed.

Lemma chain_ok_alter_head t f : chain_ok t -> chain_ok (alter (with_child f) O t).
Proof.
  intros (c0 & rest & -> & Hp & Hs & Hsub & Hrest).
  exists (with_child f c0), rest. repeat split; assumption.
Qed.

(** All the bridges end up in the child list of the host bridge, the last
    of the chain first. *)
Lemma foldl_link t n :
  chain_ok t -> (n < length t)%nat ->
  foldl link t (seq 1 n)
  = alter (with_child (fun l => reverse (seq 1 n) ++ l)) O t.
Proof.
  intros Hok. induction n as [|n IH]; intros Hn.
  - simpl. destruct Hok as (c0 & rest & -> & _). simpl.
    destruct c0; reflexivity.
  - rewrite seq_S, foldl_app, IH by lia. simpl foldl.
    rewrite link_bridge; [|apply chain_ok_alter_head; exact Hok
                           |rewrite length_alter; lia].
    destruct Hok as (c0 & rest & -> & _). simpl.
    rewrite reverse_app. reflexivity.
Qed.

Lemma frame_idemp b : frame (frame b) = frame b.
Proof. reflexivity. Qed.

Lemma frame_with_buses f b : frame (with_buses f b) = frame b.
Proof. reflexivity. Qed.

Lemma frame_insert (t : list bridge) (ib : nat) b b' :
  t !! ib = Some b -> frame b' = frame b ->
  frame <$> <[ib := b']> t = frame <$> t.
Proof.
  intros Ht Hf. rewrite list_fmap_insert, Hf.
  apply list_insert_id. rewrite list_lookup_fmap, Ht. reflexivity.
Qed.

Lemma buses_of_app t1 t2 : buses_of (t1 ++ t2) = buses_of t1 ++ buses_of t2.
Proof. unfold buses_of. rewrite fmap_app, concat_app. reflexivity. Qed.

Lemma buses_of_insert (t : list bridge) (ib : nat) b b' :
  t !! ib = Some b ->
  exists X Y, buses_of t = X ++ first_bus b ++ Y
              /\ buses_of (<[ib := b']> t) = X ++ first_bus b' ++ Y.
Proof.
  intros Ht. exists (buses_of (take ib t)), (buses_of (drop (S ib) t)).
  split.
  - rewrite <- (take_drop_middle t ib b Ht) at 1.
    rewrite buses_of_app. unfold buses_of at 2. simpl.
    reflexivity.
  - rewrite insert_take_drop by (eapply lookup_lt_Some; exact Ht).
    rewrite buses_of_app. unfold buses_of at 2. simpl. reflexivity.
Qed.

Lemma add_secondary_frame t ib : frame <$> add_secondary t ib = frame <$> t.
Proof.
  unfold add_secondary. destruct (t !! ib) as [b|] eqn:Eb; [|reflexivity].
  destruct (find_bus b (br_domain b) (secondary b)); [reflexivity|].
  eapply frame_insert; [exact Eb|reflexivity].
Qed.

Lemma add_secondary_empty t ib :
  Forall (fun u => bus_devs u = []) (buses_of t) ->
  Forall (fun u => bus_devs u = []) (buses_of (add_secondary t ib)).
Proof.
  intros Hall. unfold add_secondary.
  destruct (t !! ib) as [b|] eqn:Eb; [|exact Hall].
  destruct (find_bus b (br_domain b) (secondary b)); [exact Hall|].
  destruct (buses_of_insert t ib b (new_bus b (br_domain b) (secondary b)) Eb)
    as (X & Y & HX & HY).
  rewrite HY. rewrite HX in Hall.
  apply Forall_app in Hall as [HXa Hall]. apply Forall_app in Hall as [Hb HYa].
  apply Forall_app. split; [exact HXa|]. apply Forall_app. split; [|exact HYa].
  simpl. constructor; [reflexivity|exact Hb].
Qed.

Lemma foldl_add_secondary ixs : forall t,
  Forall (fun u => bus_devs u = []) (buses_of t) ->
  frame <$> foldl add_secondary t ixs = frame <$> t
  /\ Forall (fun u => bus_devs u = []) (buses_of (foldl add_secondary t ixs)).
Proof.
  induction ixs as [|ib ixs IH]; intros t Hall; simpl; [auto|].
  destruct (IH (add_secondary t ib)) as [Hf He].
  - apply add_secondary_empty. exact Hall.
  - split; [|exact He]. rewrite Hf. apply add_secondary_frame.
Qed.

Lemma find_bus_in_Some l dom n : forall k,
  find_bus_in l dom n = Some k ->
  exists u, l !! k = Some u /\ is_bus dom n u = true.
Proof.
  induction l as [|u l IH]; intros k Hk; simpl in Hk; [discriminate|].
  destruct (is_bus dom n u) eqn:E.
  - inversion Hk; subst. exists u. split; [reflexivity|exact E].
  - destruct (find_bus_in l dom n) as [k'|]; [|discriminate].
    inversion Hk; subst. apply IH. reflexivity.
Qed.

Lemma alter_middle {A} (f : A -> A) (l : list A) : forall k u,
  l !! k = Some u -> alter f k l = take k l ++ f u :: drop (S k) l.
Proof.
  induction l as [|x l IH]; intros k u Hk; [discriminate|].
  destruct k as [|k]; simpl in *.
  - inversion Hk; subst. reflexivity.
  - f_equal. apply IH. exact Hk.
Qed.

(** [insert_dev] leaves the bridges as they are and links the device to
    one bus of its address. *)
Lemma insert_dev_spec fuel : forall i p ib t t',
  insert_dev fuel i p ib t = Some t' ->
  frame <$> t' = frame <$> t /\ linked i p (buses_of t) (buses_of t').
Proof.
  induction fuel as [|f IH]; intros i p ib t t' Hins; simpl in Hins;
    [discriminate|].
  destruct (t !! ib) as [b|] eqn:Eb; [|discriminate].
  destruct (find_bus b (domain p) (bus p)) as [k|] eqn:Ek.
  - inversion Hins; subst. split; [eapply frame_insert; eauto|].
    apply find_bus_in_Some in Ek as (u & Hu & His).
    destruct (buses_of_insert t ib b
                (with_buses (alter (append_dev i) k) b) Eb)
      as (X & Y & HX & HY).
    left. exists (X ++ take k (first_bus b)), u, (drop (S k) (first_bus b) ++ Y).
    split; [|split; [exact His|]].
    + rewrite HX. rewrite <- (take_drop_middle (first_bus b) k u Hu) at 1.
      rewrite <- !app_assoc. reflexivity.
    + rewrite HY. simpl. rewrite (alter_middle _ _ _ _ Hu).
      rewrite <- !app_assoc. reflexivity.
  - destruct (find (forwards t p) (child b)) as [ic|].
    + eapply IH. exact Hins.
    + inversion Hins; subst. split; [eapply frame_insert; eauto|].
      destruct (buses_of_insert t ib b
                  (with_buses (alter (append_dev i) O)
                     (new_bus b (domain p) (bus p))) Eb)
        as (X & Y & HX & HY).
      right. exists X, (first_bus b ++ Y). split; [exact HX|].
      rewrite HY. reflexivity.
Qed.

Lemma cons_eq {A} (x y : A) (l k : list A) :
  x :: l = y :: k -> x = y /\ l = k.
Proof. intros E. injection E. auto. Qed.

Lemma flat_frame t t' : frame <$> t' = frame <$> t -> flat t -> flat t'.
Proof.
  intros Hf (c0 & rest & -> & Hc & Hrest).
  destruct t' as [|c0' rest']; [discriminate|].
  rewrite !fmap_cons in Hf. apply cons_eq in Hf as [Hc0 Hr].
  exists c0', rest'. split; [reflexivity|]. split.
  - change (child c0') with (child (frame c0')). rewrite Hc0. simpl.
    rewrite Hc. f_equal. f_equal.
    rewrite <- (length_fmap frame rest), <- Hr, length_fmap. reflexivity.
  - assert (Hrf : Forall (fun b => child b = []) (frame <$> rest)).
    { apply Forall_fmap. exact Hrest. }
    rewrite <- Hr in Hrf. apply Forall_fmap in Hrf. exact Hrf.
Qed.

(** On a flat tree the descent of [insert_dev] is at most two bridges
    deep, so the length of the chain is fuel enough. *)
Lemma insert_dev_total fuel i p t :
  flat t -> (length t <= fuel)%nat ->
  exists t', insert_dev fuel i p O t = Some t'.
Proof.
  intros (c0 & rest & -> & Hc & Hrest) Hfuel.
  destruct fuel as [|f]; [simpl in Hfuel; lia|]. simpl.
  destruct (find_bus c0 (domain p) (bus p)); [eauto|].
  destruct (find (forwards (c0 :: rest) p) (child c0)) as [ic|] eqn:Ef; [|eauto].
  apply find_some in Ef as [Hin Hfw].
  rewrite Hc in Hin. apply list_elem_of_In, elem_of_reverse, elem_of_seq in Hin.
  unfold forwards in Hfw.
  destruct ((c0 :: rest) !! ic) as [c|] eqn:Ec; [|discriminate].
  destruct ic as [|ic]; [lia|]. simpl in Ec.
  destruct f as [|f]; [simpl in Hfuel; lia|]. simpl. rewrite Ec.
  destruct (find_bus c (domain p) (bus p)); [eauto|].
  apply list_elem_of_lookup_2 in Ec.
  rewrite list.Forall_forall in Hrest. rewrite (Hrest _ Ec). simpl. eauto.
Qed.

Lemma devs_of_app bs1 bs2 : devs_of (bs1 ++ bs2) = devs_of bs1 ++ devs_of bs2.
Proof. unfold devs_of. rewrite fmap_app, concat_app. reflexivity. Qed.

Lemma devs_of_cons u bs : devs_of (u :: bs) = bus_devs u ++ devs_of bs.
Proof. reflexivity. Qed.

Lemma linked_devs i p bs bs' :
  linked i p bs bs' -> devs_of bs' ≡ₚ i :: devs_of bs.
Proof.
  intros [(X & u & Y & -> & _ & ->)|(X & Y & -> & ->)];
    rewrite !devs_of_app, !devs_of_cons; simpl.
  - rewrite <- app_assoc. simpl. rewrite !app_assoc.
    symmetry. apply Permutation_middle.
  - symmetry. apply Permutation_middle.
Qed.

Lemma bus_in_order_mono n u : bus_in_order n u -> bus_in_order (S n) u.
Proof.
  intros [Hs Hb]. split; [exact Hs|].
  eapply Forall_impl; [exact Hb|]. simpl. intros. lia.
Qed.

Lemma bus_in_order_append n u :
  bus_in_order n u -> bus_in_order (S n) (append_dev n u).
Proof.
  intros [Hs Hb]. split; simpl.
  - apply StronglySorted_app_2; [|exact Hs|repeat constructor].
    intros j k Hj Hk. apply list_elem_of_singleton in Hk. subst k.
    rewrite list.Forall_forall in Hb. apply Hb. exact Hj.
  - apply Forall_app. split; [|repeat constructor].
    eapply Forall_impl; [exact Hb|]. simpl. intros. lia.
Qed.

Lemma linked_in_order i p bs bs' :
  linked i p bs bs' ->
  Forall (bus_in_order i) bs -> Forall (bus_in_order (S i)) bs'.
Proof.
  intros [(X & u & Y & -> & _ & ->)|(X & Y & -> & ->)] Hall.
  - apply Forall_app in Hall as [HX HuY].
    apply Forall_cons in HuY as [Hu HY].
    apply Forall_app. split; [|constructor].
    + eapply Forall_impl; [exact HX|apply bus_in_order_mono].
    + apply bus_in_order_append. exact Hu.
    + eapply Forall_impl; [exact HY|apply bus_in_order_mono].
  - apply Forall_app in Hall as [HX HY].
    apply Forall_app. split; [|constructor].
    + eapply Forall_impl; [exact HX|apply bus_in_order_mono].
    + split; simpl; repeat constructor.
    + eapply Forall_impl; [exact HY|apply bus_in_order_mono].
Qed.

Lemma is_bus_true dom n u :
  is_bus dom n u = true -> bus_domain u = dom /\ number u = n.
Proof.
  unfold is_bus. intros Hb. apply andb_true_iff in Hb as [H1 H2].
  split; apply Z.eqb_eq; assumption.
Qed.

Lemma linked_address reg i d bs bs' :
  reg !! i = Some d -> linked i (d_dev d) bs bs' ->
  Forall (bus_address reg) bs -> Forall (bus_address reg) bs'.
Proof.
  intros Hd [(X & u & Y & -> & Hu & ->)|(X & Y & -> & ->)] Hall.
  - apply Forall_app in Hall as [HX HuY].
    apply Forall_cons in HuY as [Hua HY].
    apply Forall_app. split; [exact HX|]. constructor; [|exact HY].
    apply is_bus_true in Hu as [Hdom Hnum].
    unfold bus_address in *. simpl.
    apply Forall_app. split; [exact Hua|].
    constructor; [|constructor]. exists d. auto.
  - apply Forall_app in Hall as [HX HY].
    apply Forall_app. split; [exact HX|]. constructor; [|exact HY].
    unfold bus_address. simpl. constructor; [|constructor]. exists d. auto.
Qed.

(** Linking the devices of the registry from position [i] on. *)
Lemma insert_all_spec reg fuel ds : forall i t,
  (forall k d, ds !! k = Some d -> reg !! (i + k)%nat = Some d) ->
  flat t -> (length t <= fuel)%nat ->
  Forall (bus_in_order i) (buses_of t) ->
  Forall (bus_address reg) (buses_of t) ->
  exists t', insert_all fuel i ds t = Some t'
    /\ frame <$> t' = frame <$> t
    /\ devs_of (buses_of t') ≡ₚ seq i (length ds) ++ devs_of (buses_of t)
    /\ Forall (bus_in_order (i + length ds)) (buses_of t')
    /\ Forall (bus_address reg) (buses_of t').
Proof.
  induction ds as [|d ds IH]; intros i t Hreg Hflat Hfuel Hord Haddr; simpl.
  - exists t. rewrite Nat.add_0_r. auto.
  - destruct (insert_dev_total fuel i (d_dev d) t Hflat Hfuel) as [t1 Ht1].
    rewrite Ht1.
    destruct (insert_dev_spec _ _ _ _ _ _ Ht1) as [Hf1 Hl1].
    assert (Hd : reg !! i = Some d).
    { specialize (Hreg O d eq_refl). rewrite Nat.add_0_r in Hreg. exact Hreg. }
    destruct (IH (S i) t1) as (t' & Ht' & Hf' & Hp' & Ho' & Ha').
    + intros k d0 Hk. replace (S i + k)%nat with (i + S k)%nat by lia.
      apply Hreg. exact Hk.
    + eapply flat_frame; eassumption.
    + rewrite <- (length_fmap frame), Hf1, length_fmap. exact Hfuel.
    + eapply linked_in_order; eassumption.
    + eapply linked_address; eassumption.
    + exists t'. split; [exact Ht'|]. split; [congruence|]. split; [|split].
      * rewrite Hp', (linked_devs _ _ _ _ Hl1).
        symmetry. apply Permutation_middle.
      * replace (i + S (length ds))%nat with (S i + length ds)%nat by lia.
        exact Ho'.
      * exact Ha'.
Qed.

Lemma chain_ok_frame t t' : frame <$> t' = frame <$> t -> chain_ok t -> chain_ok t'.
Proof.
  intros Hf (c0 & rest & -> & Hp & Hs & Hsub & Hrest).
  destruct t' as [|c0' rest']; [discriminate|].
  rewrite !fmap_cons in Hf. apply cons_eq in Hf as [Hc0 Hr].
  exists c0', rest'. split; [reflexivity|].
  change (primary c0') with (primary (frame c0')).
  change (secondary c0') with (secondary (frame c0')).
  change (subordinate c0') with (subordinate (frame c0')).
  rewrite Hc0. repeat split; try assumption.
  assert (Hrf : Forall (fun b => 0 <= primary b < 256 /\ 0 <= subordinate b < 256)
                  (frame <$> rest)).
  { apply Forall_fmap. exact Hrest. }
  rewrite <- Hr in Hrf. apply Forall_fmap in Hrf. exact Hrf.
Qed.

Lemma foldl_link_all reg :
  foldl link (host_bridge :: build_chain H O reg)
        (seq O (length (host_bridge :: build_chain H O reg)))
  = linked_chain H reg.
Proof.
  pose proof (chain_ok_start reg) as Hok.
  simpl length. rewrite <- cons_seq. simpl foldl.
  rewrite link_host by exact Hok.
  rewrite foldl_link; [|exact Hok|simpl; lia].
  unfold linked_chain, with_child, host_bridge. simpl.
  rewrite app_nil_r. reflexivity.
Qed.

Lemma build_chain_leaves reg i :
  Forall (fun b => child b = [] /\ first_bus b = []) (build_chain H i reg).
Proof.
  apply list.Forall_forall. intros b Hb.
  destruct (build_chain_elem _ _ _ Hb) as (k & d & _ & Hbr).
  apply bridge_of_fields in Hbr. tauto.
Qed.

Lemma linked_chain_flat reg : flat (linked_chain H reg).
Proof.
  eexists _, _. split; [reflexivity|]. split; [reflexivity|].
  eapply Forall_impl; [apply build_chain_leaves|]. simpl. tauto.
Qed.

Lemma linked_chain_ok reg : chain_ok (linked_chain H reg).
Proof.
  change (linked_chain H reg)
    with (alter (with_child
                   (fun _ => reverse (seq 1 (length (build_chain H O reg)))))
                O (host_bridge :: build_chain H O reg)).
  apply chain_ok_alter_head, chain_ok_start.
Qed.

Lemma linked_chain_no_bus reg : buses_of (linked_chain H reg) = [].
Proof.
  unfold linked_chain, buses_of. simpl.
  pose proof (build_chain_leaves reg O) as Hl.
  induction Hl as [|b l [_ Hb] _ IH]; [reflexivity|].
  simpl. rewrite Hb. exact IH.
Qed.

Lemma devs_of_empty bs :
  Forall (fun u => bus_devs u = []) bs -> devs_of bs = [].
Proof.
  induction 1 as [|u bs Hu _ IH]; [reflexivity|].
  rewrite devs_of_cons, Hu, IH. reflexivity.
Qed.

(** [grow_tree] ends, keeps the bridges of the linked chain, and links
    every device of the registry to one bus of its address, in the order
    of the registry. *)
Lemma grow_tree_spec reg :
  exists t, grow_tree H reg = Some t
    /\ frame <$> t = frame <$> linked_chain H reg
    /\ devs_of (buses_of t) ≡ₚ seq O (length reg)
    /\ Forall (bus_in_order (length reg)) (buses_of t)
    /\ Forall (bus_address reg) (buses_of t).
Proof.
  unfold grow_tree. rewrite foldl_link_all.
  set (ixs := seq O (length (host_bridge :: build_chain H O reg))).
  destruct (foldl_add_secondary ixs (linked_chain H reg)) as [Hf2 He2].
  { rewrite linked_chain_no_bus. constructor. }
  set (t2 := foldl add_secondary (linked_chain H reg) ixs) in *.
  assert (Hempty : forall (P : bus_t -> Prop),
            (forall u, bus_devs u = [] -> P u) -> Forall P (buses_of t2)).
  { intros P HP. eapply Forall_impl; [exact He2|exact HP]. }
  destruct (insert_all_spec reg (length (host_bridge :: build_chain H O reg))
              reg O t2) as (t & Ht & Hf & Hp & Ho & Ha).
  - intros k d Hk. exact Hk.
  - eapply flat_frame; [exact Hf2|apply linked_chain_flat].
  - rewrite <- (length_fmap frame), Hf2, length_fmap. unfold linked_chain.
    simpl. lia.
  - apply Hempty. intros u Hu. split; rewrite Hu; constructor.
  - apply Hempty. intros u Hu. unfold bus_address. rewrite Hu. constructor.
  - exists t. split; [exact Ht|]. split; [congruence|].
    split; [|split; assumption].
    rewrite Hp, (devs_of_empty _ He2), app_nil_r. reflexivity.
Qed.

Lemma concat_reverse {A} (ls : list (list A)) : concat (reverse ls) ≡ₚ concat ls.
Proof.
  induction ls as [|l ls IH]; [reflexivity|].
  rewrite reverse_cons, concat_app. simpl. rewrite app_nil_r, IH.
  apply Permutation_app_comm.
Qed.

Lemma preorder_leaf f (t : list bridge) ib b :
  t !! ib = Some b -> child b = [] -> preorder (S f) t ib = Some (first_bus b).
Proof.
  intros Hb Hc. simpl. rewrite Hb, Hc. simpl. rewrite app_nil_r. reflexivity.
Qed.

(** On a flat tree the pre-order walk ends and passes every bus of the
    chain once. *)
Lemma tree_buses_flat t :
  flat t -> exists bs, tree_buses t = Some bs /\ bs ≡ₚ buses_of t.
Proof.
  intros (c0 & rest & -> & Hc & Hrest).
  exists (first_bus c0 ++ concat (reverse (first_bus <$> rest))). split.
  - unfold tree_buses. simpl. rewrite Hc.
    replace (mapM (preorder (length rest) (c0 :: rest))
               (reverse (seq 1 (length rest))))
      with (Some (reverse (first_bus <$> rest))); [reflexivity|].
    symmetry. apply mapM_Some_2, Forall2_reverse.
    apply Forall2_same_length_lookup. split.
    + rewrite length_seq, length_fmap. reflexivity.
    + intros k x y Hx Hy. apply lookup_seq in Hx as [-> Hk].
      rewrite list_lookup_fmap in Hy.
      destruct (rest !! k) as [b|] eqn:Eb; [|discriminate].
      inversion Hy; subst.
      destruct (length rest) as [|f] eqn:El; [lia|].
      apply preorder_leaf; [exact Eb|].
      rewrite list.Forall_forall in Hrest.
      apply Hrest. eapply list_elem_of_lookup_2. exact Eb.
  - unfold buses_of. simpl. apply Permutation_app_head, concat_reverse.
Qed.

Lemma parent_flat t ib :
  flat t -> (0 < ib < length t)%nat -> parent t ib = Some O.
Proof.
  intros (c0 & rest & -> & Hc & _) Hib. unfold parent.
  replace (list_find (fun c => ib ∈ child c) (c0 :: rest)) with (Some (O, c0));
    [reflexivity|].
  symmetry. apply list_find_Some. split; [reflexivity|]. split.
  - rewrite Hc. apply elem_of_reverse, elem_of_seq. simpl in Hib. lia.
  - intros j y _ Hj. lia.
Qed.

Lemma NoDup_concat_unique {A} (ls : list (list A)) x :
  NoDup (concat ls) -> forall k k' l l',
  ls !! k = Some l -> ls !! k' = Some l' -> x ∈ l -> x ∈ l' -> k = k'.
Proof.
  induction ls as [|l0 ls IH]; intros Hnd k k' l l' Hk Hk' Hx Hx';
    [discriminate|].
  simpl in Hnd. apply NoDup_app in Hnd as (Hl0 & Hdisj & Hrest).
  assert (Hin : forall j m, ls !! j = Some m -> x ∈ m -> x ∈ concat ls).
  { intros j m Hj Hm. apply list_elem_of_In, in_concat. exists m.
    split; apply list_elem_of_In; [eapply list_elem_of_lookup_2; exact Hj|exact Hm]. }
  destruct k as [|k], k' as [|k']; simpl in *.
  - reflexivity.
  - inversion Hk; subst. exfalso. eapply Hdisj; [exact Hx|]. eapply Hin; eauto.
  - inversion Hk'; subst. exfalso. eapply Hdisj; [exact Hx'|]. eapply Hin; eauto.
  - f_equal. eapply IH; eauto.
Qed.

Lemma sorted_registry_lookup reg : sorted_registry reg ->
  forall i j a b, (i < j)%nat -> reg !! i = Some a -> reg !! j = Some b ->
  compare_them (d_dev a) (d_dev b) <= 0.
Proof.
  induction 1 as [|x l _ IH Hx]; intros i j a b Hij Ha Hb; [discriminate|].
  destruct j as [|j]; [lia|]. simpl in Hb.
  destruct i as [|i]; simpl in Ha.
  - inversion Ha; subst. rewrite list.Forall_forall in Hx. apply Hx.
    eapply list_elem_of_lookup_2. exact Hb.
  - eapply IH; [|exact Ha|exact Hb]. lia.
Qed.

Lemma in_order_sorted reg l :
  sorted_registry reg -> StronglySorted lt l ->
  StronglySorted (fun i j => forall a b, reg !! i = Some a -> reg !! j = Some b ->
                    compare_them (d_dev a) (d_dev b) <= 0) l.
Proof.
  intros Hreg. induction 1 as [|i l _ IH Hi]; constructor; [exact IH|].
  eapply Forall_impl; [exact Hi|]. simpl. intros j Hij a b Ha Hb.
  eapply sorted_registry_lookup; eassumption.
Qed.

(** *** Devices of one address go to one bus *)

Lemma find_same {A} (f g : A -> bool) (l : list A) :
  (forall x, f x = g x) -> find f l = find g l.
Proof.
  intros Hfg. induction l as [|x l IH]; simpl; [reflexivity|].
  rewrite Hfg, IH. reflexivity.
Qed.

Lemma frame_lookup (t t' : list bridge) ib b :
  frame <$> t' = frame <$> t -> t !! ib = Some b ->
  exists b', t' !! ib = Some b' /\ frame b' = frame b.
Proof.
  intros Hf Hb.
  assert (Hl : (frame <$> t') !! ib = Some (frame b))
    by (rewrite Hf, list_lookup_fmap, Hb; reflexivity).
  rewrite list_lookup_fmap in Hl.
  destruct (t' !! ib) as [b'|]; [|discriminate].
  exists b'. split; [reflexivity|]. apply (inj Some). exact Hl.
Qed.

Lemma forwards_frame t t' p ic :
  frame <$> t' = frame <$> t -> forwards t' p ic = forwards t p ic.
Proof.
  intros Hf. unfold forwards.
  destruct (t !! ic) as [c|] eqn:Ec.
  - destruct (frame_lookup t t' ic c Hf Ec) as (c' & -> & Hc).
    change (br_domain c') with (br_domain (frame c')).
    change (secondary c') with (secondary (frame c')).
    change (subordinate c') with (subordinate (frame c')).
    rewrite Hc. reflexivity.
  - destruct (t' !! ic) as [c'|] eqn:Ec'; [|reflexivity].
    destruct (frame_lookup t' t ic c' (eq_sym Hf) Ec') as (c & Hc & _).
    congruence.
Qed.

Lemma find_bus_in_alter_append l i dom n : forall k,
  find_bus_in (alter (append_dev i) k l) dom n = find_bus_in l dom n.
Proof.
  induction l as [|u l IH]; intros k; [reflexivity|].
  destruct k as [|k]; simpl.
  - reflexivity.
  - change (list_alter (append_dev i) k l) with (alter (append_dev i) k l).
    rewrite IH. reflexivity.
Qed.

(** The descent of [insert_dev] in a flat tree. *)
Lemma insert_dev_target fuel i p t :
  flat t -> (length t <= fuel)%nat ->
  exists b, t !! target t (domain p) (bus p) = Some b
    /\ insert_dev fuel i p O t
        = Some (<[target t (domain p) (bus p) := place i p b]> t).
Proof.
  intros (c0 & rest & -> & Hc & Hrest) Hfuel.
  destruct fuel as [|f]; [simpl in Hfuel; lia|].
  unfold target, place. simpl.
  change (forwards (c0 :: rest) (at_address (domain p) (bus p) 0 0))
    with (forwards (c0 :: rest) p).
  destruct (find_bus c0 (domain p) (bus p)) as [k|] eqn:Ek.
  - exists c0. simpl. rewrite Ek. auto.
  - destruct (find (forwards (c0 :: rest) p) (child c0)) as [ic|] eqn:Ef.
    + pose proof Ef as Ef'. apply find_some in Ef' as [Hin Hfw].
      rewrite Hc in Hin.
      apply list_elem_of_In, elem_of_reverse, elem_of_seq in Hin.
      unfold forwards in Hfw.
      destruct ((c0 :: rest) !! ic) as [c|] eqn:Ec; [|discriminate].
      exists c. split; [reflexivity|].
      destruct ic as [|ic]; [lia|]. simpl in Ec.
      destruct f as [|f]; [simpl in Hfuel; lia|]. simpl. rewrite Ec.
      destruct (find_bus c (domain p) (bus p)); [reflexivity|].
      apply list_elem_of_lookup_2 in Ec.
      rewrite list.Forall_forall in Hrest. rewrite (Hrest _ Ec). reflexivity.
    + exists c0. simpl. rewrite Ek. auto.
Qed.

Lemma frame_place i p b : frame (place i p b) = frame b.
Proof. unfold place. destruct (find_bus b (domain p) (bus p)); reflexivity. Qed.

(** Linking a device changes the bus found for no address. *)
Lemma find_bus_place i p b dom n :
  is_Some (find_bus (place i p b) dom n) <-> 
  is_Some (find_bus b dom n) \/ (find_bus b (domain p) (bus p) = None
                                 /\ dom = domain p /\ n = bus p).
Proof.
  unfold place, find_bus.
  destruct (find_bus_in (first_bus b) (domain p) (bus p)) as [k|] eqn:Ek; simpl.
  - rewrite find_bus_in_alter_append. split; [auto|].
    intros [Hs|(Hn & _)]; [exact Hs|discriminate].
  - unfold is_bus. simpl.
    destruct (Z.eqb_spec (domain p) dom) as [Hd|Hd];
      destruct (Z.eqb_spec (bus p) n) as [Hn|Hn]; simpl.
    + split; [intros _; right; auto|intros _; eexists; reflexivity].
    + destruct (find_bus_in (first_bus b) dom n); simpl;
        split; try (intros [x Hx]; discriminate);
        try (intros _; eexists; reflexivity); try (intros _; left; eexists; reflexivity).
      intros [[x Hx]|(_ & _ & Hc)]; [discriminate|congruence].
    + destruct (find_bus_in (first_bus b) dom n); simpl;
        split; try (intros [x Hx]; discriminate);
        try (intros _; eexists; reflexivity); try (intros _; left; eexists; reflexivity).
      intros [[x Hx]|(_ & Hc & _)]; [discriminate|congruence].
    + destruct (find_bus_in (first_bus b) dom n); simpl;
        split; try (intros [x Hx]; discriminate);
        try (intros _; eexists; reflexivity); try (intros _; left; eexists; reflexivity).
      intros [[x Hx]|(_ & Hc & _)]; [discriminate|congruence].
Qed.

Lemma target_insert i p (t : list bridge) b dom n :
  t !! target t (domain p) (bus p) = Some b ->
  target (<[target t (domain p) (bus p) := place i p b]> t) dom n
  = target t dom n.
Proof.
  intros Hb. set (ib := target t (domain p) (bus p)) in *.
  set (t' := <[ib := place i p b]> t).
  assert (Hf : frame <$> t' = frame <$> t).
  { eapply frame_insert; [exact Hb|apply frame_place]. }
  assert (Hfw : forall q l, find (forwards t' q) l = find (forwards t q) l).
  { intros q l. apply find_same. intros x. apply forwards_frame. exact Hf. }
  destruct t as [|c0 rest]; [destruct ib; discriminate|].
  destruct (decide (ib = O)) as [Hib|Hib].
  - assert (Hc0 : b = c0) by (rewrite Hib in Hb; simpl in Hb; congruence).
    subst b.
    assert (Ht' : t' = place i p c0 :: rest) by (unfold t'; rewrite Hib; reflexivity).
    unfold target at 1. rewrite Ht'. simpl. rewrite <- Ht'.
    rewrite Hfw.
    change (child (place i p c0)) with (child (frame (place i p c0))).
    rewrite frame_place. change (child (frame c0)) with (child c0).
    pose proof (find_bus_place i p c0 dom n) as Hplace.
    unfold target. simpl.
    destruct (find_bus (place i p c0) dom n) as [k'|] eqn:E1;
      destruct (find_bus c0 dom n) as [k|] eqn:E0; try reflexivity.
    + destruct Hplace as [Hp _].
      destruct (Hp ltac:(eexists; reflexivity)) as [[x Hx]|(Hn & -> & ->)];
        [discriminate|].
      pose proof Hib as Hib'. unfold ib, target in Hib'. simpl in Hib'.
      rewrite Hn in Hib'. symmetry. exact Hib'.
    + destruct Hplace as [_ Hp].
      destruct (Hp ltac:(left; eexists; reflexivity)) as [x Hx]. discriminate.
  - assert (Ht' : exists rest', t' = c0 :: rest').
    { unfold t'. destruct ib as [|k]; [congruence|]. simpl. eauto. }
    destruct Ht' as [rest' Ht'].
    unfold target at 1. rewrite Ht'. simpl. rewrite <- Ht'.
    rewrite Hfw. reflexivity.
Qed.

Lemma settled_insert i p (t : list bridge) b :
  settled t -> t !! target t (domain p) (bus p) = Some b ->
  settled (<[target t (domain p) (bus p) := place i p b]> t).
Proof.
  intros Hs Hb ib0 b0 k u Hb0 Hu Hne.
  rewrite target_insert by exact Hb.
  set (ib := target t (domain p) (bus p)) in *.
  destruct (decide (ib0 = ib)) as [->|Hib].
  - rewrite list_lookup_insert_eq in Hb0 by (eapply lookup_lt_Some; exact Hb).
    inversion Hb0; subst b0. clear Hb0. unfold place in *.
    destruct (find_bus b (domain p) (bus p)) as [ks|] eqn:Ek.
    + simpl in Hu. unfold find_bus. simpl.
      rewrite find_bus_in_alter_append.
      destruct (decide (k = ks)) as [->|Hk].
      * rewrite list_lookup_alter_eq in Hu.
        destruct (first_bus b !! ks) as [u0|] eqn:Eu0; [|discriminate].
        inversion Hu; subst u. simpl.
        destruct (find_bus_in_Some _ _ _ _ Ek) as (u1 & Hu1 & His).
        assert (u1 = u0) by congruence. subst u1.
        apply is_bus_true in His as [Hd Hn]. rewrite Hd, Hn.
        split; [reflexivity|exact Ek].
      * rewrite list_lookup_alter_ne in Hu by congruence.
        exact (Hs ib b k u Hb Hu Hne).
    + simpl in Hu. unfold find_bus. simpl.
      destruct k as [|k0]; simpl in Hu.
      * inversion Hu; subst u. simpl. split; [reflexivity|].
        unfold is_bus. simpl. rewrite !Z.eqb_refl. reflexivity.
      * destruct (Hs ib b k0 u Hb Hu Hne) as [Ht Hfind].
        split; [exact Ht|].
        destruct (is_bus (bus_domain u) (number u)
                    {| bus_domain := domain p; number := bus p;
                       bus_devs := [] ++ [i] |}) eqn:Eis.
        -- apply is_bus_true in Eis as [Hd Hn]. simpl in Hd, Hn.
           rewrite <- Hd, <- Hn in Hfind. congruence.
        -- unfold find_bus in Hfind. rewrite Hfind.
           change (append_dev i {| bus_domain := domain p; number := bus p;
                                   bus_devs := [] |})
             with {| bus_domain := domain p; number := bus p;
                     bus_devs := [] ++ [i] |}.
           rewrite Eis. reflexivity.
  - rewrite list_lookup_insert_ne in Hb0 by congruence.
    exact (Hs ib0 b0 k u Hb0 Hu Hne).
Qed.

Lemma insert_all_settled fuel ds : forall i t t',
  flat t -> (length t <= fuel)%nat -> settled t ->
  insert_all fuel i ds t = Some t' -> settled t'.
Proof.
  induction ds as [|d ds IH]; intros i t t' Hflat Hfuel Hs Hins; simpl in Hins.
  - inversion Hins; subst. exact Hs.
  - destruct (insert_dev_target fuel i (d_dev d) t Hflat Hfuel) as (b & Hb & Ht1).
    rewrite Ht1 in Hins.
    destruct (insert_dev_spec _ _ _ _ _ _ Ht1) as [Hf1 _].
    eapply IH; [| | |exact Hins].
    + eapply flat_frame; eassumption.
    + rewrite <- (length_fmap frame), Hf1, length_fmap. exact Hfuel.
    + apply settled_insert; assumption.
Qed.

Lemma elem_of_buses_of (t : list bridge) u :
  u ∈ buses_of t ->
  exists ib b k, t !! ib = Some b /\ first_bus b !! k = Some u.
Proof.
  unfold buses_of. intros Hu.
  apply list_elem_of_In, in_concat in Hu as (l & Hl & Hul).
  apply list_elem_of_In, list_elem_of_fmap in Hl as (b & -> & Hb).
  apply list_elem_of_lookup in Hb as [ib Hib].
  apply list_elem_of_In, list_elem_of_lookup in Hul as [k Hk].
  eauto.
Qed.

Lemma buses_of_elem (t : list bridge) ib b k u :
  t !! ib = Some b -> first_bus b !! k = Some u -> u ∈ buses_of t.
Proof.
  intros Hb Hu. unfold buses_of. apply list_elem_of_In, in_concat.
  exists (first_bus b). split; apply list_elem_of_In.
  - apply list_elem_of_fmap. exists b. split; [reflexivity|].
    eapply list_elem_of_lookup_2. exact Hb.
  - eapply list_elem_of_lookup_2. exact Hu.
Qed.

Lemma empty_settled t :
  Forall (fun u => bus_devs u = []) (buses_of t) -> settled t.
Proof.
  intros Hall ib b k u Hb Hu Hne. exfalso. apply Hne.
  rewrite list.Forall_forall in Hall. apply Hall.
  eapply buses_of_elem; eassumption.
Qed.

Lemma grow_tree_settled reg t : grow_tree H reg = Some t -> settled t.
Proof.
  unfold grow_tree. rewrite foldl_link_all.
  set (ixs := seq O (length (host_bridge :: build_chain H O reg))).
  destruct (foldl_add_secondary ixs (linked_chain H reg)) as [Hf2 He2].
  { rewrite linked_chain_no_bus. constructor. }
  apply insert_all_settled.
  - eapply flat_frame; [exact Hf2|apply linked_chain_flat].
  - rewrite <- (length_fmap frame), Hf2, length_fmap. unfold linked_chain.
    simpl. lia.
  - apply empty_settled. exact He2.
Qed.

(** In a settled tree two buses of one address that both hold devices are
    one bus. *)
Lemma settled_one_bus t u u' :
  settled t -> u ∈ buses_of t -> u' ∈ buses_of t ->
  bus_devs u <> [] -> bus_devs u' <> [] ->
  bus_domain u = bus_domain u' -> number u = number u' -> u = u'.
Proof.
  intros Hs Hu Hu' Hne Hne' Hd Hn.
  apply elem_of_buses_of in Hu as (ib & b & k & Hb & Hk).
  apply elem_of_buses_of in Hu' as (ib' & b' & k' & Hb' & Hk').
  destruct (Hs ib b k u Hb Hk Hne) as [Ht Hf].
  destruct (Hs ib' b' k' u' Hb' Hk' Hne') as [Ht' Hf'].
  rewrite Hd, Hn in Ht, Hf.
  assert (ib = ib') by congruence. subst ib'.
  assert (b = b') by congruence. subst b'.
  assert (k = k') by congruence. subst k'.
  congruence.
Qed.

End TreeFacts.

Section TreeTheorems.

Import Lspci.

Lemma frame_no_bus b : first_bus b = [] -> frame b = b.
Proof. destruct b; simpl. intros ->. reflexivity. Qed.

Lemma grow_tree_flat H reg t :
  grow_tree H reg = Some t -> flat t /\ chain_ok t.
Proof.
  intros Ht. destruct (grow_tree_spec H reg) as (t' & Ht' & Hf & _).
  rewrite Ht in Ht'. inversion Ht'; subst t'. split.
  - eapply flat_frame; [exact Hf|apply linked_chain_flat].
  - eapply chain_ok_frame; [exact Hf|apply linked_chain_ok].
Qed.


Lemma build_chain_complete H ds : forall i k d b,
  ds !! k = Some d -> bridge_of H (i + k) d = Some b ->
  b ∈ build_chain H i ds.
Proof.
  induction ds as [|d0 ds IH]; intros i k d b Hk Hb; [discriminate|].
  destruct k as [|k]; simpl in *.
  - inversion Hk; subst. rewrite Nat.add_0_r in Hb. rewrite Hb. left.
  - assert (b ∈ build_chain H (S i) ds) as Hin.
    { eapply IH; [exact Hk|]. replace (S i + k)%nat with (i + S k)%nat by lia.
      exact Hb. }
    destruct (bridge_of H i d0); [right|]; exact Hin.
Qed.

(** Every device [bridge_of] makes a bridge of has its bridge in the tree,
    with the numbers read. *)
Lemma grow_tree_keeps_bridge H reg t i d b0 :
  grow_tree H reg = Some t -> reg !! i = Some d -> bridge_of H i d = Some b0 ->
  exists ib b, (0 < ib)%nat /\ t !! ib = Some b /\ frame b = b0.
Proof.
  intros Ht Hd Hb0. destruct (grow_tree_spec H reg) as (t' & Ht' & Hf & _).
  rewrite Ht in Ht'. inversion Ht'; subst t'.
  pose proof (build_chain_complete H reg O i d b0 Hd Hb0) as Hin.
  apply list_elem_of_lookup in Hin as [k Hk].
  assert (Hl : (frame <$> linked_chain H reg) !! S k = Some (frame b0)).
  { unfold linked_chain. rewrite fmap_cons. simpl.
    rewrite list_lookup_fmap, Hk. reflexivity. }
  rewrite <- Hf, list_lookup_fmap in Hl.
  destruct (t !! S k) as [b|] eqn:Eb; [|discriminate].
  exists (S k), b. split; [lia|]. split; [exact Eb|].
  assert (Hfr : frame b = frame b0) by (apply (inj Some); exact Hl).
  rewrite Hfr. apply frame_no_bus.
  apply bridge_of_fields in Hb0. tauto.
Qed.

End TreeTheorems.

(** C1.  For a registry sorted by (domain, bus, device, function),
    [grow_tree] ends with a tree whose pre-order walk ends; the devices of
    the buses met on the walk, bus after bus, are a permutation of the
    registry; every device is in exactly one of these buses; in every bus
    the devices stand in the order of the registry, hence sorted; they
    have the domain and bus number of their bus; and two devices of the
    same domain and bus number are in the same bus. *)
Theorem grow_tree_links_each_device_once H (reg : list Lspci.device) :
  Lspci.sorted_registry reg ->
  exists t bs,
    Lspci.grow_tree H reg = Some t /\ Lspci.tree_buses t = Some bs /\
    devs_of bs ≡ₚ seq O (length reg) /\
    (forall i, (i < length reg)%nat ->
       exists k u, bs !! k = Some u /\ i ∈ Lspci.bus_devs u /\
         forall k' u', bs !! k' = Some u' -> i ∈ Lspci.bus_devs u' -> k' = k) /\
    Forall (fun u => StronglySorted lt (Lspci.bus_devs u)) bs /\
    Forall (bus_sorted reg) bs /\
    Forall (bus_address reg) bs /\
    (forall u u' i j a b,
       u ∈ bs -> u' ∈ bs -> i ∈ Lspci.bus_devs u -> j ∈ Lspci.bus_devs u' ->
       reg !! i = Some a -> reg !! j = Some b ->
       domain (Lspci.d_dev a) = domain (Lspci.d_dev b) ->
       bus (Lspci.d_dev a) = bus (Lspci.d_dev b) -> u = u').
Proof.
  intros Hsorted.
  destruct (grow_tree_spec H reg) as (t & Ht & Hf & Hperm & Hord & Haddr).
  destruct (grow_tree_flat H reg t Ht) as [Hflat _].
  destruct (tree_buses_flat t Hflat) as (bs & Hbs & Hpb).
  exists t, bs. split; [exact Ht|]. split; [exact Hbs|].
  assert (Hdevs : devs_of bs ≡ₚ seq O (length reg)).
  { unfold devs_of. rewrite Hpb. exact Hperm. }
  rewrite <- Hpb in Hord, Haddr.
  split; [exact Hdevs|]. split; [|split; [|split; [|split]]].
  - intros i Hi.
    assert (Hin : i ∈ devs_of bs).
    { rewrite Hdevs. apply elem_of_seq. lia. }
    apply list_elem_of_In, in_concat in Hin as (l & Hl & Hil).
    apply list_elem_of_In, list_elem_of_fmap in Hl as (u & -> & Hu).
    apply list_elem_of_lookup in Hu as [k Hk].
    exists k, u. split; [exact Hk|]. split; [apply list_elem_of_In; exact Hil|].
    intros k' u' Hk' Hiu'.
    assert (Hnd : NoDup (concat (Lspci.bus_devs <$> bs))).
    { change (NoDup (devs_of bs)). rewrite Hdevs. apply NoDup_seq. }
    eapply (NoDup_concat_unique _ i Hnd k' k).
    + rewrite list_lookup_fmap, Hk'. reflexivity.
    + rewrite list_lookup_fmap, Hk. reflexivity.
    + exact Hiu'.
    + apply list_elem_of_In. exact Hil.
  - eapply Forall_impl; [exact Hord|]. intros u [Hs _]. exact Hs.
  - eapply Forall_impl; [exact Hord|]. intros u [Hs _].
    apply in_order_sorted; assumption.
  - exact Haddr.
  - intros u u' i j a b Hu Hu' Hi Hj Ha Hb Hdom Hbus.
    pose proof (grow_tree_settled H reg t Ht) as Hset.
    rewrite list.Forall_forall in Haddr.
    pose proof (Haddr u Hu) as Hau. pose proof (Haddr u' Hu') as Hau'.
    unfold bus_address in Hau, Hau'. rewrite list.Forall_forall in Hau, Hau'.
    destruct (Hau i Hi) as (a' & Ha' & Hda & Hna).
    destruct (Hau' j Hj) as (b' & Hb' & Hdb & Hnb).
    assert (a' = a) by congruence. assert (b' = b) by congruence. subst a' b'.
    apply (settled_one_bus t u u' Hset).
    + rewrite <- Hpb. exact Hu.
    + rewrite <- Hpb. exact Hu'.
    + intros He. rewrite He in Hi. inversion Hi.
    + intros He. rewrite He in Hj. inversion Hj.
    + congruence.
    + congruence.
Qed.

Lemma registry_one_bridge_sorted : Lspci.sorted_registry registry_one_bridge.
Proof. repeat constructor; vm_compute; discriminate. Qed.

Lemma grow_tree_links_each_device_once_witness :
  Lspci.sorted_registry registry_one_bridge /\
  exists t bs,
    Lspci.grow_tree sample_header registry_one_bridge = Some t /\
    Lspci.tree_buses t = Some bs /\
    devs_of bs ≡ₚ seq O (length registry_one_bridge) /\
    (forall i, (i < length registry_one_bridge)%nat ->
       exists k u, bs !! k = Some u /\ i ∈ Lspci.bus_devs u /\
         forall k' u', bs !! k' = Some u' -> i ∈ Lspci.bus_devs u' -> k' = k) /\
    Forall (fun u => StronglySorted lt (Lspci.bus_devs u)) bs /\
    Forall (bus_sorted registry_one_bridge) bs /\
    Forall (bus_address registry_one_bridge) bs.
Proof.
  split; [exact registry_one_bridge_sorted|].
  destruct (grow_tree_links_each_device_once sample_header registry_one_bridge
              registry_one_bridge_sorted)
    as (t & bs & Ht & Hbs & Hperm & Hone & Hord & Hsort & Haddr & _).
  exists t, bs. auto 10.
Defined.

(** The end-to-end scenario: bus 0 of the host bridge holds the bridge and
    the unrelated device, bus 1 below the bridge holds the downstream
    device. *)
Example grow_tree_one_bridge :
  (Lspci.grow_tree sample_header registry_one_bridge ≫= Lspci.tree_buses)
  = Some [ {| Lspci.bus_domain := 0; Lspci.number := 0;
              Lspci.bus_devs := [O; 1%nat] |};
           {| Lspci.bus_domain := 0; Lspci.number := 1;
              Lspci.bus_devs := [2%nat] |} ].
Proof. vm_compute. reflexivity. Qed.

(** In the tree every bridge hangs directly below the host bridge. *)
Lemma every_bridge_below_host H reg t ib :
  Lspci.grow_tree H reg = Some t -> (0 < ib < length t)%nat ->
  Lspci.parent t ib = Some O.
Proof.
  intros Ht Hib. apply parent_flat; [|exact Hib].
  apply (grow_tree_flat H reg t Ht).
Qed.



(** C4 (evaluation of the code).  With bridges A = [0,255] (position 1 of
    the chain), B = [10,20] (position 2) and C of primary bus 15
    (position 3), the parent of C is the host bridge (position 0), not B:
    the host bridge is a candidate and its [subordinate - primary] is
    [~0 - ~0 = 0], so neither A (255) nor B (20) is tighter.  Each line of
    the result gives secondary, subordinate, primary, span and children of
    a bridge of the chain: all three bridges are children of the host
    bridge, B has none. *)
Theorem nested_bridge_hangs_below_host :
  (Lspci.grow_tree sample_header registry_nested ≫= fun t : list Lspci.bridge =>
     Some (Lspci.parent t 3,
           (fun b => (Lspci.secondary b, Lspci.subordinate b, Lspci.primary b,
                      Lspci.span b, Lspci.child b)) <$> t))
  = Some (Some O,
          [ (0, 4294967295, 4294967295, 0, [3%nat; 2%nat; 1%nat]);
            (0, 255, 0, 255, []);
            (10, 20, 0, 20, []);
            (16, 16, 15, 1, []) ]).
Proof. vm_compute. reflexivity. Qed.

Lemma span_difference c :
  0 <= Lspci.primary c <= Lspci.subordinate c -> Lspci.subordinate c < 2 ^ 32 ->
  Lspci.span c = Lspci.subordinate c - Lspci.primary c.
Proof. intros Hp Hs. unfold Lspci.span. apply u32_small. lia. Qed.

(** The numbers [bridge_of] reads: for a bridge header those at the
    offsets of the cardbus header, else those at the offsets of the bridge
    header. *)
Lemma bridge_of_offsets H i d b :
  Lspci.bridge_of H i d = Some b ->
  Lspci.get_conf_word d (PCI_CLASS_DEVICE H) = PCI_CLASS_BRIDGE_PCI H /\
  ((Z.land (Lspci.get_conf_byte d (PCI_HEADER_TYPE H)) 127
      = PCI_HEADER_TYPE_BRIDGE H /\
    Lspci.primary b = Lspci.get_conf_byte d (PCI_CB_PRIMARY_BUS H) /\
    Lspci.secondary b = Lspci.get_conf_byte d (PCI_CB_CARD_BUS H) /\
    Lspci.subordinate b = Lspci.get_conf_byte d (PCI_CB_SUBORDINATE_BUS H))
   \/
   (Z.land (Lspci.get_conf_byte d (PCI_HEADER_TYPE H)) 127
      <> PCI_HEADER_TYPE_BRIDGE H /\
    Z.land (Lspci.get_conf_byte d (PCI_HEADER_TYPE H)) 127
      = PCI_HEADER_TYPE_CARDBUS H /\
    Lspci.primary b = Lspci.get_conf_byte d (PCI_PRIMARY_BUS H) /\
    Lspci.secondary b = Lspci.get_conf_byte d (PCI_SECONDARY_BUS H) /\
    Lspci.subordinate b = Lspci.get_conf_byte d (PCI_SUBORDINATE_BUS H))).
Proof.
  unfold Lspci.bridge_of. intros Hb.
  destruct (Z.eqb_spec (Lspci.get_conf_word d (PCI_CLASS_DEVICE H))
              (PCI_CLASS_BRIDGE_PCI H)) as [Hc|]; [|discriminate].
  split; [exact Hc|]. simpl in Hb.
  destruct (Z.eqb_spec (Z.land (Lspci.get_conf_byte d (PCI_HEADER_TYPE H)) 127)
              (PCI_HEADER_TYPE_BRIDGE H)) as [Hbr|Hnbr]; simpl in Hb.
  - left. inversion Hb; subst; simpl. auto.
  - right.
    destruct (Z.eqb_spec (Z.land (Lspci.get_conf_byte d (PCI_HEADER_TYPE H)) 127)
                (PCI_HEADER_TYPE_CARDBUS H)) as [Hcb|]; [|discriminate].
    inversion Hb; subst; simpl. auto.
Qed.



(** The bus-mapping mode reads the same device at the offsets of its own
    header: the claim it records is 0 -> 1-1. *)
Example do_map_bus_reads_the_bridge_header :
  (Lspci.probe_the_bus sample_header hw_split bus_0_filter
     ≫= fun s => Lspci.bridges <$> Lspci.table s !! O)
  = Some [ {| Lspci.this := 0; Lspci.bb_dev := 1; Lspci.bb_func := 0;
              Lspci.first := 1; Lspci.last := 1; Lspci.bug := None |} ].
Proof. vm_compute. reflexivity. Qed.

(** When [header.h] gives both headers the same three offsets the two
    branches of [grow_tree] read the same bytes. *)
Lemma same_offsets_same_numbers H i d b :
  PCI_CB_PRIMARY_BUS H = PCI_PRIMARY_BUS H ->
  PCI_CB_CARD_BUS H = PCI_SECONDARY_BUS H ->
  PCI_CB_SUBORDINATE_BUS H = PCI_SUBORDINATE_BUS H ->
  Lspci.bridge_of H i d = Some b ->
  Lspci.primary b = Lspci.get_conf_byte d (PCI_PRIMARY_BUS H) /\
  Lspci.secondary b = Lspci.get_conf_byte d (PCI_SECONDARY_BUS H) /\
  Lspci.subordinate b = Lspci.get_conf_byte d (PCI_SUBORDINATE_BUS H).
Proof.
  intros E1 E2 E3 Hb.
  destruct (bridge_of_offsets H i d b Hb) as [_ [(_ & Hp & Hs & Hsub)|(_ & _ & Hp & Hs & Hsub)]].
  - rewrite <- E1, <- E2, <- E3. auto.
  - auto.
Qed.

Lemma probe_stays_in_domain_0_witness :
  exists s,
    Lspci.probe_the_bus sample_header hw_split bus_0_filter = Some s /\
    length (Lspci.probed s) = 32%nat /\
    Forall (fun p => domain p = 0) (Lspci.probed s) /\
    Forall from_domain_0 (Lspci.messages s).
Proof.
  destruct (Lspci.probe_the_bus sample_header hw_split bus_0_filter)
    as [s|] eqn:Es; [|vm_compute in Es; discriminate].
  exists s. split; [reflexivity|]. split.
  - vm_compute in Es. inversion Es; subst s. reflexivity.
  - exact (probe_stays_in_domain_0 sample_header hw_split bus_0_filter s Es).
Defined.

(** C8 (as amended).  A bridge whose secondary bus number exceeds its
    subordinate bus number is accepted by both modes.  The bus-mapping
    mode clamps: [map_bridge] records the claim with last = first and
    prints the line "Bridge points to invalid bus range".  The tree builder
    does not: the bridge is in the tree with the numbers [bridge_of]
    read. *)
Theorem invalid_range_clamped_by_map_bridge H reg t i d b0 bi dv np ns nl :
  Lspci.get_conf_byte dv ns > Lspci.get_conf_byte dv nl ->
  Lspci.grow_tree H reg = Some t -> reg !! i = Some d ->
  Lspci.bridge_of H i d = Some b0 ->
  (exists c, Lspci.bridges (fst (Lspci.map_bridge bi dv np ns nl))
             = c :: Lspci.bridges bi
             /\ Lspci.first c = Lspci.get_conf_byte dv ns
             /\ Lspci.last c = Lspci.first c)
  /\ Lspci.InvalidRange ∈ snd (Lspci.map_bridge bi dv np ns nl)
  /\ (exists ib b, (0 < ib)%nat /\ t !! ib = Some b
        /\ Lspci.secondary b = Lspci.secondary b0
        /\ Lspci.subordinate b = Lspci.subordinate b0).
Proof.
  intros Hgt Ht Hd Hb0. split; [|split].
  - unfold Lspci.map_bridge. simpl. eexists. split; [reflexivity|]. simpl.
    split; [reflexivity|].
    destruct (Z.gtb_spec (Lspci.get_conf_byte dv ns) (Lspci.get_conf_byte dv nl));
      [reflexivity|lia].
  - unfold Lspci.map_bridge. simpl.
    destruct (Z.gtb_spec (Lspci.get_conf_byte dv ns) (Lspci.get_conf_byte dv nl));
      [|lia].
    right. apply elem_of_app. right. left.
  - destruct (grow_tree_keeps_bridge H reg t i d b0 Ht Hd Hb0)
      as (ib & b & Hib & Hb & Hfr).
    exists ib, b. split; [exact Hib|]. split; [exact Hb|].
    rewrite <- Hfr. split; reflexivity.
Qed.

Lemma invalid_range_clamped_by_map_bridge_witness :
  let d := bridge_dev (at_address 0 0 1 0) 0 30 20 in
  (exists c, Lspci.bridges (fst (Lspci.map_bridge Lspci.no_info d 24 25 26))
             = [c] /\ Lspci.first c = 30 /\ Lspci.last c = 30)
  /\ Lspci.InvalidRange ∈ snd (Lspci.map_bridge Lspci.no_info d 24 25 26)
  /\ (exists t ib b, Lspci.grow_tree sample_header registry_inverted = Some t
        /\ t !! ib = Some b
        /\ Lspci.secondary b = 30 /\ Lspci.subordinate b = 20).
Proof.
  intros d.
  destruct (Lspci.grow_tree sample_header registry_inverted) as [t|] eqn:Et;
    [|vm_compute in Et; discriminate].
  destruct (Lspci.bridge_of sample_header O d) as [b0|] eqn:Eb0;
    [|vm_compute in Eb0; discriminate].
  destruct (invalid_range_clamped_by_map_bridge sample_header registry_inverted
              t O d b0 Lspci.no_info d 24 25 26)
    as ((c & Hc & Hf & Hl) & Hflag & (ib & b & _ & Hb & Hs & Hsub)).
  - vm_compute. reflexivity.
  - exact Et.
  - reflexivity.
  - exact Eb0.
  - vm_compute in Eb0. inversion Eb0; subst b0. simpl in Hs, Hsub.
    split; [|split].
    + exists c. split; [exact Hc|]. split; [exact Hf|]. rewrite Hl. exact Hf.
    + exact Hflag.
    + exists t, ib, b. auto.
Defined.

(** C8 (counterexample).  The tree builder keeps a bridge with secondary
    30 and subordinate 20 as it is: its range is not clamped to [30,30],
    nothing is flagged, and the device on bus 30 is linked to a new bus 30
    of the host bridge while the bus 30 of the bridge stays empty.  Each
    line of the result gives secondary, subordinate and buses of a bridge
    of the chain, the host bridge first. *)
Lemma grow_tree_does_not_clamp :
  (Lspci.grow_tree sample_header registry_inverted ≫= fun t : list Lspci.bridge =>
     Some ((fun b => (Lspci.secondary b, Lspci.subordinate b,
                      Lspci.first_bus b)) <$> t))
  = Some
      [ (0, 4294967295,
         [ {| Lspci.bus_domain := 0; Lspci.number := 30;
              Lspci.bus_devs := [1%nat] |};
           {| Lspci.bus_domain := 0; Lspci.number := 0;
              Lspci.bus_devs := [O] |} ]);
        (30, 20,
         [ {| Lspci.bus_domain := 0; Lspci.number := 30;
              Lspci.bus_devs := [] |} ]) ].
Proof. vm_compute. reflexivity. Qed.

(** ** The walk over the bus table *)

Section WalkFacts.

Import Lspci.

Lemma fmap_alter_same {A B} (f : A -> B) (g : A -> A) (l : list A) i :
  (forall x, f (g x) = f x) -> f <$> alter g i l = f <$> l.
Proof.
  intros Hfg. rewrite (list_fmap_alter f g (fun y => y)).
  - apply list_alter_id. reflexivity.
  - apply list.Forall_forall. intros x _. apply Hfg.
Qed.

Lemma visited_marks w n : visited w n = default false (marks w !! n).
Proof.
  unfold visited, marks. rewrite list_lookup_fmap. reflexivity.
Qed.

Lemma ranges_length w : length (ranges w) = length (infos w).
Proof. unfold ranges. apply length_fmap. Qed.

Lemma marks_length w : length (marks w) = length (infos w).
Proof. unfold marks. apply length_fmap. Qed.

Lemma ranges_set_bug n k v w : ranges (set_bug n k v w) = ranges w.
Proof.
  unfold ranges, set_bug. simpl. apply fmap_alter_same. intros bi. simpl.
  apply fmap_alter_same. reflexivity.
Qed.

Lemma marks_set_bug n k v w : marks (set_bug n k v w) = marks w.
Proof. unfold marks, set_bug. simpl. apply fmap_alter_same. reflexivity. Qed.

Lemma ranges_set_via n b w : ranges (set_via n b w) = ranges w.
Proof. unfold ranges, set_via. simpl. apply fmap_alter_same. reflexivity. Qed.

Lemma marks_set_via n b w : marks (set_via n b w) = marks w.
Proof. unfold marks, set_via. simpl. apply fmap_alter_same. reflexivity. Qed.

Lemma ranges_enter n w : ranges (enter n w) = ranges w.
Proof. unfold ranges, enter. simpl. apply fmap_alter_same. reflexivity. Qed.

Lemma marks_enter n w : marks (enter n w) = alter (fun _ => true) n (marks w).
Proof.
  unfold marks, enter. simpl. apply list_fmap_alter.
  apply list.Forall_forall. reflexivity.
Qed.

Lemma via_of_set_bug n k v w m : via_of (set_bug n k v w) m = via_of w m.
Proof.
  unfold via_of, set_bug. simpl.
  destruct (decide (n = m)) as [->|Hne].
  - rewrite list_lookup_alter_eq. destruct (infos w !! m); reflexivity.
  - rewrite list_lookup_alter_ne by exact Hne. reflexivity.
Qed.

Lemma via_of_enter n w m : via_of (enter n w) m = via_of w m.
Proof.
  unfold via_of, enter. simpl.
  destruct (decide (n = m)) as [->|Hne].
  - rewrite list_lookup_alter_eq. destruct (infos w !! m); reflexivity.
  - rewrite list_lookup_alter_ne by exact Hne. reflexivity.
Qed.

Lemma via_of_set_via_ne n b w m : n <> m -> via_of (set_via n b w) m = via_of w m.
Proof.
  intros Hne. unfold via_of, set_via. simpl.
  rewrite list_lookup_alter_ne by exact Hne. reflexivity.
Qed.

Lemma via_of_set_via n b w :
  (n < length (infos w))%nat -> via_of (set_via n b w) n = Some b.
Proof.
  intros Hn. unfold via_of, set_via. simpl. rewrite list_lookup_alter_eq.
  destruct (infos w !! n) eqn:E; [reflexivity|].
  apply lookup_ge_None in E. lia.
Qed.

Lemma count_false_enter l : forall n,
  l !! n = Some false ->
  S (count_false (alter (fun _ => true) n l)) = count_false l.
Proof.
  induction l as [|m l IH]; intros n Hn; [discriminate|].
  destruct n as [|n].
  - simpl in Hn. inversion Hn; subst. reflexivity.
  - specialize (IH n Hn).
    change (alter (fun _ : bool => true) (S n) (m :: l))
      with (m :: alter (fun _ : bool => true) n l).
    cbn [count_false]. destruct m; lia.
Qed.

Lemma marks_lookup_false w n :
  (n < length (infos w))%nat -> visited w n = false -> marks w !! n = Some false.
Proof.
  intros Hn Hv. rewrite visited_marks in Hv.
  destruct (marks w !! n) as [m|] eqn:E.
  - simpl in Hv. subst. reflexivity.
  - apply lookup_ge_None in E. rewrite marks_length in E. lia.
Qed.

Lemma visited_eq w w' m : marks w' = marks w -> visited w' m = visited w m.
Proof. intros Hm. rewrite !visited_marks, Hm. reflexivity. Qed.

Lemma unvisited_eq w w' : marks w' = marks w -> unvisited w' = unvisited w.
Proof. intros Hm. unfold unvisited. rewrite Hm. reflexivity. Qed.

Lemma walked_refl w : walked w w.
Proof.
  split; [reflexivity|]. exists []. rewrite app_nil_r.
  split; [reflexivity|]. split; [constructor|]. split; [|split; [|split]].
  - intros m Hm. inversion Hm.
  - reflexivity.
  - simpl. lia.
  - reflexivity.
Qed.

(** A step that writes no flag and enters no bus. *)
Lemma walked_still w w' :
  ranges w' = ranges w -> marks w' = marks w -> entered w' = entered w ->
  (forall m, visited w m = true -> via_of w' m = via_of w m) ->
  walked w w'.
Proof.
  intros Hr Hm He Hvia. split; [exact Hr|]. exists []. rewrite app_nil_r.
  split; [exact He|]. split; [constructor|]. split; [|split; [|split]].
  - intros m Hin. inversion Hin.
  - intros m _. apply visited_eq. exact Hm.
  - simpl. rewrite (unvisited_eq _ _ Hm). lia.
  - exact Hvia.
Qed.

Lemma walked_enter n w :
  (n < length (infos w))%nat -> visited w n = false -> walked w (enter n w).
Proof.
  intros Hn Hv. pose proof (marks_lookup_false w n Hn Hv) as Hm.
  split; [apply ranges_enter|]. exists [n].
  split; [reflexivity|]. split; [apply NoDup_singleton|].
  split; [|split; [|split]].
  - intros m Hin. apply list_elem_of_singleton in Hin. subst m.
    split; [exact Hv|]. rewrite visited_marks, marks_enter.
    rewrite list_lookup_alter_eq, Hm. reflexivity.
  - intros m Hin. rewrite !visited_marks, marks_enter.
    rewrite list_lookup_alter_ne; [reflexivity|].
    intros ->. apply Hin. left.
  - unfold unvisited. rewrite marks_enter. simpl.
    rewrite <- (count_false_enter _ _ Hm). lia.
  - intros m _. apply via_of_enter.
Qed.

Lemma walked_visited w w' m :
  walked w w' -> visited w m = true -> visited w' m = true.
Proof.
  intros (_ & new & _ & _ & Hin & Hout & _) Hv.
  destruct (decide (m ∈ new)) as [Hm|Hm].
  - apply (Hin m Hm).
  - rewrite Hout; assumption.
Qed.

Lemma walked_trans w w1 w2 : walked w w1 -> walked w1 w2 -> walked w w2.
Proof.
  intros Hw1 Hw2.
  pose proof (walked_visited w w1) as Hmono.
  destruct Hw1 as (Hr1 & new1 & He1 & Hnd1 & Hin1 & Hout1 & Hc1 & Hv1).
  destruct Hw2 as (Hr2 & new2 & He2 & Hnd2 & Hin2 & Hout2 & Hc2 & Hv2).
  assert (Hdisj : forall m, m ∈ new1 -> m ∉ new2).
  { intros m H1 H2. destruct (Hin1 m H1) as [_ Ht].
    destruct (Hin2 m H2) as [Hf _]. congruence. }
  split; [congruence|]. exists (new1 ++ new2).
  split; [rewrite He2, He1, app_assoc; reflexivity|].
  split; [apply NoDup_app; auto|]. split; [|split; [|split]].
  - intros m Hm. apply elem_of_app in Hm as [Hm|Hm].
    + destruct (Hin1 m Hm) as [Hf Ht]. split; [exact Hf|].
      rewrite Hout2; [exact Ht|]. apply Hdisj. exact Hm.
    + destruct (Hin2 m Hm) as [Hf Ht]. split; [|exact Ht].
      rewrite <- Hout1; [exact Hf|].
      intros Hm1. apply (Hdisj m Hm1 Hm).
  - intros m Hm. rewrite Hout2, Hout1; [reflexivity| |];
      intros Hin; apply Hm, elem_of_app; auto.
  - rewrite length_app. lia.
  - intros m Hm. rewrite Hv2, Hv1; [reflexivity|exact Hm|].
    destruct (decide (m ∈ new1)) as [Hin|Hin].
    + apply (Hin1 m Hin).
    + rewrite Hout1; assumption.
Qed.

Lemma walked_unvisited w w' : walked w w' -> (unvisited w' <= unvisited w)%nat.
Proof. intros (_ & new & _ & _ & _ & _ & Hc & _). lia. Qed.

Lemma walked_length w w' : walked w w' -> length (infos w') = length (infos w).
Proof. intros [Hr _]. rewrite <- !ranges_length, Hr. reflexivity. Qed.

Lemma walked_claims_in_table w w' :
  walked w w' -> claims_in_table w -> claims_in_table w'.
Proof. intros [Hr _]. unfold claims_in_table. rewrite Hr. auto. Qed.

Lemma unvisited_pos w n :
  (n < length (infos w))%nat -> visited w n = false -> (1 <= unvisited w)%nat.
Proof.
  intros Hn Hv. pose proof (marks_lookup_false w n Hn Hv) as Hm.
  unfold unvisited. rewrite <- (count_false_enter _ _ Hm). lia.
Qed.

Lemma claims_in_range w n :
  claims_in_table w ->
  Forall (fun b => 0 <= first b < Z.of_nat (length (infos w))) (claims w n).
Proof.
  intros Hc. unfold claims.
  destruct (infos w !! n) as [bi|] eqn:E; simpl; [|constructor].
  unfold claims_in_table in Hc. rewrite list.Forall_forall in Hc.
  assert (Hin : ((fun b => (first b, last b)) <$> bridges bi) ∈ ranges w).
  { unfold ranges. apply list_elem_of_fmap. exists bi. split; [reflexivity|].
    eapply list_elem_of_lookup_2. exact E. }
  specialize (Hc _ Hin). apply Forall_fmap in Hc.
  rewrite ranges_length in Hc. exact Hc.
Qed.

Lemma walked_set_bug n k v w : walked w (set_bug n k v w).
Proof.
  apply walked_still;
    [apply ranges_set_bug|apply marks_set_bug|reflexivity|].
  intros m _. apply via_of_set_bug.
Qed.

Lemma walked_set_via n b w : visited w n = false -> walked w (set_via n b w).
Proof.
  intros Hn. apply walked_still;
    [apply ranges_set_via|apply marks_set_via|reflexivity|].
  intros m Hm. apply via_of_set_via_ne. intros ->. congruence.
Qed.

(** The loop over the claims ends when every recursive call it makes
    ends. *)
Lemma map_claims_total f n min max :
  (forall m lo hi w, claims_in_table w -> (m < length (infos w))%nat ->
     visited w m = false -> (unvisited w <= f)%nat ->
     exists w', do_map_bridges f m lo hi w = Some w' /\ walked w w') ->
  forall bs k w N,
    claims_in_table w -> length (infos w) = N ->
    Forall (fun b => 0 <= first b < Z.of_nat N) bs ->
    (unvisited w <= f)%nat ->
    exists w', map_claims (do_map_bridges f) n min max k bs w = Some w'
               /\ walked w w'.
Proof.
  intros Hrec. induction bs as [|b bs IH]; intros k w N Hc HN Hbs Hu; simpl.
  - exists w. split; [reflexivity|apply walked_refl].
  - apply Forall_cons in Hbs as [Hb Hbs].
    assert (Hstep : exists w1, map_claim (do_map_bridges f) n min max k b w
                               = Some w1 /\ walked w w1).
    { unfold map_claim.
      destruct (visited w (Z.to_nat (first b))) eqn:Ev;
        [eexists; split; [reflexivity|apply walked_set_bug]|].
      destruct ((first b <? min) || (last b >? max));
        [eexists; split; [reflexivity|apply walked_set_bug]|].
      pose proof (walked_set_via (Z.to_nat (first b)) (n, k) w Ev) as Hv.
      destruct (Hrec (Z.to_nat (first b)) (first b) (last b)
                  (set_via (Z.to_nat (first b)) (n, k) w))
        as (w1 & Hw1 & Hwalk).
      - eapply walked_claims_in_table; eassumption.
      - rewrite (walked_length _ _ Hv). lia.
      - rewrite (visited_eq w _ _ (marks_set_via _ _ w)). exact Ev.
      - pose proof (walked_unvisited _ _ Hv). lia.
      - exists w1. split; [exact Hw1|]. eapply walked_trans; eassumption. }
    destruct Hstep as (w1 & Hw1 & Hwalk1). rewrite Hw1.
    destruct (IH (S k) w1 N) as (w' & Hw' & Hwalk').
    + eapply walked_claims_in_table; eassumption.
    + rewrite (walked_length _ _ Hwalk1). exact HN.
    + exact Hbs.
    + pose proof (walked_unvisited _ _ Hwalk1). lia.
    + exists w'. split; [exact Hw'|]. eapply walked_trans; eassumption.
Qed.

(** [do_map_bridges] ends on a bus that is not visited when the fuel
    covers the buses not visited yet; it enters that bus first. *)
Lemma do_map_bridges_total fuel : forall n min max w,
  claims_in_table w -> (n < length (infos w))%nat ->
  visited w n = false -> (unvisited w <= fuel)%nat ->
  exists w', do_map_bridges fuel n min max w = Some w' /\ walked w w'
    /\ walked (enter n w) w'.
Proof.
  induction fuel as [|f IH]; intros n min max w Hc Hn Hv Hu.
  - pose proof (unvisited_pos w n Hn Hv). lia.
  - simpl. pose proof (walked_enter n w Hn Hv) as He.
    destruct (map_claims_total f n min max) with
      (bs := claims (enter n w) n) (k := O) (w := enter n w)
      (N := length (infos (enter n w))) as (w' & Hw' & Hwalk).
    + intros m lo hi w0 Hc0 Hm Hv0 Hu0.
      destruct (IH m lo hi w0 Hc0 Hm Hv0 Hu0) as (w1 & H1 & H2 & _).
      exists w1. auto.
    + eapply walked_claims_in_table; eassumption.
    + reflexivity.
    + apply claims_in_range. eapply walked_claims_in_table; eassumption.
    + destruct He as (_ & new & Hnew & _ & _ & _ & Hcount & _).
      assert (length new = 1%nat) as Hl.
      { simpl in Hnew. apply app_inv_head in Hnew. subst new. reflexivity. }
      lia.
    + exists w'. split; [exact Hw'|]. split; [|exact Hwalk].
      eapply walked_trans; eassumption.
Qed.

Lemma map_bridges_from_total fuel k : forall i w,
  claims_in_table w -> (i + k <= length (infos w))%nat ->
  (unvisited w <= fuel)%nat ->
  exists w', map_bridges_from fuel k i w = Some w' /\ walked w w'.
Proof.
  induction k as [|k IH]; intros i w Hc Hi Hu; simpl.
  - exists w. split; [reflexivity|apply walked_refl].
  - assert (Hstep : exists w1,
      (if default false (exists_ <$> infos w !! i) && negb (visited w i)
       then do_map_bridges fuel i 0 255 w else Some w) = Some w1
      /\ walked w w1).
    { destruct (default false (exists_ <$> infos w !! i)); simpl;
        [|exists w; split; [reflexivity|apply walked_refl]].
      destruct (visited w i) eqn:Ev; simpl;
        [exists w; split; [reflexivity|apply walked_refl]|].
      destruct (do_map_bridges_total fuel i 0 255 w Hc ltac:(lia) Ev Hu)
        as (w1 & H1 & H2 & _).
      exists w1. auto. }
    destruct Hstep as (w1 & Hw1 & Hwalk1). rewrite Hw1.
    destruct (IH (S i) w1) as (w' & Hw' & Hwalk').
    + eapply walked_claims_in_table; eassumption.
    + rewrite (walked_length _ _ Hwalk1). lia.
    + pose proof (walked_unvisited _ _ Hwalk1). lia.
    + exists w'. split; [exact Hw'|]. eapply walked_trans; eassumption.
Qed.

Lemma count_false_length l : (count_false l <= length l)%nat.
Proof. induction l as [|m l IH]; simpl; [lia|]. destruct m; lia. Qed.

End WalkFacts.

Section WalkFuel.

Import Lspci.

(** More fuel does not change a walk that has ended. *)
Lemma map_claims_more (rec rec' : nat -> Z -> Z -> walk -> option walk) n min max :
  (forall m lo hi w w', rec m lo hi w = Some w' -> rec' m lo hi w = Some w') ->
  forall bs k w w',
    map_claims rec n min max k bs w = Some w' ->
    map_claims rec' n min max k bs w = Some w'.
Proof.
  intros Hrec. induction bs as [|b bs IH]; intros k w w' Hw; simpl in *;
    [exact Hw|].
  destruct (map_claim rec n min max k b w) as [w1|] eqn:E1; [|discriminate].
  assert (E1' : map_claim rec' n min max k b w = Some w1).
  { unfold map_claim in *.
    destruct (visited w (Z.to_nat (first b))); [exact E1|].
    destruct ((first b <? min) || (last b >? max)); [exact E1|].
    apply Hrec. exact E1. }
  rewrite E1'. apply IH. exact Hw.
Qed.

Lemma do_map_bridges_more f : forall n min max w w',
  do_map_bridges f n min max w = Some w' ->
  do_map_bridges (S f) n min max w = Some w'.
Proof.
  induction f as [|f IH]; intros n min max w w' Hw; [discriminate|].
  change (map_claims (do_map_bridges (S f)) n min max O
            (claims (enter n w) n) (enter n w) = Some w').
  change (map_claims (do_map_bridges f) n min max O
            (claims (enter n w) n) (enter n w) = Some w') in Hw.
  eapply map_claims_more; [|exact Hw]. exact IH.
Qed.

Lemma do_map_bridges_fuel f f' n min max w w' :
  (f <= f')%nat -> do_map_bridges f n min max w = Some w' ->
  do_map_bridges f' n min max w = Some w'.
Proof.
  induction 1 as [|f' _ IH]; intros Hw; [exact Hw|].
  apply do_map_bridges_more, IH, Hw.
Qed.

Lemma map_bridges_from_fuel f f' k : (f <= f')%nat -> forall i w w',
  map_bridges_from f k i w = Some w' -> map_bridges_from f' k i w = Some w'.
Proof.
  intros Hf. induction k as [|k IH]; intros i w w' Hw; simpl in *; [exact Hw|].
  destruct (default false (exists_ <$> infos w !! i) && negb (visited w i)).
  - destruct (do_map_bridges f i 0 255 w) as [w1|] eqn:E; [|discriminate].
    rewrite (do_map_bridges_fuel f f' _ _ _ _ _ Hf E). apply IH. exact Hw.
  - apply IH. exact Hw.
Qed.

Lemma byte_table_claims tbl : byte_table tbl -> claims_in_table (start tbl).
Proof.
  intros [Hlen Hall]. unfold claims_in_table. rewrite ranges_length. simpl.
  rewrite Hlen. unfold ranges. simpl. apply Forall_fmap.
  eapply Forall_impl; [exact Hall|]. simpl. intros bi Hbi.
  apply Forall_fmap. eapply Forall_impl; [exact Hbi|]. simpl. intros b Hb. lia.
Qed.

End WalkFuel.

(** The first loop of [map_bridges] over a table of bytes ends with fuel
    256. *)
Lemma map_bridges_from_start tbl :
  byte_table tbl ->
  exists w, Lspci.map_bridges_from 256 256 O (start tbl) = Some w
            /\ walked (start tbl) w.
Proof.
  intros Hbt. pose proof (byte_table_claims tbl Hbt) as Hc.
  destruct Hbt as [Hlen _].
  apply map_bridges_from_total.
  - exact Hc.
  - simpl. lia.
  - unfold unvisited. pose proof (count_false_length (marks (start tbl))) as Hl.
    rewrite marks_length in Hl. simpl in Hl. lia.
Qed.

(** The probe leaves a table of 256 entries whose claims are bytes. *)
Section ProbeTable.

Import Lspci.

Variable H : header_h.
Variable hw : hardware.
Variable filter : pci_filter.

Lemma map_func_bytes n d f limit s limit' s' :
  byte_table (table s) -> map_func H hw filter n d f limit s = Some (limit', s') ->
  byte_table (table s').
Proof.
  intros [Hlen Hall] Hmap. unfold map_func in Hmap.
  destruct ((f_func filter <? 0) || (f_func filter =? f));
    [|inversion Hmap; subst; split; assumption].
  set (p := {| domain := 0; bus := n; dev := d; func := f |}) in *.
  destruct (negb (pci_read_word hw p (PCI_VENDOR_ID H) =? 0)
            && negb (pci_read_word hw p (PCI_VENDOR_ID H) =? 65535));
    [|inversion Hmap; subst; split; assumption].
  simpl table in Hmap.
  assert (Hex : byte_table (alter set_exists (Z.to_nat n) (table s))).
  { split; [rewrite length_alter; exact Hlen|].
    apply Forall_alter; [exact Hall|]. intros bi _ Hbi. exact Hbi. }
  assert (Hbr : forall dv np ns nl,
            byte_table
              (<[Z.to_nat n :=
                   fst (map_bridge
                          (default no_info
                             (alter set_exists (Z.to_nat n) (table s) !! Z.to_nat n))
                          dv np ns nl)]>
                 (alter set_exists (Z.to_nat n) (table s)))).
  { intros dv np ns nl. destruct Hex as [Hl Ha].
    split; [rewrite length_insert; exact Hl|].
    apply Forall_insert; [exact Ha|]. unfold map_bridge. simpl.
    constructor.
    - simpl. unfold get_conf_byte. apply conf_range.
    - destruct (alter set_exists (Z.to_nat n) (table s) !! Z.to_nat n)
        as [bi|] eqn:E; simpl; [|constructor].
      rewrite list.Forall_forall in Ha. apply Ha.
      eapply list_elem_of_lookup_2. exact E. }
  destruct (scan_device H hw (pci_filter_match filter) p) as [| |dv];
    [inversion Hmap; subst; exact Hex|discriminate|].
  destruct (Z.land (get_conf_byte dv (PCI_HEADER_TYPE H)) 127
            =? PCI_HEADER_TYPE_BRIDGE H).
  - specialize (Hbr dv (PCI_PRIMARY_BUS H) (PCI_SECONDARY_BUS H)
                  (PCI_SUBORDINATE_BUS H)).
    destruct (map_bridge _ dv (PCI_PRIMARY_BUS H) (PCI_SECONDARY_BUS H)
                (PCI_SUBORDINATE_BUS H)) as [bi' msgs].
    inversion Hmap; subst. exact Hbr.
  - destruct (Z.land (get_conf_byte dv (PCI_HEADER_TYPE H)) 127
              =? PCI_HEADER_TYPE_CARDBUS H).
    + specialize (Hbr dv (PCI_CB_PRIMARY_BUS H) (PCI_CB_CARD_BUS H)
                    (PCI_CB_SUBORDINATE_BUS H)).
      destruct (map_bridge _ dv (PCI_CB_PRIMARY_BUS H) (PCI_CB_CARD_BUS H)
                  (PCI_CB_SUBORDINATE_BUS H)) as [bi' msgs].
      inversion Hmap; subst. exact Hbr.
    + inversion Hmap; subst. exact Hex.
Qed.

Lemma map_funcs_bytes k : forall n d f limit s s',
  byte_table (table s) -> map_funcs H hw filter k n d f limit s = Some s' ->
  byte_table (table s').
Proof.
  induction k as [|k IH]; intros n d f limit s s' Hs Hm; simpl in Hm.
  - inversion Hm; subst; exact Hs.
  - destruct (f <? limit); [|inversion Hm; subst; exact Hs].
    destruct (map_func H hw filter n d f limit s) as [[limit' s1]|] eqn:E;
      [|discriminate].
    eapply IH; [|exact Hm]. eapply map_func_bytes; eassumption.
Qed.

Lemma map_devs_bytes k : forall n d s s',
  byte_table (table s) -> map_devs H hw filter k n d s = Some s' ->
  byte_table (table s').
Proof.
  induction k as [|k IH]; intros n d s s' Hs Hm; cbn [map_devs] in Hm.
  - inversion Hm; subst; exact Hs.
  - destruct ((f_slot filter <? 0) || (f_slot filter =? d)).
    + destruct (map_funcs H hw filter 8 n d 0 1 s) as [s1|] eqn:E; [|discriminate].
      eapply IH; [|exact Hm]. eapply map_funcs_bytes; eassumption.
    + eapply IH; eassumption.
Qed.

Lemma map_buses_bytes k : forall n s s',
  byte_table (table s) -> map_buses H hw filter k n s = Some s' ->
  byte_table (table s').
Proof.
  induction k as [|k IH]; intros n s s' Hs Hm; cbn [map_buses] in Hm.
  - inversion Hm; subst; exact Hs.
  - destruct (do_map_bus H hw filter n s) as [s1|] eqn:E; [|discriminate].
    eapply IH; [|exact Hm]. eapply map_devs_bytes; eassumption.
Qed.

Lemma probe_the_bus_bytes s :
  probe_the_bus H hw filter = Some s -> byte_table (table s).
Proof.
  unfold probe_the_bus. intros Hp.
  assert (H0 : byte_table (table {| table := replicate 256 no_info;
                                    probed := []; messages := [] |})).
  { split; [reflexivity|]. cbn [table]. apply Forall_replicate. constructor. }
  destruct (f_bus filter >=? 0).
  - eapply map_devs_bytes; eassumption.
  - eapply map_buses_bytes; eassumption.
Qed.

(** Whatever the probe finds, the walk over its table ends, and no bus is
    entered twice. *)
Lemma map_the_bus_ends s :
  probe_the_bus H hw filter = Some s ->
  exists w, (forall fuel, (256 <= fuel)%nat ->
               map_the_bus H hw filter fuel = Some w)
            /\ NoDup (entered w).
Proof.
  intros Hs.
  destruct (map_bridges_from_start (table s) (probe_the_bus_bytes s Hs))
    as (w & Hw & Hwalk).
  exists w. split.
  - intros fuel Hfuel. unfold map_the_bus, map_bridges. rewrite Hs.
    eapply map_bridges_from_fuel; [exact Hfuel|exact Hw].
  - destruct Hwalk as (_ & new & He & Hnd & _). simpl in He. subst new.
    exact Hnd.
Qed.

End ProbeTable.

(** C7.  On every table of 256 buses whose claims are bytes, cyclic or
    duplicate claims included, the walk of [map_bridges] ends, with the
    same result for every fuel from 256 on; no bus is entered twice, every
    bus entered had its guestbook flag clear before the walk and has it
    set after, and no other flag changes. *)
Theorem map_bridges_ends_and_enters_once (tbl : list Lspci.bus_info_t) :
  byte_table tbl ->
  exists w,
    (forall fuel, (256 <= fuel)%nat -> Lspci.map_bridges fuel tbl = Some w) /\
    NoDup (Lspci.entered w) /\
    (forall n, n ∈ Lspci.entered w ->
       Lspci.visited (start tbl) n = false /\ Lspci.visited w n = true) /\
    (forall n, n ∉ Lspci.entered w ->
       Lspci.visited w n = Lspci.visited (start tbl) n) /\
    ranges w = ranges (start tbl).
Proof.
  intros Hbt.
  destruct (map_bridges_from_start tbl Hbt) as (w & Hw & Hwalk).
  exists w. split.
  - intros fuel Hfuel. unfold Lspci.map_bridges.
    eapply map_bridges_from_fuel; [exact Hfuel|exact Hw].
  - destruct Hwalk as (Hr & new & He & Hnd & Hin & Hout & _).
    simpl in He. subst new. auto.
Qed.

Lemma cyclic_table_bytes : byte_table cyclic_table.
Proof. split; [reflexivity|]. apply (bool_decide_unpack _). vm_compute. exact I. Qed.

Lemma map_bridges_ends_and_enters_once_witness :
  exists w,
    Lspci.map_bridges 256 cyclic_table = Some w /\
    NoDup (Lspci.entered w) /\
    (forall n, n ∈ Lspci.entered w ->
       Lspci.visited (start cyclic_table) n = false /\ Lspci.visited w n = true).
Proof.
  destruct (map_bridges_ends_and_enters_once cyclic_table cyclic_table_bytes)
    as (w & Hw & Hnd & Hin & _).
  exists w. split; [apply Hw; lia|]. auto.
Defined.

(** The loop of claims: bus 0 and bus 1 are entered once each, and the
    claim of bus 1 on bus 0 is tagged overlap. *)
Example map_bridges_cyclic :
  (fun w => (Lspci.entered w, tags w 0, tags w 1))
    <$> Lspci.map_bridges 256 cyclic_table
  = Some ([O; 1%nat], [None], [Some 1]).
Proof. vm_compute. reflexivity. Qed.

(** The overlap case: of the two claims on bus 5 one is followed, the
    other is tagged overlap, and bus 5 is entered once. *)
Example map_bridges_overlap :
  (fun w => (Lspci.entered w, tags w 0, via_of w 5))
    <$> Lspci.map_bridges 256 overlap_table
  = Some ([O; 5%nat], [None; Some 1], Some (O, O)).
Proof. vm_compute. reflexivity. Qed.

(** The crossing case: below the claim [10,20] the claim [5,30] is tagged
    crossing and bus 5 is not entered. *)
Example map_bridges_crossing :
  (fun w => (Lspci.entered w, tags w 0, tags w 10, via_of w 10, via_of w 5))
    <$> Lspci.map_bridges 256 crossing_table
  = Some ([O; 10%nat], [None], [Some 2], Some (O, O), None).
Proof. vm_compute. reflexivity. Qed.





(** * Further facts about the code *)

(** ** Sorting *)

Section CompareFacts.

Import Lspci.

Lemma pci_dev_eq (a b : pci_dev) :
  domain a = domain b -> bus a = bus b -> dev a = dev b -> func a = func b ->
  a = b.
Proof. destruct a, b; simpl. intros -> -> -> ->. reflexivity. Qed.

(** The three results of [compare_them] and what each says of the two
    addresses. *)
Lemma compare_them_cases a b :
  (compare_them a b = -1 /\ address_lt a b)
  \/ (compare_them a b = 0 /\ a = b)
  \/ (compare_them a b = 1 /\ address_lt b a).
Proof.
  unfold compare_them, address_lt.
  destruct (Z.ltb_spec (domain a) (domain b)); [left; split; [reflexivity|lia]|].
  destruct (Z.gtb_spec (domain a) (domain b));
    [right; right; split; [reflexivity|lia]|].
  destruct (Z.ltb_spec (bus a) (bus b)); [left; split; [reflexivity|lia]|].
  destruct (Z.gtb_spec (bus a) (bus b));
    [right; right; split; [reflexivity|lia]|].
  destruct (Z.ltb_spec (dev a) (dev b)); [left; split; [reflexivity|lia]|].
  destruct (Z.gtb_spec (dev a) (dev b));
    [right; right; split; [reflexivity|lia]|].
  destruct (Z.ltb_spec (func a) (func b)); [left; split; [reflexivity|lia]|].
  destruct (Z.gtb_spec (func a) (func b));
    [right; right; split; [reflexivity|lia]|].
  right; left. split; [reflexivity|]. apply pci_dev_eq; lia.
Qed.

Lemma address_lt_irrefl a : ~ address_lt a a.
Proof. unfold address_lt. lia. Qed.

Lemma address_lt_trans a b c : address_lt a b -> address_lt b c -> address_lt a c.
Proof. unfold address_lt. lia. Qed.

End CompareFacts.

(** X1.  [compare_them] is a three-way comparison of the addresses
    (domain, bus, device, function): it gives 0 exactly for equal
    addresses, -1 exactly when the first address comes first, and
    exchanging the arguments negates the result. *)
Theorem compare_them_orders_addresses (a b : pci_dev) :
  (Lspci.compare_them a b = 0 <-> a = b)
  /\ (Lspci.compare_them a b = -1 <-> address_lt a b)
  /\ (Lspci.compare_them a b = 1 <-> address_lt b a)
  /\ Lspci.compare_them b a = - Lspci.compare_them a b.
Proof.
  assert (Hne : forall x y, address_lt x y -> x <> y).
  { intros x y L ->. exact (address_lt_irrefl _ L). }
  assert (Hasym : forall x y, address_lt x y -> ~ address_lt y x).
  { intros x y L L'. exact (address_lt_irrefl _ (address_lt_trans _ _ _ L L')). }
  destruct (compare_them_cases a b) as [[E L]|[[E L]|[E L]]];
    destruct (compare_them_cases b a) as [[E' L']|[[E' L']|[E' L']]];
    try (exfalso; eapply Hasym; eassumption);
    try (exfalso; eapply Hne; [eassumption|congruence]);
    rewrite E, E'.
  - split; [split; [lia|intros Hab; exfalso; exact (Hne _ _ L Hab)]|].
    split; [tauto|]. split; [|reflexivity].
    split; [lia|intros Lb; exfalso; exact (Hasym _ _ L Lb)].
  - subst b. split; [tauto|].
    split; [split; [lia|intros La; exfalso; exact (address_lt_irrefl _ La)]|].
    split; [split; [lia|intros La; exfalso; exact (address_lt_irrefl _ La)]|].
    reflexivity.
  - split; [split; [lia|intros Hab; exfalso; exact (Hne _ _ L (eq_sym Hab))]|].
    split; [split; [lia|intros La; exfalso; exact (Hasym _ _ L La)]|].
    split; [tauto|reflexivity].
Qed.

(** X2.  [compare_them] is transitive, as [qsort] requires of its
    comparison: if [a] does not come after [b] and [b] does not come after
    [c], then [a] does not come after [c]. *)
Theorem compare_them_transitive (a b c : pci_dev) :
  Lspci.compare_them a b <= 0 -> Lspci.compare_them b c <= 0 ->
  Lspci.compare_them a c <= 0.
Proof.
  intros Hab Hbc.
  destruct (compare_them_cases a b) as [[E L]|[[E L]|[E L]]]; [| |lia];
    destruct (compare_them_cases b c) as [[E' L']|[[E' L']|[E' L']]];
    try lia; subst; try lia.
  destruct (compare_them_cases a c) as [[E2 L2]|[[E2 L2]|[E2 L2]]]; try lia.
  exfalso. apply (address_lt_irrefl a).
  eapply address_lt_trans; [exact L|]. eapply address_lt_trans; eassumption.
Qed.

Lemma compare_them_transitive_witness :
  Lspci.compare_them (at_address 0 0 1 0) (at_address 0 0 3 0) <= 0
  /\ Lspci.compare_them (at_address 0 0 3 0) (at_address 0 1 0 0) <= 0
  /\ Lspci.compare_them (at_address 0 0 1 0) (at_address 0 1 0 0) <= 0.
Proof.
  assert (H1 : Lspci.compare_them (at_address 0 0 1 0) (at_address 0 0 3 0) <= 0)
    by (vm_compute; discriminate).
  assert (H2 : Lspci.compare_them (at_address 0 0 3 0) (at_address 0 1 0 0) <= 0)
    by (vm_compute; discriminate).
  exact (conj H1 (conj H2 (compare_them_transitive _ _ _ H1 H2))).
Defined.

(** ** Configuration space: reading and scanning *)

Section ScanFacts.

Import Lspci.

Lemma lookup_read_bytes hw p pos len (i : nat) :
  (i < Z.to_nat len)%nat ->
  read_bytes hw p pos len !! i = Some (hw_space hw p (pos + Z.of_nat i)).
Proof.
  intros Hi. unfold read_bytes. rewrite list_lookup_fmap.
  rewrite lookup_seq_lt by exact Hi. reflexivity.
Qed.

Lemma length_read_bytes hw p pos len :
  length (read_bytes hw p pos len) = Z.to_nat len.
Proof. unfold read_bytes. rewrite length_fmap, length_seq. reflexivity. Qed.

(** A block stored inside a buffer: the bytes of the block where it lies,
    the bytes of the buffer elsewhere. *)
Lemma lookup_store_block buf pos bs (i : nat) :
  0 <= pos -> (Z.to_nat pos + length bs <= length buf)%nat ->
  store_block buf pos bs !! i
  = if (Z.to_nat pos <=? i)%nat && (i <? Z.to_nat pos + length bs)%nat
    then bs !! (i - Z.to_nat pos)%nat else buf !! i.
Proof.
  intros Hpos Hfit. unfold store_block.
  destruct (Nat.leb_spec (Z.to_nat pos) i) as [Hle|Hlt]; simpl.
  - rewrite lookup_app_r by (rewrite length_take; lia).
    rewrite length_take, Nat.min_l by lia.
    destruct (Nat.ltb_spec i (Z.to_nat pos + length bs)) as [Hin|Hout].
    + rewrite lookup_app_l by lia. reflexivity.
    + rewrite lookup_app_r by lia. rewrite lookup_drop. f_equal. lia.
  - rewrite lookup_app_l by (rewrite length_take; lia).
    rewrite lookup_take_lt by lia. reflexivity.
Qed.

Lemma length_store_block buf pos bs :
  0 <= pos -> (Z.to_nat pos + length bs <= length buf)%nat ->
  length (store_block buf pos bs) = length buf.
Proof.
  intros Hpos Hfit. unfold store_block.
  rewrite !length_app, length_take, length_drop. lia.
Qed.

(** The array after a read of [len] bytes at [pos] that fits in it. *)
Lemma conf_after_read hw p cnt buf pos len i :
  0 <= pos -> 0 <= len -> (Z.to_nat (pos + len) <= length buf)%nat -> 0 <= i ->
  conf {| d_dev := p; config_cnt := cnt;
          config := store_block buf pos (read_bytes hw p pos len) |} i
  = if (pos <=? i) && (i <? pos + len) then byte_val (hw_space hw p i)
    else byte_val (default x00 (buf !! Z.to_nat i)).
Proof.
  intros Hpos Hlen Hfit Hi. unfold conf. simpl.
  rewrite lookup_store_block by (rewrite ?length_read_bytes; lia).
  rewrite length_read_bytes.
  destruct (Z.leb_spec pos i) as [Hle|Hlt];
    destruct (Nat.leb_spec (Z.to_nat pos) (Z.to_nat i)); try lia; simpl.
  - destruct (Z.ltb_spec i (pos + len));
      destruct (Nat.ltb_spec (Z.to_nat i) (Z.to_nat pos + Z.to_nat len));
      try lia.
    rewrite lookup_read_bytes by lia. simpl. do 2 f_equal. lia.
  - reflexivity.
Qed.

Lemma replicate_zero_lookup (n i : nat) :
  byte_val (default x00 (replicate n x00 !! i)) = 0.
Proof.
  destruct (replicate n x00 !! i) as [v|] eqn:E; [|reflexivity].
  apply lookup_replicate in E as [-> _]. reflexivity.
Qed.

Lemma scan_onto_spec H hw fm devices : forall acc reg,
  scan_onto H hw fm devices acc = Some reg ->
  d_dev <$> reg = reverse (List.filter fm devices) ++ (d_dev <$> acc).
Proof.
  induction devices as [|p ps IH]; intros acc reg Hs; simpl in Hs.
  - inversion Hs; subst. reflexivity.
  - simpl. destruct (scan_device H hw fm p) as [| |d] eqn:E; [| discriminate |].
    + assert (Hf : fm p = false).
      { unfold scan_device in E. destruct (fm p); [|reflexivity]. simpl in E.
        repeat match type of E with
               | (if ?c then _ else _) = _ => destruct c
               end; discriminate. }
      rewrite Hf. apply IH. exact Hs.
    + assert (Hf : fm p = true).
      { unfold scan_device in E. destruct (fm p); [reflexivity|discriminate]. }
      rewrite Hf. rewrite reverse_cons, <- app_assoc. simpl.
      rewrite (IH _ _ Hs). simpl.
      rewrite (scan_device_dev H hw fm p d E). reflexivity.
Qed.

Lemma scan_onto_none H hw fm devices : forall acc,
  scan_onto H hw fm devices acc = None ->
  exists p, p ∈ devices /\ scan_device H hw fm p = Died.
Proof.
  induction devices as [|p ps IH]; intros acc Hn; simpl in Hn; [discriminate|].
  destruct (scan_device H hw fm p) as [| |d] eqn:E.
  - destruct (IH _ Hn) as (q & Hq & Hd). exists q. split; [right|]; assumption.
  - exists p. split; [left|exact E].
  - destruct (IH _ Hn) as (q & Hq & Hd). exists q. split; [right|]; assumption.
Qed.

Lemma scan_onto_died H hw fm devices : forall acc p,
  p ∈ devices -> scan_device H hw fm p = Died ->
  scan_onto H hw fm devices acc = None.
Proof.
  induction devices as [|q ps IH]; intros acc p Hin Hd; [inversion Hin|].
  simpl. apply elem_of_cons in Hin as [->|Hin].
  - rewrite Hd. reflexivity.
  - destruct (scan_device H hw fm q); [|reflexivity|]; eapply IH; eassumption.
Qed.

End ScanFacts.

(** X3.  What [scan_device] leaves in a device it returns: the address it
    was given, 64 cached bytes, or 128 when the header type read from the
    device is that of a cardbus bridge; the cached bytes are those of the
    hardware and the rest of the array [config] is zero. *)
Theorem scan_device_caches_the_header H hw fm p (d : Lspci.device) :
  0 <= PCI_HEADER_TYPE H < 64 ->
  Lspci.scan_device H hw fm p = Lspci.Scanned d ->
  Lspci.d_dev d = p
  /\ length (Lspci.config d) = 256%nat
  /\ (Lspci.config_cnt d
      = if Z.land (byte_val (hw_space hw p (PCI_HEADER_TYPE H))) 127
           =? PCI_HEADER_TYPE_CARDBUS H then 128 else 64)
  /\ (forall i, 0 <= i < Lspci.config_cnt d ->
        Lspci.get_conf_byte d i = byte_val (hw_space hw p i))
  /\ (forall i, Lspci.config_cnt d <= i -> Lspci.get_conf_byte d i = 0).
Proof.
  intros Hht Hs. unfold Lspci.scan_device in Hs.
  destruct (negb (fm p)); [discriminate|].
  destruct (negb (hw_ok hw p 0 64)); [discriminate|].
  assert (H0 : forall cnt i, 0 <= i ->
            Lspci.conf {| Lspci.d_dev := p; Lspci.config_cnt := cnt;
                          Lspci.config := store_block (replicate 256 x00) 0
                                            (read_bytes hw p 0 64) |} i
            = if (0 <=? i) && (i <? 0 + 64) then byte_val (hw_space hw p i) else 0).
  { intros cnt i Hi. rewrite conf_after_read; [|lia|lia|rewrite length_replicate; lia|lia].
    rewrite replicate_zero_lookup. reflexivity. }
  assert (Hl0 : length (store_block (replicate 256 x00) 0 (read_bytes hw p 0 64))
                = 256%nat).
  { rewrite length_store_block; [apply length_replicate|lia|].
    rewrite length_read_bytes, length_replicate. lia. }
  rewrite (H0 64 (PCI_HEADER_TYPE H)) in Hs by lia.
  destruct (Z.leb_spec 0 (PCI_HEADER_TYPE H)) as [_|?]; [|lia].
  destruct (Z.ltb_spec (PCI_HEADER_TYPE H) (0 + 64)) as [_|?]; [|lia].
  cbn [andb] in Hs.
  destruct (Z.land (byte_val (hw_space hw p (PCI_HEADER_TYPE H))) 127
            =? PCI_HEADER_TYPE_CARDBUS H).
  - destruct (negb (hw_ok hw p 64 64)); [discriminate|].
    match type of Hs with
    | Lspci.Scanned ?x = _ => assert (Hd : x = d) by congruence
    end.
    subst d. cbn [Lspci.d_dev Lspci.config Lspci.config_cnt].
    split; [reflexivity|]. split.
    { rewrite length_store_block; [exact Hl0|lia|].
      rewrite length_read_bytes, Hl0. lia. }
    split; [reflexivity|].
    assert (H1 : forall i, 0 <= i ->
              Lspci.conf {| Lspci.d_dev := p; Lspci.config_cnt := 128;
                  Lspci.config := store_block
                    (store_block (replicate 256 x00) 0 (read_bytes hw p 0 64)) 64
                    (read_bytes hw p 64 64) |} i
              = if (64 <=? i) && (i <? 64 + 64) then byte_val (hw_space hw p i)
                else if (0 <=? i) && (i <? 0 + 64) then byte_val (hw_space hw p i)
                else 0).
    { intros i Hi. rewrite conf_after_read; [|lia|lia|rewrite Hl0; lia|lia].
      destruct ((64 <=? i) && (i <? 64 + 64)); [reflexivity|].
      exact (H0 64 i Hi). }
    unfold Lspci.get_conf_byte. split; intros i Hi; rewrite H1 by lia.
    + destruct (Z.leb_spec 64 i); destruct (Z.ltb_spec i (64 + 64)); simpl;
        try reflexivity; try lia.
      destruct (Z.leb_spec 0 i); destruct (Z.ltb_spec i (0 + 64)); simpl;
        try reflexivity; lia.
    + destruct (Z.leb_spec 64 i); destruct (Z.ltb_spec i (64 + 64)); simpl; try lia.
      destruct (Z.leb_spec 0 i); destruct (Z.ltb_spec i (0 + 64)); simpl;
        try reflexivity; lia.
  - match type of Hs with
    | Lspci.Scanned ?x = _ => assert (Hd : x = d) by congruence
    end.
    subst d. cbn [Lspci.d_dev Lspci.config Lspci.config_cnt].
    split; [reflexivity|]. split; [exact Hl0|]. split; [reflexivity|].
    unfold Lspci.get_conf_byte. split; intros i Hi; rewrite H0 by lia.
    + destruct (Z.leb_spec 0 i); destruct (Z.ltb_spec i (0 + 64)); simpl;
        try reflexivity; lia.
    + destruct (Z.leb_spec 0 i); destruct (Z.ltb_spec i (0 + 64)); simpl;
        try reflexivity; lia.
Qed.

Lemma scan_device_caches_the_header_witness :
  Lspci.config_cnt split_dev = 64
  /\ Lspci.get_conf_byte split_dev 25 = 1
  /\ Lspci.get_conf_byte split_dev 200 = 0.
Proof.
  assert (Hs : Lspci.scan_device sample_header hw_split (fun _ => true)
                 (Lspci.d_dev split_dev) = Lspci.Scanned split_dev)
    by (vm_compute; reflexivity).
  destruct (scan_device_caches_the_header sample_header hw_split (fun _ => true)
              (Lspci.d_dev split_dev) split_dev ltac:(simpl; lia) Hs)
    as (_ & _ & Hc & Hin & Hout).
  split; [exact Hc|]. split.
  - rewrite Hin; [reflexivity|rewrite Hc; simpl; lia].
  - apply Hout. rewrite Hc. simpl. lia.
Defined.

(** X4.  [scan_devices] keeps exactly the functions the filter matches and
    puts them in [first_dev] in the reverse of the order of libpci's list;
    it dies exactly when the header of a matched function cannot be
    read. *)
Theorem scan_devices_reverses_the_matches H hw fm (devices : list pci_dev) :
  (forall reg, Lspci.scan_devices H hw fm devices = Some reg ->
     Lspci.d_dev <$> reg = reverse (List.filter fm devices))
  /\ (Lspci.scan_devices H hw fm devices = None <->
      exists p, p ∈ devices /\ Lspci.scan_device H hw fm p = Lspci.Died).
Proof.
  split.
  - intros reg Hs. unfold Lspci.scan_devices in Hs.
    apply scan_onto_spec in Hs. rewrite Hs. simpl. apply app_nil_r.
  - unfold Lspci.scan_devices. split.
    + apply scan_onto_none.
    + intros (p & Hp & Hd). eapply scan_onto_died; eassumption.
Qed.

Section WordFacts.

Import Lspci.

(** Bits that do not meet add up. *)
Lemma lor_shiftl_add a b n :
  0 <= n -> 0 <= a < 2 ^ n -> 0 <= b -> Z.lor a (Z.shiftl b n) = a + b * 2 ^ n.
Proof.
  intros Hn Ha Hb.
  rewrite Z.shiftl_mul_pow2 by lia.
  rewrite <- Z.lxor_lor, <- Z.add_nocarry_lxor; [reflexivity| |];
    rewrite <- Z.shiftl_mul_pow2 by lia;
    apply Z.bits_inj'; intros k Hk; rewrite Z.land_spec, Z.bits_0;
    destruct (Z_lt_dec k n) as [Hlt|Hge].
  - rewrite Z.shiftl_spec_low by lia. apply andb_false_r.
  - destruct (Z.eq_dec a 0) as [->|Hne]; [rewrite Z.bits_0; reflexivity|].
    rewrite (Z.bits_above_log2 a k); [reflexivity|lia|].
    apply Z.log2_lt_pow2; [lia|]. 
    apply Z.lt_le_trans with (2 ^ n); [lia|]. apply Z.pow_le_mono_r; lia.
  - rewrite Z.shiftl_spec_low by lia. apply andb_false_r.
  - destruct (Z.eq_dec a 0) as [->|Hne]; [rewrite Z.bits_0; reflexivity|].
    rewrite (Z.bits_above_log2 a k); [reflexivity|lia|].
    apply Z.log2_lt_pow2; [lia|].
    apply Z.lt_le_trans with (2 ^ n); [lia|]. apply Z.pow_le_mono_r; lia.
Qed.

Lemma get_conf_word_sum d pos :
  get_conf_word d pos = conf d pos + conf d (pos + 1) * 2 ^ 8.
Proof.
  unfold get_conf_word.
  pose proof (conf_range d pos). pose proof (conf_range d (pos + 1)).
  apply lor_shiftl_add; lia.
Qed.

Lemma get_conf_long_sum d pos :
  get_conf_long d pos
  = conf d pos + conf d (pos + 1) * 2 ^ 8 + conf d (pos + 2) * 2 ^ 16
    + conf d (pos + 3) * 2 ^ 24.
Proof.
  unfold get_conf_long.
  pose proof (conf_range d pos). pose proof (conf_range d (pos + 1)).
  pose proof (conf_range d (pos + 2)). pose proof (conf_range d (pos + 3)).
  rewrite (lor_shiftl_add (conf d pos)) by lia.
  rewrite (lor_shiftl_add _ (conf d (pos + 2))) by lia.
  rewrite lor_shiftl_add by lia. reflexivity.
Qed.

End WordFacts.

(** X5.  [get_conf_word] and [get_conf_long] read the array as
    little-endian numbers: the word is the byte at [pos] plus 256 times
    the next one, the long is the word at [pos] plus 65536 times the word
    at [pos+2]; a word is below 2^16 and a long below 2^32, so the results
    fit the C types [word] and [u32]. *)
Theorem get_conf_long_is_little_endian (d : Lspci.device) pos :
  Lspci.get_conf_word d pos
  = Lspci.get_conf_byte d pos + 256 * Lspci.get_conf_byte d (pos + 1)
  /\ Lspci.get_conf_long d pos
     = Lspci.get_conf_word d pos + 65536 * Lspci.get_conf_word d (pos + 2)
  /\ 0 <= Lspci.get_conf_word d pos < 2 ^ 16
  /\ 0 <= Lspci.get_conf_long d pos < 2 ^ 32.
Proof.
  rewrite get_conf_long_sum, !get_conf_word_sum. unfold Lspci.get_conf_byte.
  replace (pos + 2 + 1) with (pos + 3) by lia.
  pose proof (conf_range d pos). pose proof (conf_range d (pos + 1)).
  pose proof (conf_range d (pos + 2)). pose proof (conf_range d (pos + 3)).
  change (2 ^ 8) with 256. change (2 ^ 16) with 65536.
  change (2 ^ 24) with 16777216. change (2 ^ 32) with 4294967296.
  repeat split; lia.
Qed.

(** ** The buses of a bridge *)

(** X6.  A bus made by [new_bus] is the one [find_bus] returns for its
    domain and number, at the head of the list; for every other address
    [find_bus] answers as before; and a bus [find_bus] returns has the
    domain and the number asked for and is the first such bus of the
    bridge. *)
Theorem new_bus_is_found (b : Lspci.bridge) dom n :
  Lspci.find_bus (Lspci.new_bus b dom n) dom n = Some O
  /\ (forall dom' n', dom' <> dom \/ n' <> n ->
        Lspci.find_bus (Lspci.new_bus b dom n) dom' n'
        = S <$> Lspci.find_bus b dom' n')
  /\ (forall k, Lspci.find_bus b dom n = Some k ->
        exists u, Lspci.first_bus b !! k = Some u
          /\ Lspci.bus_domain u = dom /\ Lspci.number u = n
          /\ forall j v, (j < k)%nat -> Lspci.first_bus b !! j = Some v ->
               Lspci.bus_domain v <> dom \/ Lspci.number v <> n)
  /\ (Lspci.find_bus b dom n = None ->
        forall v, v ∈ Lspci.first_bus b ->
          Lspci.bus_domain v <> dom \/ Lspci.number v <> n).
Proof.
  unfold Lspci.find_bus, Lspci.new_bus. simpl. split; [|split; [|split]].
  - unfold Lspci.is_bus. simpl. rewrite !Z.eqb_refl. reflexivity.
  - intros dom' n' Hne. unfold Lspci.is_bus. simpl.
    destruct (Z.eqb_spec dom dom'); destruct (Z.eqb_spec n n'); simpl;
      try reflexivity. exfalso. destruct Hne; congruence.
  - generalize (Lspci.first_bus b). intros l.
    induction l as [|u l IH]; intros k Hk; simpl in Hk; [discriminate|].
    destruct (Lspci.is_bus dom n u) eqn:E.
    + inversion Hk; subst k. exists u. split; [reflexivity|].
      apply is_bus_true in E as [Hd Hn]. split; [exact Hd|]. split; [exact Hn|].
      intros j v Hj. lia.
    + destruct (Lspci.find_bus_in l dom n) as [k'|]; [|discriminate].
      inversion Hk; subst k. destruct (IH k' eq_refl) as (v & Hv & Hd & Hn & Hfirst).
      exists v. split; [exact Hv|]. split; [exact Hd|]. split; [exact Hn|].
      intros j w Hj Hw. destruct j as [|j]; simpl in Hw.
      * inversion Hw; subst w. unfold Lspci.is_bus in E.
        apply andb_false_iff in E as [E|E]; apply Z.eqb_neq in E; auto.
      * apply (Hfirst j w); [lia|exact Hw].
  - generalize (Lspci.first_bus b). intros l.
    induction l as [|u l IH]; intros Hk v Hv; [inversion Hv|].
    simpl in Hk. destruct (Lspci.is_bus dom n u) eqn:E; [discriminate|].
    apply elem_of_cons in Hv as [->|Hv].
    + unfold Lspci.is_bus in E.
      apply andb_false_iff in E as [E|E]; apply Z.eqb_neq in E; auto.
    + apply IH; [|exact Hv].
      destruct (Lspci.find_bus_in l dom n); [discriminate|reflexivity].
Qed.

(** ** The tree: buses of the bridges and the place of the devices *)

Section TreeMore.

Import Lspci.

Variable H : header_h.

(** [insert_dev] changes one bridge of the chain, by [place]. *)
Lemma insert_dev_places fuel : forall i p ib t t',
  insert_dev fuel i p ib t = Some t' ->
  exists jb b, t !! jb = Some b /\ t' = <[jb := place i p b]> t.
Proof.
  induction fuel as [|f IH]; intros i p ib t t' Hins; simpl in Hins;
    [discriminate|].
  destruct (t !! ib) as [b|] eqn:Eb; [|discriminate].
  destruct (find_bus b (domain p) (bus p)) as [k|] eqn:Ek.
  - exists ib, b. split; [exact Eb|]. unfold place. rewrite Ek. congruence.
  - destruct (find (forwards t p) (child b)) as [ic|].
    + eapply IH. exact Hins.
    + exists ib, b. split; [exact Eb|]. unfold place. rewrite Ek. congruence.
Qed.

Lemma place_fields i p b :
  br_domain (place i p b) = br_domain b /\ secondary (place i p b) = secondary b
  /\ subordinate (place i p b) = subordinate b /\ br_dev (place i p b) = br_dev b.
Proof. unfold place. destruct (find_bus b (domain p) (bus p)); auto. Qed.

(** Linking the devices takes no bus away from a bridge. *)
Lemma insert_all_keeps_buses fuel ds : forall i t t' jb b',
  insert_all fuel i ds t = Some t' -> t' !! jb = Some b' ->
  exists b, t !! jb = Some b
    /\ br_domain b' = br_domain b /\ secondary b' = secondary b
    /\ forall dom n, is_Some (find_bus b dom n) -> is_Some (find_bus b' dom n).
Proof.
  induction ds as [|d ds IH]; intros i t t' jb b' Hins Hb'; simpl in Hins.
  - inversion Hins; subst. exists b'. auto.
  - destruct (insert_dev fuel i (d_dev d) O t) as [t1|] eqn:E1; [|discriminate].
    destruct (IH _ _ _ _ _ Hins Hb') as (b1 & Hb1 & Hd1 & Hs1 & Hf1).
    destruct (insert_dev_places _ _ _ _ _ _ E1) as (kb & b0 & Hb0 & ->).
    destruct (decide (jb = kb)) as [->|Hne].
    + rewrite list_lookup_insert_eq in Hb1 by (eapply lookup_lt_Some; exact Hb0).
      inversion Hb1; subst b1. exists b0. split; [exact Hb0|].
      destruct (place_fields i (d_dev d) b0) as (P1 & P2 & _).
      split; [congruence|]. split; [congruence|].
      intros dom n Hs. apply Hf1. apply find_bus_place. left. exact Hs.
    + rewrite list_lookup_insert_ne in Hb1 by congruence.
      exists b1. auto.
Qed.

Lemma add_secondary_lookup t ib jb b' :
  add_secondary t ib !! jb = Some b' ->
  exists b, t !! jb = Some b
    /\ br_domain b' = br_domain b /\ secondary b' = secondary b
    /\ (forall dom n, is_Some (find_bus b dom n) -> is_Some (find_bus b' dom n))
    /\ (jb = ib -> is_Some (find_bus b' (br_domain b') (secondary b'))).
Proof.
  unfold add_secondary. intros Hb'.
  destruct (t !! ib) as [b|] eqn:Eb.
  - destruct (find_bus b (br_domain b) (secondary b)) as [k|] eqn:Ek.
    + exists b'. repeat split; auto. intros ->.
      assert (b' = b) by congruence. subst b'. rewrite Ek. eauto.
    + destruct (decide (jb = ib)) as [->|Hne].
      * rewrite list_lookup_insert_eq in Hb' by (eapply lookup_lt_Some; exact Eb).
        inversion Hb'; subst b'. exists b. split; [exact Eb|].
        split; [reflexivity|]. split; [reflexivity|]. split.
        -- intros dom n [k Hk]. unfold find_bus, new_bus in *. simpl.
           destruct (is_bus dom n _); [eauto|]. rewrite Hk. simpl. eauto.
        -- intros _. unfold find_bus, new_bus. simpl. unfold is_bus. simpl.
           rewrite !Z.eqb_refl. simpl. eauto.
      * rewrite list_lookup_insert_ne in Hb' by congruence.
        exists b'. repeat split; auto. intros ->. congruence.
  - exists b'. repeat split; auto. intros ->. congruence.
Qed.

Lemma foldl_add_secondary_lookup ixs : forall t jb b',
  foldl add_secondary t ixs !! jb = Some b' ->
  exists b, t !! jb = Some b
    /\ br_domain b' = br_domain b /\ secondary b' = secondary b
    /\ (forall dom n, is_Some (find_bus b dom n) -> is_Some (find_bus b' dom n))
    /\ (jb ∈ ixs -> is_Some (find_bus b' (br_domain b') (secondary b'))).
Proof.
  induction ixs as [|ib ixs IH]; intros t jb b' Hb'; simpl in Hb'.
  - exists b'. repeat split; auto. intros Hin. inversion Hin.
  - destruct (IH _ _ _ Hb') as (b1 & Hb1 & Hd1 & Hs1 & Hf1 & Hin1).
    destruct (add_secondary_lookup _ _ _ _ Hb1) as (b & Hb & Hd & Hs & Hf & Hin).
    exists b. split; [exact Hb|]. split; [congruence|]. split; [congruence|].
    split; [auto|]. intros Hjb. apply elem_of_cons in Hjb as [->|Hjb]; [|auto].
    rewrite Hd1, Hs1. apply Hf1. rewrite <- Hd1, <- Hs1 at 1.
    rewrite Hd1, Hs1. apply Hin. reflexivity.
Qed.

Lemma grow_tree_secondary reg t ib b :
  grow_tree H reg = Some t -> t !! ib = Some b ->
  is_Some (find_bus b (br_domain b) (secondary b)).
Proof.
  unfold grow_tree. rewrite foldl_link_all.
  set (ixs := seq O (length (host_bridge :: build_chain H O reg))).
  intros Ht Hb.
  destruct (insert_all_keeps_buses _ _ _ _ _ _ _ Ht Hb) as (b2 & Hb2 & Hd2 & Hs2 & Hf2).
  destruct (foldl_add_secondary_lookup _ _ _ _ Hb2) as (b1 & Hb1 & Hd1 & Hs1 & _ & Hin).
  rewrite Hd2, Hs2. apply Hf2. apply Hin.
  apply lookup_lt_Some in Hb1. unfold ixs. apply elem_of_seq.
  unfold linked_chain in Hb1. simpl in *. lia.
Qed.

(** The first of the numbers [n], [n-1], .., 1 that passes a test passes
    it, and the greater ones do not. *)
Lemma find_downwards (f : nat -> bool) n x :
  find f (reverse (seq 1 n)) = Some x ->
  f x = true /\ (1 <= x <= n)%nat /\ forall j, (x < j <= n)%nat -> f j = false.
Proof.
  induction n as [|n IH]; [discriminate|].
  rewrite seq_S, reverse_app. simpl.
  destruct (f (S n)) eqn:E.
  - intros Hx. inversion Hx; subst x. split; [exact E|]. split; [lia|].
    intros j Hj. lia.
  - intros Hx. destruct (IH Hx) as (Hf & Hr & Hup). split; [exact Hf|].
    split; [lia|]. intros j Hj.
    destruct (decide (j = S n)) as [->|Hne]; [exact E|]. apply Hup. lia.
Qed.

End TreeMore.

(** X7.  After [grow_tree] every bridge of the chain, the host bridge
    included, has a bus of its own domain and secondary bus number; so
    [first_bus] is never a null pointer when [show_tree_bridge] follows
    it. *)
Theorem every_bridge_has_its_secondary_bus H reg t ib (b : Lspci.bridge) :
  Lspci.grow_tree H reg = Some t -> t !! ib = Some b ->
  exists k u,
    Lspci.find_bus b (Lspci.br_domain b) (Lspci.secondary b) = Some k
    /\ Lspci.first_bus b !! k = Some u
    /\ Lspci.bus_domain u = Lspci.br_domain b
    /\ Lspci.number u = Lspci.secondary b.
Proof.
  intros Ht Hb. destruct (grow_tree_secondary H reg t ib b Ht Hb) as [k Hk].
  exists k. pose proof Hk as Hk'. unfold Lspci.find_bus in Hk'.
  apply find_bus_in_Some in Hk' as (u & Hu & His).
  apply is_bus_true in His as [Hd Hn]. exists u. auto.
Qed.

Lemma every_bridge_has_its_secondary_bus_witness :
  exists t b k u,
    Lspci.grow_tree sample_header registry_one_bridge = Some t
    /\ t !! 1%nat = Some b
    /\ Lspci.find_bus b (Lspci.br_domain b) (Lspci.secondary b) = Some k
    /\ Lspci.first_bus b !! k = Some u
    /\ Lspci.number u = 1.
Proof.
  destruct (grow_tree_spec sample_header registry_one_bridge) as (t & Ht & _).
  assert (Hb : is_Some (t !! 1%nat)).
  { apply lookup_lt_is_Some. revert Ht. vm_compute. intros [= <-]. simpl. lia. }
  destruct Hb as [b Hb].
  destruct (every_bridge_has_its_secondary_bus sample_header registry_one_bridge
              t 1 b Ht Hb) as (k & u & Hk & Hu & _ & Hn).
  exists t, b, k, u. repeat split; try assumption.
  rewrite Hn. revert Ht Hb. vm_compute. intros [= <-] [= <-]. reflexivity.
Defined.

(** X8.  Where [grow_tree] links a device.  The device has the domain and
    the bus number of its bus.  When the bus belongs to a bridge other
    than the host bridge, the bridge has the domain of the device and its
    range from secondary to subordinate holds the bus number of the
    device, the host bridge has no bus of that domain and number, and no
    bridge made of a later device of the registry has such a range: the
    device goes to the last bridge of the registry that forwards its
    bus. *)
Theorem device_hangs_below_the_last_forwarding_bridge H reg t ib
    (b : Lspci.bridge) (u : Lspci.bus_t) i (d : Lspci.device) :
  Lspci.grow_tree H reg = Some t -> t !! ib = Some b ->
  u ∈ Lspci.first_bus b -> i ∈ Lspci.bus_devs u -> reg !! i = Some d ->
  domain (Lspci.d_dev d) = Lspci.bus_domain u
  /\ bus (Lspci.d_dev d) = Lspci.number u
  /\ (ib <> O ->
      Lspci.br_domain b = domain (Lspci.d_dev d)
      /\ Lspci.secondary b <= bus (Lspci.d_dev d) <= Lspci.subordinate b
      /\ (forall c0, t !! O = Some c0 ->
            Lspci.find_bus c0 (domain (Lspci.d_dev d)) (bus (Lspci.d_dev d)) = None)
      /\ forall jb c, (ib < jb)%nat -> t !! jb = Some c ->
           ~ (Lspci.br_domain c = domain (Lspci.d_dev d)
              /\ Lspci.secondary c <= bus (Lspci.d_dev d) <= Lspci.subordinate c)).
Proof.
  intros Ht Hb Hu Hi Hd.
  destruct (grow_tree_spec H reg) as (t' & Ht' & _ & _ & _ & Haddr).
  rewrite Ht in Ht'. inversion Ht'; subst t'; clear Ht'.
  apply list_elem_of_lookup in Hu as [k Hk].
  assert (Hin : u ∈ buses_of t) by (eapply buses_of_elem; eassumption).
  rewrite list.Forall_forall in Haddr. specialize (Haddr u Hin).
  unfold bus_address in Haddr. rewrite list.Forall_forall in Haddr.
  destruct (Haddr i Hi) as (d' & Hd' & Hdom & Hbus).
  assert (d' = d) by congruence. subst d'.
  split; [exact Hdom|]. split; [exact Hbus|]. intros Hne.
  pose proof (grow_tree_settled H reg t Ht) as Hset.
  destruct (Hset ib b k u Hb Hk) as [Htarget _].
  { intros He. rewrite He in Hi. inversion Hi. }
  destruct (grow_tree_flat H reg t Ht) as [(c0 & rest & -> & Hchild & _) _].
  unfold target in Htarget. simpl in Htarget.
  rewrite <- Hdom, <- Hbus in Htarget.
  destruct (Lspci.find_bus c0 (domain (Lspci.d_dev d)) (bus (Lspci.d_dev d)))
    as [k0|] eqn:E0; [congruence|].
  rewrite Hchild in Htarget.
  destruct (find _ (reverse (seq 1 (length rest)))) as [ic|] eqn:Ef; [|congruence].
  subst ic. apply find_downwards in Ef as (Hfw & Hr & Hup).
  unfold Lspci.forwards in Hfw. rewrite Hb in Hfw. simpl in Hfw.
  apply andb_true_iff in Hfw as [Hfw H3]. apply andb_true_iff in Hfw as [H1 H2].
  apply Z.eqb_eq in H1. apply Z.leb_le in H2, H3.
  split; [exact H1|]. split; [lia|]. split.
  - intros c0' Hc0. simpl in Hc0. inversion Hc0; subst c0'. exact E0.
  - intros jb c Hjb Hc (Q1 & Q2 & Q3).
    assert (Hlen : (jb <= length rest)%nat).
    { apply lookup_lt_Some in Hc. simpl in Hc. lia. }
    specialize (Hup jb ltac:(lia)). unfold Lspci.forwards in Hup.
    rewrite Hc in Hup. simpl in Hup.
    apply andb_false_iff in Hup as [Hup|Hup];
      [apply andb_false_iff in Hup as [Hup|Hup]|].
    + apply Z.eqb_neq in Hup. congruence.
    + apply Z.leb_gt in Hup. lia.
    + apply Z.leb_gt in Hup. lia.
Qed.

Lemma device_hangs_below_the_last_forwarding_bridge_witness :
  exists t b u d,
    Lspci.grow_tree sample_header registry_one_bridge = Some t
    /\ t !! 1%nat = Some b /\ u ∈ Lspci.first_bus b
    /\ 2%nat ∈ Lspci.bus_devs u /\ registry_one_bridge !! 2%nat = Some d
    /\ Lspci.secondary b <= bus (Lspci.d_dev d) <= Lspci.subordinate b.
Proof.
  destruct (grow_tree_spec sample_header registry_one_bridge) as (t & Ht & _).
  assert (exists b u d, t !! 1%nat = Some b /\ u ∈ Lspci.first_bus b
             /\ 2%nat ∈ Lspci.bus_devs u /\ registry_one_bridge !! 2%nat = Some d)
    as (b & u & d & Hb & Hu & Hi & Hd).
  { revert Ht. vm_compute. intros [= <-].
    do 3 eexists. split; [reflexivity|]. split; [left|].
    split; [left|reflexivity]. }
  destruct (device_hangs_below_the_last_forwarding_bridge sample_header
              registry_one_bridge t 1 b u 2 d Ht Hb Hu Hi Hd)
    as (_ & _ & Hbelow).
  destruct (Hbelow ltac:(lia)) as (_ & Hrange & _).
  exists t, b, u, d. auto 10.
Defined.

(** ** The probe: which functions are asked, and what the table holds *)

Section ProbeMore.

Import Lspci.

Variable H : header_h.
Variable hw : hardware.
Variable filter : pci_filter.

Lemma stamp_id bi : stamp false [] bi = bi.
Proof. destruct bi. unfold stamp. simpl. rewrite orb_false_r. reflexivity. Qed.

Lemma stamp_stamp ex1 cl1 ex2 cl2 bi :
  stamp ex2 cl2 (stamp ex1 cl1 bi) = stamp (ex1 || ex2) (cl2 ++ cl1) bi.
Proof.
  unfold stamp. simpl. rewrite orb_assoc, app_assoc. reflexivity.
Qed.

Lemma alter_stamp_id k (tbl : list bus_info_t) : alter (stamp false []) k tbl = tbl.
Proof. apply list_alter_id. apply stamp_id. Qed.

Lemma alter_stamp_stamp ex1 cl1 ex2 cl2 k (tbl : list bus_info_t) :
  alter (stamp ex2 cl2) k (alter (stamp ex1 cl1) k tbl)
  = alter (stamp (ex1 || ex2) (cl2 ++ cl1)) k tbl.
Proof.
  rewrite list_alter_alter_eq. apply list_alter_ext; [|reflexivity].
  intros bi _. apply stamp_stamp.
Qed.

Lemma set_exists_stamp bi : set_exists bi = stamp true [] bi.
Proof. unfold set_exists, stamp. simpl. rewrite orb_true_r. reflexivity. Qed.

(** The table after [map_bridge] has put a claim on the bus. *)
Lemma insert_map_bridge k (tbl : list bus_info_t) dv np ns nl :
  <[k := fst (map_bridge (default no_info (alter set_exists k tbl !! k)) dv np ns nl)]>
    (alter set_exists k tbl)
  = alter (stamp true
             [{| this := get_conf_byte dv np; bb_dev := dev (d_dev dv) mod 256;
                 bb_func := func (d_dev dv) mod 256;
                 first := get_conf_byte dv ns;
                 last := if get_conf_byte dv ns >? get_conf_byte dv nl
                         then get_conf_byte dv ns else get_conf_byte dv nl;
                 bug := None |}]) k tbl.
Proof.
  apply list_eq. intros j. destruct (decide (j = k)) as [->|Hne].
  - rewrite !list_lookup_alter_eq.
    destruct (tbl !! k) as [bi|] eqn:E.
    + rewrite list_lookup_insert_eq
        by (rewrite length_alter; eapply lookup_lt_Some; exact E).
      simpl. unfold map_bridge, stamp. simpl. rewrite orb_true_r. reflexivity.
    + rewrite list_insert_ge
        by (rewrite length_alter; apply lookup_ge_None; exact E).
      rewrite list_lookup_alter_eq, E. reflexivity.
  - rewrite list_lookup_insert_ne by congruence.
    rewrite !list_lookup_alter_ne by congruence. reflexivity.
Qed.

Lemma map_bridge_claim dv np ns nl :
  claim_in_order
    {| this := get_conf_byte dv np; bb_dev := dev (d_dev dv) mod 256;
       bb_func := func (d_dev dv) mod 256;
       first := get_conf_byte dv ns;
       last := if get_conf_byte dv ns >? get_conf_byte dv nl
               then get_conf_byte dv ns else get_conf_byte dv nl;
       bug := None |}.
Proof.
  unfold claim_in_order, get_conf_byte. simpl.
  pose proof (conf_range dv np). pose proof (conf_range dv ns).
  pose proof (conf_range dv nl).
  destruct (Z.gtb_spec (conf dv ns) (conf dv nl)); repeat split; lia.
Qed.

(** One turn of the loop over the functions. *)
Lemma map_func_spec n d f limit s limit' s' :
  map_func H hw filter n d f limit s = Some (limit', s') ->
  let p := {| domain := 0; bus := n; dev := d; func := f |} in
  (~ (f_func filter < 0 \/ f_func filter = f) /\ limit' = limit /\ s' = s)
  \/ ((f_func filter < 0 \/ f_func filter = f)
      /\ probed s' = probed s ++ [p]
      /\ ((~ answers H hw p /\ limit' = limit /\ table s' = table s)
          \/ (answers H hw p
              /\ (limit' = limit
                  \/ (limit' = 8 /\ f = 0 /\ multi_function H hw p))
              /\ exists cl, table s' = alter (stamp true cl) (Z.to_nat n) (table s)
                   /\ Forall claim_in_order cl))).
Proof.
  intros Hm p. unfold map_func in Hm. fold p in Hm.
  destruct ((f_func filter <? 0) || (f_func filter =? f)) eqn:Ep.
  2:{ left. inversion Hm; subst. split; [|auto].
      apply orb_false_iff in Ep as [E1 E2].
      apply Z.ltb_ge in E1. apply Z.eqb_neq in E2. lia. }
  right. split.
  { apply orb_true_iff in Ep as [E|E];
      [left; apply Z.ltb_lt; exact E|right; apply Z.eqb_eq; exact E]. }
  destruct (negb (pci_read_word hw p (PCI_VENDOR_ID H) =? 0)
            && negb (pci_read_word hw p (PCI_VENDOR_ID H) =? 65535)) eqn:Ev.
  2:{ inversion Hm; subst. simpl. split; [reflexivity|]. left.
      split; [|auto]. unfold answers. intros [A1 A2].
      apply andb_false_iff in Ev as [E|E]; apply negb_false_iff, Z.eqb_eq in E;
        contradiction. }
  assert (Hans : answers H hw p).
  { apply andb_true_iff in Ev as [E1 E2].
    apply negb_true_iff, Z.eqb_neq in E1, E2. split; assumption. }
  assert (Hlim : forall l,
            l = (if (f =? 0)
                    && negb (Z.land (pci_read_byte hw p (PCI_HEADER_TYPE H)) 128 =? 0)
                 then 8 else limit) ->
            l = limit \/ (l = 8 /\ f = 0 /\ multi_function H hw p)).
  { intros l ->.
    destruct ((f =? 0)
              && negb (Z.land (pci_read_byte hw p (PCI_HEADER_TYPE H)) 128 =? 0))
      eqn:El; [right|left; reflexivity].
    apply andb_true_iff in El as [E1 E2]. apply Z.eqb_eq in E1.
    apply negb_true_iff, Z.eqb_neq in E2. auto. }
  cbn [table probed messages] in Hm.
  destruct (scan_device H hw (pci_filter_match filter) p) as [| |dv] eqn:Es;
    [|discriminate|].
  - inversion Hm; subst. cbn [table probed]. split; [reflexivity|]. right.
    split; [exact Hans|]. split; [apply Hlim; reflexivity|].
    exists []. split; [|constructor].
    apply list_alter_ext; [|reflexivity]. intros bi _. apply set_exists_stamp.
  - destruct (Z.land (get_conf_byte dv (PCI_HEADER_TYPE H)) 127
              =? PCI_HEADER_TYPE_BRIDGE H).
    { destruct (map_bridge _ dv (PCI_PRIMARY_BUS H) (PCI_SECONDARY_BUS H)
                  (PCI_SUBORDINATE_BUS H)) as [bi' msgs] eqn:Eb.
      inversion Hm; subst. cbn [table probed]. split; [reflexivity|]. right.
      split; [exact Hans|]. split; [apply Hlim; reflexivity|].
      eexists. split; [|constructor; [apply map_bridge_claim|constructor]].
      replace bi' with (fst (map_bridge
                 (default no_info (alter set_exists (Z.to_nat n) (table s) !! Z.to_nat n))
                 dv (PCI_PRIMARY_BUS H) (PCI_SECONDARY_BUS H) (PCI_SUBORDINATE_BUS H)))
        by (rewrite Eb; reflexivity).
      apply insert_map_bridge. }
    destruct (Z.land (get_conf_byte dv (PCI_HEADER_TYPE H)) 127
              =? PCI_HEADER_TYPE_CARDBUS H).
    { destruct (map_bridge _ dv (PCI_CB_PRIMARY_BUS H) (PCI_CB_CARD_BUS H)
                  (PCI_CB_SUBORDINATE_BUS H)) as [bi' msgs] eqn:Eb.
      inversion Hm; subst. cbn [table probed]. split; [reflexivity|]. right.
      split; [exact Hans|]. split; [apply Hlim; reflexivity|].
      eexists. split; [|constructor; [apply map_bridge_claim|constructor]].
      replace bi' with (fst (map_bridge
                 (default no_info (alter set_exists (Z.to_nat n) (table s) !! Z.to_nat n))
                 dv (PCI_CB_PRIMARY_BUS H) (PCI_CB_CARD_BUS H)
                 (PCI_CB_SUBORDINATE_BUS H)))
        by (rewrite Eb; reflexivity).
      apply insert_map_bridge. }
    inversion Hm; subst. cbn [table probed]. split; [reflexivity|]. right.
    split; [exact Hans|]. split; [apply Hlim; reflexivity|].
    exists []. split; [|constructor].
    apply list_alter_ext; [|reflexivity]. intros bi _. apply set_exists_stamp.
Qed.

End ProbeMore.

Section ProbeLoops.

Import Lspci.

Variable H : header_h.
Variable hw : hardware.
Variable filter : pci_filter.

(** The loop over the functions of the device [d] of bus [n], from
    function [f] on.  Past function 0 the limit is above 1 only when
    function 0 has answered with the multi-function bit. *)
Lemma map_funcs_spec k : forall n d f limit s s',
  let p0 := {| domain := 0; bus := n; dev := d; func := 0 |} in
  map_funcs H hw filter k n d f limit s = Some s' ->
  (f = 0 /\ limit = 1)
  \/ (1 <= f /\ (limit <= 1
                \/ (p0 ∈ probed s /\ answers H hw p0 /\ multi_function H hw p0))) ->
  exists ps ex cl,
    probed s' = probed s ++ ps
    /\ table s' = alter (stamp ex cl) (Z.to_nat n) (table s)
    /\ Forall claim_in_order cl
    /\ (ex = true <-> exists p, p ∈ ps /\ answers H hw p)
    /\ Forall (fun p => domain p = 0 /\ bus p = n /\ dev p = d
                        /\ f <= func p < f + Z.of_nat k
                        /\ (f_func filter < 0 \/ f_func filter = func p)) ps
    /\ (forall p, p ∈ ps -> func p <> 0 ->
          p0 ∈ probed s' /\ answers H hw p0 /\ multi_function H hw p0).
Proof.
  assert (Hnone : forall n d f (k0 : nat) s,
            exists ps ex cl,
              probed s = probed s ++ ps
              /\ table s = alter (stamp ex cl) (Z.to_nat n) (table s)
              /\ Forall claim_in_order cl
              /\ (ex = true <-> exists p, p ∈ ps /\ answers H hw p)
              /\ Forall (fun p => domain p = 0 /\ bus p = n /\ dev p = d
                                  /\ f <= func p < f + Z.of_nat k0
                                  /\ (f_func filter < 0 \/ f_func filter = func p)) ps
              /\ (forall p, p ∈ ps -> func p <> 0 ->
                    {| domain := 0; bus := n; dev := d; func := 0 |} ∈ probed s
                    /\ answers H hw {| domain := 0; bus := n; dev := d; func := 0 |}
                    /\ multi_function H hw
                         {| domain := 0; bus := n; dev := d; func := 0 |})).
  { intros n d f k0 s. exists [], false, [].
    rewrite app_nil_r, alter_stamp_id.
    split; [reflexivity|]. split; [reflexivity|]. split; [constructor|].
    split; [|split; [constructor|]].
    - split; [discriminate|]. intros (q & Hq & _). inversion Hq.
    - intros q Hq. inversion Hq. }
  induction k as [|k IH]; intros n d f limit s s' p0 Hm HR.
  - cbn [map_funcs] in Hm. inversion Hm; subst s'. apply Hnone.
  - cbn [map_funcs] in Hm. destruct (Z.ltb_spec f limit) as [Hlt|Hge].
    2:{ inversion Hm; subst s'. apply Hnone. }
    destruct (map_func H hw filter n d f limit s) as [[limit1 s1]|] eqn:E1;
      [|discriminate].
    apply map_func_spec in E1. cbn zeta in E1.
    set (p := {| domain := 0; bus := n; dev := d; func := f |}) in *.
    assert (Hf0 : 0 <= f) by (destruct HR as [[-> _]|[? _]]; lia).
    assert (Hp0 : f = 0 -> p = p0) by (intros ->; reflexivity).
    assert (Hsub : exists ps1 ex1 cl1,
               probed s1 = probed s ++ ps1
               /\ table s1 = alter (stamp ex1 cl1) (Z.to_nat n) (table s)
               /\ Forall claim_in_order cl1
               /\ (ex1 = true <-> exists q, q ∈ ps1 /\ answers H hw q)
               /\ (ps1 = [] \/ (ps1 = [p]
                                /\ (f_func filter < 0 \/ f_func filter = f)))
               /\ (limit1 <= 1
                   \/ (p0 ∈ probed s1 /\ answers H hw p0
                       /\ multi_function H hw p0))).
    { assert (Hold : limit <= 1
                \/ (p0 ∈ probed s /\ answers H hw p0 /\ multi_function H hw p0)).
      { destruct HR as [[_ ->]|[_ HR]]; [left; lia|exact HR]. }
      destruct E1 as [(Hno & -> & ->)|(Hpass & Hpr & [(Hna & -> & Ht)|(Ha & Hl & cl & Ht & Hcl)])].
      - exists [], false, []. rewrite app_nil_r, alter_stamp_id.
        split; [reflexivity|]. split; [reflexivity|]. split; [constructor|].
        split; [|split; [left; reflexivity|exact Hold]].
        split; [discriminate|]. intros (q & Hq & _). inversion Hq.
      - exists [p], false, []. rewrite alter_stamp_id.
        split; [exact Hpr|]. split; [exact Ht|]. split; [constructor|].
        split; [|split; [right; auto|]].
        + split; [discriminate|]. intros (q & Hq & Hqa).
          apply list_elem_of_singleton in Hq. subst q. contradiction.
        + destruct Hold as [Hl|(Hin & Ha & Hmf)]; [left; exact Hl|right].
          split; [rewrite Hpr; apply elem_of_app; left; exact Hin|auto].
      - exists [p], true, cl. split; [exact Hpr|]. split; [exact Ht|].
        split; [exact Hcl|]. split; [|split; [right; auto|]].
        + split; [|reflexivity]. intros _. exists p. split; [left|exact Ha].
        + destruct Hl as [->|(-> & Hz & Hmf)].
          * destruct Hold as [Hl|(Hin & Ha0 & Hmf)]; [left; exact Hl|right].
            split; [rewrite Hpr; apply elem_of_app; left; exact Hin|auto].
          * right. rewrite <- (Hp0 Hz). split; [|auto].
            rewrite Hpr. apply elem_of_app. right. left. }
    destruct Hsub as (ps1 & ex1 & cl1 & Hpr1 & Ht1 & Hcl1 & Hex1 & Hps1 & HR1).
    destruct (IH n d (f + 1) limit1 s1 s' Hm) as
      (ps2 & ex2 & cl2 & Hpr2 & Ht2 & Hcl2 & Hex2 & Hall2 & Hfn2).
    { right. split; [lia|exact HR1]. }
    exists (ps1 ++ ps2), (ex1 || ex2), (cl2 ++ cl1).
    split; [rewrite Hpr2, Hpr1, app_assoc; reflexivity|].
    split; [rewrite Ht2, Ht1; apply alter_stamp_stamp|].
    split; [apply Forall_app; auto|].
    split; [|split].
    + rewrite orb_true_iff, Hex1, Hex2. split.
      * intros [(q & Hq & Ha)|(q & Hq & Ha)]; exists q;
          (split; [apply elem_of_app; auto|exact Ha]).
      * intros (q & Hq & Ha). apply elem_of_app in Hq as [Hq|Hq]; eauto.
    + apply Forall_app. split.
      * destruct Hps1 as [->|[-> Hpass]]; [constructor|].
        constructor; [|constructor]. simpl. repeat split; try lia.
      * eapply Forall_impl; [exact Hall2|]. simpl.
        intros q (Q1 & Q2 & Q3 & Q4 & Q5). repeat split; try assumption; lia.
    + intros q Hq Hne. apply elem_of_app in Hq as [Hq|Hq];
        [|exact (Hfn2 q Hq Hne)].
      destruct Hps1 as [->|[-> _]]; [inversion Hq|].
      apply list_elem_of_singleton in Hq. subst q. simpl in Hne.
      destruct HR as [[-> _]|[_ [Hl|(Hin & Ha & Hmf)]]]; [congruence|lia|].
      split; [|auto]. rewrite Hpr2, Hpr1. rewrite !elem_of_app. auto.
Qed.

(** The probe of one device keeps [probe_inv]. *)
Lemma map_funcs_inv n d s s' :
  probe_inv H hw filter s -> 0 <= n -> 0 <= d < 32 ->
  (f_bus filter < 0 \/ f_bus filter = n) -> (f_bus filter < 0 -> n < 256) ->
  (f_slot filter < 0 \/ f_slot filter = d) ->
  map_funcs H hw filter 8 n d 0 1 s = Some s' -> probe_inv H hw filter s'.
Proof.
  intros (Ia & Ib & Ic & Ilen & Id) Hn Hd Hbus Hbus' Hslot Hm.
  apply map_funcs_spec in Hm; [|left; auto].
  destruct Hm as (ps & ex & cl & Hpr & Ht & Hcl & Hex & Hall & Hfn).
  rewrite list.Forall_forall in Hall.
  split; [|split; [|split; [|split]]].
  - rewrite Hpr. apply Forall_app. split; [exact Ia|].
    apply list.Forall_forall. intros p Hp.
    destruct (Hall p Hp) as (Q1 & Q2 & Q3 & Q4 & Q5).
    change (Z.of_nat 8) with 8 in Q4.
    repeat split; lia.
  - intros p Hp Hne. rewrite Hpr in Hp. apply elem_of_app in Hp as [Hp|Hp].
    + destruct (Ib p Hp Hne) as (B1 & B2 & B3). split; [|auto].
      rewrite Hpr. apply elem_of_app. left. exact B1.
    + destruct (Hall p Hp) as (Q1 & Q2 & Q3 & _).
      replace (function_0 p) with {| domain := 0; bus := n; dev := d; func := 0 |}
        by (unfold function_0; rewrite Q1, Q2, Q3; reflexivity).
      exact (Hfn p Hp Hne).
  - intros k bi Hk. rewrite Ht in Hk. rewrite Hpr.
    destruct (decide (k = Z.to_nat n)) as [->|Hne].
    + rewrite list_lookup_alter_eq in Hk.
      destruct (table s !! Z.to_nat n) as [bi0|] eqn:E0; [|discriminate].
      simpl in Hk. inversion Hk; subst bi. unfold stamp. simpl.
      rewrite orb_true_iff, (Ic _ _ E0), Hex. split.
      * intros [(p & Hp & Hb & Ha)|(p & Hp & Ha)]; exists p.
        -- split; [apply elem_of_app; auto|auto].
        -- destruct (Hall p Hp) as (_ & Q2 & _).
           split; [apply elem_of_app; auto|]. split; [congruence|exact Ha].
      * intros (p & Hp & Hb & Ha). apply elem_of_app in Hp as [Hp|Hp]; eauto.
    + rewrite list_lookup_alter_ne in Hk by congruence.
      rewrite (Ic _ _ Hk). split.
      * intros (p & Hp & Hb & Ha). exists p.
        split; [apply elem_of_app; auto|auto].
      * intros (p & Hp & Hb & Ha). apply elem_of_app in Hp as [Hp|Hp]; [eauto|].
        destruct (Hall p Hp) as (_ & Q2 & _). congruence.
  - rewrite Ht, length_alter. exact Ilen.
  - rewrite Ht. apply Forall_alter; [exact Id|].
    intros bi _ (G1 & G2 & G3). unfold stamp. simpl.
    split; [exact G1|]. split; [exact G2|]. apply Forall_app. auto.
Qed.

Lemma map_devs_inv k : forall n d s s',
  probe_inv H hw filter s -> 0 <= n -> 0 <= d -> d + Z.of_nat k <= 32 ->
  (f_bus filter < 0 \/ f_bus filter = n) -> (f_bus filter < 0 -> n < 256) ->
  map_devs H hw filter k n d s = Some s' -> probe_inv H hw filter s'.
Proof.
  induction k as [|k IH]; intros n d s s' Hs Hn Hd Hk Hbus Hbus' Hm;
    cbn [map_devs] in Hm.
  - inversion Hm; subst; exact Hs.
  - destruct ((f_slot filter <? 0) || (f_slot filter =? d)) eqn:Eslot.
    + destruct (map_funcs H hw filter 8 n d 0 1 s) as [s1|] eqn:E; [|discriminate].
      apply (IH n (d + 1) s1 s'); try assumption; try lia.
      apply (map_funcs_inv n d s s1); try assumption; lia.
    + apply (IH n (d + 1) s s'); try assumption; lia.
Qed.

Lemma map_buses_inv k : forall n s s',
  probe_inv H hw filter s -> 0 <= n -> n + Z.of_nat k <= 256 ->
  f_bus filter < 0 ->
  map_buses H hw filter k n s = Some s' -> probe_inv H hw filter s'.
Proof.
  induction k as [|k IH]; intros n s s' Hs Hn Hk Hbus Hm; cbn [map_buses] in Hm.
  - inversion Hm; subst; exact Hs.
  - destruct (do_map_bus H hw filter n s) as [s1|] eqn:E; [|discriminate].
    apply (IH (n + 1) s1 s'); try assumption; try lia.
    unfold do_map_bus in E.
    apply (map_devs_inv 32 n 0 s s1); try assumption; try lia.
Qed.

Lemma probe_the_bus_inv s :
  probe_the_bus H hw filter = Some s -> probe_inv H hw filter s.
Proof.
  unfold probe_the_bus. intros Hp.
  assert (H0 : probe_inv H hw filter
                 {| table := replicate 256 no_info; probed := []; messages := [] |}).
  { split; [constructor|]. split; [intros p Hp'; inversion Hp'|].
    split; [|split; [apply length_replicate|]].
    - intros k bi Hk. cbn [table] in Hk. apply lookup_replicate in Hk as [-> _].
      simpl. split; [discriminate|]. intros (p & Hp' & _). inversion Hp'.
    - cbn [table]. apply Forall_replicate. simpl. auto. }
  destruct (Z.geb_spec (f_bus filter) 0) as [Hge|Hlt].
  - unfold do_map_bus in Hp.
    apply (map_devs_inv 32 (f_bus filter) 0 _ s H0); try assumption; try lia.
  - apply (map_buses_inv 256 0 _ s H0); try assumption; try lia.
Qed.

(** A filter on a function above 0 keeps the loop over the functions of
    any device from asking anything. *)
Lemma map_devs_idle k : forall n d s,
  0 < f_func filter \/ 32 <= f_slot filter -> 0 <= d -> d + Z.of_nat k <= 32 ->
  map_devs H hw filter k n d s = Some s.
Proof.
  induction k as [|k IH]; intros n d s Hf Hd Hk; cbn [map_devs]; [reflexivity|].
  destruct ((f_slot filter <? 0) || (f_slot filter =? d)) eqn:Eslot.
  - assert (Hfun : 0 < f_func filter).
    { destruct Hf as [Hf|Hf]; [exact Hf|].
      apply orb_true_iff in Eslot as [E|E];
        [apply Z.ltb_lt in E|apply Z.eqb_eq in E]; lia. }
    assert (Hm : map_funcs H hw filter 8 n d 0 1 s = Some s).
    { cbn [map_funcs]. change (0 <? 1) with true. cbv iota.
      unfold map_func.
      destruct (Z.ltb_spec (f_func filter) 0); [lia|].
      destruct (Z.eqb_spec (f_func filter) 0); [lia|]. simpl.
      reflexivity. }
    rewrite Hm. apply IH; [exact Hf|lia|lia].
  - apply IH; [exact Hf|lia|lia].
Qed.

Lemma map_buses_idle k : forall n s,
  0 < f_func filter \/ 32 <= f_slot filter ->
  map_buses H hw filter k n s = Some s.
Proof.
  induction k as [|k IH]; intros n s Hf; cbn [map_buses]; [reflexivity|].
  unfold do_map_bus. rewrite (map_devs_idle 32 n 0 s Hf); [|lia|].
  - apply IH. exact Hf.
  - change (Z.of_nat 32) with 32. lia.
Qed.

End ProbeLoops.

(** X9.  The probe hands to [pci_get_dev] only addresses with a device
    number below 32 and a function number below 8, on a bus below 256
    when the filter names no bus, and only addresses that the fields
    [bus], [slot] and [func] of the filter let through. *)
Theorem probe_asks_what_the_filter_lets_through H hw filter (s : Lspci.probe) :
  Lspci.probe_the_bus H hw filter = Some s ->
  Forall (fun p => 0 <= bus p /\ 0 <= dev p < 32 /\ 0 <= func p < 8
                   /\ passes filter p
                   /\ (Lspci.f_bus filter < 0 -> bus p < 256))
         (Lspci.probed s).
Proof.
  intros Hs. destruct (probe_the_bus_inv H hw filter s Hs) as (Ia & _).
  eapply Forall_impl; [exact Ia|]. simpl. tauto.
Qed.

Lemma probe_asks_what_the_filter_lets_through_witness :
  exists s,
    Lspci.probe_the_bus sample_header hw_split bus_0_filter = Some s
    /\ length (Lspci.probed s) = 32%nat
    /\ Forall (fun p => 0 <= bus p /\ 0 <= dev p < 32 /\ 0 <= func p < 8
                        /\ passes bus_0_filter p
                        /\ (Lspci.f_bus bus_0_filter < 0 -> bus p < 256))
              (Lspci.probed s).
Proof.
  destruct (Lspci.probe_the_bus sample_header hw_split bus_0_filter)
    as [s|] eqn:Es; [|vm_compute in Es; discriminate].
  exists s. split; [reflexivity|]. split.
  - vm_compute in Es. inversion Es; subst s. reflexivity.
  - exact (probe_asks_what_the_filter_lets_through sample_header hw_split
             bus_0_filter s Es).
Defined.

(** X10.  A function other than function 0 is asked for only when
    function 0 of the same device has been asked for, has answered with a
    vendor word other than 0 and 0xffff, and has the multi-function bit
    set in its header type byte. *)
Theorem higher_functions_follow_function_0 H hw filter (s : Lspci.probe) p :
  Lspci.probe_the_bus H hw filter = Some s ->
  p ∈ Lspci.probed s -> func p <> 0 ->
  function_0 p ∈ Lspci.probed s /\ answers H hw (function_0 p)
  /\ multi_function H hw (function_0 p).
Proof.
  intros Hs Hp Hne.
  destruct (probe_the_bus_inv H hw filter s Hs) as (_ & Ib & _).
  exact (Ib p Hp Hne).
Qed.

Lemma higher_functions_follow_function_0_witness :
  exists s,
    Lspci.probe_the_bus sample_header hw_multi bus_0_filter = Some s
    /\ at_address 0 0 2 1 ∈ Lspci.probed s
    /\ at_address 0 0 2 0 ∈ Lspci.probed s
    /\ multi_function sample_header hw_multi (at_address 0 0 2 0).
Proof.
  destruct (Lspci.probe_the_bus sample_header hw_multi bus_0_filter)
    as [s|] eqn:Es; [|vm_compute in Es; discriminate].
  assert (Hin : at_address 0 0 2 1 ∈ Lspci.probed s).
  { vm_compute in Es. inversion Es; subst s. cbn [Lspci.probed].
    apply list_elem_of_In. unfold at_address. simpl. tauto. }
  destruct (higher_functions_follow_function_0 sample_header hw_multi
              bus_0_filter s (at_address 0 0 2 1) Es Hin ltac:(simpl; lia))
    as (H0 & _ & Hm).
  exists s. auto.
Defined.

(** X11.  After the probe a bus is marked as existing exactly when some
    function asked for on that bus has answered. *)
Theorem bus_exists_when_a_function_answers H hw filter (s : Lspci.probe) k bi :
  Lspci.probe_the_bus H hw filter = Some s ->
  Lspci.table s !! k = Some bi ->
  (Lspci.exists_ bi = true <->
   exists p, p ∈ Lspci.probed s /\ Z.to_nat (bus p) = k /\ answers H hw p).
Proof.
  intros Hs Hk.
  destruct (probe_the_bus_inv H hw filter s Hs) as (_ & _ & Ic & _).
  exact (Ic k bi Hk).
Qed.

Lemma bus_exists_when_a_function_answers_witness :
  exists s bi,
    Lspci.probe_the_bus sample_header hw_split bus_0_filter = Some s
    /\ Lspci.table s !! O = Some bi /\ Lspci.exists_ bi = true
    /\ exists p, p ∈ Lspci.probed s /\ Z.to_nat (bus p) = O
                 /\ answers sample_header hw_split p.
Proof.
  destruct (Lspci.probe_the_bus sample_header hw_split bus_0_filter)
    as [s|] eqn:Es; [|vm_compute in Es; discriminate].
  assert (Hbi : exists bi, Lspci.table s !! O = Some bi /\ Lspci.exists_ bi = true).
  { vm_compute in Es. inversion Es; subst s. eexists. split; reflexivity. }
  destruct Hbi as (bi & Hbi & Hex).
  pose proof (bus_exists_when_a_function_answers sample_header hw_split
                bus_0_filter s O bi Es Hbi) as Hiff.
  exists s, bi. split; [reflexivity|]. split; [exact Hbi|].
  split; [exact Hex|]. apply Hiff. exact Hex.
Defined.

(** X12.  The table the probe hands to [map_bridges] has 256 entries, no
    bus is marked visited or entered, and every claim [map_bridge] has
    recorded holds three bytes with first <= last and no tag. *)
Theorem probe_leaves_a_fresh_table H hw filter (s : Lspci.probe) :
  Lspci.probe_the_bus H hw filter = Some s -> fresh_table (Lspci.table s).
Proof.
  intros Hs. destruct (probe_the_bus_inv H hw filter s Hs) as (_ & _ & _ & Id).
  exact Id.
Qed.

Lemma probe_leaves_a_fresh_table_witness :
  exists s,
    Lspci.probe_the_bus sample_header hw_split bus_0_filter = Some s
    /\ fresh_table (Lspci.table s).
Proof.
  destruct (Lspci.probe_the_bus sample_header hw_split bus_0_filter)
    as [s|] eqn:Es; [|vm_compute in Es; discriminate].
  exists s. split; [reflexivity|].
  exact (probe_leaves_a_fresh_table sample_header hw_split bus_0_filter s Es).
Defined.

(** X13.  With a filter on a function number above 0 the probe asks for
    no function at all and leaves the table empty: function 0 is skipped
    by the filter, [func_limit] stays 1, and the loop ends before the
    function asked for.  The same holds for a slot number of 32 or
    more. *)
Theorem function_filter_probes_nothing H hw (filter : Lspci.pci_filter) :
  0 < Lspci.f_func filter \/ 32 <= Lspci.f_slot filter ->
  Lspci.probe_the_bus H hw filter
  = Some {| Lspci.table := replicate 256 Lspci.no_info; Lspci.probed := [];
            Lspci.messages := [] |}.
Proof.
  intros Hf. unfold Lspci.probe_the_bus.
  destruct (Lspci.f_bus filter >=? 0).
  - unfold Lspci.do_map_bus. apply map_devs_idle; [exact Hf|lia|].
    change (Z.of_nat 32) with 32. lia.
  - apply map_buses_idle. exact Hf.
Qed.

Lemma function_filter_probes_nothing_witness :
  Lspci.probe_the_bus sample_header hw_multi func_3_filter
  = Some {| Lspci.table := replicate 256 Lspci.no_info; Lspci.probed := [];
            Lspci.messages := [] |}.
Proof.
  apply (function_filter_probes_nothing sample_header hw_multi func_3_filter).
  left. simpl. lia.
Defined.

(** ** The hex dump below option -xxxx *)

(** X14.  With [show_hex] below 4 (options -x, -xx, -xxx) [show_hex_dump]
    stays inside the 256-byte array [config]: every block it asks of the
    hardware and every byte it prints lies in the array.  Below 3 it asks
    nothing of the hardware and prints the [config_cnt] cached bytes; at 3
    it asks at most once, for the rest of the first 256 bytes. *)
Theorem show_hex_dump_below_4_stays_in_config show_hex hw (d : Lspci.device) :
  show_hex < 4 -> 0 <= Lspci.config_cnt d <= 256 ->
  Forall (fun r => Lspci.in_config r = true) (Lspci.show_hex_dump show_hex hw d)
  /\ (show_hex < 3 ->
      Lspci.show_hex_dump show_hex hw d
      = (fun i : nat => (Z.of_nat i, 1)) <$> seq 0 (Z.to_nat (Lspci.config_cnt d)))
  /\ (show_hex = 3 ->
      exists r n,
        Lspci.show_hex_dump show_hex hw d
        = r ++ ((fun i : nat => (Z.of_nat i, 1)) <$> seq 0 n)
        /\ (r = [] \/ r = [(Lspci.config_cnt d, 256 - Lspci.config_cnt d)])
        /\ (n = 256%nat \/ n = Z.to_nat (Lspci.config_cnt d))).
Proof.
  intros Hx Hcnt.
  assert (Hbytes : forall n : nat, (n <= 256)%nat ->
            Forall (fun r => Lspci.in_config r = true)
                   ((fun i : nat => (Z.of_nat i, 1)) <$> seq 0 n)).
  { intros n Hn. apply list.Forall_forall. intros r Hr.
    apply list_elem_of_fmap in Hr as (i & -> & Hi). apply elem_of_seq in Hi.
    unfold Lspci.in_config, Lspci.config_size. simpl.
    apply andb_true_iff. split; [apply Z.leb_le|apply Z.leb_le]; lia. }
  unfold Lspci.show_hex_dump.
  destruct (Z.leb_spec 3 show_hex) as [H3|H3].
  - destruct (Z.leb_spec 4 show_hex) as [H4|_]; [lia|].
    rewrite (u32_small (256 - Lspci.config_cnt d)) by lia.
    unfold Lspci.config_fetch.
    replace (Lspci.config_cnt d + (256 - Lspci.config_cnt d)) with 256 by lia.
    destruct (u32 256 <? Lspci.config_cnt d).
    + cbn [app]. split; [apply Hbytes; lia|]. split; [lia|].
      intros _. exists [], 256%nat. auto.
    + assert (Hin : Lspci.in_config
                      (Lspci.config_cnt d, 256 - Lspci.config_cnt d) = true).
      { unfold Lspci.in_config, Lspci.config_size. simpl.
        apply andb_true_iff. split; apply Z.leb_le; lia. }
      destruct (hw_ok hw (Lspci.d_dev d) (Lspci.config_cnt d)
                  (256 - Lspci.config_cnt d)).
      * split; [|split; [lia|]].
        -- apply Forall_app. split; [repeat constructor; exact Hin|].
           apply Hbytes. lia.
        -- intros _. eexists _, 256%nat. split; [reflexivity|]. auto.
      * split; [|split; [lia|]].
        -- apply Forall_app. split; [repeat constructor; exact Hin|].
           apply Hbytes. lia.
        -- intros _. eexists _, _. split; [reflexivity|]. auto.
  - cbn [app]. split; [apply Hbytes; lia|]. split; [reflexivity|lia].
Qed.

Lemma show_hex_dump_below_4_stays_in_config_witness :
  Forall (fun r => Lspci.in_config r = true)
         (Lspci.show_hex_dump 3 hw_zero scanned_dev)
  /\ length (Lspci.show_hex_dump 3 hw_zero scanned_dev) = 257%nat.
Proof.
  destruct (show_hex_dump_below_4_stays_in_config 3 hw_zero scanned_dev)
    as (Hall & _); [lia|simpl; lia|].
  split; [exact Hall|]. vm_compute. reflexivity.
Defined.

(** ** The walk over the capability list *)

Section CapsFacts.

Import Lspci.

Variable H : header_h.
Variable C : caps_h.
Variable hw : hardware.
Variable verbose : Z.

(** A pointer of the list is a byte with its two low bits cleared. *)
Lemma pointer_range (b : byte) :
  0 <= Z.land (byte_val b) (Z.lnot 3) <= 252
  /\ Z.land (byte_val b) (Z.lnot 3) mod 4 = 0.
Proof.
  assert (Hb : (0 <=? Z.land (byte_val b) (Z.lnot 3))
               && (Z.land (byte_val b) (Z.lnot 3) <=? 252)
               && (Z.land (byte_val b) (Z.lnot 3) mod 4 =? 0) = true)
    by (destruct b; reflexivity).
  apply andb_true_iff in Hb as [Hb H3]. apply andb_true_iff in Hb as [H1 H2].
  apply Z.leb_le in H1, H2. apply Z.eqb_eq in H3. auto.
Qed.

Lemma conf_pointer d pos :
  0 <= Z.land (conf d pos) (Z.lnot 3) <= 252
  /\ Z.land (conf d pos) (Z.lnot 3) mod 4 = 0.
Proof. unfold conf. apply pointer_range. Qed.


(** Below verbosity 2 no printer touches the cache. *)
Lemma show_cap_quiet d id wh cap :
  verbose < 2 -> show_cap H C hw verbose d id wh cap = ([], d).
Proof.
  intros Hv. unfold show_cap, show_pm, show_agp, show_msi, show_pcix,
    show_pcix_nobridge, show_pcix_bridge, show_ht, show_ht_pri, show_ht_sec.
  destruct (Z.ltb_spec verbose 2); [|lia].
  repeat match goal with
         | |- context [if ?c then _ else _] => destruct c
         end; reflexivity.
Qed.



(** The device after the fetch of the header of a capability: its cached
    bytes are still those of the hardware, and so are the four bytes of
    the capability. *)
Lemma fetch_header_cached d w :
  cached_header hw d -> 0 <= w <= 252 ->
  (forall pos len, hw_ok hw (d_dev d) pos len = true) ->
  exists r d1,
    config_fetch hw d w 4 = (r, (true, d1))
    /\ cached_header hw d1 /\ d_dev d1 = d_dev d
    /\ forall i, w <= i < w + 4 -> conf d1 i = byte_val (hw_space hw (d_dev d) i).
Proof.
  intros (Hlen & Hcnt & Hc) Hw Hok. unfold config_fetch.
  rewrite (u32_small (w + 4)) by lia.
  destruct (Z.ltb_spec (w + 4) (config_cnt d)) as [Hlt|Hge].
  - exists [], d. split; [reflexivity|]. split; [split; auto|].
    split; [reflexivity|]. intros i Hi. apply Hc. lia.
  - rewrite Hok. eexists _, _. split; [reflexivity|].
    assert (Hconf : forall i, 0 <= i ->
              conf {| d_dev := d_dev d; config_cnt := config_cnt d;
                      config := store_block (config d) w (read_bytes hw (d_dev d) w 4) |} i
              = if (w <=? i) && (i <? w + 4) then byte_val (hw_space hw (d_dev d) i)
                else conf d i).
    { intros i Hi. apply conf_after_read; try lia. }
    split; [|split; [reflexivity|]].
    + split; [|split; [exact Hcnt|]]; cbn [config config_cnt d_dev].
      * rewrite length_store_block; [exact Hlen|lia|].
        rewrite length_read_bytes. lia.
      * intros i Hi. rewrite Hconf by lia.
        destruct ((w <=? i) && (i <? w + 4)); [reflexivity|]. apply Hc. exact Hi.
    + intros i Hi. rewrite Hconf by lia.
      destruct (Z.leb_spec w i); [|lia]. destruct (Z.ltb_spec i (w + 4)); [|lia].
      reflexivity.
Qed.

Lemma iter_shift {A} (f : A -> A) (j : nat) x :
  Nat.iter j f (f x) = Nat.iter (S j) f x.
Proof. induction j as [|j IH]; simpl in *; [reflexivity|]. rewrite IH. reflexivity. Qed.

(** A list that never ends is walked for ever. *)
Lemma caps_from_loops fuel : forall w d,
  verbose < 2 -> cached_header hw d -> 0 <= w <= 252 ->
  (forall pos len, hw_ok hw (d_dev d) pos len = true) ->
  0 <= PCI_CAP_LIST_ID C < 4 -> 0 <= PCI_CAP_LIST_NEXT C < 4 ->
  (forall j, Nat.iter j (hw_next C hw (d_dev d)) w <> 0
             /\ hw_id C hw (d_dev d) (Nat.iter j (hw_next C hw (d_dev d)) w) <> 255) ->
  caps_from H C hw verbose fuel w d = None.
Proof.
  induction fuel as [|f IH]; intros w d Hv Hc Hw Hok Hid Hnx Hall.
  - simpl. destruct (Z.eqb_spec w 0) as [E|_]; [|reflexivity].
    destruct (Hall O) as [H0 _]. simpl in H0. contradiction.
  - cbn [caps_from]. destruct (Z.eqb_spec w 0) as [E|_].
    { destruct (Hall O) as [H0 _]. simpl in H0. contradiction. }
    destruct (fetch_header_cached d w Hc Hw Hok) as (r & d1 & Hf & Hc1 & Hd1 & Hb).
    rewrite Hf. simpl.
    unfold get_conf_byte at 1. rewrite Hb by lia.
    destruct (Hall O) as [_ Hid0]. simpl in Hid0. unfold hw_id in Hid0.
    destruct (Z.eqb_spec (byte_val (hw_space hw (d_dev d) (w + PCI_CAP_LIST_ID C))) 255);
      [contradiction|].
    rewrite show_cap_quiet by exact Hv.
    unfold get_conf_byte. rewrite Hb by lia.
    rewrite (IH _ d1); [reflexivity|exact Hv|exact Hc1| | | | |].
    + apply pointer_range.
    + rewrite Hd1. exact Hok.
    + exact Hid.
    + exact Hnx.
    + intros j. rewrite Hd1.
      change (Z.land (byte_val (hw_space hw (d_dev d) (w + PCI_CAP_LIST_NEXT C)))
                (Z.lnot 3)) with (hw_next C hw (d_dev d) w).
      rewrite iter_shift. apply Hall.
Qed.

End CapsFacts.


(** X16.  [show_caps] has no guard against a capability list that loops.
    At a verbosity below 2, on a device whose cached bytes are those of
    the hardware and whose status word has the capability bit: when the
    list the hardware holds never reaches the pointer 0 nor a capability
    of identifier 0xff, the loop of [show_caps] does not end, whatever the
    fuel. *)
Theorem show_caps_follows_a_looping_list_for_ever H C hw verbose
    (d : Lspci.device) fuel :
  verbose < 2 -> cached_header hw d ->
  (forall pos len, hw_ok hw (Lspci.d_dev d) pos len = true) ->
  0 <= Lspci.PCI_CAP_LIST_ID C < 4 -> 0 <= Lspci.PCI_CAP_LIST_NEXT C < 4 ->
  Z.land (Lspci.get_conf_word d (Lspci.PCI_STATUS C)) (Lspci.PCI_STATUS_CAP_LIST C)
    <> 0 ->
  (forall j,
     let w := Nat.iter j (hw_next C hw (Lspci.d_dev d))
                (Z.land (Lspci.get_conf_byte d (Lspci.PCI_CAPABILITY_LIST C))
                   (Z.lnot 3)) in
     w <> 0 /\ hw_id C hw (Lspci.d_dev d) w <> 255) ->
  Lspci.show_caps H C hw verbose fuel d = None.
Proof.
  intros Hv Hc Hok Hid Hnx Hst Hall. unfold Lspci.show_caps.
  destruct (Z.eqb_spec (Z.land (Lspci.get_conf_word d (Lspci.PCI_STATUS C))
                          (Lspci.PCI_STATUS_CAP_LIST C)) 0); [contradiction|].
  simpl. apply caps_from_loops; try assumption.
  apply conf_pointer.
Qed.

Lemma looping_list (j : nat) :
  Nat.iter j (hw_next sample_caps hw_looping dev0) 64 = 64.
Proof. induction j as [|j IH]; [reflexivity|]. simpl. rewrite IH. reflexivity. Qed.

Lemma show_caps_follows_a_looping_list_for_ever_witness :
  Lspci.scan_device sample_header hw_looping (fun _ => true) dev0
  = Lspci.Scanned looping_dev
  /\ Lspci.show_caps sample_header sample_caps hw_looping 1 1000 looping_dev = None.
Proof.
  split; [reflexivity|].
  apply show_caps_follows_a_looping_list_for_ever.
  - lia.
  - split; [reflexivity|]. split; [simpl; lia|].
    intros i Hi. unfold looping_dev. rewrite conf_after_read; simpl in *; try lia.
    destruct (Z.leb_spec 0 i); [|lia]. destruct (Z.ltb_spec i (0 + 64)); [|lia].
    reflexivity.
  - reflexivity.
  - simpl. lia.
  - simpl. lia.
  - vm_compute. discriminate.
  - intros j.
    change (Z.land (Lspci.get_conf_byte looping_dev
                      (Lspci.PCI_CAPABILITY_LIST sample_caps)) (Z.lnot 3)) with 64.
    cbv zeta. change (Lspci.d_dev looping_dev) with dev0.
    rewrite looping_list. split; [lia|]. vm_compute. discriminate.
Defined.


(** ** Texts *)

Section TextFacts.

Lemma land_7 rate :
  Z.land rate 7 = 0
  <-> Z.land rate 1 = 0 /\ Z.land rate 2 = 0 /\ Z.land rate 4 = 0.
Proof.
  change 7 with (Z.lor 1 (Z.lor 2 4)).
  rewrite !Z.land_lor_distr_r, !Z.lor_eq_0_iff. tauto.
Qed.

Lemma size_unit_spec n : forall x i q j,
  0 < x -> Cache.size_unit n x i = (q, j) ->
  x = q * 1024 ^ (Z.of_nat j - Z.of_nat i) /\ 0 < q
  /\ (i <= j <= i + n)%nat
  /\ ((j < i + n)%nat -> q mod 1024 <> 0).
Proof.
  induction n as [|n IH]; intros x i q j Hx Hs; simpl in Hs.
  - inversion Hs; subst. rewrite Z.sub_diag. simpl. repeat split; lia.
  - destruct (Z.eqb_spec (x mod 1024) 0) as [Hm|Hm]; simpl in Hs.
    + assert (Hx' : x = 1024 * (x / 1024)).
      { rewrite (Z.div_mod x 1024) at 1 by lia. lia. }
      destruct (IH (x / 1024) (S i) q j ltac:(lia) Hs) as (He & Hq & Hj & Hnz).
      split; [|split; [exact Hq|split; [lia|intros Hlt; apply Hnz; lia]]].
      rewrite Hx' at 1. rewrite He at 1.
      replace (Z.of_nat j - Z.of_nat i) with (Z.succ (Z.of_nat j - Z.of_nat (S i)))
        by lia.
      rewrite Z.pow_succ_r by lia. lia.
    + inversion Hs; subst. rewrite Z.sub_diag. simpl. repeat split; lia.
Qed.

End TextFacts.

(** X17.  [format_agp_rate], called with [agp3] 0 or 1 as [show_agp]
    does, leaves a text of fewer than 16 characters, so the text and its
    final zero fit the 16 bytes of [rate] in [show_agp]; the text is
    "<none>" exactly when none of the three low bits of the rate is
    set. *)
Theorem format_agp_rate_fits_its_buffer (rate agp3 : Z) :
  agp3 = 0 \/ agp3 = 1 ->
  (String.length (Lspci.format_agp_rate rate agp3) < 16)%nat
  /\ (Lspci.format_agp_rate rate agp3 = "<none>" <-> Z.land rate 7 = 0).
Proof.
  intros Hagp. rewrite land_7.
  unfold Lspci.format_agp_rate, Lspci.agp_rate_step. cbn [foldl].
  change (Z.shiftl 1 0) with 1. change (Z.shiftl 1 1) with 2.
  change (Z.shiftl 1 2) with 4.
  destruct (Z.eqb_spec (Z.land rate 1) 0) as [E1|E1];
    destruct (Z.eqb_spec (Z.land rate 2) 0) as [E2|E2];
    destruct (Z.eqb_spec (Z.land rate 4) 0) as [E4|E4];
    destruct Hagp as [-> | ->]; cbn [negb];
    (split; [vm_compute; lia|]);
    (split; [try (vm_compute; discriminate); auto|
             try tauto; intros; reflexivity]).
Qed.

Lemma format_agp_rate_fits_its_buffer_witness :
  Lspci.format_agp_rate 7 1 = "x4,x8,x16"
  /\ (String.length (Lspci.format_agp_rate 7 1) < 16)%nat.
Proof.
  split; [reflexivity|].
  apply (format_agp_rate_fits_its_buffer 7 1). right. reflexivity.
Defined.

(** X18.  [show_size] of the h1a_ee program divides the size by 1024 only
    while it is a multiple of 1024, so the number and the suffix it
    prints stand for the size exactly: the size is the number times 1024
    to the rank of the suffix, and the number is a multiple of 1024 only
    with the last suffix.  The number goes through [%u]: it is printed in
    full when it is below 2^32. *)
Theorem show_size_is_exact (x : Z) :
  0 < x ->
  exists q i,
    Cache.show_size x
    = " [size=" +:+ pretty (u32 q) +:+ default "" (Cache.suffix !! i) +:+ "]"
    /\ x = q * 1024 ^ Z.of_nat i /\ (i <= 4)%nat
    /\ ((i < 4)%nat -> q mod 1024 <> 0)
    /\ (x < 2 ^ 32 -> u32 q = q).
Proof.
  intros Hx. unfold Cache.show_size.
  destruct (Z.eqb_spec x 0); [lia|].
  destruct (Cache.size_unit 4 x O) as [q i] eqn:Es.
  destruct (size_unit_spec 4 x O q i Hx Es) as (He & Hq & Hi & Hnz).
  exists q, i. split; [reflexivity|]. rewrite Z.sub_0_r in He.
  split; [exact He|]. split; [lia|]. split; [intros Hlt; apply Hnz; lia|].
  intros Hsmall. apply u32_small.
  assert (0 < 1024 ^ Z.of_nat i) by (apply Z.pow_pos_nonneg; lia). nia.
Qed.

Lemma show_size_is_exact_witness :
  Cache.show_size 3145728 = " [size=3M]"
  /\ exists q i,
       Cache.show_size 3145728
       = " [size=" +:+ pretty (u32 q) +:+ default "" (Cache.suffix !! i) +:+ "]"
       /\ 3145728 = q * 1024 ^ Z.of_nat i.
Proof.
  split; [reflexivity|].
  destruct (show_size_is_exact 3145728 ltac:(lia)) as (q & i & Hs & He & _).
  exists q, i. auto.
Defined.

(** ** The presence mask: what a fetch leaves *)

Section CacheMore.

Import Cache.

Lemma is_present_grow d size i :
  is_present (grow d size) i = is_present d i.
Proof.
  unfold is_present, grow. simpl.
  destruct (present d !! Z.to_nat i) as [v|] eqn:E.
  - rewrite (lookup_app_l_Some _ _ _ _ E). reflexivity.
  - apply lookup_ge_None in E. rewrite lookup_app_r by exact E.
    destruct (replicate _ false !! _) as [v|] eqn:E'; [|reflexivity].
    apply lookup_replicate in E' as [-> _]. reflexivity.
Qed.

Lemma grow_buffers_ok d size :
  buffers_ok d -> config_bufsize d <= size < 2 ^ 32 -> buffers_ok (grow d size).
Proof.
  intros ((Hpos & Hp) & Hc & Hmax) Hs. unfold buffers_ok, well_formed, grow.
  simpl. rewrite !length_app, !length_replicate. repeat split; lia.
Qed.

Lemma cached_byte_grow d size i :
  buffers_ok d -> 0 <= i < config_bufsize d ->
  cached_byte (grow d size) i = cached_byte d i.
Proof.
  intros (_ & Hc & _) Hi. unfold cached_byte, grow. simpl.
  rewrite lookup_app_l by lia. reflexivity.
Qed.

Lemma fetched_buffers_ok d hw p l :
  0 <= p -> 0 <= l -> p + l <= config_bufsize d -> buffers_ok d ->
  buffers_ok (fetched hw d p l).
Proof.
  intros Hp Hl Hfit (Hwf & Hc & Hmax). split; [|split; [|exact Hmax]].
  - apply fetched_well_formed; assumption.
  - unfold fetched. simpl. rewrite length_store_block; [exact Hc|lia|].
    rewrite length_read_bytes. lia.
Qed.

Lemma cached_byte_fetched d hw p l i :
  0 <= p -> 0 <= l -> p + l <= config_bufsize d -> buffers_ok d -> 0 <= i ->
  cached_byte (fetched hw d p l) i
  = if (p <=? i) && (i <? p + l) then byte_val (hw_space hw (d_dev d) i)
    else cached_byte d i.
Proof.
  intros Hp Hl Hfit (_ & Hc & _) Hi. unfold cached_byte, fetched. simpl.
  rewrite lookup_store_block by (rewrite ?length_read_bytes; lia).
  rewrite length_read_bytes.
  destruct (Z.leb_spec p i); destruct (Nat.leb_spec (Z.to_nat p) (Z.to_nat i));
    try lia; simpl; [|reflexivity].
  destruct (Z.ltb_spec i (p + l));
    destruct (Nat.ltb_spec (Z.to_nat i) (Z.to_nat p + Z.to_nat l)); try lia.
  rewrite lookup_read_bytes by lia. simpl. do 2 f_equal. lia.
Qed.

(** What a fetch that returns 1 leaves. *)
Lemma config_fetch_post hw d pos len d' :
  buffers_ok d -> 0 <= pos -> 0 <= len -> pos + len <= 2 ^ 31 ->
  snd (config_fetch hw d pos len) = Some (true, d') ->
  buffers_ok d' /\ d_dev d' = d_dev d /\ config_cached d' = config_cached d
  /\ config_bufsize d <= config_bufsize d'
  /\ (forall i, pos <= i < pos + len -> is_present d' i = true)
  /\ (forall i, 0 <= i -> is_present d i = true -> is_present d' i = true)
  /\ (forall i, 0 <= i -> is_present d' i = true ->
        cached_byte d' i = byte_val (hw_space hw (d_dev d) i)
        \/ (is_present d i = true /\ cached_byte d' i = cached_byte d i)).
Proof.
  intros Hok Hpos Hlen Hfit. pose proof Hok as ((Hsz & Hpl) & Hcl & Hmax).
  unfold config_fetch.
  destruct (skip_front d pos (Z.to_nat len)) as [p1 l1] eqn:Ef.
  apply skip_front_spec in Ef as (Hsum & Hle & Hin & Hstop).
  rewrite Z2Nat.id in Hsum by lia.
  pose proof (skip_back_spec d p1 l1 ltac:(lia) ltac:(lia)) as (Hl & Hback & Hbstop).
  destruct (skip_back d p1 l1) as [|l2] eqn:Eb.
  - simpl. intros [= <-]. split; [exact Hok|]. repeat split; auto; try lia.
    intros i Hi. destruct (Z_lt_dec i p1); [apply Hin; lia|apply Hback; lia].
  - set (l := Z.of_nat (S l2)) in *.
    rewrite (u32_small (pos + len)) by lia.
    assert (Hgrown : exists d1,
               (if pos + len >? config_bufsize d
                then grow d <$> grow_size 32 (pos + len) (config_bufsize d)
                else Some d) = Some d1
               /\ buffers_ok d1 /\ d_dev d1 = d_dev d
               /\ config_cached d1 = config_cached d
               /\ config_bufsize d <= config_bufsize d1
               /\ pos + len <= config_bufsize d1
               /\ (forall i, is_present d1 i = is_present d i)
               /\ (forall i, 0 <= i < config_bufsize d ->
                     cached_byte d1 i = cached_byte d i)).
    { destruct (Z.gtb_spec (pos + len) (config_bufsize d)) as [Hgt|Hfits].
      - destruct (grow_size_total (pos + len) Hfit 32%nat (config_bufsize d) Hsz)
          as (s & Hs & Hfin & Hge).
        { change (2 ^ Z.of_nat 32) with 4294967296. lia. }
        assert (Hs31 : s < 2 ^ 32).
        { clear - Hs Hfit Hmax Hsz.
          assert (Hgen : forall fuel size, 0 < size < 2 ^ 32 ->
                    grow_size fuel (pos + len) size = Some s -> s < 2 ^ 32).
          { induction fuel as [|n IH]; intros size Hsize Hg; simpl in Hg.
            - destruct (pos + len >? size); [discriminate|].
              inversion Hg; subst. lia.
            - destruct (Z.gtb_spec (pos + len) size) as [Hgt|Hle].
              + apply (IH (u32 (size * 2))); [|exact Hg].
                rewrite u32_small by lia. lia.
              + inversion Hg; subst. lia. }
          apply (Hgen 32%nat (config_bufsize d)); [lia|exact Hs]. }
        rewrite Hs. simpl. eexists. split; [reflexivity|].
        split; [apply grow_buffers_ok; [exact Hok|lia]|].
        split; [reflexivity|]. split; [reflexivity|]. simpl.
        split; [lia|]. split; [lia|]. split.
        + intros i. apply is_present_grow.
        + intros i Hi. apply cached_byte_grow; assumption.
      - exists d. repeat split; auto; lia. }
    destruct Hgrown as (d1 & -> & Hok1 & Hd1 & Hcc1 & Hsz1 & Hfit1 & Hpr1 & Hby1).
    simpl. destruct (hw_ok hw (d_dev d1) p1 l) eqn:Eok; [|discriminate].
    intros [= <-].
    assert (Hl1 : l1 <> O) by lia.
    assert (Hp1l : p1 + l <= config_bufsize d1) by lia.
    assert (Hpres : forall i, 0 <= i ->
              is_present (fetched hw d1 p1 l) i
              = if (p1 <=? i) && (i <? p1 + l) then true else is_present d i).
    { intros i Hi. rewrite is_present_memset; try lia; [|apply Hok1].
      rewrite Hpr1. reflexivity. }
    split; [apply fetched_buffers_ok; assumption || lia|].
    split; [exact Hd1|]. split; [exact Hcc1|]. split; [exact Hsz1|].
    split; [|split].
    + intros i Hi. rewrite Hpres by lia.
      destruct ((p1 <=? i) && (i <? p1 + l)) eqn:E; [reflexivity|].
      apply andb_false_iff in E as [E|E];
        [apply Z.leb_gt in E; apply Hin; lia|apply Z.ltb_ge in E; apply Hback; lia].
    + intros i Hi Hp. rewrite Hpres by lia.
      destruct ((p1 <=? i) && (i <? p1 + l)); [reflexivity|exact Hp].
    + intros i Hi Hp. rewrite Hpres in Hp by lia.
      rewrite cached_byte_fetched; try lia; [|exact Hok1].
      rewrite Hd1.
      destruct ((p1 <=? i) && (i <? p1 + l)); [left; reflexivity|right].
      split; [exact Hp|]. apply Hby1. split; [lia|].
      apply (is_present_inside d i (conj Hsz Hpl) Hi Hp).
Qed.



End CacheMore.

Section CacheDump.

Import Cache.


End CacheDump.

(** X19.  A call of the presence-mask [config_fetch] that returns 1 leaves
    every byte of the range present, so [get_conf_byte] reads each of them
    without dying; no byte that was present is lost; and each present byte
    either has just been read from the hardware or was present before and
    is unchanged. *)
Theorem config_fetch_makes_the_range_present hw (d d' : Cache.device) pos len :
  buffers_ok d -> 0 <= pos -> 0 <= len -> pos + len <= 2 ^ 31 ->
  snd (Cache.config_fetch hw d pos len) = Some (true, d') ->
  buffers_ok d'
  /\ (forall i, pos <= i < pos + len ->
        Cache.get_conf_byte d' i = Some (cached_byte d' i))
  /\ (forall i, 0 <= i -> Cache.is_present d i = true ->
        Cache.is_present d' i = true)
  /\ (forall i, 0 <= i -> Cache.is_present d' i = true ->
        cached_byte d' i = byte_val (hw_space hw (Cache.d_dev d) i)
        \/ (Cache.is_present d i = true /\ cached_byte d' i = cached_byte d i)).
Proof.
  intros Hok Hpos Hlen Hfit Hs.
  destruct (config_fetch_post hw d pos len d' Hok Hpos Hlen Hfit Hs)
    as (H1 & _ & _ & _ & H2 & H3 & H4).
  split; [exact H1|]. split; [|split; [exact H3|exact H4]].
  intros i Hi. unfold Cache.get_conf_byte, Cache.check_conf_range.
  rewrite (H2 i Hi). reflexivity.
Qed.

Lemma config_fetch_makes_the_range_present_witness :
  exists d',
    snd (Cache.config_fetch hw_zero empty_cache 300 8) = Some (true, d')
    /\ Cache.config_bufsize d' = 512
    /\ Cache.get_conf_byte d' 303 = Some (cached_byte d' 303)
    /\ Cache.get_conf_byte d' 299 = None.
Proof.
  assert (Hok : buffers_ok empty_cache).
  { split; [split; reflexivity|]. split; [reflexivity|]. simpl. lia. }
  destruct (snd (Cache.config_fetch hw_zero empty_cache 300 8)) as [[ok d']|] eqn:E;
    [|vm_compute in E; discriminate].
  assert (ok = true) by (vm_compute in E; congruence). subst ok.
  destruct (config_fetch_makes_the_range_present hw_zero empty_cache d' 300 8
              Hok ltac:(lia) ltac:(lia) ltac:(lia) E) as (_ & Hget & _).
  exists d'. split; [reflexivity|]. split; [|split; [apply Hget; lia|]];
    vm_compute in E; inversion E; subst d'; reflexivity.
Defined.



(** ** The entry bridges the walk records *)

Section WalkMore.

Import Lspci.

Lemma exists_flags w n :
  exists_of w n = default false ((exists_ <$> infos w) !! n).
Proof. unfold exists_of. rewrite list_lookup_fmap. reflexivity. Qed.

Lemma exists_of_eq w w' n :
  exists_ <$> infos w' = exists_ <$> infos w -> exists_of w' n = exists_of w n.
Proof. intros He. rewrite !exists_flags, He. reflexivity. Qed.

Lemma flags_enter n w : exists_ <$> infos (enter n w) = exists_ <$> infos w.
Proof. unfold enter. simpl. apply fmap_alter_same. reflexivity. Qed.

Lemma flags_set_bug n k v w :
  exists_ <$> infos (set_bug n k v w) = exists_ <$> infos w.
Proof. unfold set_bug. simpl. apply fmap_alter_same. reflexivity. Qed.

Lemma flags_set_via n b w :
  exists_ <$> infos (set_via n b w) = exists_ <$> infos w.
Proof. unfold set_via. simpl. apply fmap_alter_same. reflexivity. Qed.

Lemma range_at_eq w w' n k :
  ranges w' = ranges w -> range_at w' n k = range_at w n k.
Proof. intros Hr. unfold range_at. rewrite Hr. reflexivity. Qed.

Lemma visited_lt w m : visited w m = true -> (m < length (infos w))%nat.
Proof.
  intros Hv. rewrite visited_marks in Hv.
  destruct (marks w !! m) eqn:E; [|discriminate].
  apply lookup_lt_Some in E. rewrite marks_length in E. exact E.
Qed.

Lemma visited_enter_eq n w :
  (n < length (infos w))%nat -> visited (enter n w) n = true.
Proof.
  intros Hn. rewrite visited_marks, marks_enter, list_lookup_alter_eq.
  destruct (marks w !! n) eqn:E; [reflexivity|].
  apply lookup_ge_None in E. rewrite marks_length in E. lia.
Qed.

Lemma visited_enter_ne n w m : n <> m -> visited (enter n w) m = visited w m.
Proof.
  intros Hne. rewrite !visited_marks, marks_enter.
  rewrite list_lookup_alter_ne by exact Hne. reflexivity.
Qed.

Lemma visited_enter_mono n w m :
  visited w m = true -> visited (enter n w) m = true.
Proof.
  intros Hv. destruct (decide (n = m)) as [->|Hne].
  - apply visited_enter_eq, visited_lt, Hv.
  - rewrite visited_enter_ne by exact Hne. exact Hv.
Qed.

(** A step that writes neither a guestbook flag nor an entry bridge. *)
Lemma via_inv_same w w' :
  ranges w' = ranges w -> marks w' = marks w -> entered w' = entered w ->
  exists_ <$> infos w' = exists_ <$> infos w ->
  (forall m, via_of w' m = via_of w m) ->
  via_inv w -> via_inv w'.
Proof.
  intros Hr Hm He Hx Hvia (H1 & H2 & H3 & H4).
  split; [|split; [|split]].
  - intros m Hv. rewrite Hvia. apply H1.
    rewrite <- (visited_eq w w' m Hm). exact Hv.
  - intros m n k Hv. rewrite Hvia in Hv.
    destruct (H2 m n k Hv) as [Hn (r & Hra & Hto)].
    split; [rewrite (visited_eq w w' n Hm); exact Hn|].
    exists r. rewrite (range_at_eq w w' n k Hr). auto.
  - intros c m k n k' r r'.
    rewrite !Hvia, !(range_at_eq w w' _ _ Hr). apply H3.
  - intros m Hin. rewrite He in Hin.
    rewrite Hvia, (exists_of_eq w w' m Hx). apply H4, Hin.
Qed.

(** Entering a bus that exists, from the loop of [map_bridges]. *)
Lemma via_inv_root i w :
  via_inv w -> exists_of w i = true -> via_inv (enter i w).
Proof.
  intros (H1 & H2 & H3 & H4) Hx.
  pose proof (ranges_enter i w) as Hr.
  split; [|split; [|split]].
  - intros m Hv. rewrite via_of_enter. apply H1.
    destruct (visited w m) eqn:E; [|reflexivity].
    rewrite (visited_enter_mono i w m E) in Hv. discriminate.
  - intros m n k Hv. rewrite via_of_enter in Hv.
    destruct (H2 m n k Hv) as [Hn (r & Hra & Hto)].
    split; [apply visited_enter_mono; exact Hn|]. exists r.
    rewrite (range_at_eq w (enter i w) n k Hr). auto.
  - intros c m k n k' r r'.
    rewrite !via_of_enter, !(range_at_eq w (enter i w) _ _ Hr). apply H3.
  - intros m Hin.
    rewrite via_of_enter, (exists_of_eq w (enter i w) m (flags_enter i w)).
    simpl in Hin. apply elem_of_app in Hin as [Hin|Hin]; [apply H4, Hin|].
    apply list_elem_of_singleton in Hin. subst. left. exact Hx.
Qed.

(** Entering the bus [c] through the claim at position [k] of bus [n],
    which lies within the window of [n]. *)
Lemma via_inv_descend n k c r min max w :
  via_inv w -> visited w n = true -> visited w c = false ->
  (c < length (infos w))%nat ->
  range_at w n k = Some r -> Z.to_nat r.1 = c ->
  window_ok w n min max -> min <= r.1 -> r.2 <= max ->
  via_inv (enter c (set_via c (n, k) w)).
Proof.
  intros (H1 & H2 & H3 & H4) Hn Hc Hlen Hr Hto Hwin Hmin Hmax.
  assert (Hnc : n <> c) by (intros ->; congruence).
  assert (Hvia_c : via_of (enter c (set_via c (n, k) w)) c = Some (n, k)).
  { rewrite via_of_enter. apply via_of_set_via. exact Hlen. }
  assert (Hvia_ne : forall m, m <> c ->
            via_of (enter c (set_via c (n, k) w)) m = via_of w m).
  { intros m Hm. rewrite via_of_enter. apply via_of_set_via_ne. congruence. }
  assert (Hvis_ne : forall m, m <> c ->
            visited (enter c (set_via c (n, k) w)) m = visited w m).
  { intros m Hm. rewrite visited_enter_ne by congruence.
    apply visited_eq, marks_set_via. }
  assert (Hra : forall a b,
            range_at (enter c (set_via c (n, k) w)) a b = range_at w a b).
  { intros a b. apply range_at_eq. rewrite ranges_enter. apply ranges_set_via. }
  assert (Hmono : forall m, visited w m = true ->
            visited (enter c (set_via c (n, k) w)) m = true).
  { intros m Hm. rewrite Hvis_ne; [exact Hm|]. intros ->. congruence. }
  assert (Hex : forall m,
            exists_of (enter c (set_via c (n, k) w)) m = exists_of w m).
  { intros m. apply exists_of_eq. rewrite flags_enter. apply flags_set_via. }
  split; [|split; [|split]].
  - intros m Hv. destruct (decide (m = c)) as [->|Hm].
    + rewrite visited_enter_eq in Hv; [discriminate|].
      unfold set_via. simpl. rewrite length_alter. exact Hlen.
    + rewrite Hvia_ne by exact Hm. apply H1.
      rewrite <- Hvis_ne by exact Hm. exact Hv.
  - intros m n0 k0 Hv. rewrite Hra. destruct (decide (m = c)) as [->|Hm].
    + rewrite Hvia_c in Hv. inversion Hv; subst n0 k0.
      split; [apply Hmono, Hn|]. exists r. auto.
    + rewrite Hvia_ne in Hv by exact Hm.
      destruct (H2 m n0 k0 Hv) as [Hn0 Hex0].
      split; [apply Hmono, Hn0|exact Hex0].
  - intros c' m k1 n1 k2 r1 r2 Hv1 Hv2. rewrite !Hra. intros Hr1 Hr2.
    assert (Hm : m <> c).
    { intros ->. destruct (decide (c' = c)) as [->|Hc'].
      - rewrite Hvia_c in Hv1. inversion Hv1. congruence.
      - rewrite Hvia_ne in Hv1 by exact Hc'.
        destruct (H2 c' c k1 Hv1) as [Hvc _]. congruence. }
    rewrite Hvia_ne in Hv2 by exact Hm.
    destruct (decide (c' = c)) as [->|Hc'].
    + rewrite Hvia_c in Hv1. inversion Hv1; subst m k1.
      rewrite Hr in Hr1. inversion Hr1; subst r1.
      destruct (Hwin n1 k2 r2 Hv2 Hr2). lia.
    + rewrite Hvia_ne in Hv1 by exact Hc'.
      exact (H3 c' m k1 n1 k2 r1 r2 Hv1 Hv2 Hr1 Hr2).
  - intros m Hin. simpl in Hin. rewrite Hex.
    destruct (decide (m = c)) as [->|Hm];
      [right; rewrite Hvia_c; eexists; reflexivity|].
    rewrite Hvia_ne by exact Hm.
    apply elem_of_app in Hin as [Hin|Hin]; [apply H4, Hin|].
    apply list_elem_of_singleton in Hin. contradiction.
Qed.

Lemma window_ok_walked w w' n lo hi :
  walked w w' -> visited w n = true -> window_ok w n lo hi ->
  window_ok w' n lo hi.
Proof.
  intros Hw Hv Hwin n0 k r Hvia Hr.
  destruct Hw as (Hrg & new & _ & _ & _ & _ & _ & Hkeep).
  rewrite (Hkeep n Hv) in Hvia. rewrite (range_at_eq w w' n0 k Hrg) in Hr.
  exact (Hwin n0 k r Hvia Hr).
Qed.

(** The claim the loop of [do_map_bridges] stands at. *)
Lemma range_at_head w n k b bs :
  (fun b => (first b, last b)) <$> (b :: bs)
    = drop k (default [] (ranges w !! n)) ->
  range_at w n k = Some (first b, last b)
  /\ (fun b => (first b, last b)) <$> bs
       = drop (S k) (default [] (ranges w !! n)).
Proof.
  intros Hbs.
  assert (Hk : default [] (ranges w !! n) !! k = Some (first b, last b)).
  { pose proof (lookup_drop (default [] (ranges w !! n)) k 0) as Hd.
    rewrite <- Hbs, Nat.add_0_r in Hd. symmetry. exact Hd. }
  split.
  - unfold range_at. destruct (ranges w !! n); simpl in *;
      [exact Hk|discriminate].
  - rewrite (drop_S _ _ _ Hk), fmap_cons in Hbs. congruence.
Qed.

Lemma range_at_in_table w n k r :
  claims_in_table w -> range_at w n k = Some r ->
  0 <= r.1 < Z.of_nat (length (infos w)).
Proof.
  intros Hc Hr. unfold range_at in Hr.
  destruct (ranges w !! n) as [l|] eqn:E; simpl in Hr; [|discriminate].
  unfold claims_in_table in Hc. rewrite ranges_length in Hc.
  pose proof (proj1 (Forall_lookup _ _) Hc n l E) as Hl.
  exact (proj1 (Forall_lookup _ _) Hl k r Hr).
Qed.

Lemma claims_ranges w n :
  (fun b => (first b, last b)) <$> claims w n = default [] (ranges w !! n).
Proof.
  unfold claims, ranges. rewrite list_lookup_fmap.
  destruct (infos w !! n); reflexivity.
Qed.

(** The loop over the claims of a visited bus keeps the entry bridges in
    order when the recursive calls do. *)
Lemma map_claims_via f n min max :
  (forall m lo hi w w',
     claims_in_table w -> (m < length (infos w))%nat ->
     visited w m = false -> via_inv (enter m w) -> window_ok w m lo hi ->
     do_map_bridges f m lo hi w = Some w' ->
     walked w w' /\ exists_ <$> infos w' = exists_ <$> infos w /\ via_inv w') ->
  forall bs k w w',
    claims_in_table w -> visited w n = true ->
    via_inv w -> window_ok w n min max ->
    (fun b => (first b, last b)) <$> bs
      = drop k (default [] (ranges w !! n)) ->
    map_claims (do_map_bridges f) n min max k bs w = Some w' ->
    walked w w' /\ exists_ <$> infos w' = exists_ <$> infos w /\ via_inv w'.
Proof.
  intros Hrec. induction bs as [|b bs IH];
    intros k w w' Hc Hv Hinv Hwin Hbs Hrun.
  - simpl in Hrun. inversion Hrun; subst.
    split; [apply walked_refl|]. split; [reflexivity|exact Hinv].
  - simpl in Hrun.
    destruct (map_claim (do_map_bridges f) n min max k b w) as [w1|] eqn:E1;
      [|discriminate].
    destruct (range_at_head w n k b bs Hbs) as [Hra Hbs'].
    assert (Hstill : forall v,
      walked w (set_bug n k v w)
      /\ exists_ <$> infos (set_bug n k v w) = exists_ <$> infos w
      /\ via_inv (set_bug n k v w)).
    { intros v. split; [apply walked_set_bug|]. split; [apply flags_set_bug|].
      eapply via_inv_same;
        [apply ranges_set_bug|apply marks_set_bug|reflexivity
        |apply flags_set_bug|intros; apply via_of_set_bug|exact Hinv]. }
    assert (Hstep : walked w w1
      /\ exists_ <$> infos w1 = exists_ <$> infos w /\ via_inv w1).
    { unfold map_claim in E1.
      destruct (visited w (Z.to_nat (first b))) eqn:Ev;
        [inversion E1; subst w1; apply Hstill|].
      destruct ((first b <? min) || (last b >? max)) eqn:Eb;
        [inversion E1; subst w1; apply Hstill|].
      apply orb_false_iff in Eb as [Eb1 Eb2].
      pose proof (range_at_in_table w n k _ Hc Hra) as Hin. simpl in Hin.
      pose proof (walked_set_via (Z.to_nat (first b)) (n, k) w Ev) as Hsv.
      apply Hrec in E1.
      - destruct E1 as (Hw1 & Hf1 & Hi1).
        split; [eapply walked_trans; eassumption|].
        split; [rewrite Hf1; apply flags_set_via|exact Hi1].
      - eapply walked_claims_in_table; eassumption.
      - rewrite (walked_length _ _ Hsv). lia.
      - rewrite (visited_eq w _ _ (marks_set_via _ _ w)). exact Ev.
      - apply (via_inv_descend n k (Z.to_nat (first b)) (first b, last b)
                 min max w); try assumption; simpl; lia.
      - intros n0 k0 r0 Hvia Hr0.
        rewrite via_of_set_via in Hvia by lia. inversion Hvia; subst n0 k0.
        rewrite (range_at_eq w _ n k (ranges_set_via _ _ w)), Hra in Hr0.
        inversion Hr0; subst r0. simpl. lia. }
    destruct Hstep as (Hw1 & Hf1 & Hi1).
    destruct (IH (S k) w1 w') as (Hw' & Hf' & Hi').
    + eapply walked_claims_in_table; eassumption.
    + eapply walked_visited; eassumption.
    + exact Hi1.
    + eapply window_ok_walked; eassumption.
    + destruct Hw1 as [Hr1 _]. rewrite Hr1. exact Hbs'.
    + exact Hrun.
    + split; [eapply walked_trans; eassumption|].
      split; [congruence|exact Hi'].
Qed.

(** [do_map_bridges], called for a bus not visited with a window inside
    the range of its entry bridge, keeps the entry bridges in order. *)
Lemma do_map_bridges_via f : forall m lo hi w w',
  claims_in_table w -> (m < length (infos w))%nat ->
  visited w m = false -> via_inv (enter m w) -> window_ok w m lo hi ->
  do_map_bridges f m lo hi w = Some w' ->
  walked w w' /\ exists_ <$> infos w' = exists_ <$> infos w /\ via_inv w'
  /\ visited w' m = true.
Proof.
  induction f as [|f IH]; intros m lo hi w w' Hc Hm Hv Hinv Hwin Hrun;
    [discriminate|].
  assert (IH3 : forall m lo hi w w',
     claims_in_table w -> (m < length (infos w))%nat ->
     visited w m = false -> via_inv (enter m w) -> window_ok w m lo hi ->
     do_map_bridges f m lo hi w = Some w' ->
     walked w w' /\ exists_ <$> infos w' = exists_ <$> infos w /\ via_inv w').
  { intros m0 lo0 hi0 w0 w0' A1 A2 A3 A4 A5 A6.
    destruct (IH m0 lo0 hi0 w0 w0' A1 A2 A3 A4 A5 A6) as (B1 & B2 & B3 & _).
    auto. }
  change (map_claims (do_map_bridges f) m lo hi O
            (claims (enter m w) m) (enter m w) = Some w') in Hrun.
  pose proof (walked_enter m w Hm Hv) as He.
  destruct (map_claims_via f m lo hi IH3 (claims (enter m w) m) O
              (enter m w) w') as (Hw' & Hf' & Hi').
  - eapply walked_claims_in_table; eassumption.
  - apply visited_enter_eq. exact Hm.
  - exact Hinv.
  - intros n k r Hvia Hr. rewrite via_of_enter in Hvia.
    rewrite (range_at_eq w _ n k (ranges_enter m w)) in Hr.
    exact (Hwin n k r Hvia Hr).
  - apply claims_ranges.
  - exact Hrun.
  - split; [eapply walked_trans; eassumption|].
    split; [rewrite Hf'; apply flags_enter|]. split; [exact Hi'|].
    eapply walked_visited; [exact Hw'|]. apply visited_enter_eq. exact Hm.
Qed.

(** The first loop of [map_bridges]: every bus that exists is visited
    once the loop has passed it. *)
Lemma map_bridges_from_via fuel k : forall i w w',
  claims_in_table w -> via_inv w ->
  (forall j, (j < i)%nat -> exists_of w j = true -> visited w j = true) ->
  map_bridges_from fuel k i w = Some w' ->
  walked w w' /\ exists_ <$> infos w' = exists_ <$> infos w /\ via_inv w'
  /\ (forall j, (j < i + k)%nat -> exists_of w j = true ->
        visited w' j = true).
Proof.
  induction k as [|k IH]; intros i w w' Hc Hinv Hdone Hrun; simpl in Hrun.
  - inversion Hrun; subst. split; [apply walked_refl|].
    split; [reflexivity|]. split; [exact Hinv|].
    intros j Hj. apply Hdone. lia.
  - assert (Hstep : exists w1,
      (if default false (exists_ <$> infos w !! i) && negb (visited w i)
       then do_map_bridges fuel i 0 255 w else Some w) = Some w1
      /\ walked w w1 /\ exists_ <$> infos w1 = exists_ <$> infos w
      /\ via_inv w1 /\ (exists_of w i = true -> visited w1 i = true)).
    { fold (exists_of w i) in *.
      destruct (exists_of w i) eqn:Ex; simpl in *;
        [|exists w; split; [reflexivity|]; split; [apply walked_refl|];
          split; [reflexivity|]; split; [exact Hinv|discriminate]].
      destruct (visited w i) eqn:Ev; simpl in *;
        [exists w; split; [reflexivity|]; split; [apply walked_refl|];
          split; [reflexivity|]; split; [exact Hinv|intros _; exact Ev]|].
      destruct (do_map_bridges fuel i 0 255 w) as [w1|] eqn:E1;
        [|discriminate].
      assert (Hi : (i < length (infos w))%nat).
      { unfold exists_of in Ex. destruct (infos w !! i) eqn:E; [|discriminate].
        apply lookup_lt_Some in E. exact E. }
      destruct (do_map_bridges_via fuel i 0 255 w w1 Hc Hi Ev)
        as (Hw1 & Hf1 & Hi1 & Hv1).
      - apply via_inv_root; assumption.
      - intros n0 k0 r0 Hvia. destruct Hinv as [H1 _].
        rewrite (H1 i Ev) in Hvia. discriminate.
      - exact E1.
      - exists w1. auto. }
    destruct Hstep as (w1 & E1 & Hw1 & Hf1 & Hi1 & Hvis).
    rewrite E1 in Hrun.
    destruct (IH (S i) w1 w') as (Hw' & Hf' & Hi' & Hall).
    + eapply walked_claims_in_table; eassumption.
    + exact Hi1.
    + intros j Hj Hx. rewrite (exists_of_eq w w1 j Hf1) in Hx.
      destruct (decide (j = i)) as [->|Hne]; [apply Hvis, Hx|].
      eapply walked_visited; [exact Hw1|]. apply Hdone; [lia|exact Hx].
    + exact Hrun.
    + split; [eapply walked_trans; eassumption|]. split; [congruence|].
      split; [exact Hi'|]. intros j Hj Hx. apply Hall; [lia|].
      rewrite (exists_of_eq w w1 j Hf1). exact Hx.
Qed.

End WalkMore.

Section WalkWindow.

Import Lspci.

Lemma claims_in_order w n :
  ranges_in_order w -> Forall (fun b => 0 <= first b <= last b) (claims w n).
Proof.
  intros Ho. pose proof (claims_ranges w n) as Hcr.
  destruct (ranges w !! n) as [l|] eqn:E; simpl in Hcr.
  - pose proof (proj1 (Forall_lookup _ _) Ho n l E) as Hl.
    rewrite <- Hcr in Hl. apply Forall_fmap in Hl. exact Hl.
  - destruct (claims w n); [constructor|discriminate].
Qed.

(** The loop over the claims enters only buses inside the window when
    the recursive calls stay inside theirs. *)
Lemma map_claims_window f n min max :
  (forall m lo hi w w', ranges_in_order w ->
     do_map_bridges f m lo hi w = Some w' ->
     ranges w' = ranges w /\
     exists new, entered w' = entered w ++ m :: new
                 /\ Forall (fun j => lo <= Z.of_nat j <= hi) new) ->
  forall bs k w w', ranges_in_order w ->
    Forall (fun b => 0 <= first b <= last b) bs ->
    map_claims (do_map_bridges f) n min max k bs w = Some w' ->
    ranges w' = ranges w /\
    exists new, entered w' = entered w ++ new
                /\ Forall (fun j => min <= Z.of_nat j <= max) new.
Proof.
  intros Hrec. induction bs as [|b bs IH]; intros k w w' Ho Hbs Hrun;
    simpl in Hrun.
  - inversion Hrun; subst. split; [reflexivity|]. exists [].
    rewrite app_nil_r. split; [reflexivity|constructor].
  - destruct (map_claim (do_map_bridges f) n min max k b w) as [w1|] eqn:E1;
      [|discriminate].
    apply Forall_cons in Hbs as [Hb Hbs].
    assert (Hstill : forall v,
      ranges (set_bug n k v w) = ranges w /\
      exists new, entered (set_bug n k v w) = entered w ++ new
                  /\ Forall (fun j => min <= Z.of_nat j <= max) new).
    { intros v. split; [apply ranges_set_bug|]. exists [].
      rewrite app_nil_r. split; [reflexivity|constructor]. }
    assert (Hstep : ranges w1 = ranges w /\
      exists new, entered w1 = entered w ++ new
                  /\ Forall (fun j => min <= Z.of_nat j <= max) new).
    { unfold map_claim in E1.
      destruct (visited w (Z.to_nat (first b)));
        [inversion E1; subst w1; apply Hstill|].
      destruct ((first b <? min) || (last b >? max)) eqn:Eb;
        [inversion E1; subst w1; apply Hstill|].
      apply orb_false_iff in Eb as [Eb1 Eb2].
      apply Hrec in E1;
        [|unfold ranges_in_order; rewrite ranges_set_via; exact Ho].
      destruct E1 as (Hr1 & new & Hent & Hall).
      split; [rewrite Hr1; apply ranges_set_via|].
      exists (Z.to_nat (first b) :: new). split; [exact Hent|].
      constructor; [lia|]. eapply Forall_impl; [exact Hall|].
      simpl. intros j Hj. lia. }
    destruct Hstep as (Hr1 & new1 & He1 & Hall1).
    destruct (IH (S k) w1 w') as (Hr' & new' & He' & Hall');
      [unfold ranges_in_order; rewrite Hr1; exact Ho|exact Hbs|exact Hrun|].
    split; [congruence|]. exists (new1 ++ new').
    split; [rewrite He', He1, app_assoc; reflexivity|].
    apply Forall_app. auto.
Qed.

Lemma do_map_bridges_window f : forall m lo hi w w',
  ranges_in_order w -> do_map_bridges f m lo hi w = Some w' ->
  ranges w' = ranges w /\
  exists new, entered w' = entered w ++ m :: new
              /\ Forall (fun j => lo <= Z.of_nat j <= hi) new.
Proof.
  induction f as [|f IH]; intros m lo hi w w' Ho Hrun; [discriminate|].
  change (map_claims (do_map_bridges f) m lo hi O
            (claims (enter m w) m) (enter m w) = Some w') in Hrun.
  assert (Ho1 : ranges_in_order (enter m w))
    by (unfold ranges_in_order; rewrite ranges_enter; exact Ho).
  destruct (map_claims_window f m lo hi IH _ _ _ _ Ho1
              (claims_in_order _ m Ho1) Hrun) as (Hr & new & He & Hall).
  split; [rewrite Hr; apply ranges_enter|]. exists new.
  split; [|exact Hall]. rewrite He. simpl. rewrite <- app_assoc. reflexivity.
Qed.

Lemma fresh_no_via tbl m : fresh_table tbl -> via_of (start tbl) m = None.
Proof.
  intros [_ Hall]. unfold via_of, start. simpl.
  destruct (tbl !! m) as [bi|] eqn:E; [|reflexivity]. simpl.
  apply (proj1 (Forall_lookup _ _) Hall m bi E).
Qed.

Lemma fresh_not_visited tbl m :
  fresh_table tbl -> visited (start tbl) m = false.
Proof.
  intros [_ Hall]. unfold visited, start. simpl.
  destruct (tbl !! m) as [bi|] eqn:E; [|reflexivity]. simpl.
  apply (proj1 (Forall_lookup _ _) Hall m bi E).
Qed.

Lemma fresh_via_inv tbl : fresh_table tbl -> via_inv (start tbl).
Proof.
  intros Hf. split; [|split; [|split]].
  - intros m _. apply fresh_no_via, Hf.
  - intros m n k Hv. rewrite fresh_no_via in Hv by exact Hf. discriminate.
  - intros c m k n k' r r' Hv.
    rewrite fresh_no_via in Hv by exact Hf. discriminate.
  - intros m Hin. simpl in Hin. apply elem_of_nil in Hin. contradiction.
Qed.

(** What the first loop of [map_bridges] leaves of a table the probe has
    made. *)
Lemma map_bridges_via tbl fuel w :
  byte_table tbl -> fresh_table tbl -> map_bridges fuel tbl = Some w ->
  walked (start tbl) w /\ via_inv w
  /\ (forall j, exists_of w j = exists_of (start tbl) j)
  /\ (forall j, visited w j = true <-> j ∈ entered w)
  /\ (forall j, exists_of (start tbl) j = true -> visited w j = true).
Proof.
  intros Hb Hf Hrun.
  destruct (map_bridges_from_via fuel 256 O (start tbl) w)
    as (Hw & Hx & Hi & Hall).
  - apply byte_table_claims, Hb.
  - apply fresh_via_inv, Hf.
  - intros j Hj. lia.
  - exact Hrun.
  - split; [exact Hw|]. split; [exact Hi|].
    split; [intros j; apply exists_of_eq, Hx|]. split.
    + intros j. destruct Hw as (_ & new & Hent & _ & Hin & Hout & _).
      simpl in Hent. rewrite Hent. split.
      * intros Hv. destruct (decide (j ∈ new)) as [Hj|Hj]; [exact Hj|].
        rewrite (Hout j Hj), (fresh_not_visited tbl j Hf) in Hv.
        discriminate.
      * intros Hj. apply (Hin j Hj).
    + intros j Hx'. apply Hall; [|exact Hx'].
      unfold exists_of in Hx'.
      destruct (infos (start tbl) !! j) eqn:E; [|discriminate].
      apply lookup_lt_Some in E. simpl in E. destruct Hb as [Hlen _]. lia.
Qed.

End WalkWindow.

Lemma nested_table_bytes : byte_table nested_table.
Proof. split; [reflexivity|]. apply (bool_decide_unpack _). vm_compute. exact I. Qed.

Lemma nested_table_fresh : fresh_table nested_table.
Proof. split; [reflexivity|]. apply (bool_decide_unpack _). vm_compute. exact I. Qed.

Lemma nested_table_in_order : ranges_in_order (start nested_table).
Proof. apply (bool_decide_unpack _). vm_compute. exact I. Qed.

(** X21.  After [map_bridges] on a table the probe has made, every bus on
    which a function answered has been entered, and a bus is entered only
    when a function answered on it or when it has an entry bridge. *)
Theorem map_bridges_visits_every_existing_bus
    (tbl : list Lspci.bus_info_t) (fuel : nat) (w : Lspci.walk) :
  byte_table tbl -> fresh_table tbl ->
  Lspci.map_bridges fuel tbl = Some w ->
  (forall n, exists_of (start tbl) n = true -> n ∈ Lspci.entered w)
  /\ (forall n, n ∈ Lspci.entered w ->
        exists_of (start tbl) n = true \/ is_Some (via_of w n)).
Proof.
  intros Hb Hf Hrun.
  destruct (map_bridges_via tbl fuel w Hb Hf Hrun)
    as (_ & (_ & _ & _ & H4) & Hx & Hent & Hall).
  split.
  - intros n Hn. apply Hent, Hall, Hn.
  - intros n Hn. rewrite <- Hx. apply H4, Hn.
Qed.

Lemma map_bridges_visits_every_existing_bus_witness :
  exists w, Lspci.map_bridges 256 nested_table = Some w
    /\ (forall n, exists_of (start nested_table) n = true ->
          n ∈ Lspci.entered w)
    /\ (forall n, n ∈ Lspci.entered w ->
          exists_of (start nested_table) n = true \/ is_Some (via_of w n)).
Proof.
  destruct (map_bridges_from_start nested_table nested_table_bytes)
    as (w & Hw & _).
  exists w. split; [exact Hw|].
  exact (map_bridges_visits_every_existing_bus nested_table 256 w
           nested_table_bytes nested_table_fresh Hw).
Defined.

(** X22.  After [map_bridges] on a table the probe has made, the entry
    bridge recorded for a bus is a claim of a bus that was entered, its
    range starts at the bus it is recorded for, and that range lies
    within the range of the entry bridge of the bus the claim stands
    on. *)
Theorem entry_bridge_leads_to_its_bus
    (tbl : list Lspci.bus_info_t) (fuel : nat) (w : Lspci.walk)
    (m n k : nat) :
  byte_table tbl -> fresh_table tbl ->
  Lspci.map_bridges fuel tbl = Some w ->
  via_of w m = Some (n, k) ->
  n ∈ Lspci.entered w /\ m ∈ Lspci.entered w
  /\ exists lo hi,
       range_at (start tbl) n k = Some (lo, hi) /\ Z.to_nat lo = m
       /\ forall n' k' lo' hi',
            via_of w n = Some (n', k') ->
            range_at (start tbl) n' k' = Some (lo', hi') ->
            lo' <= lo /\ hi <= hi'.
Proof.
  intros Hb Hf Hrun Hvia.
  destruct (map_bridges_via tbl fuel w Hb Hf Hrun)
    as ((Hr & _) & (H1 & H2 & H3 & _) & _ & Hent & _).
  destruct (H2 m n k Hvia) as [Hn ([lo hi] & Hra & Hto)].
  split; [apply Hent, Hn|]. split.
  - apply Hent. destruct (Lspci.visited w m) eqn:Ev; [reflexivity|].
    rewrite (H1 m Ev) in Hvia. discriminate.
  - exists lo, hi. rewrite <- (range_at_eq _ _ n k Hr).
    split; [exact Hra|]. split; [exact Hto|].
    intros n' k' lo' hi' Hvia' Hra'.
    rewrite <- (range_at_eq _ _ n' k' Hr) in Hra'.
    exact (H3 m n k n' k' (lo, hi) (lo', hi') Hvia Hvia' Hra Hra').
Qed.

Lemma entry_bridge_leads_to_its_bus_witness :
  exists w, Lspci.map_bridges 256 nested_table = Some w
    /\ via_of w 2 = Some (1%nat, O)
    /\ via_of w 1 = Some (O, O)
    /\ (1%nat ∈ Lspci.entered w /\ 2%nat ∈ Lspci.entered w
        /\ exists lo hi,
             range_at (start nested_table) 1 0 = Some (lo, hi)
             /\ Z.to_nat lo = 2%nat
             /\ forall n' k' lo' hi',
                  via_of w 1 = Some (n', k') ->
                  range_at (start nested_table) n' k' = Some (lo', hi') ->
                  lo' <= lo /\ hi <= hi').
Proof.
  assert (Hv : (fun w => (via_of w 2, via_of w 1))
                 <$> Lspci.map_bridges 256 nested_table
               = Some (Some (1%nat, O), Some (O, O)))
    by (vm_compute; reflexivity).
  destruct (Lspci.map_bridges 256 nested_table) as [w|] eqn:Hw;
    [|discriminate Hv].
  cbn [fmap option_fmap option_map] in Hv.
  assert (Hv2 : via_of w 2 = Some (1%nat, O)) by congruence.
  assert (Hv1 : via_of w 1 = Some (O, O)) by congruence.
  exists w. split; [reflexivity|]. split; [exact Hv2|]. split; [exact Hv1|].
  exact (entry_bridge_leads_to_its_bus nested_table 256 w 2 1 0
           nested_table_bytes nested_table_fresh Hw Hv2).
Defined.

(** X23.  A call of [do_map_bridges] for a bus with the window [min, max],
    on a table whose claims have a first bus that is not negative and not
    above the last, enters that bus first and after it only buses
    numbered within the window. *)
Theorem do_map_bridges_stays_in_its_window
    (fuel n : nat) (min max : Z) (w w' : Lspci.walk) :
  ranges_in_order w ->
  Lspci.do_map_bridges fuel n min max w = Some w' ->
  exists new, Lspci.entered w' = Lspci.entered w ++ n :: new
              /\ Forall (fun j => min <= Z.of_nat j <= max) new.
Proof.
  intros Ho Hrun.
  destruct (do_map_bridges_window fuel n min max w w' Ho Hrun) as [_ Hnew].
  exact Hnew.
Qed.

Lemma do_map_bridges_stays_in_its_window_witness :
  exists w' new,
    Lspci.do_map_bridges 3 1 1 4 (start nested_table) = Some w'
    /\ Lspci.entered w' = [] ++ 1%nat :: new
    /\ Forall (fun j => 1 <= Z.of_nat j <= 4) new.
Proof.
  assert (Hs : (fun w => Lspci.entered w)
                 <$> Lspci.do_map_bridges 3 1 1 4 (start nested_table)
               = Some [1%nat; 2%nat])
    by (vm_compute; reflexivity).
  destruct (Lspci.do_map_bridges 3 1 1 4 (start nested_table))
    as [w'|] eqn:Hw; [|discriminate Hs].
  destruct (do_map_bridges_stays_in_its_window 3 1 1 4
              (start nested_table) w' nested_table_in_order Hw)
    as (new & He & Hall).
  exists w', new. split; [reflexivity|]. split; [exact He|exact Hall].
Defined.

(** ** The serial number in the EEPROM image *)

Section EepFacts.

Import Eep.

Lemma load_serial_S f sn i buf :
  load_serial (S f) sn i buf
  = if i <? Z.of_nat (length buf) then
      match at_marker buf i with
      | Outside => Some Outside
      | Inside true => Some (put_serial sn i buf)
      | Inside false => load_serial f sn ((i + 1) mod 256) buf
      end
    else Some (Inside buf).
Proof. reflexivity. Qed.

Lemma save_serial_S f o i buf :
  save_serial (S f) o i buf
  = if i <? Z.of_nat (length buf) then
      match at_marker buf i with
      | Outside => Some Outside
      | Inside true =>
          Some (and_then (get_serial i buf)
                  (fun sn => Inside (with_serial sn o)))
      | Inside false =>
          match at_blank buf i with
          | Outside => Some Outside
          | Inside true => Some (Inside (with_init o))
          | Inside false => save_serial f o ((i + 1) mod 256) buf
          end
      end
    else Some (Inside o).
Proof. reflexivity. Qed.

Lemma peek_inside buf k b :
  buf !! Z.to_nat k = Some b -> peek buf k = Inside b.
Proof. intros E. unfold peek. rewrite E. reflexivity. Qed.

Lemma peek_outside buf k : buf !! Z.to_nat k = None -> peek buf k = Outside.
Proof. intros E. unfold peek. rewrite E. reflexivity. Qed.

(** The test of the marker where the loops do not stop. *)
Lemma at_marker_pass buf j :
  0 <= j < Z.of_nat (length buf) -> ~ stops_at buf j ->
  at_marker buf j = Inside false.
Proof.
  intros Hj Hno. unfold at_marker.
  destruct (buf !! Z.to_nat j) as [b|] eqn:E.
  - rewrite (peek_inside buf j b E). simpl.
    destruct (b =? 66) eqn:Eb; [|reflexivity].
    apply Z.eqb_eq in Eb. subst b.
    destruct (buf !! Z.to_nat (j + 1)) as [b1|] eqn:E1.
    + rewrite (peek_inside buf (j + 1) b1 E1). simpl.
      destruct (b1 =? 0) eqn:Eb1; [|reflexivity].
      apply Z.eqb_eq in Eb1. subst b1. exfalso. apply Hno. split; auto.
    + exfalso. apply Hno. split; auto.
  - apply lookup_ge_None in E. lia.
Qed.

Lemma at_marker_hit buf i : marker buf i -> at_marker buf i = Inside true.
Proof.
  intros [E0 E1]. unfold at_marker.
  rewrite (peek_inside buf i 66 E0). simpl.
  rewrite (peek_inside buf (i + 1) 0 E1). reflexivity.
Qed.

Lemma at_marker_edge buf i :
  buf !! Z.to_nat i = Some 66 -> buf !! Z.to_nat (i + 1) = None ->
  at_marker buf i = Outside.
Proof.
  intros E0 E1. unfold at_marker.
  rewrite (peek_inside buf i 66 E0). simpl.
  rewrite (peek_outside buf (i + 1) E1). reflexivity.
Qed.

(** The test of the blank header away from offset 2, and at offset 2 of
    a block that is not blank. *)
Lemma at_blank_pass buf j :
  (j = 2 -> 3 < Z.of_nat (length buf) /\ ~ blank buf) ->
  at_blank buf j = Inside false.
Proof.
  intros Hno. unfold at_blank.
  destruct (j =? 2) eqn:Ej; [|reflexivity].
  apply Z.eqb_eq in Ej. subst j. destruct (Hno eq_refl) as [Hlen Hnb].
  clear Hno. rename Hnb into Hno.
  destruct (buf !! Z.to_nat 2) as [b|] eqn:E;
    [|apply lookup_ge_None in E; lia].
  rewrite (peek_inside buf 2 b E). simpl.
  destruct (b =? 0) eqn:Eb; [|reflexivity].
  apply Z.eqb_eq in Eb. subst b.
  destruct (buf !! Z.to_nat (2 + 1)) as [b1|] eqn:E1;
    [|apply lookup_ge_None in E1; lia].
  rewrite (peek_inside buf (2 + 1) b1 E1). simpl.
  destruct (b1 =? 0) eqn:Eb1; [|reflexivity].
  apply Z.eqb_eq in Eb1. subst b1. exfalso. apply Hno. split; assumption.
Qed.

Lemma at_blank_hit buf : blank buf -> at_blank buf 2 = Inside true.
Proof.
  intros [E2 E3]. unfold at_blank. simpl.
  rewrite (peek_inside buf 2 0 E2). simpl.
  rewrite (peek_inside buf (2 + 1) 0 E3). reflexivity.
Qed.

(** The turns of the loop of [EepromFileLoad] before it stops. *)
Lemma load_serial_skip sn buf : forall k i f,
  0 <= i -> i + Z.of_nat k <= 255 ->
  i + Z.of_nat k <= Z.of_nat (length buf) ->
  (forall j, i <= j < i + Z.of_nat k -> ~ stops_at buf j) ->
  load_serial (k + f) sn i buf = load_serial f sn (i + Z.of_nat k) buf.
Proof.
  induction k as [|k IH]; intros i f Hi H255 Hlen Hno.
  - simpl. rewrite Z.add_0_r. reflexivity.
  - change (S k + f)%nat with (S (k + f)). rewrite load_serial_S.
    destruct (Z.ltb_spec i (Z.of_nat (length buf))) as [_|Hge]; [|lia].
    rewrite at_marker_pass by (try apply Hno; lia).
    rewrite Z.mod_small by lia.
    rewrite IH by (try (intros j Hj; apply Hno); lia).
    f_equal. lia.
Qed.

(** The turns of the loop of [EepromFileSave] before it stops. *)
Lemma save_serial_skip o buf : forall k i f,
  0 <= i -> i + Z.of_nat k <= 255 ->
  i + Z.of_nat k < Z.of_nat (length buf) ->
  (forall j, i <= j < i + Z.of_nat k -> ~ stops_at buf j) ->
  (i <= 2 < i + Z.of_nat k -> ~ blank buf) ->
  save_serial (k + f) o i buf = save_serial f o (i + Z.of_nat k) buf.
Proof.
  induction k as [|k IH]; intros i f Hi H255 Hlen Hno Hnb.
  - simpl. rewrite Z.add_0_r. reflexivity.
  - change (S k + f)%nat with (S (k + f)). rewrite save_serial_S.
    destruct (Z.ltb_spec i (Z.of_nat (length buf))) as [_|Hge]; [|lia].
    rewrite at_marker_pass by (try apply Hno; lia).
    rewrite at_blank_pass by (intros ->; split; [lia|apply Hnb; lia]).
    rewrite Z.mod_small by lia.
    rewrite IH;
      [f_equal; lia|lia|lia|lia|intros j Hj; apply Hno; lia
      |intros Hj; apply Hnb; lia].
Qed.

(** The four assignments inside the block. *)
Lemma put_serial_inside sn i buf :
  0 <= i -> i + 5 < Z.of_nat (length buf) ->
  put_serial sn i buf
  = Inside (<[Z.to_nat (i + 2) := sn3 sn]>
             (<[Z.to_nat (i + 3) := sn2 sn]>
               (<[Z.to_nat (i + 4) := sn1 sn]>
                 (<[Z.to_nat (i + 5) := sn0 sn]> buf)))).
Proof.
  intros Hi Hlen. unfold put_serial, poke.
  destruct (Z.ltb_spec (i + 5) (Z.of_nat (length buf))) as [_|Hge]; [|lia].
  simpl. rewrite length_insert.
  destruct (Z.ltb_spec (i + 4) (Z.of_nat (length buf))) as [_|Hge]; [|lia].
  simpl. rewrite !length_insert.
  destruct (Z.ltb_spec (i + 3) (Z.of_nat (length buf))) as [_|Hge]; [|lia].
  simpl. rewrite !length_insert.
  destruct (Z.ltb_spec (i + 2) (Z.of_nat (length buf))) as [_|Hge]; [|lia].
  reflexivity.
Qed.

Lemma put_serial_outside sn i buf :
  0 <= i -> Z.of_nat (length buf) <= i + 5 -> put_serial sn i buf = Outside.
Proof.
  intros Hi Hlen. unfold put_serial, poke.
  destruct (Z.ltb_spec (i + 5) (Z.of_nat (length buf))) as [Hlt|_]; [lia|].
  reflexivity.
Qed.

Lemma get_serial_inside i buf a b c d :
  buf !! Z.to_nat (i + 5) = Some a -> buf !! Z.to_nat (i + 4) = Some b ->
  buf !! Z.to_nat (i + 3) = Some c -> buf !! Z.to_nat (i + 2) = Some d ->
  get_serial i buf = Inside {| sn0 := a; sn1 := b; sn2 := c; sn3 := d |}.
Proof.
  intros Ea Eb Ec Ed. unfold get_serial.
  rewrite (peek_inside _ _ _ Ea), (peek_inside _ _ _ Eb),
    (peek_inside _ _ _ Ec), (peek_inside _ _ _ Ed).
  reflexivity.
Qed.

(** What the four assignments leave in the block. *)
Lemma patched_block sn i buf img :
  0 <= i -> i + 5 < Z.of_nat (length buf) ->
  img = <[Z.to_nat (i + 2) := sn3 sn]>
          (<[Z.to_nat (i + 3) := sn2 sn]>
            (<[Z.to_nat (i + 4) := sn1 sn]>
              (<[Z.to_nat (i + 5) := sn0 sn]> buf))) ->
  length img = length buf
  /\ img !! Z.to_nat (i + 5) = Some (sn0 sn)
  /\ img !! Z.to_nat (i + 4) = Some (sn1 sn)
  /\ img !! Z.to_nat (i + 3) = Some (sn2 sn)
  /\ img !! Z.to_nat (i + 2) = Some (sn3 sn)
  /\ (forall k, (Z.of_nat k < i + 2 \/ i + 5 < Z.of_nat k) ->
        img !! k = buf !! k).
Proof.
  intros Hi Hlen ->. split; [rewrite !length_insert; reflexivity|].
  split.
  { rewrite !list_lookup_insert_ne by lia.
    apply list_lookup_insert_eq. lia. }
  split.
  { rewrite !list_lookup_insert_ne by lia.
    apply list_lookup_insert_eq. rewrite !length_insert. lia. }
  split.
  { rewrite !list_lookup_insert_ne by lia.
    apply list_lookup_insert_eq. rewrite !length_insert. lia. }
  split.
  { apply list_lookup_insert_eq. rewrite !length_insert. lia. }
  intros k Hk. rewrite !list_lookup_insert_ne by lia. reflexivity.
Qed.

(** A place where the loops stop, five bytes before the end: the marker
    is complete. *)
Lemma stop_is_marker buf i :
  0 <= i -> i + 1 < Z.of_nat (length buf) -> stops_at buf i -> marker buf i.
Proof.
  intros Hi Hlen [E0 [E1|E1]]; [split; assumption|].
  apply lookup_ge_None in E1. lia.
Qed.

(** The loop of [EepromFileLoad] up to the first place where it stops. *)
Lemma load_serial_first sn buf i f :
  first_stop buf i -> i < 256 -> i < Z.of_nat (length buf) ->
  load_serial (Z.to_nat i + S f) sn 0 buf
  = match at_marker buf i with
    | Outside => Some Outside
    | Inside true => Some (put_serial sn i buf)
    | Inside false => load_serial f sn ((i + 1) mod 256) buf
    end.
Proof.
  intros (Hi & Hstop & Hfirst) H256 Hlen.
  rewrite (load_serial_skip sn buf (Z.to_nat i) 0 (S f)) by
    (try (intros j Hj; apply Hfirst); lia).
  replace (0 + Z.of_nat (Z.to_nat i)) with i by lia.
  rewrite load_serial_S.
  destruct (Z.ltb_spec i (Z.of_nat (length buf))) as [_|Hge]; [|lia].
  reflexivity.
Qed.

Lemma load_serial_fuel sn buf r : forall f f' i,
  (f <= f')%nat -> load_serial f sn i buf = Some r ->
  load_serial f' sn i buf = Some r.
Proof.
  induction f as [|f IH]; intros f' i Hf Hrun; [discriminate|].
  destruct f' as [|f']; [lia|]. rewrite load_serial_S in *.
  destruct (i <? Z.of_nat (length buf)); [|exact Hrun].
  destruct (at_marker buf i) as [[|]|]; try exact Hrun.
  apply IH; [lia|exact Hrun].
Qed.

Lemma save_serial_fuel o buf r : forall f f' i,
  (f <= f')%nat -> save_serial f o i buf = Some r ->
  save_serial f' o i buf = Some r.
Proof.
  induction f as [|f IH]; intros f' i Hf Hrun; [discriminate|].
  destruct f' as [|f']; [lia|]. rewrite save_serial_S in *.
  destruct (i <? Z.of_nat (length buf)); [|exact Hrun].
  destruct (at_marker buf i) as [[|]|]; try exact Hrun.
  destruct (at_blank buf i) as [[|]|]; try exact Hrun.
  apply IH; [lia|exact Hrun].
Qed.

(** The loop of [EepromFileLoad] on a block with the marker at [i]. *)
Lemma load_serial_at sn buf i fuel :
  first_stop buf i -> i < 256 -> (Z.to_nat i < fuel)%nat ->
  load_serial fuel sn 0 buf
  = Some (if i + 5 <? Z.of_nat (length buf)
          then Inside (<[Z.to_nat (i + 2) := sn3 sn]>
                        (<[Z.to_nat (i + 3) := sn2 sn]>
                          (<[Z.to_nat (i + 4) := sn1 sn]>
                            (<[Z.to_nat (i + 5) := sn0 sn]> buf))))
          else Outside).
Proof.
  intros Hfs H256 Hfuel.
  pose proof Hfs as (Hi & [E0 E1] & _).
  assert (Hlen : i < Z.of_nat (length buf)).
  { apply lookup_lt_Some in E0. lia. }
  apply (load_serial_fuel sn buf _ (Z.to_nat i + 1)%nat); [lia|].
  rewrite (load_serial_first sn buf i O Hfs H256 Hlen).
  destruct E1 as [E1|E1].
  - rewrite (at_marker_hit buf i (conj E0 E1)).
    destruct (Z.ltb_spec (i + 5) (Z.of_nat (length buf))) as [Hin|Hout].
    + rewrite put_serial_inside by lia. reflexivity.
    + rewrite put_serial_outside by lia. reflexivity.
  - rewrite (at_marker_edge buf i E0 E1).
    apply lookup_ge_None in E1.
    destruct (Z.ltb_spec (i + 5) (Z.of_nat (length buf))) as [Hin|Hout];
      [lia|reflexivity].
Qed.

(** The loop of [EepromFileSave] on a block with the marker at [i]. *)
Lemma save_serial_at o buf i fuel :
  first_stop buf i -> i < 256 -> i + 5 < Z.of_nat (length buf) ->
  (2 < i -> ~ blank buf) -> (Z.to_nat i < fuel)%nat ->
  save_serial fuel o 0 buf
  = Some (and_then (get_serial i buf) (fun sn => Inside (with_serial sn o))).
Proof.
  intros (Hi & Hstop & Hfirst) H256 Hlen Hnb Hfuel.
  apply (save_serial_fuel o buf _ (Z.to_nat i + 1)%nat); [lia|].
  rewrite (save_serial_skip o buf (Z.to_nat i) 0 1);
    [|lia|lia|lia|intros j Hj; apply Hfirst; lia|intros Hj; apply Hnb; lia].
  replace (0 + Z.of_nat (Z.to_nat i)) with i by lia.
  rewrite save_serial_S.
  destruct (Z.ltb_spec i (Z.of_nat (length buf))) as [_|Hge]; [|lia].
  rewrite (at_marker_hit buf i (stop_is_marker buf i Hi ltac:(lia) Hstop)).
  reflexivity.
Qed.

(** Without a marker in its first 256 bytes, a block of 256 bytes or more
    keeps both loops turning: [i] wraps to 0 after 255. *)
Lemma load_serial_wraps sn buf :
  256 <= Z.of_nat (length buf) ->
  (forall j, 0 <= j < 256 -> ~ stops_at buf j) ->
  forall fuel i, 0 <= i < 256 -> load_serial fuel sn i buf = None.
Proof.
  intros Hlen Hno. induction fuel as [|f IH]; intros i Hi; [reflexivity|].
  rewrite load_serial_S.
  destruct (Z.ltb_spec i (Z.of_nat (length buf))) as [_|Hge]; [|lia].
  rewrite at_marker_pass by (try apply Hno; lia).
  apply IH. apply Z.mod_pos_bound. lia.
Qed.

Lemma save_serial_wraps o buf :
  256 <= Z.of_nat (length buf) ->
  (forall j, 0 <= j < 256 -> ~ stops_at buf j) -> ~ blank buf ->
  forall fuel i, 0 <= i < 256 -> save_serial fuel o i buf = None.
Proof.
  intros Hlen Hno Hnb. induction fuel as [|f IH]; intros i Hi; [reflexivity|].
  rewrite save_serial_S.
  destruct (Z.ltb_spec i (Z.of_nat (length buf))) as [_|Hge]; [|lia].
  rewrite at_marker_pass by (try apply Hno; lia).
  rewrite at_blank_pass by (intros _; split; [lia|exact Hnb]).
  apply IH. apply Z.mod_pos_bound. lia.
Qed.

End EepFacts.

Lemma sample_eeprom_stop : first_stop sample_eeprom 4.
Proof.
  split; [lia|]. split; [split; [reflexivity|left; reflexivity]|].
  intros j Hj [E _].
  assert (Hc : j = 0 \/ j = 1 \/ j = 2 \/ j = 3) by lia.
  destruct Hc as [-> | [-> | [-> | ->]]]; vm_compute in E; discriminate E.
Qed.

Lemma sample_file_stop : first_stop sample_file 2.
Proof.
  split; [lia|]. split; [split; [reflexivity|left; reflexivity]|].
  intros j Hj [E _].
  assert (Hc : j = 0 \/ j = 1) by lia.
  destruct Hc as [-> | ->]; vm_compute in E; discriminate E.
Qed.

Lemma sample_eeprom_not_blank : ~ blank sample_eeprom.
Proof. intros [E _]. vm_compute in E. discriminate E. Qed.

Lemma ones_never_stop (j : Z) : ~ stops_at (replicate 256 1) j.
Proof.
  intros [E _]. apply lookup_replicate in E as [E _]. discriminate E.
Qed.

Lemma ones_not_blank : ~ blank (replicate 256 1).
Proof. intros [E _]. vm_compute in E. discriminate E. Qed.

(** X24.  When the file holds the marker 0x42 0x00 within its first 256
    bytes and at least four bytes follow it, [EepromFileLoad] (not after
    an initialization) programs the file with the four bytes after the
    first marker replaced by the serial number, last byte first, and
    every other byte as in the file. *)
Theorem EepromFileLoad_patches_the_first_marker
    (fuel : nat) (o : Eep.eep_options) (file : list Z) (i : Z) :
  Eep.bIsInit o = false -> first_stop file i -> i < 256 ->
  i + 5 < Z.of_nat (length file) -> (Z.to_nat i < fuel)%nat ->
  exists img,
    Eep.EepromFileLoad fuel o file = Some (Eep.Inside img)
    /\ length img = length file
    /\ img !! Z.to_nat (i + 5) = Some (Eep.sn0 (Eep.SerialNumber o))
    /\ img !! Z.to_nat (i + 4) = Some (Eep.sn1 (Eep.SerialNumber o))
    /\ img !! Z.to_nat (i + 3) = Some (Eep.sn2 (Eep.SerialNumber o))
    /\ img !! Z.to_nat (i + 2) = Some (Eep.sn3 (Eep.SerialNumber o))
    /\ (forall k, (Z.of_nat k < i + 2 \/ i + 5 < Z.of_nat k) ->
          img !! k = file !! k).
Proof.
  intros Hinit Hfs H256 Hlen Hfuel. unfold Eep.EepromFileLoad.
  rewrite Hinit. simpl.
  rewrite (load_serial_at (Eep.SerialNumber o) file i fuel Hfs H256 Hfuel).
  destruct (Z.ltb_spec (i + 5) (Z.of_nat (length file))) as [_|Hge]; [|lia].
  eexists. split; [reflexivity|].
  destruct Hfs as [Hi _].
  exact (patched_block (Eep.SerialNumber o) i file _ Hi Hlen eq_refl).
Qed.

Lemma EepromFileLoad_patches_the_first_marker_witness :
  exists img,
    Eep.EepromFileLoad 3 load_options sample_file = Some (Eep.Inside img)
    /\ length img = length sample_file
    /\ img !! Z.to_nat (2 + 5) = Some (Eep.sn0 (Eep.SerialNumber load_options))
    /\ img !! Z.to_nat (2 + 4) = Some (Eep.sn1 (Eep.SerialNumber load_options))
    /\ img !! Z.to_nat (2 + 3) = Some (Eep.sn2 (Eep.SerialNumber load_options))
    /\ img !! Z.to_nat (2 + 2) = Some (Eep.sn3 (Eep.SerialNumber load_options))
    /\ (forall k, (Z.of_nat k < 2 + 2 \/ 2 + 5 < Z.of_nat k) ->
          img !! k = sample_file !! k).
Proof.
  apply (EepromFileLoad_patches_the_first_marker 3 load_options sample_file 2).
  - reflexivity.
  - exact sample_file_stop.
  - lia.
  - simpl. lia.
  - simpl. lia.
Defined.

(** X25.  When the first marker of the file (0x42 followed by 0x00 or by
    the end of the block) stands in its last five bytes, within the first
    256 bytes, [EepromFileLoad] reads or writes beyond the end of the
    block [malloc] gave for [g_pBuffer]. *)
Theorem EepromFileLoad_leaves_the_block_near_its_end
    (fuel : nat) (o : Eep.eep_options) (file : list Z) (i : Z) :
  Eep.bIsInit o = false -> first_stop file i -> i < 256 ->
  Z.of_nat (length file) <= i + 5 -> (Z.to_nat i < fuel)%nat ->
  Eep.EepromFileLoad fuel o file = Some Eep.Outside.
Proof.
  intros Hinit Hfs H256 Hlen Hfuel. unfold Eep.EepromFileLoad.
  rewrite Hinit. simpl.
  rewrite (load_serial_at (Eep.SerialNumber o) file i fuel Hfs H256 Hfuel).
  destruct (Z.ltb_spec (i + 5) (Z.of_nat (length file))) as [Hlt|_]; [lia|].
  reflexivity.
Qed.

Lemma EepromFileLoad_leaves_the_block_near_its_end_witness :
  Eep.EepromFileLoad 2 load_options [90; 66; 0; 1; 2] = Some Eep.Outside.
Proof.
  apply (EepromFileLoad_leaves_the_block_near_its_end 2 load_options
           [90; 66; 0; 1; 2] 1).
  - reflexivity.
  - split; [lia|]. split; [split; [reflexivity|left; reflexivity]|].
    intros j Hj [E _]. assert (j = 0) as -> by lia.
    vm_compute in E. discriminate E.
  - lia.
  - simpl. lia.
  - simpl. lia.
Defined.

(** X26.  On a block of 256 bytes or more that holds no marker in its
    first 256 bytes, the loops over [g_pBuffer] never end, since their
    index is a [uint8_t] that wraps to 0 after 255: neither the loop of
    [EepromFileLoad], nor the loop of [EepromFileSave] in a load without
    [-n] when the block does not start like a blank EEPROM. *)
Theorem serial_number_loops_never_end_on_long_blocks
    (o : Eep.eep_options) (buf : list Z) :
  256 <= Z.of_nat (length buf) ->
  (forall j, 0 <= j < 256 -> ~ stops_at buf j) ->
  (Eep.bIsInit o = false ->
   forall fuel, Eep.EepromFileLoad fuel o buf = None)
  /\ (Eep.bSerialNumber o = false -> Eep.bLoadFile o = true ->
      ~ blank buf ->
      forall fuel, Eep.EepromFileSave fuel o buf = None).
Proof.
  intros Hlen Hno. split.
  - intros Hinit fuel. unfold Eep.EepromFileLoad. rewrite Hinit. simpl.
    apply load_serial_wraps; [exact Hlen|exact Hno|lia].
  - intros Hsn Hload Hnb fuel. unfold Eep.EepromFileSave.
    rewrite Hsn, Hload. simpl.
    apply save_serial_wraps; [exact Hlen|exact Hno|exact Hnb|lia].
Qed.

Lemma serial_number_loops_never_end_on_long_blocks_witness :
  (forall fuel, Eep.EepromFileLoad fuel load_options (replicate 256 1) = None)
  /\ (forall fuel,
        Eep.EepromFileSave fuel load_options (replicate 256 1) = None).
Proof.
  destruct (serial_number_loops_never_end_on_long_blocks load_options
              (replicate 256 1)) as [Hl Hs].
  - rewrite length_replicate. lia.
  - intros j _. apply ones_never_stop.
  - split.
    + apply Hl. reflexivity.
    + apply Hs; [reflexivity|reflexivity|exact ones_not_blank].
Defined.

(** X27.  A load without [-n] keeps the serial number of the device: when
    the bytes read from the EEPROM hold a first marker with four bytes
    after it (and do not look blank before it), and the file holds a
    first marker with four bytes after it, both within the first 256
    bytes, [EepFile] programs the file with the four bytes after its
    marker replaced by the four bytes after the marker of the EEPROM, and
    every other byte as in the file. *)
Theorem EepFile_keeps_the_serial_number_of_the_device
    (fuel : nat) (o : Eep.eep_options) (eeprom file : list Z) (i j : Z) :
  Eep.bLoadFile o = true -> Eep.bSerialNumber o = false ->
  Eep.bIsInit o = false ->
  first_stop eeprom i -> i < 256 -> i + 5 < Z.of_nat (length eeprom) ->
  (2 < i -> ~ blank eeprom) ->
  first_stop file j -> j < 256 -> j + 5 < Z.of_nat (length file) ->
  (Z.to_nat i < fuel)%nat -> (Z.to_nat j < fuel)%nat ->
  exists o1 img,
    Eep.EepFile fuel o eeprom file = Some (Eep.Inside (o1, Some img))
    /\ Eep.get_serial i eeprom = Eep.Inside (Eep.SerialNumber o1)
    /\ Eep.get_serial j img = Eep.Inside (Eep.SerialNumber o1)
    /\ length img = length file
    /\ (forall k, (Z.of_nat k < j + 2 \/ j + 5 < Z.of_nat k) ->
          img !! k = file !! k).
Proof.
  intros Hload Hsn Hinit Hfi Hi Hleni Hnb Hfj Hj Hlenj Hfueli Hfuelj.
  unfold Eep.EepFile, Eep.EepromFileSave. rewrite Hload, Hsn. simpl.
  rewrite (save_serial_at o eeprom i fuel Hfi Hi Hleni Hnb Hfueli).
  pose proof Hfi as [Hi0 _]. pose proof Hfj as [Hj0 _].
  assert (Hget : exists sn, Eep.get_serial i eeprom = Eep.Inside sn).
  { destruct (eeprom !! Z.to_nat (i + 5)) as [a|] eqn:Ea;
      [|apply lookup_ge_None in Ea; lia].
    destruct (eeprom !! Z.to_nat (i + 4)) as [b|] eqn:Eb;
      [|apply lookup_ge_None in Eb; lia].
    destruct (eeprom !! Z.to_nat (i + 3)) as [c|] eqn:Ec;
      [|apply lookup_ge_None in Ec; lia].
    destruct (eeprom !! Z.to_nat (i + 2)) as [d|] eqn:Ed;
      [|apply lookup_ge_None in Ed; lia].
    eexists. apply (get_serial_inside i eeprom a b c d); assumption. }
  destruct Hget as [sn Hget]. rewrite Hget. simpl.
  unfold Eep.EepromFileLoad. simpl. rewrite Hinit. simpl.
  rewrite (load_serial_at sn file j fuel Hfj Hj Hfuelj).
  destruct (Z.ltb_spec (j + 5) (Z.of_nat (length file))) as [_|Hge]; [|lia].
  eexists. eexists. split; [reflexivity|]. simpl.
  split; [reflexivity|].
  destruct (patched_block sn j file _ Hj0 Hlenj eq_refl)
    as (Hl & E5 & E4 & E3 & E2 & Hrest).
  split; [|split; [exact Hl|exact Hrest]].
  rewrite (get_serial_inside j _ _ _ _ _ E5 E4 E3 E2).
  destruct sn; reflexivity.
Qed.

Lemma EepFile_keeps_the_serial_number_of_the_device_witness :
  exists o1 img,
    Eep.EepFile 5 load_options sample_eeprom sample_file
      = Some (Eep.Inside (o1, Some img))
    /\ Eep.get_serial 4 sample_eeprom = Eep.Inside (Eep.SerialNumber o1)
    /\ Eep.get_serial 2 img = Eep.Inside (Eep.SerialNumber o1)
    /\ length img = length sample_file
    /\ (forall k, (Z.of_nat k < 2 + 2 \/ 2 + 5 < Z.of_nat k) ->
          img !! k = sample_file !! k).
Proof.
  apply (EepFile_keeps_the_serial_number_of_the_device 5 load_options
           sample_eeprom sample_file 4 2).
  - reflexivity.
  - reflexivity.
  - reflexivity.
  - exact sample_eeprom_stop.
  - lia.
  - simpl. lia.
  - intros _. exact sample_eeprom_not_blank.
  - exact sample_file_stop.
  - lia.
  - simpl. lia.
  - simpl. lia.
  - simpl. lia.
Defined.

(** X28.  A load without [-n] on a device whose EEPROM looks blank (zero
    at offsets 2 and 3, no marker at offsets 0 to 2) sets [bIsInit] and
    programs the file as it is, whatever the file holds: the serial
    number of the file is used and the file is not searched. *)
Theorem EepFile_programs_the_file_as_it_is_after_initialization
    (fuel : nat) (o : Eep.eep_options) (eeprom file : list Z) :
  Eep.bLoadFile o = true -> Eep.bSerialNumber o = false ->
  blank eeprom -> (forall j, 0 <= j <= 2 -> ~ stops_at eeprom j) ->
  (3 <= fuel)%nat ->
  Eep.EepFile fuel o eeprom file
  = Some (Eep.Inside (Eep.with_init o, Some file)).
Proof.
  intros Hload Hsn Hblank Hno Hfuel.
  unfold Eep.EepFile, Eep.EepromFileSave. rewrite Hload, Hsn. simpl.
  assert (Hlen : 3 < Z.of_nat (length eeprom)).
  { destruct Hblank as [_ E3]. apply lookup_lt_Some in E3. lia. }
  assert (Hrun : Eep.save_serial 3 o 0 eeprom
                 = Some (Eep.Inside (Eep.with_init o))).
  { change (Eep.save_serial 3 o 0 eeprom)
      with (Eep.save_serial (2 + 1) o 0 eeprom).
    rewrite (save_serial_skip o eeprom 2 0 1);
      [|lia|lia|simpl; lia|intros j Hj; apply Hno; lia|lia].
    rewrite save_serial_S.
    destruct (Z.ltb_spec (0 + Z.of_nat 2) (Z.of_nat (length eeprom)))
      as [_|Hge]; [|lia].
    rewrite at_marker_pass by (try apply Hno; lia).
    change (0 + Z.of_nat 2) with 2.
    rewrite (at_blank_hit eeprom Hblank). reflexivity. }
  rewrite (save_serial_fuel o eeprom _ 3 fuel 0 Hfuel Hrun).
  reflexivity.
Qed.

Lemma EepFile_programs_the_file_as_it_is_after_initialization_witness :
  Eep.EepFile 3 load_options [90; 0; 0; 0; 66; 0] (replicate 256 1)
  = Some (Eep.Inside (Eep.with_init load_options, Some (replicate 256 1))).
Proof.
  apply (EepFile_programs_the_file_as_it_is_after_initialization 3
           load_options [90; 0; 0; 0; 66; 0] (replicate 256 1)).
  - reflexivity.
  - reflexivity.
  - split; reflexivity.
  - intros j Hj [E _].
    assert (Hc : j = 0 \/ j = 1 \/ j = 2) by lia.
    destruct Hc as [-> | [-> | ->]]; vm_compute in E; discriminate E.
  - lia.
Defined.

(** ** Programming the EEPROM *)

Section ProgramFacts.

Import Eep.

Context {St : Type}.
Variable E : eeprom St.

Lemma write_words_S f buf off cnt (s : St) log :
  write_words E (S f) buf off cnt s log
  = if off <? Z.land (Z.of_nat (length buf)) (u32 (Z.lnot 3)) then
      match word_at buf off with
      | Outside => Some Outside
      | Inside value =>
          let s1 := eep_write E cnt value s in
          let '(v, s2) := eep_read E cnt s1 in
          if negb (v =? value) then
            Some (Inside {| verified := false; offset := off;
                            four_byte_count := cnt; loop_eep := s2;
                            loop_calls := log ++ [(cnt, value)] |})
          else write_words E f buf (u32 (off + 4)) ((cnt + 1) mod 256) s2
                 (log ++ [(cnt, value)])
      end
    else Some (Inside {| verified := true; offset := off;
                         four_byte_count := cnt; loop_eep := s;
                         loop_calls := log |}).
Proof. reflexivity. Qed.

(** [FileSize & ~0x3] is the size in whole 32-bit values. *)
Lemma land_words n :
  0 <= n < 2 ^ 32 -> Z.land n (u32 (Z.lnot 3)) = 4 * (n / 4).
Proof.
  intros Hn.
  change (u32 (Z.lnot 3)) with (Z.ldiff (Z.ones 32) (Z.ones 2)).
  rewrite Z.ldiff_land, Z.land_assoc, Z.land_ones by lia.
  rewrite Z.mod_small by lia.
  rewrite <- Z.ldiff_land, Z.ldiff_ones_r by lia.
  rewrite Z.shiftr_div_pow2, Z.shiftl_mul_pow2 by lia.
  change (2 ^ 2) with 4. lia.
Qed.

Lemma word_at_inside buf k :
  (4 * k + 3 < length buf)%nat ->
  word_at buf (4 * Z.of_nat k) = Inside (word_of buf k).
Proof.
  intros Hk. unfold word_at, word_of.
  destruct (buf !! (4 * k)%nat) as [b0|] eqn:E0;
    [|apply lookup_ge_None in E0; lia].
  destruct (buf !! (4 * k + 1)%nat) as [b1|] eqn:E1;
    [|apply lookup_ge_None in E1; lia].
  destruct (buf !! (4 * k + 2)%nat) as [b2|] eqn:E2;
    [|apply lookup_ge_None in E2; lia].
  destruct (buf !! (4 * k + 3)%nat) as [b3|] eqn:E3;
    [|apply lookup_ge_None in E3; lia].
  rewrite (peek_inside buf (4 * Z.of_nat k) b0)
    by (replace (Z.to_nat (4 * Z.of_nat k)) with (4 * k)%nat by lia;
        exact E0).
  simpl.
  rewrite (peek_inside buf (4 * Z.of_nat k + 1) b1)
    by (replace (Z.to_nat (4 * Z.of_nat k + 1)) with (4 * k + 1)%nat by lia;
        exact E1).
  simpl.
  rewrite (peek_inside buf (4 * Z.of_nat k + 2) b2)
    by (replace (Z.to_nat (4 * Z.of_nat k + 2)) with (4 * k + 2)%nat by lia;
        exact E2).
  simpl.
  rewrite (peek_inside buf (4 * Z.of_nat k + 3) b3)
    by (replace (Z.to_nat (4 * Z.of_nat k + 3)) with (4 * k + 3)%nat by lia;
        exact E3).
  reflexivity.
Qed.

Lemma word_at_outside buf off :
  0 <= off -> Z.of_nat (length buf) <= off + 3 -> word_at buf off = Outside.
Proof.
  intros Hoff Hlen. unfold word_at.
  assert (E3 : peek buf (off + 3) = Outside).
  { apply peek_outside, lookup_ge_None. lia. }
  destruct (peek buf off); [|reflexivity]. simpl.
  destruct (peek buf (off + 1)); [|reflexivity]. simpl.
  destruct (peek buf (off + 2)); [|reflexivity]. simpl.
  rewrite E3. reflexivity.
Qed.

Lemma whole_words (n : nat) : Z.of_nat n / 4 = Z.of_nat (n / 4).
Proof. rewrite Nat2Z.inj_div. reflexivity. Qed.

Lemma words_fit (n k : nat) : (k < n / 4)%nat -> (4 * k + 3 < n)%nat.
Proof.
  intros Hk. pose proof (Nat.div_mod_eq n 4) as Hn.
  pose proof (Nat.mod_upper_bound n 4). lia.
Qed.

Lemma words_left (n : nat) :
  (n mod 4 = 0)%nat \/ Z.of_nat n <= 4 * Z.of_nat (n / 4) + 3.
Proof.
  pose proof (Nat.div_mod_eq n 4) as Hn.
  pose proof (Nat.mod_upper_bound n 4). lia.
Qed.

(** The loop over the 32-bit values, when every value is read back as
    written: value [j] of the buffer goes to block [j mod 256]. *)
Lemma write_words_verified buf :
  Z.of_nat (length buf) < 2 ^ 32 ->
  forall fuel k (s : St) log e,
    (k <= length buf / 4)%nat ->
    write_words E fuel buf (4 * Z.of_nat k) (Z.of_nat k mod 256) s log
      = Some (Inside e) ->
    verified e = true ->
    offset e = 4 * Z.of_nat (length buf / 4)
    /\ loop_calls e
       = log ++ ((fun j => (Z.of_nat j mod 256, word_of buf j))
                   <$> seq k (length buf / 4 - k)).
Proof.
  intros Hlen. induction fuel as [|f IH]; intros k s log e Hk Hrun Hv;
    [discriminate|].
  rewrite write_words_S, land_words, whole_words in Hrun by lia.
  destruct (Z.ltb_spec (4 * Z.of_nat k) (4 * Z.of_nat (length buf / 4)))
    as [Hlt|Hge].
  - rewrite word_at_inside in Hrun by (apply words_fit; lia).
    cbv zeta in Hrun.
    destruct (eep_read E (Z.of_nat k mod 256)
                (eep_write E (Z.of_nat k mod 256) (word_of buf k) s))
      as [v s2].
    destruct (negb (v =? word_of buf k)).
    + inversion Hrun; subst e. discriminate Hv.
    + assert (Hoff : u32 (4 * Z.of_nat k + 4) = 4 * Z.of_nat (S k)).
      { unfold u32. rewrite Z.mod_small; [lia|].
        pose proof (words_fit (length buf) k ltac:(lia)). lia. }
      assert (Hcnt : (Z.of_nat k mod 256 + 1) mod 256 = Z.of_nat (S k) mod 256).
      { rewrite Nat2Z.inj_succ, <- Z.add_1_r.
        rewrite Zplus_mod_idemp_l. reflexivity. }
      rewrite Hoff, Hcnt in Hrun.
      destruct (IH (S k) s2 _ e ltac:(lia) Hrun Hv) as [Ho Hc].
      split; [exact Ho|]. rewrite Hc, <- app_assoc. f_equal.
      replace (length buf / 4 - k)%nat with (S (length buf / 4 - S k)) by lia.
      reflexivity.
  - inversion Hrun; subst e. cbn [offset loop_calls]. split; [lia|].
    replace (length buf / 4 - k)%nat with O by lia.
    simpl. rewrite app_nil_r. reflexivity.
Qed.

(** The loop ends within as many turns as the buffer has 32-bit
    values. *)
Lemma write_words_ends buf :
  Z.of_nat (length buf) < 2 ^ 32 ->
  forall fuel k (s : St) log,
    (k <= length buf / 4)%nat -> (length buf / 4 - k < fuel)%nat ->
    is_Some (write_words E fuel buf (4 * Z.of_nat k) (Z.of_nat k mod 256)
               s log).
Proof.
  intros Hlen. induction fuel as [|f IH]; intros k s log Hk Hf; [lia|].
  rewrite write_words_S, land_words, whole_words by lia.
  destruct (Z.ltb_spec (4 * Z.of_nat k) (4 * Z.of_nat (length buf / 4)))
    as [Hlt|Hge]; [|eexists; reflexivity].
  rewrite word_at_inside by (apply words_fit; lia).
  cbv zeta.
  destruct (eep_read E (Z.of_nat k mod 256)
              (eep_write E (Z.of_nat k mod 256) (word_of buf k) s))
    as [v s2].
  destruct (negb (v =? word_of buf k)); [eexists; reflexivity|].
  assert (Hoff : u32 (4 * Z.of_nat k + 4) = 4 * Z.of_nat (S k)).
  { unfold u32. rewrite Z.mod_small; [lia|].
    pose proof (words_fit (length buf) k ltac:(lia)). lia. }
  assert (Hcnt : (Z.of_nat k mod 256 + 1) mod 256 = Z.of_nat (S k) mod 256).
  { rewrite Nat2Z.inj_succ, <- Z.add_1_r.
    rewrite Zplus_mod_idemp_l. reflexivity. }
  rewrite Hoff, Hcnt. apply IH; lia.
Qed.

End ProgramFacts.

(** X29.  The programming loop of [EepromFileLoad] ends within as many
    turns as the buffer has 32-bit values; and when it returns
    [EXIT_SUCCESS], the size of the buffer is a multiple of 4 and value
    [k] of the buffer was written to block [k mod 256], in order, since
    [four_byte_count] is a [uint8_t]: from value 256 on the writes go to
    the blocks written first.  With a size that is not a multiple of 4
    there is no such return: the 32-bit read of the remaining value
    starts less than four bytes before the end of the block. *)
Theorem EepromFileLoad_writes_value_k_to_block_k_mod_256
    (St : Type) (E : Eep.eeprom St) (fuel : nat) (buf : list Z) (s : St) :
  Z.of_nat (length buf) < 2 ^ 32 ->
  ((length buf / 4 < fuel)%nat -> is_Some (Eep.program E fuel buf s))
  /\ (forall r, Eep.program E fuel buf s = Some (Eep.Inside r) ->
        Eep.rc r = Eep.EXIT_SUCCESS ->
        (length buf mod 4 = 0)%nat
        /\ Eep.calls r
           = (fun k => (Z.of_nat k mod 256, word_of buf k))
               <$> seq 0 (length buf / 4)).
Proof.
  intros Hlen. split.
  - intros Hfuel. unfold Eep.program.
    destruct (write_words_ends E buf Hlen fuel O s [] ltac:(lia) ltac:(lia))
      as [x Hx].
    change (4 * Z.of_nat 0) with 0 in Hx. change (Z.of_nat 0 mod 256) with 0 in Hx.
    rewrite Hx. destruct x as [e|]; [|eexists; reflexivity].
    destruct (Eep.verified e); eexists; reflexivity.
  - intros r Hrun Hrc. unfold Eep.program in Hrun.
    destruct (Eep.write_words E fuel buf 0 0 s []) as [[e|]|] eqn:Hw;
      try discriminate Hrun.
    destruct (Eep.verified e) eqn:Hv.
    + destruct (write_words_verified E buf Hlen fuel O s [] e ltac:(lia) Hw Hv)
        as [Hoff Hcalls].
      rewrite Nat.sub_0_r, app_nil_l in Hcalls.
      unfold Eep.write_rest in Hrun. rewrite Hoff in Hrun.
      destruct (Z.ltb_spec (4 * Z.of_nat (length buf / 4))
                  (Z.of_nat (length buf))) as [Hlt|Hge].
      * rewrite word_at_outside in Hrun; [discriminate Hrun|lia|].
        destruct (words_left (length buf)) as [Hm|Hm]; [|exact Hm].
        pose proof (Nat.div_mod_eq (length buf) 4). lia.
      * inversion Hrun; subst r. cbn [Eep.calls]. split; [|exact Hcalls].
        pose proof (Nat.div_mod_eq (length buf) 4). lia.
    + inversion Hrun; subst r. discriminate Hrc.
Qed.

Lemma EepromFileLoad_writes_value_k_to_block_k_mod_256_witness :
  exists r,
    Eep.program Eep.store_eeprom 258 long_file (fun _ => 0)
      = Some (Eep.Inside r)
    /\ (length long_file mod 4 = 0)%nat
    /\ Eep.calls r
       = (fun k => (Z.of_nat k mod 256, word_of long_file k))
           <$> seq 0 (length long_file / 4).
Proof.
  assert (Hrc : (fun x => match x with
                          | Eep.Inside r => Some (Eep.rc r)
                          | Eep.Outside => None
                          end)
                  <$> Eep.program Eep.store_eeprom 258 long_file (fun _ => 0)
                = Some (Some Eep.EXIT_SUCCESS))
    by (vm_compute; reflexivity).
  destruct (Eep.program Eep.store_eeprom 258 long_file (fun _ => 0))
    as [[r|]|] eqn:Hp; try discriminate Hrc.
  cbn [fmap option_fmap option_map] in Hrc.
  assert (Hr : Eep.rc r = Eep.EXIT_SUCCESS) by congruence.
  exists r. split; [reflexivity|].
  assert (Hlen : Z.of_nat (length long_file) < 2 ^ 32)
    by (vm_compute; reflexivity).
  destruct (EepromFileLoad_writes_value_k_to_block_k_mod_256 (Z -> Z)
              Eep.store_eeprom 258 long_file (fun _ => 0) Hlen) as [_ Hcalls].
  exact (Hcalls r Hp Hr).
Defined.

(** On an EEPROM that keeps what is written, the file of 1028 bytes is
    reported as programmed, and block 0 holds the last value of the
    file, not the first. *)
Example long_file_overwrites_block_0 :
  (fun x => match x with
            | Eep.Inside r => Some (Eep.rc r, Eep.eep r 0)
            | Eep.Outside => None
            end)
    <$> Eep.program Eep.store_eeprom 258 long_file (fun _ => 0)
  = Some (Some (Eep.EXIT_SUCCESS, 33686018))
  /\ word_of long_file 0 = 16843009 /\ word_of long_file 256 = 33686018.
Proof. vm_compute. auto. Qed.

(** ** The tree output *)

Section ForestFacts.

Import Lspci.

Lemma put_ok p c l : put p c l <> BadPointer.
Proof. unfold put. destruct (p <? 256); discriminate. Qed.

Lemma then_ok {A B} (x : outcome A) (f : A -> outcome B) :
  x <> BadPointer -> (forall a, f a <> BadPointer) -> then_ x f <> BadPointer.
Proof. intros Hx Hf. destruct x; simpl; [apply Hf|discriminate|contradiction]. Qed.

Lemma sprintf_ok s : forall p l, sprintf p s l <> BadPointer.
Proof.
  induction s as [|c s IH]; intros p l; simpl; [apply put_ok|].
  apply then_ok; [apply put_ok|]. intros a. apply IH.
Qed.

Lemma print_it_ok st p : print_it st p <> BadPointer.
Proof.
  unfold print_it. apply then_ok; [apply put_ok|]. intros l1.
  apply then_ok; [apply put_ok|]. intros l2. discriminate.
Qed.

Lemma some_ok {A} (r : outcome A) : r <> BadPointer -> ends_ok (Some r).
Proof. intros Hr. exists r. auto. Qed.

Lemma and_next_ok {A B} (x : outcome A) (f : A -> option (outcome B)) :
  x <> BadPointer -> (forall a, ends_ok (f a)) -> ends_ok (and_next x f).
Proof.
  intros Hx Hf. destruct x; simpl;
    [apply Hf|apply some_ok; discriminate|contradiction].
Qed.

Lemma and_after_ok {A B} (x : option (outcome A))
    (f : A -> option (outcome B)) :
  ends_ok x -> (forall a, ends_ok (f a)) -> ends_ok (and_after x f).
Proof.
  intros (r & -> & Hr) Hf. simpl. apply and_next_ok; assumption.
Qed.

Section Loops.

Variable show_dev : nat -> tree_out -> Z -> option (outcome tree_out).

Lemma branch_ok c d st p :
  (forall st' p', ends_ok (show_dev d st' p')) ->
  ends_ok (branch show_dev c d st p).
Proof.
  intros Hd. unfold branch. apply and_next_ok.
  - apply then_ok; [apply put_ok|]. intros a. apply put_ok.
  - intros l. apply Hd.
Qed.

Lemma show_devs_ok p : forall ds st,
  (forall d st' p', d ∈ ds -> ends_ok (show_dev d st' p')) ->
  ends_ok (show_devs show_dev p ds st).
Proof.
  induction ds as [|d ds IH]; intros st Hd;
    [apply some_ok; discriminate|].
  cbn [show_devs]. destruct ds as [|d' ds].
  - apply branch_ok. intros st' p'. apply Hd. apply list_elem_of_here.
  - apply and_after_ok.
    + apply branch_ok. intros st' p'. apply Hd. apply list_elem_of_here.
    + intros st1. apply IH. intros d0 st' p' Hin. apply Hd.
      apply list_elem_of_further. exact Hin.
Qed.

Lemma show_tree_bus_ok u st p :
  (forall d st' p', d ∈ bus_devs u -> ends_ok (show_dev d st' p')) ->
  ends_ok (show_tree_bus show_dev u st p).
Proof.
  intros Hd. unfold show_tree_bus.
  destruct (bus_devs u) as [|d [|d' ds]] eqn:E.
  - apply some_ok, print_it_ok.
  - apply branch_ok. intros st' p'. apply Hd. apply list_elem_of_here.
  - apply show_devs_ok. exact Hd.
Qed.

Lemma labelled_ok lead u st p :
  (forall d st' p', d ∈ bus_devs u -> ends_ok (show_dev d st' p')) ->
  ends_ok (labelled show_dev lead u st p).
Proof.
  intros Hd. unfold labelled. apply and_next_ok; [apply sprintf_ok|].
  intros l. apply show_tree_bus_ok. exact Hd.
Qed.

Lemma show_buses_ok p : forall us st,
  (forall u d st' p', u ∈ us -> d ∈ bus_devs u ->
     ends_ok (show_dev d st' p')) ->
  ends_ok (show_buses show_dev p us st).
Proof.
  induction us as [|u us IH]; intros st Hd;
    [apply some_ok; discriminate|].
  cbn [show_buses]. destruct us as [|u' us].
  - apply labelled_ok. intros d st' p'. apply Hd. apply list_elem_of_here.
  - apply and_after_ok.
    + apply labelled_ok. intros d st' p'. apply Hd. apply list_elem_of_here.
    + intros st1. apply IH. intros u0 d st' p' Hin. apply Hd.
      apply list_elem_of_further. exact Hin.
Qed.

Lemma show_tree_bridge_ok is_host b st p :
  first_bus b <> [] ->
  (forall u d st' p', u ∈ first_bus b -> d ∈ bus_devs u ->
     ends_ok (show_dev d st' p')) ->
  ends_ok (show_tree_bridge show_dev is_host b st p).
Proof.
  intros Hne Hd. unfold show_tree_bridge.
  apply and_next_ok; [apply put_ok|]. intros l. cbv zeta.
  destruct (first_bus b) as [|u [|u' us]] eqn:E; [contradiction| |].
  - assert (Hu : forall d st' p', d ∈ bus_devs u ->
                   ends_ok (show_dev d st' p')).
    { intros d st' p'. apply Hd. apply list_elem_of_here. }
    destruct is_host.
    + apply and_next_ok; [apply sprintf_ok|]. intros l'.
      apply show_tree_bus_ok. exact Hu.
    + apply show_tree_bus_ok. exact Hu.
  - apply show_buses_ok. exact Hd.
Qed.

End Loops.

(** A device stands on one bus only. *)
Lemma devs_buses t :
  devs_of (buses_of t) = concat ((fun b => devs_of (first_bus b)) <$> t).
Proof.
  induction t as [|b t IH]; [reflexivity|].
  change (buses_of (b :: t)) with (first_bus b ++ buses_of t).
  rewrite devs_of_app, IH. reflexivity.
Qed.

Lemma on_bus_in t ib i b :
  t !! ib = Some b -> on_bus t ib i -> i ∈ devs_of (first_bus b).
Proof.
  intros Hb (b' & u & Hb' & Hu & Hi). rewrite Hb in Hb'.
  inversion Hb'; subst b'. unfold devs_of.
  apply list_elem_of_In, in_concat. exists (bus_devs u).
  split; apply list_elem_of_In; [|exact Hi].
  apply list_elem_of_fmap. exists u. auto.
Qed.

Lemma on_bus_devs t ib i : on_bus t ib i -> i ∈ devs_of (buses_of t).
Proof.
  intros Hon. pose proof Hon as (b & u & Hb & _).
  pose proof (on_bus_in t ib i b Hb Hon) as Hi.
  rewrite devs_buses. apply list_elem_of_In, in_concat.
  exists (devs_of (first_bus b)). split; apply list_elem_of_In; [|exact Hi].
  apply list_elem_of_fmap. exists b. split; [reflexivity|].
  eapply list_elem_of_lookup_2. exact Hb.
Qed.

Lemma on_bus_unique t a b i :
  NoDup (devs_of (buses_of t)) -> on_bus t a i -> on_bus t b i -> a = b.
Proof.
  intros Hnd Ha Hb. rewrite devs_buses in Hnd.
  pose proof Ha as (ba & _ & Hba & _). pose proof Hb as (bb & _ & Hbb & _).
  eapply (NoDup_concat_unique _ i Hnd a b).
  - rewrite list_lookup_fmap, Hba. reflexivity.
  - rewrite list_lookup_fmap, Hbb. reflexivity.
  - eapply on_bus_in; eassumption.
  - eapply on_bus_in; eassumption.
Qed.

(** A list of distinct positions of the chain is no longer than the
    chain. *)
Lemma distinct_positions (l : list nat) n :
  NoDup l -> Forall (fun x => (x < n)%nat) l -> (length l <= n)%nat.
Proof.
  intros Hnd Hall.
  assert (Hsub : l ⊆+ seq O n).
  { apply NoDup_submseteq; [exact Hnd|]. intros x Hx.
    apply elem_of_seq. rewrite list.Forall_forall in Hall.
    specialize (Hall x Hx). lia. }
  apply submseteq_length in Hsub. rewrite length_seq in Hsub. exact Hsub.
Qed.

(** The bridge of a device that stands on a bus of the innermost bridge
    is none of the bridges the output is inside. *)
Lemma bridge_for_Some t d ib b :
  bridge_for t d = Some (ib, b) -> t !! ib = Some b /\ br_dev b = Some d.
Proof.
  intros Ef. apply list_find_Some in Ef as (Hb & Hbr & _).
  apply bool_decide_unpack in Hbr. auto.
Qed.

Lemma no_return t x0 i ib b :
  NoDup (devs_of (buses_of t)) ->
  (exists b0, t !! O = Some b0 /\ br_dev b0 = None) ->
  t !! ib = Some b -> br_dev b = Some i -> on_bus t x0 i ->
  forall l, chain_up t l -> (forall y r, l = y :: r -> x0 ∉ r) -> ib ∉ l.
Proof.
  intros Hnd (b0 & Hb0 & Hnone) Hb Hbr Hon.
  induction l as [|x r IH]; intros Hchain Htail Hin; [inversion Hin|].
  destruct r as [|y r'].
  - simpl in Hchain. subst x. apply list_elem_of_singleton in Hin. subst ib.
    rewrite Hb0 in Hb. inversion Hb; subst b0. congruence.
  - destruct Hchain as [(bx & d & Hfor & Hony) Hrest].
    apply bridge_for_Some in Hfor as [Hbx Hd].
    apply elem_of_cons in Hin as [->|Hin].
    + rewrite Hb in Hbx. inversion Hbx; subst bx.
      rewrite Hbr in Hd. inversion Hd; subst d.
      pose proof (on_bus_unique t x0 y i Hnd Hon Hony) as <-.
      apply (Htail x (x0 :: r') eq_refl). apply list_elem_of_here.
    + apply IH; [exact Hrest| |exact Hin].
      intros y0 r0 E. inversion E; subst y0 r0. intros Hx.
      apply (Htail x (y :: r') eq_refl). apply list_elem_of_further. exact Hx.
Qed.

Section Descent.

Variable t : list bridge.
Variable reg : list device.
Variable verbose : Z.
Variable names : pci_dev -> string.

Lemma show_tree_dev_S f i st p :
  show_tree_dev t reg verbose names (S f) i st p
  = match reg !! i with
    | None => Some BadPointer
    | Some d =>
        let q := d_dev d in
        let s := hex 2 (dev q) +:+ "." +:+ hex 1 (func q) in
        and_next (sprintf p s (line st)) (fun l =>
          let p := p + len s in
          let st := {| line := l; printed := printed st;
                       shown := shown st ++ [i] |} in
          match list_find (fun b => bool_decide (br_dev b = Some i)) t with
          | Some (ib, b) =>
              let s2 := bridge_label b in
              and_next (sprintf p s2 l) (fun l2 =>
                show_tree_bridge (show_tree_dev t reg verbose names f)
                  (ib =? 0)%nat b (with_line l2 st) (p + len s2))
          | None =>
              if negb (verbose =? 0) then
                let s3 := "  " +:+ names q in
                Some (then_ (sprintf p s3 l)
                        (fun l3 => print_it (with_line l3 st) (p + len s3)))
              else Some (print_it st p)
          end)
    end.
Proof. reflexivity. Qed.

(** [show_tree_dev] ends for a device on a bus of the innermost bridge,
    with fuel for the bridges that are not passed yet. *)
Lemma show_tree_dev_ends :
  tree_ok t reg ->
  forall fuel x r i st p,
    chain_up t (x :: r) -> NoDup (x :: r) ->
    Forall (fun y => (y < length t)%nat) (x :: r) ->
    on_bus t x i -> (length t < fuel + length (x :: r))%nat ->
    ends_ok (show_tree_dev t reg verbose names fuel i st p).
Proof.
  intros (Hnd & Hreg & Hbus & Hhost).
  induction fuel as [|f IH]; intros x r i st p Hchain Hdist Hlt Hon Hfuel.
  - pose proof (distinct_positions _ _ Hdist Hlt). simpl in *. lia.
  - rewrite show_tree_dev_S.
    destruct (Hreg i (on_bus_devs t x i Hon)) as [d Hd]. rewrite Hd.
    cbv zeta. apply and_next_ok; [apply sprintf_ok|]. intros l.
    destruct (list_find (fun b => bool_decide (br_dev b = Some i)) t)
      as [[ib b]|] eqn:Ef.
    + pose proof Ef as Hfor. apply bridge_for_Some in Ef as [Hb Hbr].
      apply and_next_ok; [apply sprintf_ok|]. intros l2.
      apply show_tree_bridge_ok.
      * rewrite list.Forall_forall in Hbus. apply Hbus.
        eapply list_elem_of_lookup_2. exact Hb.
      * intros u d0 st' p' Hu Hd0.
        apply (IH ib (x :: r) d0 st' p').
        -- split; [|exact Hchain]. exists b, i. auto.
        -- constructor; [|exact Hdist].
           apply (no_return t x i ib b Hnd Hhost Hb Hbr Hon (x :: r) Hchain).
           intros y r0 E. inversion E; subst y r0.
           apply NoDup_cons in Hdist as [Hx _]. exact Hx.
        -- constructor; [|exact Hlt]. apply lookup_lt_Some in Hb. exact Hb.
        -- exists b, u. auto.
        -- simpl in *. lia.
    + destruct (negb (verbose =? 0)).
      * apply some_ok. apply then_ok; [apply sprintf_ok|].
        intros l3. apply print_it_ok.
      * apply some_ok, print_it_ok.
Qed.

End Descent.

(** What [grow_tree] leaves is fit for [show_forest]. *)
Lemma grow_tree_ok H reg t : grow_tree H reg = Some t -> tree_ok t reg.
Proof.
  intros Ht.
  destruct (grow_tree_spec H reg) as (t' & Ht' & Hf & Hperm & _).
  rewrite Ht in Ht'. inversion Ht'; subst t'.
  split; [|split; [|split]].
  - rewrite Hperm. apply NoDup_seq.
  - intros i Hi. rewrite Hperm in Hi. apply elem_of_seq in Hi.
    apply lookup_lt_is_Some. lia.
  - apply list.Forall_forall. intros b Hb.
    apply list_elem_of_lookup in Hb as [ib Hb].
    destruct (grow_tree_secondary H reg t ib b Ht Hb) as [k Hk].
    unfold find_bus in Hk. intros E. rewrite E in Hk. discriminate Hk.
  - assert (Hl : (frame <$> t) !! O = (frame <$> linked_chain H reg) !! O)
      by (rewrite Hf; reflexivity).
    rewrite !list_lookup_fmap in Hl. unfold linked_chain in Hl. simpl in Hl.
    destruct (t !! O) as [b0|] eqn:E0; [|discriminate Hl].
    exists b0. split; [reflexivity|]. simpl in Hl.
    inversion Hl as [Hb0]. reflexivity.
Qed.

End ForestFacts.

(** ** The devices the tree output shows *)

Section ForestShown.

Import Lspci.

(** Steps that touch the line only. *)
Lemma print_it_shown st p st' :
  print_it st p = Fine st' -> shown st' = shown st.
Proof.
  unfold print_it. intros Hrun.
  destruct (put p "010"%char (line st)) as [l1| |]; simpl in Hrun;
    try discriminate Hrun.
  destruct (put (p + 1) Ascii.zero l1) as [l2| |]; simpl in Hrun;
    try discriminate Hrun.
  inversion Hrun. reflexivity.
Qed.

Lemma shows_ext (F G : nat -> Prop) run :
  (forall y, F y <-> G y) -> shows F run -> shows G run.
Proof.
  intros Heq HF st st' Hnd Hpre Hrun.
  destruct (HF st st' Hnd) as (new & Hs & Hn & Hin); [|exact Hrun|].
  - intros y Hy HFy. apply (Hpre y Hy), Heq, HFy.
  - exists new. split; [exact Hs|]. split; [exact Hn|].
    intros y. rewrite Hin. apply Heq.
Qed.

Lemma shows_nothing run :
  (forall st st', run st = Some (Fine st') -> shown st' = shown st) ->
  shows (fun _ => False) run.
Proof.
  intros Hkeep st st' _ _ Hrun. exists []. rewrite app_nil_r.
  split; [apply Hkeep, Hrun|]. split; [constructor|].
  intros y. split; [intros Hy; inversion Hy|contradiction].
Qed.

(** One step after another, when they show different devices. *)
Lemma shows_seq (F G : nat -> Prop) run1 run2 :
  shows F run1 -> shows G run2 -> (forall y, F y -> G y -> False) ->
  shows (fun y => F y \/ G y) (fun st => and_after (run1 st) run2).
Proof.
  intros H1 H2 Hdisj st st' Hnd Hpre Hrun.
  destruct (run1 st) as [[st1| |]|] eqn:E1; simpl in Hrun;
    try discriminate Hrun.
  destruct (H1 st st1 Hnd) as (new1 & Hs1 & Hn1 & Hin1); [|exact E1|].
  { intros y Hy HF. apply (Hpre y Hy). left. exact HF. }
  destruct (H2 st1 st') as (new2 & Hs2 & Hn2 & Hin2); [| |exact Hrun|].
  { rewrite Hs1. apply NoDup_app. split; [exact Hnd|]. split; [|exact Hn1].
    intros y Hy Hy1. apply (Hpre y Hy). left. apply Hin1, Hy1. }
  { intros y Hy HG. rewrite Hs1 in Hy. apply elem_of_app in Hy as [Hy|Hy].
    - apply (Hpre y Hy). right. exact HG.
    - apply (Hdisj y); [apply Hin1, Hy|exact HG]. }
  exists (new1 ++ new2). split; [rewrite Hs2, Hs1, app_assoc; reflexivity|].
  split.
  - apply NoDup_app. split; [exact Hn1|]. split; [|exact Hn2].
    intros y Hy1 Hy2. apply (Hdisj y); [apply Hin1, Hy1|apply Hin2, Hy2].
  - intros y. rewrite elem_of_app, Hin1, Hin2. reflexivity.
Qed.

Section Loops.

Variable show_dev : nat -> tree_out -> Z -> option (outcome tree_out).
(** The devices on the buses of the bridge, and what the call for each
    of them shows. *)
Variable D : nat -> Prop.
Variable Fd : nat -> nat -> Prop.
Hypothesis Hdev : forall d p, D d -> shows (Fd d) (fun st => show_dev d st p).
Hypothesis Hdisj :
  forall d d' y, D d -> D d' -> d <> d' -> Fd d y -> Fd d' y -> False.

Lemma branch_shows c d p :
  D d -> shows (Fd d) (fun st => branch show_dev c d st p).
Proof.
  intros Hd st st' Hnd Hpre Hrun. unfold branch in Hrun.
  destruct (then_ (put p c (line st)) (put (p + 1) "-"%char)) as [l| |];
    cbn [and_next] in Hrun; try discriminate Hrun.
  apply (Hdev d (p + 2) Hd (with_line l st) st'); assumption.
Qed.

Lemma show_devs_shows p : forall ds,
  NoDup ds -> (forall d, d ∈ ds -> D d) ->
  shows (fun y => exists d, d ∈ ds /\ Fd d y) (show_devs show_dev p ds).
Proof.
  induction ds as [|d ds IH]; intros Hnd HD.
  - eapply shows_ext; [|apply shows_nothing].
    + intros y. split; [contradiction|]. intros (d & Hd & _). inversion Hd.
    + intros st st' Hrun. simpl in Hrun. inversion Hrun. reflexivity.
  - apply NoDup_cons in Hnd as [Hd Hnd].
    assert (HDd : D d) by (apply HD; apply list_elem_of_here).
    cbn [show_devs]. destruct ds as [|d' ds].
    + eapply shows_ext; [|apply (branch_shows "\"%char d p HDd)].
      intros y. split.
      * intros Hy. exists d. split; [apply list_elem_of_here|exact Hy].
      * intros (d0 & Hd0 & Hy). apply list_elem_of_singleton in Hd0.
        subst d0. exact Hy.
    + eapply shows_ext;
        [|apply (shows_seq (Fd d)
                   (fun y => exists d0, d0 ∈ d' :: ds /\ Fd d0 y)
                   (fun st => branch show_dev "+"%char d st p)
                   (show_devs show_dev p (d' :: ds)))].
      * intros y. split.
        -- intros [Hy|(d0 & Hd0 & Hy)].
           ++ exists d. split; [apply list_elem_of_here|exact Hy].
           ++ exists d0. split; [apply list_elem_of_further; exact Hd0|exact Hy].
        -- intros (d0 & Hd0 & Hy). apply elem_of_cons in Hd0 as [->|Hd0].
           ++ left. exact Hy.
           ++ right. exists d0. auto.
      * apply branch_shows. exact HDd.
      * apply IH; [exact Hnd|]. intros d0 Hd0. apply HD.
        apply list_elem_of_further. exact Hd0.
      * intros y Hy (d0 & Hd0 & Hy0).
        apply (Hdisj d d0 y); try assumption.
        -- apply HD. apply list_elem_of_further. exact Hd0.
        -- intros ->. contradiction.
Qed.

Lemma show_tree_bus_shows u p :
  NoDup (bus_devs u) -> (forall d, d ∈ bus_devs u -> D d) ->
  shows (fun y => exists d, d ∈ bus_devs u /\ Fd d y)
    (fun st => show_tree_bus show_dev u st p).
Proof.
  intros Hnd HD. unfold show_tree_bus.
  destruct (bus_devs u) as [|d [|d' ds]] eqn:E.
  - eapply shows_ext; [|apply shows_nothing].
    + intros y. split; [contradiction|]. intros (d & Hd & _). inversion Hd.
    + intros st st' Hrun. inversion Hrun as [Hp].
      apply (print_it_shown st p st' Hp).
  - eapply shows_ext; [|apply (branch_shows "-"%char d p)].
    + intros y. split.
      * intros Hy. exists d. split; [apply list_elem_of_here|exact Hy].
      * intros (d0 & Hd0 & Hy). apply list_elem_of_singleton in Hd0.
        subst d0. exact Hy.
    + apply HD. apply list_elem_of_here.
  - apply show_devs_shows; assumption.
Qed.

Lemma labelled_shows lead u p :
  NoDup (bus_devs u) -> (forall d, d ∈ bus_devs u -> D d) ->
  shows (fun y => exists d, d ∈ bus_devs u /\ Fd d y)
    (fun st => labelled show_dev lead u st p).
Proof.
  intros Hnd HD st st' Hn Hpre Hrun. unfold labelled in Hrun.
  cbv zeta in Hrun.
  destruct (sprintf p (bus_label lead (bus_domain u) (number u)) (line st))
    as [l| |]; cbn [and_next] in Hrun; try discriminate Hrun.
  apply (show_tree_bus_shows u
           (p + len (bus_label lead (bus_domain u) (number u))) Hnd HD
           (with_line l st) st'); assumption.
Qed.

Lemma show_buses_shows p : forall us,
  NoDup (devs_of us) ->
  (forall u d, u ∈ us -> d ∈ bus_devs u -> D d) ->
  shows (fun y => exists u d, u ∈ us /\ d ∈ bus_devs u /\ Fd d y)
    (show_buses show_dev p us).
Proof.
  induction us as [|u us IH]; intros Hnd HD.
  - eapply shows_ext; [|apply shows_nothing].
    + intros y. split; [contradiction|]. intros (u & d & Hu & _). inversion Hu.
    + intros st st' Hrun. simpl in Hrun. inversion Hrun. reflexivity.
  - rewrite devs_of_cons in Hnd. apply NoDup_app in Hnd as (Hu & Hsep & Hnd).
    assert (HDu : forall d, d ∈ bus_devs u -> D d).
    { intros d. apply HD. apply list_elem_of_here. }
    cbn [show_buses]. destruct us as [|u' us].
    + eapply shows_ext; [|apply (labelled_shows "\-" u p Hu HDu)].
      intros y. split.
      * intros (d & Hd & Hy). exists u, d.
        split; [apply list_elem_of_here|auto].
      * intros (u0 & d & Hu0 & Hd & Hy). apply list_elem_of_singleton in Hu0.
        subst u0. exists d. auto.
    + eapply shows_ext;
        [|apply (shows_seq (fun y => exists d, d ∈ bus_devs u /\ Fd d y)
                   (fun y => exists u0 d, u0 ∈ u' :: us /\ d ∈ bus_devs u0
                                          /\ Fd d y)
                   (fun st => labelled show_dev "+-" u st p)
                   (show_buses show_dev p (u' :: us)))].
      * intros y. split.
        -- intros [(d & Hd & Hy)|(u0 & d & Hu0 & Hd & Hy)].
           ++ exists u, d. split; [apply list_elem_of_here|auto].
           ++ exists u0, d. split; [apply list_elem_of_further; exact Hu0|auto].
        -- intros (u0 & d & Hu0 & Hd & Hy).
           apply elem_of_cons in Hu0 as [->|Hu0].
           ++ left. exists d. auto.
           ++ right. exists u0, d. auto.
      * apply labelled_shows; assumption.
      * apply IH; [exact Hnd|]. intros u0 d Hu0. apply HD.
        apply list_elem_of_further. exact Hu0.
      * intros y (d & Hd & Hy) (u0 & d0 & Hu0 & Hd0 & Hy0).
        apply (Hdisj d d0 y); try assumption.
        -- apply HDu, Hd.
        -- apply (HD u0 d0); [apply list_elem_of_further; exact Hu0|exact Hd0].
        -- intros ->. apply (Hsep d0 Hd). unfold devs_of.
           apply list_elem_of_In, in_concat. exists (bus_devs u0).
           split; apply list_elem_of_In; [|exact Hd0].
           apply list_elem_of_fmap. exists u0. auto.
Qed.

Lemma show_tree_bridge_shows is_host b p :
  NoDup (devs_of (first_bus b)) ->
  (forall u d, u ∈ first_bus b -> d ∈ bus_devs u -> D d) ->
  shows (fun y => exists u d, u ∈ first_bus b /\ d ∈ bus_devs u /\ Fd d y)
    (fun st => show_tree_bridge show_dev is_host b st p).
Proof.
  intros Hnd HD st st' Hn Hpre Hrun. unfold show_tree_bridge in Hrun.
  destruct (put p "-"%char (line st)) as [l| |]; cbn [and_next] in Hrun;
    try discriminate Hrun.
  cbv zeta in Hrun.
  destruct (first_bus b) as [|u [|u' us]] eqn:E; [discriminate Hrun| |].
  - assert (Hu : NoDup (bus_devs u)).
    { rewrite devs_of_cons in Hnd. apply NoDup_app in Hnd as [Hu _].
      exact Hu. }
    assert (HDu : forall d, d ∈ bus_devs u -> D d).
    { intros d. apply HD. apply list_elem_of_here. }
    assert (Hone : shows (fun y => exists u0 d, u0 ∈ [u] /\ d ∈ bus_devs u0
                                                /\ Fd d y)
              (fun st => show_tree_bus show_dev u st
                           (if is_host
                            then p + 1 + len (bus_label "" (br_domain b)
                                                (number u))
                            else p + 1))).
    { eapply shows_ext; [|apply (show_tree_bus_shows u _ Hu HDu)].
      intros y. split.
      * intros (d & Hd & Hy). exists u, d.
        split; [apply list_elem_of_here|auto].
      * intros (u0 & d & Hu0 & Hd & Hy). apply list_elem_of_singleton in Hu0.
        subst u0. exists d. auto. }
    destruct is_host.
    + destruct (sprintf (p + 1) (bus_label "" (br_domain b) (number u)) l)
        as [l'| |]; cbn [and_next] in Hrun; try discriminate Hrun.
      apply (Hone (with_line l' (with_line l st)) st'); assumption.
    + apply (Hone (with_line l st) st'); assumption.
  - apply (show_buses_shows (p + 1) (u :: u' :: us) Hnd HD
             (with_line l st) st'); assumption.
Qed.

End Loops.

End ForestShown.

(** ** The way up from a device *)

Section ForestPaths.

Import Lspci.

Variable t : list bridge.
Variable reg : list device.
Hypothesis Hok : tree_ok t reg.

Lemma host_no_bridge d b : bridge_for t d = Some (O, b) -> False.
Proof.
  intros Hfor. apply bridge_for_Some in Hfor as [Hb Hbr].
  destruct Hok as (_ & _ & _ & (b0 & Hb0 & Hnone)).
  rewrite Hb0 in Hb. inversion Hb; subst b0. congruence.
Qed.

Lemma owner_unique a b i : on_bus t a i -> on_bus t b i -> a = b.
Proof. destruct Hok as [Hnd _]. apply on_bus_unique. exact Hnd. Qed.

(** The bridges above a bridge are given by the bridge. *)
Lemma chain_unique : forall r r' x,
  chain_up t (x :: r) -> chain_up t (x :: r') -> r = r'.
Proof.
  induction r as [|y r IH]; intros r' x Hc Hc'.
  - simpl in Hc. subst x. destruct r' as [|y' r']; [reflexivity|].
    destruct Hc' as [(b & d & Hfor & _) _].
    destruct (host_no_bridge d b Hfor).
  - destruct Hc as [(b & d & Hfor & Hon) Hrest].
    destruct r' as [|y' r'].
    + simpl in Hc'. subst x. destruct (host_no_bridge d b Hfor).
    + destruct Hc' as [(b' & d' & Hfor' & Hon') Hrest'].
      apply bridge_for_Some in Hfor as [Hb Hbr].
      apply bridge_for_Some in Hfor' as [Hb' Hbr'].
      rewrite Hb in Hb'. inversion Hb'; subst b'.
      rewrite Hbr in Hbr'. inversion Hbr'; subst d'.
      pose proof (owner_unique y y' d Hon Hon') as <-.
      f_equal. apply (IH r' y Hrest Hrest').
Qed.

Lemma path_unique d l l' : path_up t d l -> path_up t d l' -> l = l'.
Proof.
  intros (x & r & -> & Hon & Hc) (x' & r' & -> & Hon' & Hc').
  pose proof (owner_unique x x' d Hon Hon') as <-.
  f_equal. apply (chain_unique r r' x Hc Hc').
Qed.

Lemma chain_up_app pi : pi <> [] -> forall l,
  chain_up t (l ++ pi) -> chain_up t pi.
Proof.
  intros Hpi. induction l as [|x l IH]; intros Hc; [exact Hc|].
  apply IH. change ((x :: l) ++ pi) with (x :: (l ++ pi)) in Hc.
  destruct (l ++ pi) as [|y k] eqn:E.
  - destruct l; [simpl in E; contradiction|discriminate E].
  - destruct Hc as [_ Hrest]. exact Hrest.
Qed.

Lemma chain_up_last : forall l, chain_up t l -> exists l0, l = l0 ++ [O].
Proof.
  induction l as [|x l IH]; intros Hc; [contradiction|].
  destruct l as [|y l].
  - simpl in Hc. subst x. exists []. reflexivity.
  - destruct Hc as [_ Hrest]. destruct (IH Hrest) as [l0 E].
    exists (x :: l0). rewrite E. reflexivity.
Qed.

(** A device on a bus of a bridge does not stand below a device of that
    bridge. *)
Lemma under_self x r d ib :
  chain_up t (x :: r) -> on_bus t x d -> ~ under t (ib :: x :: r) d.
Proof.
  intros Hc Hon [l Hl].
  assert (Hp : path_up t d (x :: r)) by (exists x, r; auto).
  pose proof (path_unique d _ _ Hp Hl) as E.
  apply (f_equal length) in E. rewrite length_app in E. simpl in E. lia.
Qed.

Lemma under_step ib pi y : under t (ib :: pi) y -> under t pi y.
Proof.
  intros [l Hl]. exists (l ++ [ib]). rewrite <- app_assoc. exact Hl.
Qed.

(** The devices below a bridge are the devices on its buses and what
    stands below them. *)
Lemma under_buses x r b y :
  chain_up t (x :: r) -> t !! x = Some b ->
  under t (x :: r) y
  <-> exists u d, u ∈ first_bus b /\ d ∈ bus_devs u
                  /\ below_dev t (x :: r) d y.
Proof.
  intros Hc Hb. split.
  - intros [l Hl]. destruct l as [|z l _] using rev_ind.
    + destruct Hl as (x0 & r0 & E & (b' & u & Hb' & Hu & Hy) & _).
      inversion E; subst x0 r0. rewrite Hb in Hb'. inversion Hb'; subst b'.
      exists u, y. split; [exact Hu|]. split; [exact Hy|]. left. reflexivity.
    + rewrite <- app_assoc in Hl. simpl in Hl.
      pose proof Hl as (_ & _ & _ & _ & Hcl).
      apply (chain_up_app (z :: x :: r)) in Hcl; [|discriminate].
      destruct Hcl as [(bz & dz & Hfor & (b' & u & Hb' & Hu & Hdz)) _].
      rewrite Hb in Hb'. inversion Hb'; subst b'.
      exists u, dz. split; [exact Hu|]. split; [exact Hdz|]. right.
      exists z, bz. split; [exact Hfor|]. exists l. exact Hl.
  - intros (u & d & Hu & Hd & [->|(ib & bb & Hfor & Hun)]).
    + exists []. exists x, r. split; [reflexivity|]. split; [|exact Hc].
      exists b, u. auto.
    + apply (under_step ib). exact Hun.
Qed.

(** Two devices of a bridge have nothing in common below them. *)
Lemma below_dev_disjoint x r d d' y :
  chain_up t (x :: r) -> on_bus t x d -> on_bus t x d' -> d <> d' ->
  below_dev t (x :: r) d y -> below_dev t (x :: r) d' y -> False.
Proof.
  intros Hc Hon Hon' Hne [->|(ib & b & Hfor & Hun)]
    [->|(ib' & b' & Hfor' & Hun')].
  - contradiction.
  - apply (under_self x r d ib' Hc Hon Hun').
  - apply (under_self x r d' ib Hc Hon' Hun).
  - destruct Hun as [l Hl]. destruct Hun' as [l' Hl'].
    pose proof (path_unique y _ _ Hl Hl') as E.
    apply app_inj_2 in E as [_ E]; [|reflexivity].
    inversion E; subst ib'.
    apply bridge_for_Some in Hfor as [Hb Hbr].
    apply bridge_for_Some in Hfor' as [Hb' Hbr'].
    rewrite Hb in Hb'. inversion Hb'; subst b'. congruence.
Qed.

Lemma NoDup_concat_part {A} (ls : list (list A)) l :
  NoDup (concat ls) -> l ∈ ls -> NoDup l.
Proof.
  induction ls as [|l0 ls IH]; intros Hnd Hl; [inversion Hl|].
  simpl in Hnd. apply NoDup_app in Hnd as (H0 & _ & Hrest).
  apply elem_of_cons in Hl as [->|Hl]; [exact H0|apply IH; assumption].
Qed.

Lemma bridge_devs_NoDup ib b :
  t !! ib = Some b -> NoDup (devs_of (first_bus b)).
Proof.
  intros Hb. destruct Hok as [Hnd _]. rewrite devs_buses in Hnd.
  apply (NoDup_concat_part _ _ Hnd). apply list_elem_of_fmap.
  exists b. split; [reflexivity|]. eapply list_elem_of_lookup_2. exact Hb.
Qed.

Variable verbose : Z.
Variable names : pci_dev -> string.

(** [show_tree_dev] shows the device and what stands below it. *)
Lemma show_tree_dev_shows : forall fuel x r d p,
  chain_up t (x :: r) -> on_bus t x d ->
  shows (below_dev t (x :: r) d)
    (fun st => show_tree_dev t reg verbose names fuel d st p).
Proof.
  induction fuel as [|f IH]; intros x r d p Hc Hon st st' Hnd Hpre Hrun;
    [discriminate Hrun|].
  rewrite show_tree_dev_S in Hrun.
  destruct (reg !! d) as [dv|]; [|discriminate Hrun].
  cbv zeta in Hrun.
  match type of Hrun with
  | and_next ?x _ = _ => destruct x as [l| |]
  end; cbn [and_next] in Hrun; try discriminate Hrun.
  change (list_find (fun b => bool_decide (br_dev b = Some d)) t)
    with (bridge_for t d) in Hrun.
  assert (Hfresh : d ∉ shown st).
  { intros Hd. apply (Hpre d Hd). left. reflexivity. }
  assert (Hnd1 : NoDup (shown st ++ [d])).
  { apply NoDup_app. split; [exact Hnd|]. split; [|apply NoDup_singleton].
    intros y Hy Hyd. apply list_elem_of_singleton in Hyd. subst y.
    contradiction. }
  destruct (bridge_for t d) as [[ib b]|] eqn:Ef.
  - match type of Hrun with
    | and_next ?x _ = _ => destruct x as [l2| |]
    end; cbn [and_next] in Hrun; try discriminate Hrun.
    pose proof (bridge_for_Some t d ib b Ef) as [Hb Hbr].
    assert (Hc' : chain_up t (ib :: x :: r)).
    { split; [|exact Hc]. exists b, d. auto. }
    assert (Hbelow : exists new,
              shown st' = (shown st ++ [d]) ++ new /\ NoDup new
              /\ forall y, y ∈ new
                    <-> exists u d0, u ∈ first_bus b /\ d0 ∈ bus_devs u
                                     /\ below_dev t (ib :: x :: r) d0 y).
    { match type of Hrun with
      | show_tree_bridge _ _ _ ?s ?q = _ =>
          apply (show_tree_bridge_shows
                   (show_tree_dev t reg verbose names f)
                   (on_bus t ib) (below_dev t (ib :: x :: r))
                   (fun d0 p0 H0 => IH ib (x :: r) d0 p0 Hc' H0)
                   (fun d0 d1 y H0 H1 =>
                      below_dev_disjoint ib (x :: r) d0 d1 y Hc' H0 H1)
                   (ib =? 0)%nat b q (bridge_devs_NoDup ib b Hb)
                   (fun u d0 Hu Hd0 =>
                      ex_intro _ b (ex_intro _ u (conj Hb (conj Hu Hd0))))
                   s st' Hnd1); [|exact Hrun]
      end.
      intros y Hy Hex. apply (under_buses ib (x :: r) b y Hc' Hb) in Hex.
      cbn [shown with_line] in Hy.
      apply elem_of_app in Hy as [Hy|Hy].
      - apply (Hpre y Hy). right. exists ib, b. auto.
      - apply list_elem_of_singleton in Hy. subst y.
        apply (under_self x r d ib Hc Hon Hex). }
    destruct Hbelow as (new & Hs & Hn & Hin).
    exists (d :: new).
    split; [rewrite Hs, <- app_assoc; reflexivity|].
    assert (Hd_new : d ∉ new).
    { intros Hd. apply Hin, (under_buses ib (x :: r) b d Hc' Hb) in Hd.
      apply (under_self x r d ib Hc Hon Hd). }
    split; [constructor; assumption|].
    intros y. rewrite elem_of_cons, Hin.
    rewrite <- (under_buses ib (x :: r) b y Hc' Hb). unfold below_dev.
    split.
    + intros [->|Hun]; [left; reflexivity|]. right. exists ib, b. auto.
    + intros [->|(ib' & b' & Hfor' & Hun)]; [left; reflexivity|]. right.
      rewrite Ef in Hfor'. inversion Hfor'; subst ib' b'. exact Hun.
  - assert (Hshown : shown st' = shown st ++ [d]).
    { destruct (negb (verbose =? 0)).
      - inversion Hrun as [Hr]. clear Hrun.
        match type of Hr with
        | then_ ?x _ = _ => destruct x as [l3| |]
        end; cbn [then_] in Hr; try discriminate Hr.
        apply print_it_shown in Hr. exact Hr.
      - inversion Hrun as [Hr]. apply print_it_shown in Hr. exact Hr. }
    exists [d]. split; [exact Hshown|]. split; [apply NoDup_singleton|].
    intros y. rewrite list_elem_of_singleton. unfold below_dev. split.
    + intros ->. left. reflexivity.
    + intros [->|(ib & b & Hfor & _)]; [reflexivity|].
      rewrite Ef in Hfor. discriminate Hfor.
Qed.

End ForestPaths.

(** X30.  [show_forest] ends on every registry, although a device can
    stand on a bus of its own bridge: on the way down no bridge is passed
    twice, so the recursion of [show_tree_dev] through [show_tree_bridge]
    is no deeper than the chain is long.  It never follows a null
    [first_bus]; what can go wrong is a write beyond [line[256]].  When
    the output is complete, it has shown no device twice, and the devices
    shown are those from which the host bridge is reached by going from a
    device to the bridge that owns its bus and from a bridge to the
    device it was made of: every other device of the registry is left
    out of the tree. *)
Theorem show_forest_shows_each_reachable_device_once
    (H : header_h) (reg : list Lspci.device) (verbose : Z)
    (names : pci_dev -> string) (line0 : list ascii) :
  exists t r,
    Lspci.grow_tree H reg = Some t
    /\ Lspci.show_forest H reg verbose names line0 = Some r
    /\ r <> Lspci.BadPointer
    /\ forall st, r = Lspci.Fine st ->
         NoDup (Lspci.shown st)
         /\ forall d, d ∈ Lspci.shown st <-> exists l, path_up t d l.
Proof.
  destruct (grow_tree_spec H reg) as (t & Ht & _).
  pose proof (grow_tree_ok H reg t Ht) as Hok.
  pose proof Hok as (_ & _ & Hbus & (b0 & Hb0 & _)).
  assert (Hc0 : chain_up t [O]) by reflexivity.
  assert (HD : forall u d, u ∈ Lspci.first_bus b0 -> d ∈ Lspci.bus_devs u ->
                 on_bus t O d).
  { intros u d Hu Hd. exists b0, u. auto. }
  assert (Hends : ends_ok
            (Lspci.show_tree_bridge
               (Lspci.show_tree_dev t reg verbose names (length t)) true b0
               {| Lspci.line := line0; Lspci.printed := [];
                  Lspci.shown := [] |} 0)).
  { apply show_tree_bridge_ok.
    - rewrite list.Forall_forall in Hbus. apply Hbus.
      eapply list_elem_of_lookup_2. exact Hb0.
    - intros u d st' p' Hu Hd.
      apply (show_tree_dev_ends t reg verbose names Hok (length t) O []
               d st' p').
      + exact Hc0.
      + apply NoDup_singleton.
      + constructor; [|constructor]. apply lookup_lt_Some in Hb0. exact Hb0.
      + apply (HD u d Hu Hd).
      + simpl. lia. }
  destruct Hends as (r & Hr & Hbad). exists t, r.
  split; [exact Ht|].
  split; [unfold Lspci.show_forest; rewrite Ht, Hb0; exact Hr|].
  split; [exact Hbad|]. intros st ->.
  destruct (show_tree_bridge_shows
              (Lspci.show_tree_dev t reg verbose names (length t))
              (on_bus t O) (below_dev t [O])
              (fun d0 p0 H0 =>
                 show_tree_dev_shows t reg Hok verbose names (length t) O []
                   d0 p0 Hc0 H0)
              (fun d0 d1 y H0 H1 =>
                 below_dev_disjoint t reg Hok O [] d0 d1 y Hc0 H0 H1)
              true b0 0 (bridge_devs_NoDup t reg Hok O b0 Hb0) HD
              {| Lspci.line := line0; Lspci.printed := [];
                 Lspci.shown := [] |} st)
    as (new & Hs & Hn & Hin).
  - constructor.
  - intros y Hy. inversion Hy.
  - exact Hr.
  - simpl in Hs. rewrite Hs. split; [exact Hn|]. intros d.
    rewrite Hin, <- (under_buses t O [] b0 d Hc0 Hb0). split.
    + intros [l Hl]. exists (l ++ [O]). exact Hl.
    + intros [l Hl]. pose proof Hl as (_ & _ & _ & _ & Hc).
      destruct (chain_up_last t l Hc) as [l0 ->]. exists l0. exact Hl.
Qed.

(** The tree of a bridge with one device behind it and one beside it. *)
Example show_forest_one_bridge :
  (fun r => match r with
            | Lspci.Fine st => Some (Lspci.printed st, Lspci.shown st)
            | _ => None
            end)
    <$> Lspci.show_forest sample_header registry_one_bridge 0
          (fun _ => "") (replicate 256 "000"%char)
  = Some (Some (["-[0000:00]-+-01.0-[0000:01]----00.0" +:+ String "010" "";
                 "           \-03.0" +:+ String "010" ""],
                [O; 2%nat; 1%nat])).
Proof. vm_compute. reflexivity. Qed.

(** A bridge that stands on the bus it leads to is left out of the tree,
    with the device beside it. *)
Example show_forest_leaves_out :
  (fun r => match r with
            | Lspci.Fine st => Some (Lspci.printed st, Lspci.shown st)
            | _ => None
            end)
    <$> Lspci.show_forest sample_header registry_self 0
          (fun _ => "") (replicate 256 "000"%char)
  = Some (Some (["-[0000:00]---00.0" +:+ String "010" ""], [O])).
Proof. vm_compute. reflexivity. Qed.

(** Thirteen bridges behind one another fit the line; with fourteen the
    output writes beyond [line[256]]. *)
Example show_forest_deep :
  (fun r => match r with Lspci.Fine _ => true | _ => false end)
    <$> Lspci.show_forest sample_header (deep_registry 13) 0
          (fun _ => "") (replicate 256 "000"%char) = Some true
  /\ Lspci.show_forest sample_header (deep_registry 14) 0
       (fun _ => "") (replicate 256 "000"%char) = Some Lspci.PastLine.
Proof. vm_compute. auto. Qed.
